(** * RA Modular Logic Generator: a shallow embedding and its properties

    The JavaScript sources are embedded function by function.  Strings are
    [string] values over 8-bit characters (the grammar of the tool is pure
    ASCII); arrays are lists; objects are records; the [Map] of open
    expansions is a [gmap] keyed by line id.  Regular expressions are
    unfolded into the scanners they denote: each scanner documents the
    expression it stands for.

    Part I holds the embedding, Part II the statements and proofs. *)

From Stdlib Require Import ZArith Ascii String List Bool Lia.
From stdpp Require Import base strings list gmap.

Local Open Scope Z_scope.

(* ====================================================================== *)
(** * Part I.  The embedding                                               *)
(* ====================================================================== *)

(** ** JavaScript string primitives *)

Module JS.

Definition code (c : ascii) : N := N_of_ascii c.

Definition inRange (lo hi c : ascii) : bool :=
  (code lo <=? code c)%N && (code c <=? code hi)%N.

Definition isDigit (c : ascii) : bool := inRange "0" "9" c.
Definition isUpper (c : ascii) : bool := inRange "A" "Z" c.
Definition isLower (c : ascii) : bool := inRange "a" "z" c.
Definition isLetter (c : ascii) : bool := isUpper c || isLower c.

(** [\w] *)
Definition isWordChar (c : ascii) : bool :=
  isDigit c || isLetter c || Ascii.eqb c "_".

(** [[0-9A-Fa-f]] and [[0-9A-F]] *)
Definition isHexDigit (c : ascii) : bool :=
  isDigit c || inRange "A" "F" c || inRange "a" "f" c.
Definition isUpperHexDigit (c : ascii) : bool :=
  isDigit c || inRange "A" "F" c.

(** White space removed by [String.prototype.trim] (ASCII part). *)
Definition isSpace (c : ascii) : bool :=
  ((code c =? 32) || ((9 <=? code c) && (code c <=? 13)))%N.

Fixpoint trimStart (s : string) : string :=
  match s with
  | String c s' => if isSpace c then trimStart s' else s
  | EmptyString => EmptyString
  end.

Fixpoint trimEnd (s : string) : string :=
  match s with
  | EmptyString => EmptyString
  | String c s' =>
      match trimEnd s' with
      | EmptyString => if isSpace c then EmptyString else String c EmptyString
      | t => String c t
      end
  end.

Definition trim (s : string) : string := trimEnd (trimStart s).

(** Truthiness of a string: the empty string is falsy. *)
Definition truthy (s : string) : bool :=
  match s with EmptyString => false | _ => true end.

Definition startsWith (p s : string) : bool := String.prefix p s.

Fixpoint dropChars (n : nat) (s : string) : string :=
  match n, s with
  | O, _ => s
  | S k, String _ s' => dropChars k s'
  | S _, EmptyString => EmptyString
  end.

Fixpoint takeChars (n : nat) (s : string) : string :=
  match n, s with
  | S k, String c s' => String c (takeChars k s')
  | _, _ => EmptyString
  end.

(** [s.slice(0, -n)] for [0 < n]. *)
Definition dropLast (n : nat) (s : string) : string :=
  takeChars (String.length s - n) s.

Definition upperChar (c : ascii) : ascii :=
  if isLower c then ascii_of_N (code c - 32) else c.

Fixpoint toUpperCase (s : string) : string :=
  match s with
  | EmptyString => EmptyString
  | String c s' => String (upperChar c) (toUpperCase s')
  end.

(** [lines.join(sep)] *)
Fixpoint join (sep : string) (l : list string) : string :=
  match l with
  | [] => EmptyString
  | [x] => x
  | x :: tl => x +:+ sep +:+ join sep tl
  end.

(** [s.split(c)] for a one-character separator: never the empty list. *)
Fixpoint split (sep : ascii) (s : string) : list string :=
  match s with
  | EmptyString => [EmptyString]
  | String c s' =>
      if Ascii.eqb c sep then EmptyString :: split sep s'
      else match split sep s' with
           | x :: tl => String c x :: tl
           | [] => [String c EmptyString]
           end
  end.

(** [s.replace(p, r)] with a string pattern: first occurrence only. *)
Fixpoint replaceFirst (p r s : string) : string :=
  if String.prefix p s then r +:+ dropChars (String.length p) s
  else match s with
       | EmptyString => EmptyString
       | String c s' => String c (replaceFirst p r s')
       end.

(** [arr.slice(start, start + len)] *)
Definition slice {A} (start len : nat) (l : list A) : list A :=
  take len (drop start l).

(** *** Global replacement with the regular expressions the sources use

    Every expression passed to [replace] with the [g] flag has the shape
    [\b? literal (?![c])?]: an optional word boundary, a literal and an
    optional negative look-ahead on one character. *)
Record Pattern := {
  wordBoundary : bool;
  literal : string;
  notFollowedBy : option ascii
}.

Definition isWordOpt (o : option ascii) : bool :=
  match o with Some c => isWordChar c | None => false end.

Definition headChar (s : string) : option ascii :=
  match s with String c _ => Some c | EmptyString => None end.

(** Does [p] match at the current position, [prev] being the character
    before it in the subject string? *)
Definition matchesAt (p : Pattern) (prev : option ascii) (s : string) : bool :=
  (if wordBoundary p then xorb (isWordOpt prev) (isWordOpt (headChar s)) else true)
  && String.prefix (literal p) s
  && match notFollowedBy p, headChar (dropChars (String.length (literal p)) s) with
     | Some x, Some c => negb (Ascii.eqb c x)
     | _, _ => true
     end.

(** The scan of [s.replace(/p/g, rep)]: matches are looked for from left to
    right in the subject string, a match consumes its characters ([skip]
    counts those still to be dropped) and the search resumes after it. *)
Fixpoint replaceFrom (p : Pattern) (rep : string) (prev : option ascii)
    (skip : nat) (s : string) : string :=
  match s with
  | EmptyString => EmptyString
  | String c s' =>
      match skip with
      | S k => replaceFrom p rep (Some c) k s'
      | O =>
          if matchesAt p prev s
          then rep +:+ replaceFrom p rep (Some c) (String.length (literal p) - 1) s'
          else String c (replaceFrom p rep (Some c) 0 s')
      end
  end.

Definition replaceAll (p : Pattern) (rep : string) (s : string) : string :=
  replaceFrom p rep None 0 s.

(** [s.replace(/^p/, rep)] *)
Definition replaceAtStart (p rep s : string) : string :=
  if String.prefix p s then rep +:+ dropChars (String.length p) s else s.

(** [s.replace(/_$/, '')] *)
Fixpoint dropTrailingUnderscore (s : string) : string :=
  match s with
  | EmptyString => EmptyString
  | String c EmptyString => if Ascii.eqb c "_" then EmptyString else s
  | String c s' => String c (dropTrailingUnderscore s')
  end.

(** [line.match(/^([A-Z]:)/)]: the flag token, when the line has one. *)
Definition matchFlag (s : string) : option string :=
  match s with
  | String c (String d _) =>
      if isUpper c && Ascii.eqb d ":"
      then Some (String c (String ":" EmptyString)) else None
  | _ => None
  end.

End JS.

(** ** Data model (core-constants.js, bitfield-operations.js) *)

Inductive OperandType :=
  Mem | Value | Delta | Prior | BCD | Float | Invert | Recall.

Global Instance OperandType_eq_dec : EqDecision OperandType.
Proof. solve_decision. Defined.

(** The fields of a condition the text grammar carries: what
    [parseLineToCondition] returns and [convertBitfieldConditionToText]
    reads. *)
Record Predicate := {
  flag : string;
  type : OperandType;
  size : string;
  memory : string;
  cmp : string;
  compareType : OperandType;
  compareSize : string;
  value : string;
  hits : string
}.

(** An element of [bitfieldConditions]. *)
Record Condition := {
  lineId : Z;
  groupId : Z;
  pred : Predicate;
  bytes : string;
  expanded : bool;
  expandedLines : list string
}.

(** ** core-constants.js *)

Definition sizePrefixMap : list (string * string) :=
  [("M", "Bit0"); ("N", "Bit1"); ("O", "Bit2"); ("P", "Bit3"); ("Q", "Bit4");
   ("R", "Bit5"); ("S", "Bit6"); ("T", "Bit7"); ("L", "Lower4"); ("U", "Upper4");
   ("H", "8-bit"); ("W", "24-bit"); ("X", "32-bit"); ("I", "16-bit BE");
   ("J", "24-bit BE"); ("G", "32-bit BE"); ("K", "BitCount"); ("fF", "Float");
   ("fB", "Float BE"); ("fH", "Double32"); ("fI", "Double32 BE"); ("fM", "MBF32");
   ("fL", "MBF32 LE"); ("", "16-bit")].

Definition sizePrefixOrder : list string :=
  ["fF"; "fB"; "fH"; "fI"; "fM"; "fL"; "M"; "N"; "O"; "P"; "Q"; "R"; "S"; "T";
   "L"; "U"; "H"; "W"; "X"; "I"; "J"; "G"; "K"].

Definition sizeMapForText : list (string * string) :=
  [("Bit0", "M"); ("Bit1", "N"); ("Bit2", "O"); ("Bit3", "P"); ("Bit4", "Q");
   ("Bit5", "R"); ("Bit6", "S"); ("Bit7", "T"); ("Lower4", "L"); ("Upper4", "U");
   ("8-bit", "H"); ("16-bit", ""); ("24-bit", "W"); ("32-bit", "X");
   ("16-bit BE", "I"); ("24-bit BE", "J"); ("32-bit BE", "G"); ("BitCount", "K");
   ("Float", "fF"); ("Float BE", "fB"); ("Double32", "fH"); ("Double32 BE", "fI");
   ("MBF32", "fM"); ("MBF32 LE", "fL")].

Definition OPERAND_FLAGS : list string := ["A:"; "B:"; "I:"; "K:"].

(** [table[key]]: [None] stands for [undefined]. *)
Fixpoint property (table : list (string * string)) (key : string) : option string :=
  match table with
  | [] => None
  | (k, v) :: tl => if String.eqb k key then Some v else property tl key
  end.

(** [table[key] || fallback]: the empty string is falsy too. *)
Definition propertyOr (table : list (string * string)) (key fallback : string)
    : string :=
  match property table key with
  | Some v => if JS.truthy v then v else fallback
  | None => fallback
  end.

Definition includes (l : list string) (x : string) : bool :=
  existsb (String.eqb x) l.

(** ** parsing.js *)

(** The object [{ type, size, memory }] an operand token parses to. *)
Record Operand := {
  o_type : OperandType;
  o_size : string;
  o_memory : string
}.

(** The first candidate of [sizePrefixOrder] the body starts with. *)
Fixpoint firstPrefix (candidates : list string) (body : string) : string :=
  match candidates with
  | [] => EmptyString
  | candidate :: tl =>
      if JS.startsWith candidate body then candidate else firstPrefix tl body
  end.

Definition parseMemoryToken (token : string) : string * string :=
  let body := JS.dropChars 2 token in
  let prefix := firstPrefix sizePrefixOrder body in
  let body := JS.dropChars (String.length prefix) body in
  let size := propertyOr sizePrefixMap prefix "16-bit" in
  (size, "0x" +:+ JS.toUpperCase body).

Definition parseOperandToken (token : string) : Operand :=
  let trimmed := JS.trim token in
  if JS.startsWith "{recall}" trimmed
  then {| o_type := Recall; o_size := ""; o_memory := "" |}
  else
    let '(type, rest) :=
      match trimmed with
      | String c rest' =>
          if Ascii.eqb c "d" then (Delta, rest')
          else if Ascii.eqb c "p" then (Prior, rest')
          else if Ascii.eqb c "b" then (BCD, rest')
          else if Ascii.eqb c "~" then (Invert, rest')
          else (Mem, trimmed)
      | EmptyString => (Mem, trimmed)
      end in
    if JS.startsWith "{recall}" rest
    then {| o_type := Recall; o_size := ""; o_memory := "" |}
    else if JS.startsWith "0x" rest
    then let '(size, memory) := parseMemoryToken rest in
         {| o_type := type; o_size := size; o_memory := memory |}
    else {| o_type := Value; o_size := "8-bit"; o_memory := trimmed |}.

(** Greedy [\d+]: the digits taken and what follows. *)
Fixpoint spanDigits (s : string) : string * string :=
  match s with
  | String c s' =>
      if JS.isDigit c
      then let '(d, r) := spanDigits s' in (String c d, r)
      else (EmptyString, s)
  | EmptyString => (EmptyString, EmptyString)
  end.

(** Greedy [[0-9A-Fa-f]+]. *)
Fixpoint spanHex (s : string) : string * string :=
  match s with
  | String c s' =>
      if JS.isHexDigit c
      then let '(d, r) := spanHex s' in (String c d, r)
      else (EmptyString, s)
  | EmptyString => (EmptyString, EmptyString)
  end.

(** [working.match(/\.(\d+)\.$/)]: the leftmost position where a dot, one
    or more digits, a dot and the end of the string follow.  The result is
    the captured digits and the length of the whole match. *)
Fixpoint matchHits (s : string) : option (string * nat) :=
  match s with
  | EmptyString => None
  | String c s' =>
      let here :=
        if Ascii.eqb c "." then
          match spanDigits s' with
          | (String d ds, String e EmptyString) =>
              if Ascii.eqb e "." then Some (String d ds, String.length s) else None
          | _ => None
          end
        else None in
      match here with
      | Some r => Some r
      | None => matchHits s'
      end
  end.

(** [[0-9A-Fa-f]+] after [k] characters of [[a-zA-Z]]: the matched text. *)
Definition lettersThenHex (k : nat) (s : string) : option string :=
  let letters := JS.takeChars k s in
  if Nat.eqb (String.length letters) k
     && forallb JS.isLetter (list_ascii_of_string letters)
  then match spanHex (JS.dropChars k s) with
       | (EmptyString, _) => None
       | (h, _) => Some (letters +:+ h)
       end
  else None.

(** [0x[a-zA-Z]{0,2}[0-9A-Fa-f]+]: the quantifier is greedy, two letters
    are tried before one and one before none. *)
Definition matchAddressBody (s : string) : option string :=
  if JS.startsWith "0x" s then
    let r := JS.dropChars 2 s in
    match lettersThenHex 2 r with
    | Some t => Some ("0x" +:+ t)
    | None =>
        match lettersThenHex 1 r with
        | Some t => Some ("0x" +:+ t)
        | None =>
            match lettersThenHex 0 r with
            | Some t => Some ("0x" +:+ t)
            | None => None
            end
        end
    end
  else None.

(** [[dpb~]?0x[a-zA-Z]{0,2}[0-9A-Fa-f]+] *)
Definition matchAddress (s : string) : option string :=
  match s with
  | String c s' =>
      if existsb (Ascii.eqb c) ["d"; "p"; "b"; "~"]%char
      then match matchAddressBody s' with
           | Some t => Some (String c t)
           | None => matchAddressBody s
           end
      else matchAddressBody s
  | EmptyString => None
  end.

(** [-?\d+] *)
Definition matchInteger (s : string) : option string :=
  let digitsOf (r : string) : option string :=
    match spanDigits r with
    | (EmptyString, _) => None
    | (d, _) => Some d
    end in
  match s with
  | String c s' =>
      if Ascii.eqb c "-"
      then match digitsOf s' with
           | Some d => Some (String c d)
           | None => None
           end
      else digitsOf s
  | EmptyString => None
  end.

(** [working.match(/^(\{recall\}|[dpb~]?0x[a-zA-Z]{0,2}[0-9A-Fa-f]+|-?\d+)/)] *)
Definition matchLeftOperand (s : string) : option string :=
  if JS.startsWith "{recall}" s then Some "{recall}"
  else match matchAddress s with
       | Some t => Some t
       | None => matchInteger s
       end.

(** [remaining.match(/^([*\/%+\-&\^])/)] *)
Definition matchOperator (s : string) : option string :=
  match s with
  | String c _ =>
      if existsb (Ascii.eqb c) ["*"; "/"; "%"; "+"; "-"; "&"; "^"]%char
      then Some (String c EmptyString) else None
  | EmptyString => None
  end.

(** [remaining.match(/^(<=|>=|!=|=|<|>)/)] *)
Definition matchComparator (s : string) : option string :=
  List.find (fun c => JS.startsWith c s) ["<="; ">="; "!="; "="; "<"; ">"].

Definition parseLineToCondition (line : string) : option Predicate :=
  let trimmedLine := JS.trim line in
  if negb (JS.truthy trimmedLine) then None
  else
    let '(hits, working) :=
      match matchHits trimmedLine with
      | Some (h, n) => (h, JS.dropLast n trimmedLine)
      | None => (EmptyString, trimmedLine)
      end in
    let '(flag, working) :=
      match JS.matchFlag working with
      | Some f => (f, JS.dropChars (String.length f) working)
      | None => (EmptyString, working)
      end in
    let isOperandFlag := includes OPERAND_FLAGS flag in
    match matchLeftOperand working with
    | None => None
    | Some leftToken =>
        let working := JS.dropChars (String.length leftToken) working in
        let '(cmp, rightToken) :=
          if JS.truthy (JS.trim working) then
            let remaining := JS.trim working in
            let cmpMatch :=
              if isOperandFlag then matchOperator remaining
              else matchComparator remaining in
            let '(cmp, remaining) :=
              match cmpMatch with
              | Some c => (c, JS.dropChars (String.length c) remaining)
              | None => if negb isOperandFlag then ("=", remaining)
                        else (EmptyString, remaining)
              end in
            if JS.truthy cmp then (cmp, JS.trim remaining)
            else (cmp, EmptyString)
          else (EmptyString, EmptyString) in
        let cmp :=
          if negb isOperandFlag && String.eqb cmp "" then "=" else cmp in
        let left := parseOperandToken leftToken in
        let right :=
          if JS.truthy rightToken then Some (parseOperandToken rightToken)
          else None in
        Some {| flag := flag;
                type := o_type left;
                size := o_size left;
                memory := o_memory left;
                cmp := cmp;
                compareType := match right with Some r => o_type r | None => Value end;
                compareSize := match right with Some r => o_size r | None => "8-bit" end;
                value := match right with Some r => o_memory r | None => "0" end;
                hits := if isOperandFlag then EmptyString else hits |}
    end.

(** ** expansion-system.js: the serializer *)

Definition typePrefixOf (t : OperandType) : string :=
  match t with
  | Delta => "d"
  | Prior => "p"
  | BCD => "b"
  | Invert => "~"
  | _ => EmptyString
  end.

(** [m.startsWith('0x') ? m.replace('0x', '0x' + (sizeMapForText[size] || '')) : m] *)
Definition withSizePrefix (m size : string) : string :=
  if JS.startsWith "0x" m
  then JS.replaceFirst "0x" ("0x" +:+ propertyOr sizeMapForText size "") m
  else m.

Definition convertBitfieldConditionToText (condition : Predicate) : string :=
  let text := EmptyString in
  let text := if JS.truthy (flag condition) then text +:+ flag condition else text in
  let text := text +:+ typePrefixOf (type condition) in
  let text :=
    match type condition with
    | Value => text +:+ memory condition
    | _ => text +:+ withSizePrefix (memory condition) (size condition)
    end in
  let text :=
    if JS.truthy (cmp condition) then
      let text := text +:+ cmp condition in
      match compareType condition with
      | Recall => text +:+ "{recall}"
      | Value => text +:+ value condition
      | t => text +:+ typePrefixOf t
               +:+ withSizePrefix (value condition) (compareSize condition)
      end
    else text in
  if JS.truthy (hits condition) && negb (String.eqb (hits condition) "0")
  then text +:+ "." +:+ hits condition +:+ "."
  else text.

(** ** delta-mem-check.js *)

Definition re_0xH : JS.Pattern :=          (* /\b0xH/g *)
  {| JS.wordBoundary := true; JS.literal := "0xH"; JS.notFollowedBy := None |}.
Definition re_0x_not_d : JS.Pattern :=     (* /\b0x(?![d])/g *)
  {| JS.wordBoundary := true; JS.literal := "0x"; JS.notFollowedBy := Some "d"%char |}.
Definition re_d0xH : JS.Pattern :=         (* /\bd0xH/g *)
  {| JS.wordBoundary := true; JS.literal := "d0xH"; JS.notFollowedBy := None |}.
Definition re_d0x_not_H : JS.Pattern :=    (* /\bd0x(?![H])/g *)
  {| JS.wordBoundary := true; JS.literal := "d0x"; JS.notFollowedBy := Some "H"%char |}.

Definition plain (lit : string) : JS.Pattern :=
  {| JS.wordBoundary := false; JS.literal := lit; JS.notFollowedBy := None |}.

Definition isDeltaOrMem (t : OperandType) : bool :=
  match t with Delta | Mem => true | _ => false end.

(** [line.replace(/\b0xH/g, 'd0xH').replace(/\b0x(?![d])/g, 'd0x')] *)
Definition toDeltaLine (line : string) : string :=
  JS.replaceAll re_0x_not_d "d0x" (JS.replaceAll re_0xH "d0xH" line).

(** [line.replace(/\bd0xH/g, '0xH').replace(/\bd0x(?![H])/g, '0x')] *)
Definition toMemLine (line : string) : string :=
  JS.replaceAll re_d0x_not_H "0x" (JS.replaceAll re_d0xH "0xH" line).

(** One turn of the [forEach] of [applyDeltaMemCheck]: the state is the
    pair of arrays [deltaLines], [memLines]. *)
Definition deltaMemStep (acc : list string * list string) (line : string)
    : list string * list string :=
  let '(deltaLines, memLines) := acc in
  if JS.startsWith "I:" line
  then (deltaLines ++ [line], memLines ++ [line])
  else (deltaLines ++ [toDeltaLine line], memLines ++ [toMemLine line]).

Definition applyDeltaMemCheck (condition : Predicate) (expandedLines : list string)
    : list string :=
  let leftIsDeltaOrMem := isDeltaOrMem (type condition) in
  let rightIsDeltaOrMem := isDeltaOrMem (compareType condition) in
  if negb leftIsDeltaOrMem && negb rightIsDeltaOrMem then expandedLines
  else
    let '(deltaLines, memLines) := fold_left deltaMemStep expandedLines ([], []) in
    let '(deltaLines, memLines) :=
      if String.eqb (flag condition) "A:" || String.eqb (flag condition) "B:"
      then (deltaLines ++ ["0=0"], memLines ++ ["0=0"])
      else (deltaLines, memLines) in
    deltaLines ++ memLines.

(** The six replacements under "Invert comparisons", in source order. *)
Definition invertComparisons (line : string) : string :=
  let line := JS.replaceAll (plain "=") "!=" line in
  let line := JS.replaceAll (plain "!=") "=" line in
  let line := JS.replaceAll (plain ">") "<=" line in
  let line := JS.replaceAll (plain "<=") ">" line in
  let line := JS.replaceAll (plain "<") ">=" line in
  JS.replaceAll (plain ">=") "<" line.

(** The two chained replacements under "Swap Mem <-> Delta types". *)
Definition swapMemDelta (line : string) : string :=
  toMemLine (toDeltaLine line).

Definition toAndNextLine (isLastLine : bool) (line : string) : string :=
  if isLastLine then line
  else invertComparisons (swapMemDelta (JS.replaceAtStart "O:" "N:" line)).

Definition toOrNextLine (isLastLine : bool) (line : string) : string :=
  if isLastLine then line
  else invertComparisons (swapMemDelta (JS.replaceAtStart "N:" "O:" line)).

(** One turn of the [forEach((line, index) => ...)] of
    [applyAndOrNextCheck]; [n] is [expandedLines.length]. *)
Definition andOrNextStep (n : nat) (acc : nat * (list string * list string))
    (line : string) : nat * (list string * list string) :=
  let '(index, (andNextLines, orNextLines)) := acc in
  let isLastLine := Nat.eqb (S index) n in
  (S index, (andNextLines ++ [toAndNextLine isLastLine line],
             orNextLines ++ [toOrNextLine isLastLine line])).

Definition applyAndOrNextCheck (condition : Predicate) (expandedLines : list string)
    : list string :=
  let leftIsDeltaOrMem := isDeltaOrMem (type condition) in
  let rightIsDeltaOrMem := isDeltaOrMem (compareType condition) in
  if negb leftIsDeltaOrMem && negb rightIsDeltaOrMem then expandedLines
  else
    let '(_, (andNextLines, orNextLines)) :=
      fold_left (andOrNextStep (length expandedLines)) expandedLines (O, ([], [])) in
    andNextLines ++ orNextLines.

(** ** compression.js *)

(** ['M','N','O','P','Q','R','S','T'] *)
Definition bitLetters : list ascii :=
  ["M"; "N"; "O"; "P"; "Q"; "R"; "S"; "T"]%char.

(** [arr.indexOf(x)] on characters: [-1] when absent. *)
Fixpoint indexOfFrom (i : Z) (l : list ascii) (x : ascii) : Z :=
  match l with
  | [] => -1
  | y :: tl => if Ascii.eqb y x then i else indexOfFrom (i + 1) tl x
  end.

Definition indexOf (l : list ascii) (x : ascii) : Z := indexOfFrom 0 l x.

(** [[0-9A-F]+], greedy: the digits taken and what follows them. *)
Fixpoint spanUpperHex (s : string) : string * string :=
  match s with
  | String c s' =>
      if JS.isUpperHexDigit c
      then let '(d, r) := spanUpperHex s' in (String c d, r)
      else (EmptyString, s)
  | EmptyString => (EmptyString, EmptyString)
  end.

(** The capture groups of a bit line: flag, type letter, bit letter,
    address.  An optional group that did not take part is the empty
    string, as after [bitMatch[1] || '']. *)
Record BitMatch := {
  m_prefix : string;
  m_typePrefix : string;
  m_bit : ascii;
  m_addr : string
}.

(** [0x([MNOPQRST])([0-9A-F]+)] at the head of [s]. *)
Definition matchBitBody (s : string) : option (ascii * string) :=
  match s with
  | String c0 s1 =>
      if Ascii.eqb c0 "0" then
        match s1 with
        | String c1 s2 =>
            if Ascii.eqb c1 "x" then
              match s2 with
              | String b rest =>
                  if existsb (Ascii.eqb b) bitLetters
                  then match spanUpperHex rest with
                       | (EmptyString, _) => None
                       | (a, _) => Some (b, a)
                       end
                  else None
              | EmptyString => None
              end
            else None
        | EmptyString => None
        end
      else None
  | EmptyString => None
  end.

(** [([dpb~])?0x...]: the optional letter is tried first, then skipped. *)
Definition matchBitTyped (s : string) : option (string * ascii * string) :=
  let without :=
    match matchBitBody s with
    | Some (b, a) => Some (EmptyString, b, a)
    | None => None
    end in
  match s with
  | String t s' =>
      if existsb (Ascii.eqb t) ["d"; "p"; "b"; "~"]%char
      then match matchBitBody s' with
           | Some (b, a) => Some (String t EmptyString, b, a)
           | None => without
           end
      else without
  | EmptyString => without
  end.

(** [(A:|B:)?([dpb~])?0x([MNOPQRST])([0-9A-F]+)] at the head of [s]. *)
Definition matchBitAt (s : string) : option BitMatch :=
  let without :=
    match matchBitTyped s with
    | Some (t, b, a) =>
        Some {| m_prefix := EmptyString; m_typePrefix := t; m_bit := b; m_addr := a |}
    | None => None
    end in
  match s with
  | String f s1 =>
      if Ascii.eqb f "A" || Ascii.eqb f "B" then
        match s1 with
        | String c s' =>
            if Ascii.eqb c ":" then
              match matchBitTyped s' with
              | Some (t, b, a) =>
                  Some {| m_prefix := String f (String ":" EmptyString);
                          m_typePrefix := t; m_bit := b; m_addr := a |}
              | None => without
              end
            else without
        | EmptyString => without
        end
      else without
  | EmptyString => without
  end.

(** [line.match(/(A:|B:)?([dpb~])?0x([MNOPQRST])([0-9A-F]+)/)]: the
    expression is not anchored, the leftmost position that matches wins. *)
Fixpoint matchBitLine (line : string) : option BitMatch :=
  match matchBitAt line with
  | Some m => Some m
  | None =>
      match line with
      | EmptyString => None
      | String _ rest => matchBitLine rest
      end
  end.

(** An element of [groups].  A stand-alone line has [bits: null] and no
    [addr], [typePrefix] or [prefixes]. *)
Record Group := {
  g_addr : string;
  g_typePrefix : string;
  g_bits : option (list Z);
  g_lines : list string;
  g_prefixes : list string;
  g_hasCompressibleFlag : bool
}.

Definition standaloneGroup (line : string) : Group :=
  {| g_addr := EmptyString; g_typePrefix := EmptyString; g_bits := None;
     g_lines := [line]; g_prefixes := []; g_hasCompressibleFlag := false |}.

Definition newGroup (addr typePrefix : string) (bitIndex : Z)
    (line prefix : string) : Group :=
  {| g_addr := addr; g_typePrefix := typePrefix; g_bits := Some [bitIndex];
     g_lines := [line]; g_prefixes := [prefix]; g_hasCompressibleFlag := false |}.

Definition continueGroup (g : Group) (bitIndex : Z) (line prefix : string) : Group :=
  {| g_addr := g_addr g; g_typePrefix := g_typePrefix g;
     g_bits := option_map (fun b => b ++ [bitIndex]) (g_bits g);
     g_lines := g_lines g ++ [line]; g_prefixes := g_prefixes g ++ [prefix];
     g_hasCompressibleFlag := g_hasCompressibleFlag g |}.

(** [if (currentGroup) groups.push(currentGroup)] *)
Definition pushCurrent (groups : list Group) (currentGroup : option Group)
    : list Group :=
  match currentGroup with
  | Some g => groups ++ [g]
  | None => groups
  end.

(** First pass: one turn of the [forEach]; the state is [groups] and
    [currentGroup]. *)
Definition groupStep (st : list Group * option Group) (line : string)
    : list Group * option Group :=
  let '(groups, currentGroup) := st in
  match matchBitLine line with
  | None => (pushCurrent groups currentGroup ++ [standaloneGroup line], None)
  | Some m =>
      let bitIndex := indexOf bitLetters (m_bit m) in
      if bitIndex =? -1
      then (pushCurrent groups currentGroup ++ [standaloneGroup line], None)
      else
        match currentGroup with
        | Some g =>
            if negb (String.eqb (g_addr g) (m_addr m))
               || negb (String.eqb (g_typePrefix g) (m_typePrefix m))
            then (groups ++ [g],
                  Some (newGroup (m_addr m) (m_typePrefix m) bitIndex line (m_prefix m)))
            else (groups, Some (continueGroup g bitIndex line (m_prefix m)))
        | None =>
            (groups,
             Some (newGroup (m_addr m) (m_typePrefix m) bitIndex line (m_prefix m)))
        end
  end.

Definition isSourceFlag (prefix : string) : bool :=
  String.eqb prefix "A:" || String.eqb prefix "B:".

(** [group.prefixes[group.prefixes.length - 1]]; [undefined] compares
    unequal to every flag, as the empty string does. *)
Definition lastPrefix (g : Group) : string :=
  List.last (g_prefixes g) EmptyString.

(** Second pass: the flag of the last line decides. *)
Definition markGroup (g : Group) : Group :=
  match g_bits g with
  | Some _ =>
      {| g_addr := g_addr g; g_typePrefix := g_typePrefix g; g_bits := g_bits g;
         g_lines := g_lines g; g_prefixes := g_prefixes g;
         g_hasCompressibleFlag := isSourceFlag (lastPrefix g) |}
  | None => g
  end.

(** [group.bits && group.bits.length >= 5 && group.hasCompressibleFlag] *)
Definition isCompressible (g : Group) : bool :=
  match g_bits g with
  | Some b => (5 <=? length b)%nat && g_hasCompressibleFlag g
  | None => false
  end.

Definition bitLetterAt (bit : Z) : string :=
  match bitLetters !! Z.to_nat bit with
  | Some c => String c EmptyString
  | None => EmptyString
  end.

(** The lines one group contributes to [result]. *)
Definition emitGroup (g : Group) : list string :=
  if isCompressible g then
    let allBits := [0; 1; 2; 3; 4; 5; 6; 7] in
    let groupBits := default [] (g_bits g) in
    let missingBits :=
      List.filter (fun bit => negb (existsb (Z.eqb bit) groupBits)) allBits in
    let lastLinePrefix := lastPrefix g in
    let lastLineTypePrefix := g_typePrefix g in
    let bitCountLine := lastLinePrefix +:+ lastLineTypePrefix +:+ "0xK" +:+ g_addr g in
    let missingLines :=
      map (fun bit =>
             if String.eqb lastLinePrefix "B:"
             then "A:" +:+ lastLineTypePrefix +:+ "0x" +:+ bitLetterAt bit +:+ g_addr g
             else "B:" +:+ lastLineTypePrefix +:+ "0x" +:+ bitLetterAt bit +:+ g_addr g)
          missingBits in
    if String.eqb lastLinePrefix "B:"
    then missingLines ++ [bitCountLine]
    else bitCountLine :: missingLines
  else g_lines g.

(** [groups] after the first two passes. *)
Definition buildGroups (lines : list string) : list Group :=
  let '(groups, currentGroup) := fold_left groupStep lines ([], None) in
  map markGroup (pushCurrent groups currentGroup).

Definition compressBits (lines : list string) : list string :=
  let groups := buildGroups lines in
  let hasCompressibleGroups := existsb isCompressible groups in
  if negb hasCompressibleGroups then lines
  else flat_map emitGroup groups.

(** ** rr-optimization.js *)

(** A value of [patternMap]: [{ lines, count, length }]. *)
Record PatternInfo := {
  p_lines : list string;
  p_count : nat;
  p_length : nat
}.

(** The [Map] from joined pattern to its record keeps insertion order:
    an association list, new keys at the end. *)
Definition mapHas (patternMap : list (string * PatternInfo)) (key : string) : bool :=
  existsb (fun kv => String.eqb (fst kv) key) patternMap.

Fixpoint mapSet (patternMap : list (string * PatternInfo)) (key : string)
    (info : PatternInfo) : list (string * PatternInfo) :=
  match patternMap with
  | [] => [(key, info)]
  | (k, v) :: tl =>
      if String.eqb k key then (k, info) :: tl else (k, v) :: mapSet tl key info
  end.

(** The counting loop
    [for (i = 0; i <= lines.length - patternLength; i++)], read on the
    suffix [lines.slice(i)]: [skip] counts the lines [i += patternLength - 1]
    still has to step over after a match. *)
Fixpoint countFrom (pattern : string) (patternLength : nat) (skip : nat)
    (rest : list string) : nat :=
  match rest with
  | [] => O
  | _ :: tl =>
      match skip with
      | S k => countFrom pattern patternLength k tl
      | O =>
          if (patternLength <=? length rest)%nat
             && String.eqb (JS.join "_" (take patternLength rest)) pattern
          then S (countFrom pattern patternLength (patternLength - 1) tl)
          else countFrom pattern patternLength 0 tl
      end
  end.

(** Body of the loop over [startIndex]. *)
Definition scanStart (lines : list string) (patternLength : nat)
    (patternMap : list (string * PatternInfo)) (startIndex : nat)
    : list (string * PatternInfo) :=
  let pattern := JS.join "_" (JS.slice startIndex patternLength lines) in
  if negb (mapHas patternMap pattern) then
    let count := countFrom pattern patternLength 0 lines in
    if (3 <=? count)%nat
    then mapSet patternMap pattern
           {| p_lines := JS.slice startIndex patternLength lines;
              p_count := count; p_length := patternLength |}
    else patternMap
  else patternMap.

(** Body of the loop over [patternLength]:
    [startIndex] runs from [0] to [lines.length - patternLength]. *)
Definition scanLength (lines : list string)
    (patternMap : list (string * PatternInfo)) (patternLength : nat)
    : list (string * PatternInfo) :=
  fold_left (scanStart lines patternLength)
    (seq 0 (length lines - patternLength + 1)) patternMap.

(** [patternLength] runs from [2] while [patternLength <= lines.length / 3]. *)
Definition buildPatternMap (lines : list string) : list (string * PatternInfo) :=
  fold_left (scanLength lines) (seq 2 (length lines / 3 - 1)) [].

(** The selection loop: the state is [bestPattern], [maxLength]. *)
Definition selectStep (st : option PatternInfo * nat) (entry : string * PatternInfo)
    : option PatternInfo * nat :=
  let '(bestPattern, maxLength) := st in
  let info := snd entry in
  if (maxLength <? p_length info)%nat then (Some info, p_length info)
  else (bestPattern, maxLength).

Definition findBestPattern (lines : list string) : option PatternInfo :=
  if (length lines <? 6)%nat then None
  else
    let patternMap := buildPatternMap lines in
    if Nat.eqb (length patternMap) 0 then None
    else fst (fold_left selectStep patternMap (None, O)).

(** The [patternUsed] object of a successful run. *)
Record PatternUsed := {
  u_lines : list string;
  u_count : nat;
  u_originalFlag : string;
  u_rememberPattern : string;
  u_recallReplacement : string
}.

Record RRResult := {
  optimizedLogic : string;
  originalLength : nat;
  optimizedLength : nat;
  savings : Z;
  patternUsed : option PatternUsed
}.

Definition unchangedResult (logicString : string) : RRResult :=
  {| optimizedLogic := logicString;
     originalLength := String.length logicString;
     optimizedLength := String.length logicString;
     savings := 0;
     patternUsed := None |}.

(** The [while (index < remainingLines.length)] loop, read on the suffix
    [remainingLines.slice(index)]; [skip] counts the lines of a matched
    pattern [index += pattern.length] still has to step over. *)
Fixpoint rrLoop (originalPatternString recallReplacement : string)
    (patternLength : nat) (skip : nat) (rest : list string)
    (optimizedLogic : string) : string :=
  match rest with
  | [] => optimizedLogic
  | line :: tl =>
      match skip with
      | S k =>
          rrLoop originalPatternString recallReplacement patternLength k tl
            optimizedLogic
      | O =>
          if (patternLength <=? length rest)%nat then
            if String.eqb (JS.join "_" (take patternLength rest))
                 originalPatternString
            then
              let optimizedLogic := optimizedLogic +:+ recallReplacement in
              let optimizedLogic :=
                if (patternLength <? length rest)%nat
                then optimizedLogic +:+ "_" else optimizedLogic in
              rrLoop originalPatternString recallReplacement patternLength
                (patternLength - 1) tl optimizedLogic
            else
              let optimizedLogic := optimizedLogic +:+ line in
              let optimizedLogic :=
                if (1 <? length rest)%nat
                then optimizedLogic +:+ "_" else optimizedLogic in
              rrLoop originalPatternString recallReplacement patternLength
                0 tl optimizedLogic
          else optimizedLogic +:+ JS.join "_" rest
      end
  end.

(** [logicString.split('_').filter(line => line.trim())] *)
Definition logicLines (logicString : string) : list string :=
  List.filter (fun line => JS.truthy (JS.trim line)) (JS.split "_" logicString).

Definition applyRROptimization (logicString : string) : RRResult :=
  let lines := logicLines logicString in
  match findBestPattern lines with
  | None => unchangedResult logicString
  | Some pattern =>
      let lastLine := List.last (p_lines pattern) EmptyString in
      let originalFlag := default EmptyString (JS.matchFlag lastLine) in
      if negb (JS.truthy originalFlag) then unchangedResult logicString
      else
        let lastLineIndex := (length (p_lines pattern) - 1)%nat in
        let rememberLines :=
          <[lastLineIndex := JS.replaceFirst originalFlag "K:" lastLine]>
            (p_lines pattern) in
        let rememberPattern := JS.join "_" rememberLines in
        let recallReplacement := originalFlag +:+ "{recall}" in
        let originalPatternString := JS.join "_" (p_lines pattern) in
        let optimizedLogic :=
          rrLoop originalPatternString recallReplacement (p_length pattern)
            0 lines (rememberPattern +:+ "_") in
        let optimizedLogic := JS.dropTrailingUnderscore optimizedLogic in
        {| optimizedLogic := optimizedLogic;
           originalLength := String.length logicString;
           optimizedLength := String.length optimizedLogic;
           savings := Z.of_nat (String.length logicString)
                      - Z.of_nat (String.length optimizedLogic);
           patternUsed :=
             Some {| u_lines := p_lines pattern;
                     u_count := p_count pattern;
                     u_originalFlag := originalFlag;
                     u_rememberPattern := rememberPattern;
                     u_recallReplacement := recallReplacement |} |}
  end.

(** ** Session state (main.js)

    [bitfieldExpansions] is created with [new Map()].  expansion-system.js
    and main.js read and write it through properties
    ([bitfieldExpansions[lineId]], [delete bitfieldExpansions[id]]),
    bitfield-operations.js through the Map interface ([.delete(id)],
    [.clear()]).  A JavaScript Map keeps its entries apart from its own
    properties, so the table has two faces. *)

Inductive ByteSelection :=
| BitSelection (bitCount : bool) (bits : list Z)
| NibbleSelection (upper lower : bool)
| ByteActive (active : bool).

Record CustomData := {
  maxSelections : Z;
  selectedCount : Z;
  customRows : gmap Z (gmap Z ByteSelection)
}.

Record LineConfig := {
  activeTab : string;
  arithmeticIncrement : string;
  customFieldSize : string;
  customized : bool;
  customData : option CustomData
}.

Record Expansion := {
  generatedGroups : string;
  deltaCheck : bool;
  lineConfigs : list LineConfig
}.

Record ExpansionTable := {
  mapEntries : gmap Z Expansion;
  properties : gmap Z Expansion
}.

(** ** groups.js *)

Definition getGroupLines (bitfieldConditions : list Condition) (gid : Z)
    : list Condition :=
  List.filter (fun c => groupId c =? gid) bitfieldConditions.

(** [members.reduce((max, line) => line.lineId > max.lineId ? line : max)]:
    [None] stands for the TypeError of [reduce] on an empty array. *)
Definition maxByLineId (members : list Condition) : option Condition :=
  match members with
  | [] => None
  | first :: others =>
      Some (fold_left (fun max line => if lineId line >? lineId max then line else max)
              others first)
  end.

Definition getGroupLeader (bitfieldConditions : list Condition) (gid : Z)
    : option Condition :=
  match getGroupLines bitfieldConditions gid with
  | [] => None
  | groupLines => maxByLineId groupLines
  end.

Definition isGroupLeader (bitfieldConditions : list Condition) (condition : Condition)
    : bool :=
  match getGroupLeader bitfieldConditions (groupId condition) with
  | Some leader => lineId leader =? lineId condition
  | None => false
  end.

Definition setIds (newLineId newGroupId : Z) (c : Condition) : Condition :=
  {| lineId := newLineId; groupId := newGroupId; pred := pred c; bytes := bytes c;
     expanded := expanded c; expandedLines := expandedLines c |}.

Definition setGroupId (newGroupId : Z) (c : Condition) : Condition :=
  setIds (lineId c) newGroupId c.

(** [bitfieldConditions.find(c => c.lineId === lineId)] *)
Definition findByLineId (bitfieldConditions : list Condition) (id : Z)
    : option Condition :=
  List.find (fun c => lineId c =? id) bitfieldConditions.

(** [bitfieldConditions.findIndex(c => c.lineId === lineId)]: [-1] when
    no condition has that id. *)
Fixpoint findIndexFrom (i : Z) (bitfieldConditions : list Condition) (id : Z) : Z :=
  match bitfieldConditions with
  | [] => -1
  | c :: tl => if lineId c =? id then i else findIndexFrom (i + 1) tl id
  end.

Definition findIndex (bitfieldConditions : list Condition) (id : Z) : Z :=
  findIndexFrom 0 bitfieldConditions id.

(** First loop of [recalculateLineAndGroupIds]: new sequential line ids;
    a condition whose group id was its own line id follows it. *)
Definition renumber (index : nat) (condition : Condition) : Condition :=
  let oldLineId := lineId condition in
  let newLineId := Z.of_nat index + 1 in
  setIds newLineId
    (if groupId condition =? oldLineId then newLineId else groupId condition)
    condition.

(** Second loop, one turn: the state is the array, whose objects earlier
    turns have already changed, and the set [processedGroups]. *)
Definition regroupStep (st : list Condition * gset Z) (index : nat)
    : list Condition * gset Z :=
  let '(bitfieldConditions, processedGroups) := st in
  match bitfieldConditions !! index with
  | None => st
  | Some condition =>
      let currentGroupId := groupId condition in
      if bool_decide (currentGroupId ∈ processedGroups)
         || (groupId condition =? lineId condition)
      then st
      else
        let groupMembers := getGroupLines bitfieldConditions currentGroupId in
        if (1 <? length groupMembers)%nat then
          match maxByLineId groupMembers with
          | Some leader =>
              (map (fun c => if groupId c =? currentGroupId
                             then setGroupId (lineId leader) c else c)
                   bitfieldConditions,
               {[currentGroupId]} ∪ processedGroups)
          | None => st
          end
        else st
  end.

Definition recalculateLineAndGroupIds (bitfieldConditions : list Condition)
    : list Condition :=
  let renumbered := imap renumber bitfieldConditions in
  fst (fold_left regroupStep (seq 0 (length renumbered)) (renumbered, ∅)).

(** The array slot at a JavaScript index. *)
Definition at_index {A} (l : list A) (i : Z) : option A :=
  if i <? 0 then None else l !! Z.to_nat i.

Definition linkCondition (bitfieldConditions : list Condition)
    (linkGroupColors : gmap Z Z) (id : Z) : list Condition * gmap Z Z :=
  match findByLineId bitfieldConditions id with
  | None => (bitfieldConditions, linkGroupColors)
  | Some condition =>
      if negb (isGroupLeader bitfieldConditions condition)
      then (bitfieldConditions, linkGroupColors)
      else
        let currentGroupLines := getGroupLines bitfieldConditions (groupId condition) in
        let anchorIndex :=
          if (1 <? length currentGroupLines)%nat then
            match maxByLineId currentGroupLines with
            | Some lastGroupLine => findIndex bitfieldConditions (lineId lastGroupLine)
            | None => -1
            end
          else findIndex bitfieldConditions id in
        if anchorIndex >=? Z.of_nat (length bitfieldConditions) - 1
        then (bitfieldConditions, linkGroupColors)
        else
          match at_index bitfieldConditions (anchorIndex + 1) with
          | None => (bitfieldConditions, linkGroupColors)
          | Some belowCondition =>
              let belowGroup := groupId belowCondition in
              (map (fun line => if groupId line =? belowGroup
                                then setGroupId (groupId condition) line else line)
                   bitfieldConditions,
               match linkGroupColors !! groupId condition with
               | Some _ => linkGroupColors
               | None =>
                   <[groupId condition
                     := Z.of_nat (stdpp.base.size linkGroupColors) mod 2]> linkGroupColors
               end)
          end
  end.

(** ** bitfield-operations.js *)

Definition createDefaultCondition : Condition :=
  {| lineId := 0; groupId := 0;
     pred := {| flag := ""; type := Mem; size := "8-bit"; memory := "0x0";
                cmp := "="; compareType := Value; compareSize := "8-bit";
                value := "0"; hits := "0" |};
     bytes := ""; expanded := false; expandedLines := [] |}.

Definition addBitfieldCondition (bitfieldConditions : list Condition)
    : list Condition :=
  recalculateLineAndGroupIds (bitfieldConditions ++ [createDefaultCondition]).

(** [arr.splice(start, 0, ...items)]: a start beyond the end inserts at
    the end, a negative one counts from the end. *)
Definition spliceInsert {A} (l : list A) (start : Z) (items : list A) : list A :=
  let len := Z.of_nat (length l) in
  let actualStart :=
    if start <? 0 then Z.max (len + start) 0 else Z.min start len in
  take (Z.to_nat actualStart) l ++ items ++ drop (Z.to_nat actualStart) l.

Definition addConditionAtIndex (bitfieldConditions : list Condition) (index : Z)
    : list Condition :=
  recalculateLineAndGroupIds
    (spliceInsert bitfieldConditions (index + 1) [createDefaultCondition]).

Definition copyOf (groupCondition : Condition) : Condition :=
  {| lineId := 0; groupId := 0; pred := pred groupCondition;
     bytes := bytes groupCondition; expanded := false; expandedLines := [] |}.

Definition copyCondition (bitfieldConditions : list Condition) (id : Z)
    : list Condition :=
  match findByLineId bitfieldConditions id with
  | None => bitfieldConditions
  | Some condition =>
      let groupLines := getGroupLines bitfieldConditions (groupId condition) in
      match maxByLineId groupLines with
      | None => bitfieldConditions
      | Some lastGroupLine =>
          let insertIndex := findIndex bitfieldConditions (lineId lastGroupLine) + 1 in
          recalculateLineAndGroupIds
            (spliceInsert bitfieldConditions insertIndex (map copyOf groupLines))
      end
  end.

Record Session := {
  bitfieldConditions : list Condition;
  bitfieldExpansions : ExpansionTable;
  linkGroupColors : gmap Z Z
}.

(** [lineIds.forEach(id => bitfieldExpansions.delete(id))] *)
Definition deleteEntries (lineIds : list Z) (t : ExpansionTable) : ExpansionTable :=
  {| mapEntries := fold_left (fun m id => delete id m) lineIds (mapEntries t);
     properties := properties t |}.

Definition removeBitfieldCondition (s : Session) (id : Z) : Session :=
  match findByLineId (bitfieldConditions s) id with
  | None => s
  | Some condition =>
      let groupLines := getGroupLines (bitfieldConditions s) (groupId condition) in
      let lineIds := map lineId groupLines in
      let filteredConditions :=
        List.filter (fun c => negb (existsb (Z.eqb (lineId c)) lineIds))
          (bitfieldConditions s) in
      {| bitfieldConditions := recalculateLineAndGroupIds filteredConditions;
         bitfieldExpansions := deleteEntries lineIds (bitfieldExpansions s);
         linkGroupColors := delete (groupId condition) (linkGroupColors s) |}
  end.

(** ** groups.js: unlinking, the link test, automatic links *)

(** [groupLines.forEach((line, idx) => { if (idx > conditionIndex)
    line.groupId = line.lineId })]: the members are the objects of the
    array, met in array order; [idx] counts the members passed. *)
Fixpoint unlinkFrom (gid conditionIndex idx : Z) (bitfieldConditions : list Condition)
    : list Condition :=
  match bitfieldConditions with
  | [] => []
  | line :: tl =>
      if groupId line =? gid
      then (if idx >? conditionIndex then setGroupId (lineId line) line else line)
           :: unlinkFrom gid conditionIndex (idx + 1) tl
      else line :: unlinkFrom gid conditionIndex idx tl
  end.

Definition unlinkCondition (bitfieldConditions : list Condition) (id : Z)
    : list Condition :=
  match findByLineId bitfieldConditions id with
  | None => bitfieldConditions
  | Some condition =>
      let groupLines := getGroupLines bitfieldConditions (groupId condition) in
      let conditionIndex := findIndex groupLines id in
      unlinkFrom (groupId condition) conditionIndex 0 bitfieldConditions
  end.

(** [c.expanded && c.expandedLines.length > 0] *)
Definition hasExpandedLines (c : Condition) : bool :=
  expanded c && (0 <? length (expandedLines c))%nat.

(** [Math.max(...indexes)]: [None] stands for [-Infinity]. *)
Definition maxIndex (indexes : list Z) : option Z :=
  match indexes with
  | [] => None
  | i :: tl => Some (fold_left Z.max tl i)
  end.

Definition canLinkCondition (bitfieldConditions : list Condition) (id : Z) : bool :=
  match findByLineId bitfieldConditions id with
  | None => false
  | Some condition =>
      if negb (isGroupLeader bitfieldConditions condition) then false
      else
        let groupLines := getGroupLines bitfieldConditions (groupId condition) in
        if existsb hasExpandedLines groupLines then false
        else
          match maxIndex (map (fun line => findIndex bitfieldConditions (lineId line))
                            groupLines) with
          | None => false
          | Some lastGroupLineIndex =>
              if lastGroupLineIndex >=? Z.of_nat (length bitfieldConditions) - 1
              then false
              else
                match at_index bitfieldConditions (lastGroupLineIndex + 1) with
                | None => false
                | Some belowCondition =>
                    if hasExpandedLines belowCondition then false
                    else negb (existsb hasExpandedLines
                                 (getGroupLines bitfieldConditions
                                    (groupId belowCondition)))
                end
          end
  end.

Definition linkableFlags : list string := ["I:"; "A:"; "B:"; "N:"; "O:"].

(** The indexes of [linkableLines]: linking rewrites group ids only, so
    the flags read before the loop stay those of the array. *)
Definition linkableIndexes (bitfieldConditions : list Condition) : list nat :=
  List.filter (fun i => match bitfieldConditions !! i with
                        | Some c => includes linkableFlags (flag (pred c))
                        | None => false
                        end)
    (seq 0 (length bitfieldConditions)).

(** One turn of [linkableLines.forEach]: [condition] is the object at
    that index, with the group id earlier turns have given it. *)
Definition autoLinkStep (st : list Condition * gmap Z Z) (index : nat)
    : list Condition * gmap Z Z :=
  let '(bitfieldConditions, linkGroupColors) := st in
  match bitfieldConditions !! index with
  | None => st
  | Some condition =>
      if isGroupLeader bitfieldConditions condition
         && canLinkCondition bitfieldConditions (lineId condition)
      then linkCondition bitfieldConditions linkGroupColors (lineId condition)
      else st
  end.

Definition autoLinkAddressFlags (bitfieldConditions : list Condition)
    (linkGroupColors : gmap Z Z) : list Condition * gmap Z Z :=
  fold_left autoLinkStep (linkableIndexes bitfieldConditions)
    (bitfieldConditions, linkGroupColors).

(** ** bitfield-operations.js: clearing and loading from text *)

(** [Map.prototype.clear] empties the entries of the Map; own properties
    of the object are not entries. *)
Definition clearEntries (t : ExpansionTable) : ExpansionTable :=
  {| mapEntries := ∅; properties := properties t |}.

Definition clearBitfieldConditions (s : Session) : Session :=
  {| bitfieldConditions := [];
     bitfieldExpansions := clearEntries (bitfieldExpansions s);
     linkGroupColors := linkGroupColors s |}.

(** [s || fallback] on strings. *)
Definition orElse (s fallback : string) : string :=
  if JS.truthy s then s else fallback.

Definition conditionOfParsed (index : nat) (condition : Predicate) : Condition :=
  {| lineId := Z.of_nat index + 1;
     groupId := Z.of_nat index + 1;
     pred := {| flag := flag condition; type := type condition; size := size condition;
                memory := orElse (memory condition) "0x0";
                cmp := cmp condition; compareType := compareType condition;
                compareSize := compareSize condition;
                value := orElse (value condition) "0";
                hits := orElse (hits condition) "0" |};
     bytes := ""; expanded := false; expandedLines := [] |}.

(** [autoLinkAddressFlags] is the callback the caller passes; it runs on
    the state once the conditions are replaced and the Map is cleared. *)
Definition syncBitfieldFromText (s : Session) (parsed : list Predicate)
    (autoLink : Session -> Session) : Session :=
  autoLink {| bitfieldConditions := imap conditionOfParsed parsed;
              bitfieldExpansions := clearEntries (bitfieldExpansions s);
              linkGroupColors := linkGroupColors s |}.

(** The callback of main.js:
    [() => autoLinkAddressFlags(bitfieldConditions, linkGroupColors)]. *)
Definition autoLinkSession (s : Session) : Session :=
  let '(conds, colors) :=
    autoLinkAddressFlags (bitfieldConditions s) (linkGroupColors s) in
  {| bitfieldConditions := conds; bitfieldExpansions := bitfieldExpansions s;
     linkGroupColors := colors |}.

(** ** validation.js *)

Definition validateTypeChange (flag : string) (newType : OperandType) : bool :=
  if String.eqb flag "I:"
  then match newType with
       | Mem | Prior | Value | Recall => true
       | _ => false
       end
  else true.

Definition canExpand (condition : Predicate) : bool :=
  let hasMemory :=
    JS.truthy (memory condition)
    && (0 <? String.length (JS.trim (memory condition)))%nat in
  let leftIsValue := match type condition with Value => true | _ => false end in
  let leftIsRecall := match type condition with Recall => true | _ => false end in
  let rightIsValue := match compareType condition with Value => true | _ => false end in
  let rightIsRecall := match compareType condition with Recall => true | _ => false end in
  let shouldDisable := (leftIsValue && rightIsValue) || (leftIsRecall && rightIsRecall) in
  hasMemory && negb shouldDisable.

(** ** compression.js: the saving *)

Definition calculateCompressionSavings (lines : list string) : Z :=
  Z.of_nat (length lines) - Z.of_nat (length (compressBits lines)).

(** ** expansion-system.js: confirming an expansion *)

Definition digitOf (radix : Z) (c : ascii) : option Z :=
  let n := Z.of_N (JS.code c) in
  let v :=
    if JS.isDigit c then Some (n - 48)
    else if JS.isUpper c then Some (n - 55)
    else if JS.isLower c then Some (n - 87)
    else None in
  match v with
  | Some d => if d <? radix then Some d else None
  | None => None
  end.

(** The longest prefix of digits of [s], read in [radix]: [None] when
    there is no digit at all. *)
Fixpoint readDigits (radix : Z) (acc : option Z) (s : string) : option Z :=
  match s with
  | EmptyString => acc
  | String c s' =>
      match digitOf radix c with
      | Some d => readDigits radix (Some (default 0 acc * radix + d)) s'
      | None => acc
      end
  end.

(** [parseInt(s)] without a radix: leading white space, a sign, [0x] for
    hexadecimal; [None] stands for [NaN].  Numbers are exact integers. *)
Definition parseInt (s : string) : option Z :=
  let s := JS.trimStart s in
  let '(sign, s) :=
    match s with
    | String c s' =>
        if Ascii.eqb c "-" then (-1, s')
        else if Ascii.eqb c "+" then (1, s')
        else (1, s)
    | EmptyString => (1, s)
    end in
  let magnitude :=
    if JS.startsWith "0x" s || JS.startsWith "0X" s
    then readDigits 16 None (JS.dropChars 2 s)
    else readDigits 10 None s in
  option_map (Z.mul sign) magnitude.

(** [parseInt(expansion.generatedGroups) || 1] *)
Definition generatedGroupsOf (expansion : Expansion) : Z :=
  match parseInt (generatedGroups expansion) with
  | Some n => if n =? 0 then 1 else n
  | None => 1
  end.

Section ConfirmExpansion.

(** The three generators [confirmExpansion] receives as arguments. *)
Variable generateArithmeticLine : Condition -> LineConfig -> Z -> string.
Variable generateCustomLines : Condition -> LineConfig -> Z -> list string.
Variable convertConditionToText : Condition -> string.

(** Body of [groupLines.forEach((line, lineIdx) => ...)]: [None] stands
    for the TypeError raised when the member has no line configuration. *)
Definition linesToAdd (expansion : Expansion) (groupIdx : Z) (lineIdx : nat)
    (line : Condition) : option (list string) :=
  match lineConfigs expansion !! lineIdx with
  | None => None
  | Some lineConfig =>
      if customized lineConfig && bool_decide (is_Some (customData lineConfig))
      then Some (generateCustomLines line lineConfig groupIdx)
      else if JS.truthy (arithmeticIncrement lineConfig)
              && negb (String.eqb (JS.trim (arithmeticIncrement lineConfig)) "")
      then Some [generateArithmeticLine line lineConfig groupIdx]
      else Some [convertConditionToText line]
  end.

(** [allExpandedLines.push(...linesToAdd)] over the members, from
    [lineIdx] on. *)
Fixpoint expandMembers (expansion : Expansion) (groupIdx : Z) (lineIdx : nat)
    (groupLines : list Condition) (allExpandedLines : list string)
    : option (list string) :=
  match groupLines with
  | [] => Some allExpandedLines
  | line :: tl =>
      match linesToAdd expansion groupIdx lineIdx line with
      | None => None
      | Some added =>
          expandMembers expansion groupIdx (S lineIdx) tl (allExpandedLines ++ added)
      end
  end.

(** [for (let groupIdx = 0; groupIdx < generatedGroups; groupIdx++)] *)
Fixpoint expandGroups (expansion : Expansion) (groupLines : list Condition)
    (groupIndexes : list nat) (allExpandedLines : list string)
    : option (list string) :=
  match groupIndexes with
  | [] => Some allExpandedLines
  | groupIdx :: tl =>
      match expandMembers expansion (Z.of_nat groupIdx) 0 groupLines allExpandedLines with
      | None => None
      | Some lines => expandGroups expansion groupLines tl lines
      end
  end.

Definition hasDeltaOrMem (l : Condition) : bool :=
  isDeltaOrMem (type (pred l)) || isDeltaOrMem (compareType (pred l)).

Definition hasFlagIn (flags : list string) (l : Condition) : bool :=
  includes flags (flag (pred l)).

(** The block under [if (expansion.deltaCheck)]. *)
Definition deltaCheckPass (expansion : Expansion) (groupLines : list Condition)
    (allExpandedLines : list string) : list string :=
  if deltaCheck expansion then
    if existsb hasDeltaOrMem groupLines then
      let isAddSubSourceGroup := existsb (hasFlagIn ["A:"; "B:"]) groupLines in
      let isAndOrNextGroup := existsb (hasFlagIn ["N:"; "O:"]) groupLines in
      match last groupLines with
      | Some lastLine =>
          if isAddSubSourceGroup
          then applyDeltaMemCheck (pred lastLine) allExpandedLines
          else if isAndOrNextGroup
          then applyAndOrNextCheck (pred lastLine) allExpandedLines
          else allExpandedLines
      | None => allExpandedLines
      end
    else allExpandedLines
  else allExpandedLines.

Definition markExpanded (allExpandedLines : list string) (c : Condition) : Condition :=
  {| lineId := lineId c; groupId := groupId c; pred := pred c; bytes := bytes c;
     expanded := true; expandedLines := allExpandedLines |}.

(** [None] stands for an uncaught TypeError; an early [return] leaves the
    state as it is.  The members of [groupLines] are the very objects of
    the array: marking them is rewriting the array at their places. *)
Definition confirmExpansion (bitfieldExpansions : ExpansionTable)
    (bitfieldConditions : list Condition) (expansionId : Z)
    : option (ExpansionTable * list Condition) :=
  match properties bitfieldExpansions !! expansionId with
  | None => Some (bitfieldExpansions, bitfieldConditions)
  | Some expansion =>
      match findByLineId bitfieldConditions expansionId with
      | None => Some (bitfieldExpansions, bitfieldConditions)
      | Some condition =>
          let groupLines := getGroupLines bitfieldConditions (groupId condition) in
          let generatedGroups := generatedGroupsOf expansion in
          match expandGroups expansion groupLines
                  (seq 0 (Z.to_nat generatedGroups)) [] with
          | None => None
          | Some allExpandedLines =>
              let allExpandedLines :=
                deltaCheckPass expansion groupLines allExpandedLines in
              Some
                ({| mapEntries := mapEntries bitfieldExpansions;
                    properties := delete expansionId (properties bitfieldExpansions) |},
                 map (fun c => if groupId c =? groupId condition
                               then markExpanded allExpandedLines c else c)
                     bitfieldConditions)
          end
      end
  end.

End ConfirmExpansion.

(** ** expansion-system.js: editing and cancelling an expansion *)

(** The fields the panel writes with [updateExpansionField], with the
    type of value each one receives. *)
Inductive ExpansionField :=
| GeneratedGroups (value : string)
| DeltaCheck (value : bool).

Definition updateExpansionField (bitfieldExpansions : ExpansionTable) (id : Z)
    (field : ExpansionField) : ExpansionTable :=
  match properties bitfieldExpansions !! id with
  | None => bitfieldExpansions
  | Some expansion =>
      let expansion' :=
        match field with
        | GeneratedGroups value =>
            {| generatedGroups := value; deltaCheck := deltaCheck expansion;
               lineConfigs := lineConfigs expansion |}
        | DeltaCheck value =>
            {| generatedGroups := generatedGroups expansion; deltaCheck := value;
               lineConfigs := lineConfigs expansion |}
        end in
      {| mapEntries := mapEntries bitfieldExpansions;
         properties := <[id := expansion']> (properties bitfieldExpansions) |}
  end.

(** The fields the panel writes with [updateLineConfig]; each receives a
    string. *)
Inductive LineField := ActiveTab | ArithmeticIncrement | CustomFieldSize.

(** [value && value.trim() !== ''] *)
Definition nonBlank (value : string) : bool :=
  JS.truthy value && negb (String.eqb (JS.trim value) "").

Definition setLineField (field : LineField) (value : string) (lineConfig : LineConfig)
    : LineConfig :=
  match field with
  | ActiveTab =>
      {| activeTab := value; arithmeticIncrement := arithmeticIncrement lineConfig;
         customFieldSize := customFieldSize lineConfig;
         customized := customized lineConfig; customData := customData lineConfig |}
  | ArithmeticIncrement =>
      {| activeTab := activeTab lineConfig; arithmeticIncrement := value;
         customFieldSize := customFieldSize lineConfig;
         customized := customized lineConfig; customData := customData lineConfig |}
  | CustomFieldSize =>
      {| activeTab := activeTab lineConfig;
         arithmeticIncrement := arithmeticIncrement lineConfig;
         customFieldSize := value;
         customized := customized lineConfig; customData := customData lineConfig |}
  end.

Definition clearCustomization (lineConfig : LineConfig) : LineConfig :=
  {| activeTab := activeTab lineConfig;
     arithmeticIncrement := arithmeticIncrement lineConfig;
     customFieldSize := customFieldSize lineConfig;
     customized := false; customData := None |}.

Definition clearIncrement (lineConfig : LineConfig) : LineConfig :=
  {| activeTab := activeTab lineConfig; arithmeticIncrement := "";
     customFieldSize := customFieldSize lineConfig;
     customized := customized lineConfig; customData := customData lineConfig |}.

(** The three writes on [lineConfig], in the order of the source. *)
Definition editLineConfig (field : LineField) (value : string) (lineConfig : LineConfig)
    : LineConfig :=
  let lineConfig :=
    match field with
    | ArithmeticIncrement =>
        if nonBlank value then clearCustomization lineConfig else lineConfig
    | _ => lineConfig
    end in
  let lineConfig :=
    match field with
    | CustomFieldSize => if nonBlank value then clearIncrement lineConfig else lineConfig
    | _ => lineConfig
    end in
  setLineField field value lineConfig.

(** [None] stands for the TypeError of writing a field of [undefined],
    when the expansion has no configuration at [lineIndex]. *)
Definition updateLineConfig (bitfieldExpansions : ExpansionTable) (expansionId : Z)
    (lineIndex : nat) (field : LineField) (value : string) : option ExpansionTable :=
  match properties bitfieldExpansions !! expansionId with
  | None => Some bitfieldExpansions
  | Some expansion =>
      match lineConfigs expansion !! lineIndex with
      | None => None
      | Some lineConfig =>
          Some {| mapEntries := mapEntries bitfieldExpansions;
                  properties :=
                    <[expansionId :=
                        {| generatedGroups := generatedGroups expansion;
                           deltaCheck := deltaCheck expansion;
                           lineConfigs :=
                             <[lineIndex := editLineConfig field value lineConfig]>
                               (lineConfigs expansion) |}]>
                      (properties bitfieldExpansions) |}
      end
  end.

(** [delete bitfieldExpansions[lineId]] *)
Definition cancelExpansion (bitfieldExpansions : ExpansionTable) (id : Z)
    : ExpansionTable :=
  {| mapEntries := mapEntries bitfieldExpansions;
     properties := delete id (properties bitfieldExpansions) |}.


(* ====================================================================== *)
(** * Part II.  Properties                                                 *)
(* ====================================================================== *)


(** ** Delta/Mem accumulator pass *)

Section DeltaMem.

(** What the [forEach] of [applyDeltaMemCheck] pushes for one line. *)
Definition deltaOf (line : string) : string :=
  if JS.startsWith "I:" line then line else toDeltaLine line.
Definition memOf (line : string) : string :=
  if JS.startsWith "I:" line then line else toMemLine line.

Lemma deltaMem_fold lines : forall dl ml,
  fold_left deltaMemStep lines (dl, ml)
  = (dl ++ map deltaOf lines, ml ++ map memOf lines).
Proof.
  induction lines as [|l lines IH]; intros dl ml; simpl.
  - by rewrite !app_nil_r.
  - unfold deltaOf at 1, memOf at 1.
    destruct (JS.startsWith "I:" l); rewrite IH, <- !app_assoc; reflexivity.
Qed.

(** The sentinel lines pushed after each block: one for Add/Sub Source. *)
Definition sentinel (c : Predicate) : list string :=
  if String.eqb (flag c) "A:" || String.eqb (flag c) "B:" then ["0=0"] else [].

Lemma applyDeltaMemCheck_blocks c lines :
  isDeltaOrMem (type c) || isDeltaOrMem (compareType c) = true ->
  applyDeltaMemCheck c lines
  = (map deltaOf lines ++ sentinel c) ++ (map memOf lines ++ sentinel c).
Proof.
  intros Hdm. unfold applyDeltaMemCheck, sentinel.
  replace (negb (isDeltaOrMem (type c)) && negb (isDeltaOrMem (compareType c)))
    with false
    by (destruct (isDeltaOrMem (type c)), (isDeltaOrMem (compareType c));
        simpl in *; congruence).
  rewrite deltaMem_fold. simpl.
  destruct (String.eqb (flag c) "A:" || String.eqb (flag c) "B:");
    simpl; rewrite ?app_nil_r; reflexivity.
Qed.

Lemma lookup_map_fixed (f : string -> string) (lines : list string) i line :
  lines !! i = Some line -> f line = line -> map f lines !! i = Some line.
Proof.
  intros Hi Hf. change (map f lines) with (f <$> lines).
  by rewrite list_lookup_fmap, Hi; simpl; rewrite Hf.
Qed.

(** C6.  With group flag [A:] and one Mem line at [0x1234] the pass returns
    the delta-prefixed copy, the sentinel [0=0], the unprefixed copy and the
    sentinel again, whatever follows the address on the line; and whenever
    the pass applies, a line starting with the Add-Address flag [I:] sits
    unchanged at its own index of the delta block and of the mem block. *)
Theorem applyDeltaMemCheck_example_and_add_address :
  (forall (c : Predicate) (rest : string),
      flag c = "A:" -> type c = Mem ->
      exists dRest mRest : string,
        applyDeltaMemCheck c ["A:0x1234" +:+ rest]
        = ["A:d0x1234" +:+ dRest; "0=0"; "A:0x1234" +:+ mRest; "0=0"]
        /\ (rest = "" -> dRest = "" /\ mRest = ""))
  /\
  (forall (c : Predicate) (lines : list string) (i : nat) (line : string),
      isDeltaOrMem (type c) || isDeltaOrMem (compareType c) = true ->
      lines !! i = Some line ->
      JS.startsWith "I:" line = true ->
      applyDeltaMemCheck c lines !! i = Some line
      /\ applyDeltaMemCheck c lines
           !! (length lines + length (sentinel c) + i)%nat = Some line).
Proof.
  split.
  - intros c rest Hflag Htype.
    exists (JS.replaceFrom re_0x_not_d "d0x" (Some "4"%char) 0
              (JS.replaceFrom re_0xH "d0xH" (Some "4"%char) 0 rest)),
           (JS.replaceFrom re_d0x_not_H "0x" (Some "4"%char) 0
              (JS.replaceFrom re_d0xH "0xH" (Some "4"%char) 0 rest)).
    split.
    + rewrite applyDeltaMemCheck_blocks by (rewrite Htype; reflexivity).
      unfold sentinel. rewrite Hflag. reflexivity.
    + intros ->. split; reflexivity.
  - intros c lines i line Hdm Hi Hadd.
    rewrite applyDeltaMemCheck_blocks by exact Hdm.
    assert (Hd : map deltaOf lines !! i = Some line).
    { apply lookup_map_fixed; [exact Hi|]. unfold deltaOf. by rewrite Hadd. }
    assert (Hm : map memOf lines !! i = Some line).
    { apply lookup_map_fixed; [exact Hi|]. unfold memOf. by rewrite Hadd. }
    split.
    + rewrite <- app_assoc. apply lookup_app_l_Some. exact Hd.
    + rewrite lookup_app_r; rewrite length_app, length_map; [|lia].
      replace (length lines + length (sentinel c) + i
               - (length lines + length (sentinel c)))%nat with i by lia.
      apply lookup_app_l_Some. exact Hm.
Qed.

Definition addSourceMem : Predicate :=
  {| flag := "A:"; type := Mem; size := "16-bit"; memory := "0x1234";
     cmp := ""; compareType := Value; compareSize := "8-bit";
     value := "0"; hits := "" |}.

Lemma applyDeltaMemCheck_example_and_add_address_witness :
  applyDeltaMemCheck addSourceMem ["A:0x1234"]
  = ["A:d0x1234"; "0=0"; "A:0x1234"; "0=0"]
  /\ applyDeltaMemCheck addSourceMem ["I:0x10"; "A:0x1234"] !! 0%nat
     = Some "I:0x10"
  /\ applyDeltaMemCheck addSourceMem ["I:0x10"; "A:0x1234"] !! 3%nat
     = Some "I:0x10".
Proof.
  destruct applyDeltaMemCheck_example_and_add_address as [Hex Hadd].
  split.
  - destruct (Hex addSourceMem "" eq_refl eq_refl) as (d & m & Heq & Hrest).
    destruct (Hrest eq_refl) as [-> ->]. exact Heq.
  - exact (Hadd addSourceMem ["I:0x10"; "A:0x1234"] 0%nat "I:0x10"
             eq_refl eq_refl eq_refl).
Defined.

End DeltaMem.

(** ** Facts on the string primitives *)

Section StringFacts.

Lemma string_app_cons a (s r : string) : String a s +:+ r = String a (s +:+ r).
Proof. reflexivity. Qed.

Lemma string_app_nil_l (r : string) : "" +:+ r = r.
Proof. reflexivity. Qed.

Lemma prefix_spec p : forall s,
  String.prefix p s = true <-> exists r, s = p +:+ r.
Proof.
  induction p as [|a p IH]; intros s; simpl.
  - split; [intros _; exists s; reflexivity | intros _; by destruct s].
  - destruct s as [|b s]; simpl.
    + split; [discriminate | intros [r Hr]; discriminate].
    + setoid_rewrite string_app_cons.
      destruct (Ascii.ascii_dec a b) as [->|Hne].
      * rewrite IH. split; intros [r Hr]; exists r; congruence.
      * split; [discriminate | intros [r Hr]; congruence].
Qed.

Lemma prefix_app p r : String.prefix p (p +:+ r) = true.
Proof. apply prefix_spec. by exists r. Qed.

Lemma dropChars_app p r : JS.dropChars (String.length p) (p +:+ r) = r.
Proof. induction p; [reflexivity|]. rewrite string_app_cons. simpl. auto. Qed.

Lemma string_app_assoc (a b c : string) : (a +:+ b) +:+ c = a +:+ (b +:+ c).
Proof.
  induction a; [reflexivity|]. rewrite !string_app_cons. congruence.
Qed.

Lemma string_app_nil_r (a : string) : a +:+ "" = a.
Proof. induction a; [reflexivity|]. rewrite string_app_cons. congruence. Qed.

Lemma string_app_length (a b : string) :
  String.length (a +:+ b) = (String.length a + String.length b)%nat.
Proof.
  induction a; [reflexivity|]. rewrite string_app_cons. simpl. congruence.
Qed.

(** A global replacement cannot touch two leading characters that differ
    from the first character of its literal. *)
Lemma replaceAll_keeps_two p rep a b x lit' rest :
  JS.literal p = String x lit' -> a <> x -> b <> x ->
  JS.replaceAll p rep (String a (String b rest))
  = String a (String b (JS.replaceFrom p rep (Some b) 0 rest)).
Proof.
  intros Hlit Ha Hb. unfold JS.replaceAll. simpl.
  assert (Hno : forall prev c s, c <> x ->
            JS.matchesAt p prev (String c s) = false).
  { intros prev c s Hc. unfold JS.matchesAt. rewrite Hlit. simpl.
    destruct (Ascii.ascii_dec x c) as [Heq|_]; [by destruct Hc|].
    by rewrite andb_false_r. }
  rewrite (Hno None a _ Ha). f_equal.
  destruct rest as [|c rest]; simpl.
  - by rewrite (Hno (Some a) b _ Hb).
  - by rewrite (Hno (Some a) b _ Hb).
Qed.

End StringFacts.

(** ** And/Or-Next pass *)

Section AndOrNext.

(** The lines the [forEach] of [applyAndOrNextCheck] pushes, from index
    [index] on, for an input of [n] lines. *)
Fixpoint andNextFrom (n index : nat) (lines : list string) : list string :=
  match lines with
  | [] => []
  | l :: tl => toAndNextLine (Nat.eqb (S index) n) l :: andNextFrom n (S index) tl
  end.

Fixpoint orNextFrom (n index : nat) (lines : list string) : list string :=
  match lines with
  | [] => []
  | l :: tl => toOrNextLine (Nat.eqb (S index) n) l :: orNextFrom n (S index) tl
  end.

Lemma andOrNext_fold n lines : forall index al ol,
  fold_left (andOrNextStep n) lines (index, (al, ol))
  = ((index + length lines)%nat,
     (al ++ andNextFrom n index lines, ol ++ orNextFrom n index lines)).
Proof.
  induction lines as [|l lines IH]; intros index al ol; simpl.
  - rewrite !app_nil_r. f_equal. lia.
  - rewrite IH, <- !app_assoc. simpl. f_equal. lia.
Qed.

Lemma andNextFrom_lookup n lines : forall index i,
  andNextFrom n index lines !! i
  = toAndNextLine (Nat.eqb (S (index + i)) n) <$> lines !! i.
Proof.
  induction lines as [|l lines IH]; intros index i; [reflexivity|].
  destruct i as [|i]; simpl.
  - by rewrite Nat.add_0_r.
  - rewrite IH. by replace (S index + i)%nat with (index + S i)%nat by lia.
Qed.

Lemma orNextFrom_lookup n lines : forall index i,
  orNextFrom n index lines !! i
  = toOrNextLine (Nat.eqb (S (index + i)) n) <$> lines !! i.
Proof.
  induction lines as [|l lines IH]; intros index i; [reflexivity|].
  destruct i as [|i]; simpl.
  - by rewrite Nat.add_0_r.
  - rewrite IH. by replace (S index + i)%nat with (index + S i)%nat by lia.
Qed.

Lemma andNextFrom_length n lines : forall index,
  length (andNextFrom n index lines) = length lines.
Proof. induction lines; intros; simpl; auto. Qed.

Lemma orNextFrom_length n lines : forall index,
  length (orNextFrom n index lines) = length lines.
Proof. induction lines; intros; simpl; auto. Qed.

Lemma applyAndOrNextCheck_blocks c lines :
  isDeltaOrMem (type c) || isDeltaOrMem (compareType c) = true ->
  applyAndOrNextCheck c lines
  = andNextFrom (length lines) 0 lines ++ orNextFrom (length lines) 0 lines.
Proof.
  intros Hdm. unfold applyAndOrNextCheck.
  replace (negb (isDeltaOrMem (type c)) && negb (isDeltaOrMem (compareType c)))
    with false
    by (destruct (isDeltaOrMem (type c)), (isDeltaOrMem (compareType c));
        simpl in *; congruence).
  by rewrite andOrNext_fold.
Qed.

(** The modifier and comparator rewrites leave a leading [N:] or [O:]
    in place: none of their patterns starts with a letter or a colon. *)
Lemma rewrites_keep_flag (a : ascii) (rest : string) :
  a = "N"%char \/ a = "O"%char ->
  exists rest', invertComparisons (swapMemDelta (String a (String ":" rest)))
                = String a (String ":" rest').
Proof.
  intros Ha. unfold invertComparisons, swapMemDelta, toMemLine, toDeltaLine.
  repeat (erewrite replaceAll_keeps_two;
          [ | reflexivity | destruct Ha as [-> | ->]; discriminate | discriminate ]).
  eexists. reflexivity.
Qed.

Lemma replaceAtStart_hit (a b : ascii) (rest : string) :
  JS.replaceAtStart (String a ":") (String b ":") (String a (String ":" rest))
  = String b (String ":" rest).
Proof.
  unfold JS.replaceAtStart.
  change (String a (String ":" rest)) with (String a ":" +:+ rest).
  by rewrite prefix_app, dropChars_app.
Qed.

Lemma replaceAtStart_miss (a c : ascii) (rep rest : string) :
  a <> c ->
  JS.replaceAtStart (String a ":") rep (String c rest) = String c rest.
Proof.
  intros Hne. unfold JS.replaceAtStart. simpl.
  by destruct (Ascii.ascii_dec a c).
Qed.

Lemma startsWith_flag (a : ascii) (line : string) :
  JS.startsWith (String a ":") line = true ->
  exists rest, line = String a (String ":" rest).
Proof. intros H. apply prefix_spec in H as [r ->]. by exists r. Qed.

(** The rewrite the claim describes for a non-final line, word for word:
    the flag is swapped ([O:] to [N:] and back), the Delta modifier is
    swapped on every address ([d0x] to [0x] and back) and the comparator is
    inverted ([=] and [!=], [>] and [<=], [<] and [>=]), all in one pass. *)
Definition claimedTokens : list (string * string) :=
  [("d0x", "0x"); ("0x", "d0x");
   ("!=", "="); ("<=", ">"); (">=", "<"); ("=", "!="); ("<", ">="); (">", "<=")].

Fixpoint firstToken (table : list (string * string)) (s : string)
    : option (string * string) :=
  match table with
  | [] => None
  | (k, v) :: tl => if String.prefix k s then Some (k, v) else firstToken tl s
  end.

Fixpoint rewriteTokens (table : list (string * string)) (skip : nat) (s : string)
    : string :=
  match s with
  | EmptyString => EmptyString
  | String c s' =>
      match skip with
      | S k => rewriteTokens table k s'
      | O =>
          match firstToken table s with
          | Some (k, v) => v +:+ rewriteTokens table (String.length k - 1) s'
          | None => String c (rewriteTokens table 0 s')
          end
      end
  end.

Definition claimedSwapFlag (line : string) : string :=
  if String.prefix "O:" line then JS.replaceAtStart "O:" "N:" line
  else JS.replaceAtStart "N:" "O:" line.

Definition claimedNextLine (line : string) : string :=
  match claimedSwapFlag line with
  | String a (String b rest) =>
      String a (String b (rewriteTokens claimedTokens 0 rest))
  | s => s
  end.

Definition andNextGroup : Predicate :=
  {| flag := "N:"; type := Delta; size := "16-bit"; memory := "0x1234";
     cmp := "="; compareType := Value; compareSize := "8-bit";
     value := "5"; hits := "0" |}.

(** C2, as stated, fails: on two expanded lines of an [N:] group with a
    Delta operand the first line of the and-next variant is not the claimed
    rewrite of the input line: its flag is still [N:] and its comparator is
    still [=]. *)
Lemma applyAndOrNextCheck_not_claimed_rewrite :
  let lines := ["N:d0x1234=5"; "N:d0x1235=5"] in
  claimedNextLine "N:d0x1234=5" = "O:0x1234!=5"
  /\ applyAndOrNextCheck andNextGroup lines !! 0%nat = Some "N:0x1234=5"
  /\ applyAndOrNextCheck andNextGroup lines !! 0%nat
     <> Some (claimedNextLine "N:d0x1234=5").
Proof. repeat split; vm_compute; congruence. Qed.

(** C2, amended.  When the pass applies, the result is an and-next block
    followed by an or-next block, each with one line per input line; the
    final line of each block is the final input line, unchanged; and a
    non-final line that starts with [O:] or [N:] starts with [N:] in the
    and-next block and with [O:] in the or-next block. *)
Theorem applyAndOrNextCheck_blocks_flags_and_last
    (c : Predicate) (lines : list string)
    (Hdm : isDeltaOrMem (type c) || isDeltaOrMem (compareType c) = true) :
  exists andNextLines orNextLines : list string,
    applyAndOrNextCheck c lines = andNextLines ++ orNextLines
    /\ length andNextLines = length lines
    /\ length orNextLines = length lines
    /\ (forall line, lines !! (length lines - 1)%nat = Some line ->
          andNextLines !! (length lines - 1)%nat = Some line
          /\ orNextLines !! (length lines - 1)%nat = Some line)
    /\ (forall i line, (S i < length lines)%nat -> lines !! i = Some line ->
          JS.startsWith "O:" line = true \/ JS.startsWith "N:" line = true ->
          exists a o, andNextLines !! i = Some a /\ orNextLines !! i = Some o
                      /\ JS.startsWith "N:" a = true
                      /\ JS.startsWith "O:" o = true).
Proof.
  exists (andNextFrom (length lines) 0 lines), (orNextFrom (length lines) 0 lines).
  split; [by apply applyAndOrNextCheck_blocks|].
  split; [apply andNextFrom_length|].
  split; [apply orNextFrom_length|].
  split.
  - intros line Hlast.
    assert (Hn : (0 < length lines)%nat).
    { apply lookup_lt_Some in Hlast. lia. }
    rewrite andNextFrom_lookup, orNextFrom_lookup, Hlast.
    replace (S (0 + (length lines - 1))) with (length lines) by lia.
    rewrite Nat.eqb_refl. split; reflexivity.
  - intros i line Hi Hline Hflag.
    rewrite andNextFrom_lookup, orNextFrom_lookup, Hline.
    replace (Nat.eqb (S (0 + i)) (length lines)) with false
      by (symmetry; apply Nat.eqb_neq; lia).
    do 2 eexists. split; [reflexivity|]. split; [reflexivity|].
    unfold toAndNextLine, toOrNextLine.
    destruct Hflag as [Hflag|Hflag];
      apply startsWith_flag in Hflag as [rest ->];
      rewrite ?replaceAtStart_hit, ?replaceAtStart_miss by discriminate.
    + destruct (rewrites_keep_flag "N" rest (or_introl eq_refl)) as [r1 ->].
      destruct (rewrites_keep_flag "O" rest (or_intror eq_refl)) as [r2 ->].
      split; [exact (prefix_app "N:" r1) | exact (prefix_app "O:" r2)].
    + destruct (rewrites_keep_flag "N" rest (or_introl eq_refl)) as [r1 ->].
      destruct (rewrites_keep_flag "O" rest (or_intror eq_refl)) as [r2 ->].
      split; [exact (prefix_app "N:" r1) | exact (prefix_app "O:" r2)].
Qed.

Lemma applyAndOrNextCheck_blocks_flags_and_last_witness :
  exists andNextLines orNextLines : list string,
    applyAndOrNextCheck andNextGroup ["O:d0x1234=5"; "N:d0x1235=5"]
    = andNextLines ++ orNextLines
    /\ length andNextLines = 2%nat.
Proof.
  destruct (applyAndOrNextCheck_blocks_flags_and_last andNextGroup
              ["O:d0x1234=5"; "N:d0x1235=5"] eq_refl)
    as (a & o & Heq & Ha & _).
  exists a, o. split; [exact Heq | exact Ha].
Defined.

End AndOrNext.

(** ** Bit-compression pass *)

Section BitCompression.

(** *** The pass in the words of its description

    A run is either a line that is no single-bit comparison, or a
    non-empty sequence of consecutive single-bit comparison lines on one
    address with one type modifier; each member is kept with the capture
    groups of its match. *)
Inductive Run :=
| Other (line : string)
| BitRun (addr typePrefix : string) (members : list (string * BitMatch)).

Definition sameKey (a t : string) (m : BitMatch) : bool :=
  String.eqb a (m_addr m) && String.eqb t (m_typePrefix m).

(** A line joins the run that starts right after it when both are on the
    same address with the same modifier. *)
Definition consLine (l : string) (m : BitMatch) (rs : list Run) : list Run :=
  match rs with
  | BitRun a t ms :: rs' =>
      if sameKey a t m
      then BitRun (m_addr m) (m_typePrefix m) ((l, m) :: ms) :: rs'
      else BitRun (m_addr m) (m_typePrefix m) [(l, m)] :: rs
  | _ => BitRun (m_addr m) (m_typePrefix m) [(l, m)] :: rs
  end.

Fixpoint maximalRuns (lines : list string) : list Run :=
  match lines with
  | [] => []
  | l :: tl =>
      match matchBitLine l with
      | None => Other l :: maximalRuns tl
      | Some m => consLine l m (maximalRuns tl)
      end
  end.

Definition runLines (r : Run) : list string :=
  match r with
  | Other l => [l]
  | BitRun _ _ ms => map fst ms
  end.

Definition bitOf (lm : string * BitMatch) : Z := indexOf bitLetters (m_bit (snd lm)).
Definition flagOf (lm : string * BitMatch) : string := m_prefix (snd lm).

(** The flag of the last line of a run. *)
Definition lastFlag (ms : list (string * BitMatch)) : string :=
  List.last (map flagOf ms) EmptyString.

(** At least five members, the last one flagged [A:] or [B:]. *)
Definition runQualifies (r : Run) : bool :=
  match r with
  | Other _ => false
  | BitRun _ _ ms => (5 <=? length ms)%nat && isSourceFlag (lastFlag ms)
  end.

(** The bits 0..7 no member of the run tests. *)
Definition absentBits (ms : list (string * BitMatch)) : list Z :=
  List.filter (fun bit => negb (existsb (Z.eqb bit) (map bitOf ms)))
    [0; 1; 2; 3; 4; 5; 6; 7].

Definition oppositeFlag (f : string) : string :=
  if String.eqb f "B:" then "A:" else "B:".

Definition aggregateLine (f t a : string) : string :=
  f +:+ t +:+ "0xK" +:+ a.

Definition correctionLine (f t a : string) (bit : Z) : string :=
  oppositeFlag f +:+ t +:+ "0x" +:+ bitLetterAt bit +:+ a.

Definition rewriteRun (r : Run) : list string :=
  match r with
  | Other l => [l]
  | BitRun a t ms =>
      if runQualifies r then
        let f := lastFlag ms in
        let corrections := map (correctionLine f t a) (absentBits ms) in
        if String.eqb f "A:"
        then aggregateLine f t a :: corrections
        else corrections ++ [aggregateLine f t a]
      else map fst ms
  end.

(** *** From the groups of the source to runs *)

Definition rawGroup (r : Run) : Group :=
  match r with
  | Other l => standaloneGroup l
  | BitRun a t ms =>
      {| g_addr := a; g_typePrefix := t; g_bits := Some (map bitOf ms);
         g_lines := map fst ms; g_prefixes := map flagOf ms;
         g_hasCompressibleFlag := false |}
  end.

(** The open group joins the first run of what follows when it can. *)
Definition mergeRun (cur : option (string * string * list (string * BitMatch)))
    (rs : list Run) : list Run :=
  match cur with
  | None => rs
  | Some (a, t, ms) =>
      match rs with
      | BitRun a' t' ms' :: rs' =>
          if String.eqb a a' && String.eqb t t'
          then BitRun a t (ms ++ ms') :: rs'
          else BitRun a t ms :: rs
      | _ => BitRun a t ms :: rs
      end
  end.

Definition curGroup (cur : option (string * string * list (string * BitMatch)))
    : option Group :=
  match cur with
  | Some (a, t, ms) => Some (rawGroup (BitRun a t ms))
  | None => None
  end.

Lemma existsb_bitLetters_index b :
  existsb (Ascii.eqb b) bitLetters = true -> 0 <= indexOf bitLetters b <= 7.
Proof.
  unfold bitLetters, indexOf. cbn [existsb indexOfFrom].
  rewrite !(Ascii.eqb_sym b).
  repeat match goal with
         | |- context [Ascii.eqb ?x b] =>
             destruct (Ascii.eqb x b); [intros _; lia|]
         end.
  discriminate.
Qed.

Definition validTypePrefix (t : string) : bool :=
  existsb (String.eqb t) [""; "d"; "p"; "b"; "~"].

Fixpoint allUpperHex (s : string) : bool :=
  match s with
  | EmptyString => true
  | String c s' => JS.isUpperHexDigit c && allUpperHex s'
  end.

(** What a successful match guarantees about its capture groups. *)
Definition MatchOk (m : BitMatch) : Prop :=
  (m_prefix m = "" \/ m_prefix m = "A:" \/ m_prefix m = "B:")
  /\ validTypePrefix (m_typePrefix m) = true
  /\ existsb (Ascii.eqb (m_bit m)) bitLetters = true
  /\ m_addr m <> "" /\ allUpperHex (m_addr m) = true.

Lemma spanUpperHex_fst s : allUpperHex (fst (spanUpperHex s)) = true.
Proof.
  induction s as [|c s IH]; [reflexivity|]. cbn [spanUpperHex].
  destruct (JS.isUpperHexDigit c) eqn:Hc; [|reflexivity].
  destruct (spanUpperHex s) as [d r]. cbn in *. by rewrite Hc, IH.
Qed.

Lemma matchBitBody_ok s b a :
  matchBitBody s = Some (b, a) ->
  existsb (Ascii.eqb b) bitLetters = true /\ a <> "" /\ allUpperHex a = true.
Proof.
  unfold matchBitBody.
  destruct s as [|c0 [|c1 [|c2 rest]]]; try discriminate;
    repeat match goal with
           | |- context [if ?b then _ else _] => destruct b eqn:?; try discriminate
           end.
  pose proof (spanUpperHex_fst rest) as Hh.
  destruct (spanUpperHex rest) as [[|x d] r]; [discriminate|].
  intros [= <- <-]. by repeat split.
Qed.

Lemma matchBitTyped_ok s t b a :
  matchBitTyped s = Some (t, b, a) ->
  validTypePrefix t = true
  /\ existsb (Ascii.eqb b) bitLetters = true /\ a <> "" /\ allUpperHex a = true.
Proof.
  unfold matchBitTyped. intros H.
  assert (Hw : forall s', match matchBitBody s' with
                          | Some (b0, a0) => Some (EmptyString, b0, a0)
                          | None => None
                          end = Some (t, b, a) ->
            validTypePrefix t = true
            /\ existsb (Ascii.eqb b) bitLetters = true
            /\ a <> "" /\ allUpperHex a = true).
  { intros s'. destruct (matchBitBody s') as [[b0 a0]|] eqn:E; [|discriminate].
    intros [= <- <- <-]. split; [reflexivity|]. eapply matchBitBody_ok; eauto. }
  destruct s as [|c s']; [by apply (Hw EmptyString)|].
  destruct (existsb (Ascii.eqb c) _) eqn:Hc; [|by apply (Hw (String c s'))].
  destruct (matchBitBody s') as [[b0 a0]|] eqn:E; [|by apply (Hw (String c s'))].
  injection H as <- <- <-. split; [|eapply matchBitBody_ok; eauto].
  cbn [existsb] in Hc. rewrite !orb_true_iff, !Ascii.eqb_eq in Hc.
  destruct Hc as [->|[->|[->|[->|Hc]]]]; try reflexivity; discriminate.
Qed.

Lemma matchBitAt_ok s m : matchBitAt s = Some m -> MatchOk m.
Proof.
  unfold matchBitAt. intros H.
  assert (Hw : forall s', match matchBitTyped s' with
                          | Some (t, b, a) =>
                              Some {| m_prefix := EmptyString; m_typePrefix := t;
                                      m_bit := b; m_addr := a |}
                          | None => None
                          end = Some m -> MatchOk m).
  { intros s'. destruct (matchBitTyped s') as [[[t b] a]|] eqn:E; [|discriminate].
    intros [= <-]. split; [by left|]. cbn. eapply matchBitTyped_ok; eauto. }
  destruct s as [|f [|c s']]; try (by eapply Hw).
  - destruct (Ascii.eqb f "A" || Ascii.eqb f "B"); by eapply Hw.
  - destruct (Ascii.eqb f "A" || Ascii.eqb f "B") eqn:Hf; [|by eapply Hw].
    destruct (Ascii.eqb c ":"); [|by eapply Hw].
    destruct (matchBitTyped s') as [[[t b] a]|] eqn:E; [|by eapply Hw].
    injection H as <-. split; [|cbn; eapply matchBitTyped_ok; eauto].
    cbn. rewrite orb_true_iff, !Ascii.eqb_eq in Hf.
    destruct Hf as [-> | ->]; auto.
Qed.

Lemma matchBitLine_ok line : forall m, matchBitLine line = Some m -> MatchOk m.
Proof.
  induction line as [|c line IH]; intros m; cbn [matchBitLine].
  - destruct (matchBitAt EmptyString) eqn:E; [|discriminate].
    intros [= <-]. eapply matchBitAt_ok; eauto.
  - destruct (matchBitAt (String c line)) eqn:E.
    + intros [= <-]. eapply matchBitAt_ok; eauto.
    + apply IH.
Qed.

Lemma matchBitLine_bit line m :
  matchBitLine line = Some m -> 0 <= indexOf bitLetters (m_bit m) <= 7.
Proof.
  intros H. apply existsb_bitLetters_index.
  by destruct (matchBitLine_ok _ _ H) as (_ & _ & Hb & _).
Qed.

Definition curRuns (cur : option (string * string * list (string * BitMatch)))
    : list Run :=
  match cur with
  | Some (a, t, ms) => [BitRun a t ms]
  | None => []
  end.

Lemma pushCurrent_runs done cur :
  pushCurrent (map rawGroup done) (curGroup cur)
  = map rawGroup (done ++ curRuns cur).
Proof.
  destruct cur as [[[a t] ms]|]; simpl.
  - by rewrite map_app.
  - by rewrite app_nil_r.
Qed.

Lemma mergeRun_single l m rs :
  mergeRun (Some (m_addr m, m_typePrefix m, [(l, m)])) rs = consLine l m rs.
Proof.
  unfold mergeRun, consLine, sameKey.
  destruct rs as [|[l'|a t ms] rs]; try reflexivity.
  by rewrite (String.eqb_sym a), (String.eqb_sym t).
Qed.

Lemma consLine_head l m rs :
  exists ms rs', consLine l m rs = BitRun (m_addr m) (m_typePrefix m) ms :: rs'.
Proof.
  unfold consLine. destruct rs as [|[l'|a t ms] rs]; eauto.
  destruct (sameKey a t m); eauto.
Qed.

Lemma mergeRun_continue a t ms l m rs :
  String.eqb a (m_addr m) = true -> String.eqb t (m_typePrefix m) = true ->
  mergeRun (Some (a, t, ms ++ [(l, m)])) rs
  = mergeRun (Some (a, t, ms)) (consLine l m rs).
Proof.
  intros Ha Ht.
  pose proof Ha as Ha'. pose proof Ht as Ht'.
  apply String.eqb_eq in Ha'. apply String.eqb_eq in Ht'.
  unfold mergeRun, consLine, sameKey. rewrite <- Ha', <- Ht'.
  destruct rs as [|[l'|a' t' ms'] rs]; rewrite ?String.eqb_refl; simpl;
    try reflexivity.
  rewrite (String.eqb_sym a'), (String.eqb_sym t').
  destruct (String.eqb a a' && String.eqb t t'); rewrite ?String.eqb_refl; simpl.
  - by rewrite <- app_assoc.
  - reflexivity.
Qed.

(** [maximalRuns] one line at a time. *)
Definition stepRuns (l : string) (rs : list Run) : list Run :=
  match matchBitLine l with
  | None => Other l :: rs
  | Some m => consLine l m rs
  end.

(** One turn of the first pass, seen on runs. *)
Lemma groupStep_runs done cur l :
  exists done' cur',
    groupStep (map rawGroup done, curGroup cur) l
    = (map rawGroup done', curGroup cur')
    /\ forall rs, done' ++ mergeRun cur' rs = done ++ mergeRun cur (stepRuns l rs).
Proof.
  unfold groupStep, stepRuns.
  destruct (matchBitLine l) as [m|] eqn:Hm.
  - pose proof (matchBitLine_bit _ _ Hm) as Hbit.
    replace (indexOf bitLetters (m_bit m) =? -1) with false
      by (symmetry; apply Z.eqb_neq; lia).
    destruct cur as [[[a t] ms]|]; cbn [curGroup].
    + cbn [rawGroup g_addr g_typePrefix].
      destruct (String.eqb a (m_addr m)) eqn:Ha;
        [destruct (String.eqb t (m_typePrefix m)) eqn:Ht|]; cbn [negb orb].
      * exists done, (Some (a, t, ms ++ [(l, m)])). split.
        -- unfold continueGroup. cbn. by rewrite !map_app.
        -- intros rs. by rewrite mergeRun_continue.
      * exists (done ++ [BitRun a t ms]),
               (Some (m_addr m, m_typePrefix m, [(l, m)])). split.
        -- by rewrite map_app.
        -- intros rs. rewrite mergeRun_single, <- app_assoc. f_equal.
           destruct (consLine_head l m rs) as (ms' & rs' & ->).
           cbn [mergeRun app]. by rewrite Ha, Ht.
      * exists (done ++ [BitRun a t ms]),
               (Some (m_addr m, m_typePrefix m, [(l, m)])). split.
        -- by rewrite map_app.
        -- intros rs. rewrite mergeRun_single, <- app_assoc. f_equal.
           destruct (consLine_head l m rs) as (ms' & rs' & ->).
           cbn [mergeRun app]. by rewrite Ha.
    + exists done, (Some (m_addr m, m_typePrefix m, [(l, m)])). split.
      * reflexivity.
      * intros rs. by rewrite mergeRun_single.
  - exists (done ++ curRuns cur ++ [Other l]), None. split.
    + rewrite pushCurrent_runs, !map_app, <- app_assoc. reflexivity.
    + intros rs. rewrite <- !app_assoc. f_equal.
      by destruct cur as [[[a t] ms]|].
Qed.

(** The first pass computes the maximal runs: whatever groups are closed
    and whichever group is open, the groups at the end are the closed ones
    followed by the runs of the remaining lines, the open group absorbing
    the first of them when address and modifier agree. *)
Lemma groupStep_fold lines : forall done cur,
  let st := fold_left groupStep lines (map rawGroup done, curGroup cur) in
  pushCurrent (fst st) (snd st)
  = map rawGroup (done ++ mergeRun cur (maximalRuns lines)).
Proof.
  induction lines as [|l lines IH]; intros done cur.
  - simpl. rewrite pushCurrent_runs.
    by destruct cur as [[[a t] ms]|].
  - cbn [fold_left].
    destruct (groupStep_runs done cur l) as (done' & cur' & -> & Hrs).
    cbv zeta in IH |- *. rewrite IH, Hrs. reflexivity.
Qed.

Lemma buildGroups_runs lines :
  buildGroups lines = map (fun r => markGroup (rawGroup r)) (maximalRuns lines).
Proof.
  unfold buildGroups.
  pose proof (groupStep_fold lines [] None) as H. cbn in H.
  destruct (fold_left groupStep lines ([], None)) as [gs c].
  cbn in H. rewrite H. by rewrite map_map.
Qed.

Lemma isCompressible_run r :
  isCompressible (markGroup (rawGroup r)) = runQualifies r.
Proof.
  destruct r as [l|a t ms]; [reflexivity|].
  unfold isCompressible, markGroup, rawGroup, runQualifies, lastPrefix, lastFlag.
  cbn. by rewrite length_map.
Qed.

Lemma isSourceFlag_cases f :
  isSourceFlag f = true -> f = "A:" \/ f = "B:".
Proof.
  unfold isSourceFlag. rewrite orb_true_iff, !String.eqb_eq. tauto.
Qed.

Lemma emitGroup_run r : emitGroup (markGroup (rawGroup r)) = rewriteRun r.
Proof.
  unfold emitGroup. rewrite isCompressible_run.
  destruct r as [l|a t ms]; [reflexivity|].
  unfold rewriteRun.
  destruct (runQualifies (BitRun a t ms)) eqn:Hq; [|reflexivity].
  apply andb_true_iff in Hq as [_ Hf]. apply isSourceFlag_cases in Hf.
  unfold markGroup, rawGroup, lastPrefix. cbn.
  fold (lastFlag ms). fold (absentBits ms).
  unfold correctionLine, aggregateLine, oppositeFlag.
  destruct Hf as [-> | ->]; reflexivity.
Qed.

Lemma rewriteRun_unqualified r :
  runQualifies r = false -> rewriteRun r = runLines r.
Proof.
  destruct r as [l|a t ms]; [reflexivity|].
  unfold rewriteRun. by intros ->.
Qed.

Lemma runLines_consLine l m rs :
  flat_map runLines (consLine l m rs) = l :: flat_map runLines rs.
Proof.
  unfold consLine. destruct rs as [|[l'|a t ms] rs]; try reflexivity.
  destruct (sameKey a t m); reflexivity.
Qed.

(** The runs partition the input. *)
Lemma maximalRuns_partition lines :
  flat_map runLines (maximalRuns lines) = lines.
Proof.
  induction lines as [|l lines IH]; [reflexivity|].
  cbn [maximalRuns]. destruct (matchBitLine l).
  - by rewrite runLines_consLine, IH.
  - cbn. by rewrite IH.
Qed.

Lemma flat_map_unqualified rs :
  existsb runQualifies rs = false ->
  flat_map rewriteRun rs = flat_map runLines rs.
Proof.
  induction rs as [|r rs IH]; [reflexivity|].
  cbn. rewrite orb_false_iff. intros [Hr Hrs].
  by rewrite rewriteRun_unqualified, IH.
Qed.

(** [compressBits] rewrites run by run. *)
Lemma compressBits_runs lines :
  compressBits lines = flat_map rewriteRun (maximalRuns lines).
Proof.
  unfold compressBits. rewrite buildGroups_runs.
  assert (He : existsb isCompressible
                 (map (fun r => markGroup (rawGroup r)) (maximalRuns lines))
               = existsb runQualifies (maximalRuns lines)).
  { induction (maximalRuns lines) as [|r rs IH]; [reflexivity|].
    cbn. by rewrite isCompressible_run, IH. }
  rewrite He.
  destruct (existsb runQualifies (maximalRuns lines)) eqn:Hq; cbn [negb].
  - induction (maximalRuns lines) as [|r rs IH]; [reflexivity|].
    cbn. rewrite emitGroup_run. f_equal.
    clear -rs. induction rs as [|r' rs IH]; [reflexivity|].
    cbn. by rewrite emitGroup_run, IH.
  - by rewrite flat_map_unqualified, maximalRuns_partition.
Qed.

(** Every member of a run is a single-bit comparison on the address and
    with the modifier of the run; other lines are no such comparison. *)
Definition RunOk (r : Run) : Prop :=
  match r with
  | Other l => matchBitLine l = None
  | BitRun a t ms =>
      ms <> []
      /\ Forall (fun lm => matchBitLine (fst lm) = Some (snd lm)
                           /\ m_addr (snd lm) = a
                           /\ m_typePrefix (snd lm) = t) ms
  end.

(** Runs are maximal: two neighbours never agree on address and modifier. *)
Fixpoint Separated (rs : list Run) : Prop :=
  match rs with
  | [] => True
  | r :: tl =>
      match r, tl with
      | BitRun a t _, BitRun a' t' _ :: _ => (a, t) <> (a', t')
      | _, _ => True
      end /\ Separated tl
  end.

Lemma sameKey_true a t m :
  sameKey a t m = true <-> a = m_addr m /\ t = m_typePrefix m.
Proof. unfold sameKey. by rewrite andb_true_iff, !String.eqb_eq. Qed.

Lemma maximalRuns_ok lines : Forall RunOk (maximalRuns lines).
Proof.
  induction lines as [|l lines IH]; [constructor|].
  cbn [maximalRuns]. destruct (matchBitLine l) as [m|] eqn:Hm.
  - unfold consLine.
    destruct (maximalRuns lines) as [|[l'|a t ms] rs].
    + repeat constructor; auto.
    + constructor; [|exact IH]. repeat constructor; auto.
    + destruct (sameKey a t m) eqn:Hk.
      * apply sameKey_true in Hk as [-> ->].
        inversion IH as [|? ? Hhd Hrs]; subst. destruct Hhd as [Hne Hall].
        constructor; [|exact Hrs]. split; [discriminate|].
        constructor; auto.
      * constructor; [|exact IH]. repeat constructor; auto.
  - constructor; [exact Hm | exact IH].
Qed.

Lemma maximalRuns_separated lines : Separated (maximalRuns lines).
Proof.
  induction lines as [|l lines IH]; [exact I|].
  cbn [maximalRuns]. destruct (matchBitLine l) as [m|] eqn:Hm.
  - unfold consLine.
    destruct (maximalRuns lines) as [|[l'|a t ms] rs] eqn:Hr.
    + by split.
    + by split.
    + destruct (sameKey a t m) eqn:Hk.
      * destruct IH as [Hhd Htl]. split; [|exact Htl].
        apply sameKey_true in Hk as [-> ->]. exact Hhd.
      * split; [|exact IH].
        intros [= <- <-].
        assert (sameKey (m_addr m) (m_typePrefix m) m = true)
          by (by apply sameKey_true).
        congruence.
  - by split.
Qed.

(** *** Lines built by the rewrite, matched again *)

Lemma spanUpperHex_all a : allUpperHex a = true -> spanUpperHex a = (a, EmptyString).
Proof.
  induction a as [|c a IH]; [reflexivity|]. cbn [allUpperHex spanUpperHex].
  intros [Hc Ha]%andb_true_iff. by rewrite Hc, IH.
Qed.

Lemma matchBitBody_built b a :
  existsb (Ascii.eqb b) bitLetters = true -> a <> "" -> allUpperHex a = true ->
  matchBitBody (String "0" (String "x" (String b a))) = Some (b, a).
Proof.
  intros Hb Hne Ha. unfold matchBitBody.
  rewrite Hb, (spanUpperHex_all a Ha). by destruct a.
Qed.

Lemma validTypePrefix_cases t :
  validTypePrefix t = true ->
  t = "" \/ t = "d" \/ t = "p" \/ t = "b" \/ t = "~".
Proof.
  unfold validTypePrefix. cbn [existsb].
  rewrite !orb_true_iff, !String.eqb_eq. intuition discriminate.
Qed.

Lemma matchBitTyped_built t b a :
  validTypePrefix t = true ->
  existsb (Ascii.eqb b) bitLetters = true -> a <> "" -> allUpperHex a = true ->
  matchBitTyped (t +:+ String "0" (String "x" (String b a))) = Some (t, b, a).
Proof.
  intros Ht Hb Hne Ha.
  pose proof (matchBitBody_built b a Hb Hne Ha) as Hbody.
  apply validTypePrefix_cases in Ht as [->|[->|[->|[->| ->]]]];
    rewrite ?string_app_cons, ?string_app_nil_l;
    unfold matchBitTyped; rewrite Hbody; reflexivity.
Qed.

Lemma matchBitLine_built f t b a :
  f = "A:" \/ f = "B:" -> validTypePrefix t = true ->
  existsb (Ascii.eqb b) bitLetters = true -> a <> "" -> allUpperHex a = true ->
  matchBitLine (f +:+ t +:+ String "0" (String "x" (String b a)))
  = Some {| m_prefix := f; m_typePrefix := t; m_bit := b; m_addr := a |}.
Proof.
  intros Hf Ht Hb Hne Ha.
  pose proof (matchBitTyped_built t b a Ht Hb Hne Ha) as Htyped.
  destruct Hf as [-> | ->]; rewrite ?string_app_cons, ?string_app_nil_l;
    cbn [matchBitLine]; unfold matchBitAt; rewrite Htyped; reflexivity.
Qed.

(** Characters of an upper-case hexadecimal address start no match. *)
Lemma upperHex_char c :
  JS.isUpperHexDigit c = true ->
  Ascii.eqb c ":" = false /\ Ascii.eqb c "x" = false
  /\ existsb (Ascii.eqb c) ["d"; "p"; "b"; "~"]%char = false.
Proof.
  destruct c as [[] [] [] [] [] [] [] []]; vm_compute; intros; try discriminate;
    repeat split.
Qed.

Lemma matchBitAt_upperHex a : allUpperHex a = true -> matchBitAt a = None.
Proof.
  intros Ha.
  assert (Hbody : matchBitBody a = None).
  { unfold matchBitBody. destruct a as [|c0 [|c1 a]]; try reflexivity.
    - by destruct (Ascii.eqb c0 "0").
    - cbn [allUpperHex] in Ha. apply andb_true_iff in Ha as [_ Ha].
      apply andb_true_iff in Ha as [H1 _].
      destruct (upperHex_char c1 H1) as (_ & -> & _).
      by destruct (Ascii.eqb c0 "0"). }
  assert (Htyped : matchBitTyped a = None).
  { unfold matchBitTyped. rewrite Hbody. destruct a as [|c0 a]; [reflexivity|].
    cbn [allUpperHex] in Ha. apply andb_true_iff in Ha as [H0 _].
    destruct (upperHex_char c0 H0) as (_ & _ & ->). reflexivity. }
  unfold matchBitAt. rewrite Htyped.
  destruct a as [|c0 [|c1 a]]; try reflexivity.
  - by destruct (Ascii.eqb c0 "A" || Ascii.eqb c0 "B").
  - cbn [allUpperHex] in Ha. apply andb_true_iff in Ha as [_ Ha].
    apply andb_true_iff in Ha as [H1 _].
    destruct (upperHex_char c1 H1) as (-> & _ & _).
    by destruct (Ascii.eqb c0 "A" || Ascii.eqb c0 "B").
Qed.

Lemma matchBitLine_upperHex a : allUpperHex a = true -> matchBitLine a = None.
Proof.
  induction a as [|c a IH]; intros Ha; cbn [matchBitLine].
  - reflexivity.
  - rewrite (matchBitAt_upperHex _ Ha).
    cbn [allUpperHex] in Ha. apply andb_true_iff in Ha as [_ Ha]. auto.
Qed.

(** The aggregate line is no single-bit comparison: [K] is no bit letter. *)
Lemma matchBitLine_aggregate f t a :
  f = "A:" \/ f = "B:" -> validTypePrefix t = true -> allUpperHex a = true ->
  matchBitLine (aggregateLine f t a) = None.
Proof.
  intros Hf Ht Ha. unfold aggregateLine.
  pose proof (matchBitLine_upperHex a Ha) as Hrest.
  pose proof (matchBitAt_upperHex a Ha) as Hat.
  apply validTypePrefix_cases in Ht.
  destruct Hf as [-> | ->]; destruct Ht as [->|[->|[->|[->| ->]]]];
    rewrite ?string_app_cons, ?string_app_nil_l;
    repeat (cbn [matchBitLine];
            match goal with
            | |- context [matchBitAt (String ?c ?s)] =>
                replace (matchBitAt (String c s)) with (@None BitMatch)
                  by (unfold matchBitAt, matchBitTyped, matchBitBody;
                      destruct a; reflexivity)
            end);
    exact Hrest.
Qed.

Lemma consLine_nil l m :
  consLine l m [] = [BitRun (m_addr m) (m_typePrefix m) [(l, m)]].
Proof. reflexivity. Qed.

Lemma consLine_same l m a t ms rs :
  sameKey a t m = true ->
  consLine l m (BitRun a t ms :: rs)
  = BitRun (m_addr m) (m_typePrefix m) ((l, m) :: ms) :: rs.
Proof. intros H. unfold consLine. by rewrite H. Qed.

Lemma runOk_keys a t ms :
  RunOk (BitRun a t ms) -> validTypePrefix t = true /\ a <> "" /\ allUpperHex a = true.
Proof.
  intros [Hne Hall]. destruct ms as [|[l m] ms]; [done|].
  inversion Hall as [|? ? (Hm & <- & <-) _]; subst.
  destruct (matchBitLine_ok _ _ Hm) as (_ & Ht & _ & Ha & Hh). auto.
Qed.

Lemma rewriteRun_has_aggregate a t ms :
  runQualifies (BitRun a t ms) = true ->
  In (aggregateLine (lastFlag ms) t a) (rewriteRun (BitRun a t ms)).
Proof.
  intros Hq. unfold rewriteRun. rewrite Hq.
  destruct (String.eqb (lastFlag ms) "A:").
  - by left.
  - apply in_or_app. right. by left.
Qed.

(** A qualifying run never comes out unchanged. *)
Lemma rewriteRun_changes r :
  RunOk r -> runQualifies r = true -> rewriteRun r <> runLines r.
Proof.
  destruct r as [l|a t ms]; [discriminate|].
  intros Hok Hq Heq.
  pose proof (rewriteRun_has_aggregate a t ms Hq) as Hin.
  rewrite Heq in Hin. cbn [runLines] in Hin.
  apply in_map_iff in Hin as ([l m] & Hl & Hlm).
  destruct (runOk_keys _ _ _ Hok) as (Ht & _ & Ha).
  destruct Hok as [_ Hall].
  rewrite Forall_forall in Hall. apply list_elem_of_In in Hlm.
  destruct (Hall _ Hlm) as (Hm & _). cbn in Hl, Hm. subst l.
  apply andb_true_iff in Hq as [_ Hf]. apply isSourceFlag_cases in Hf.
  rewrite matchBitLine_aggregate in Hm by assumption. discriminate.
Qed.

(** *** The correction lines in the words of the description

    The selector letters M to T stand for the bits 0 to 7.  A run tests a
    bit when the line of one of its members carries the letter of the bit;
    the bits absent from the run are the bits 0 to 7 it does not test, in
    ascending order. *)
Definition selector (bit : Z) : ascii :=
  match bit with
  | 0 => "M" | 1 => "N" | 2 => "O" | 3 => "P"
  | 4 => "Q" | 5 => "R" | 6 => "S" | 7 => "T"
  | _ => "K"
  end%char.

Definition tested (ms : list (string * BitMatch)) (bit : Z) : bool :=
  existsb (fun lm => Ascii.eqb (m_bit (snd lm)) (selector bit)) ms.

Definition untested (ms : list (string * BitMatch)) : list Z :=
  List.filter (fun bit => negb (tested ms bit)) [0; 1; 2; 3; 4; 5; 6; 7].

(** A single-bit comparison: flag, modifier, [0x], the letter of the bit
    and the address. *)
Definition bitLine (f t : string) (bit : Z) (a : string) : string :=
  f +:+ t +:+ String "0" (String "x" (String (selector bit) a)).

Lemma indexOf_selector c bit :
  In bit [0; 1; 2; 3; 4; 5; 6; 7] ->
  (bit =? indexOf bitLetters c) = Ascii.eqb c (selector bit).
Proof.
  intros Hbit. cbn [In] in Hbit.
  destruct c as [[] [] [] [] [] [] [] []];
    repeat (destruct Hbit as [<-|Hbit]; [vm_compute; reflexivity|]);
    destruct Hbit.
Qed.

Lemma absentBits_untested ms : absentBits ms = untested ms.
Proof.
  unfold absentBits, untested. apply filter_ext_in. intros bit Hbit. f_equal.
  unfold tested. induction ms as [|lm ms IH]; [reflexivity|].
  cbn [map existsb]. unfold bitOf at 1.
  by rewrite (indexOf_selector _ bit Hbit), IH.
Qed.

Lemma untested_range ms bit : In bit (untested ms) -> In bit [0; 1; 2; 3; 4; 5; 6; 7].
Proof. unfold untested. intros H. by apply filter_In in H as [H _]. Qed.

Lemma correctionLine_bitLine f t a bit :
  In bit [0; 1; 2; 3; 4; 5; 6; 7] ->
  correctionLine f t a bit = bitLine (oppositeFlag f) t bit a.
Proof.
  intros Hbit. cbn [In] in Hbit. unfold correctionLine, bitLine.
  repeat (destruct Hbit as [<-|Hbit]; [reflexivity|]). destruct Hbit.
Qed.

Lemma NoDup_list_filter {A} (f : A -> bool) (l : list A) :
  NoDup l -> NoDup (List.filter f l).
Proof.
  induction l as [|x l IH]; [done|]. intros [Hx Hl]%NoDup_cons.
  cbn [List.filter]. destruct (f x); [|by apply IH].
  apply NoDup_cons. split; [|by apply IH].
  rewrite list_elem_of_In. intros [Hin _]%filter_In.
  by apply Hx, list_elem_of_In.
Qed.

Lemma selector_letter bit :
  In bit [0; 1; 2; 3; 4; 5; 6; 7] ->
  existsb (Ascii.eqb (selector bit)) bitLetters = true.
Proof.
  intros Hbit. cbn [In] in Hbit.
  repeat (destruct Hbit as [<-|Hbit]; [reflexivity|]). destruct Hbit.
Qed.



(** *** Compressing twice *)

Definition lineKey (l : string) : option (string * string) :=
  match matchBitLine l with
  | Some m => Some (m_addr m, m_typePrefix m)
  | None => None
  end.

Definition firstKey (ls : list string) : option (string * string) :=
  match ls with
  | l :: _ => lineKey l
  | [] => None
  end.

Fixpoint lastKey (ls : list string) : option (string * string) :=
  match ls with
  | [] => None
  | [l] => lineKey l
  | _ :: tl => lastKey tl
  end.

Lemma stepRuns_app l rs rs' :
  rs <> [] -> stepRuns l (rs ++ rs') = stepRuns l rs ++ rs'.
Proof.
  intros Hne. unfold stepRuns, consLine.
  destruct (matchBitLine l) as [m|]; [|reflexivity].
  destruct rs as [|[l'|a t ms] rs]; [done|reflexivity|].
  cbn [app]. by destruct (sameKey a t m).
Qed.

Lemma maximalRuns_nonempty l ls : maximalRuns (l :: ls) <> [].
Proof.
  cbn [maximalRuns]. destruct (matchBitLine l) as [m|]; [|discriminate].
  destruct (consLine_head l m (maximalRuns ls)) as (ms & rs & ->). discriminate.
Qed.

Lemma stepRuns_boundary l ls :
  (forall k, lineKey l = Some k -> firstKey ls = Some k -> False) ->
  stepRuns l (maximalRuns ls) = stepRuns l [] ++ maximalRuns ls.
Proof.
  intros Hk. unfold stepRuns, lineKey in *.
  destruct (matchBitLine l) as [m|]; [|reflexivity].
  destruct ls as [|l' ls]; [reflexivity|].
  cbn [maximalRuns firstKey] in *. unfold lineKey in Hk.
  destruct (matchBitLine l') as [m'|]; [|reflexivity].
  destruct (consLine_head l' m' (maximalRuns ls)) as (ms & rs & ->).
  unfold consLine at 1.
  destruct (sameKey (m_addr m') (m_typePrefix m') m) eqn:Hs; [|reflexivity].
  apply sameKey_true in Hs as [Ha Ht].
  exfalso. apply (Hk (m_addr m, m_typePrefix m)); [reflexivity|]. congruence.
Qed.

(** Runs of a concatenation: no run spans the seam when the lines on both
    sides of it disagree on address or modifier. *)
Lemma maximalRuns_app l1 : forall l2,
  (forall k, lastKey l1 = Some k -> firstKey l2 = Some k -> False) ->
  maximalRuns (l1 ++ l2) = maximalRuns l1 ++ maximalRuns l2.
Proof.
  induction l1 as [|l l1 IH]; intros l2 Hk; [reflexivity|].
  change (maximalRuns ((l :: l1) ++ l2)) with (stepRuns l (maximalRuns (l1 ++ l2))).
  change (maximalRuns (l :: l1)) with (stepRuns l (maximalRuns l1)).
  destruct l1 as [|l' l1].
  - cbn [app]. rewrite stepRuns_boundary by exact Hk. reflexivity.
  - rewrite IH by exact Hk.
    apply stepRuns_app, maximalRuns_nonempty.
Qed.

(** Every line of [ls] is no bit line or a bit line with key [k]. *)
Definition KeysIn (k : string * string) (ls : list string) : Prop :=
  Forall (fun l => lineKey l = None \/ lineKey l = Some k) ls.

Lemma firstKey_in k ls k' : KeysIn k ls -> firstKey ls = Some k' -> k' = k.
Proof.
  destruct ls as [|l ls]; [discriminate|]. cbn.
  intros H Hk. inversion H as [|? ? [Hl|Hl] _]; subst; congruence.
Qed.

Lemma lastKey_in k ls k' : KeysIn k ls -> lastKey ls = Some k' -> k' = k.
Proof.
  induction ls as [|l ls IH]; [discriminate|].
  intros H Hk. inversion H as [|? ? Hl Hls]; subst.
  destruct ls as [|l' ls].
  - cbn in Hk. destruct Hl; congruence.
  - apply IH; assumption.
Qed.

Lemma maximalRuns_members a t ms :
  RunOk (BitRun a t ms) -> maximalRuns (map fst ms) = [BitRun a t ms].
Proof.
  intros [Hne Hall]. induction ms as [|[l m] ms IH]; [done|].
  inversion Hall as [|? ? (Hm & Ha & Ht) Hall']; subst. cbn in Hm.
  cbn [map fst maximalRuns]. rewrite Hm.
  destruct ms as [|lm' ms]; [reflexivity|].
  rewrite IH by (done || exact Hall').
  apply consLine_same. by apply sameKey_true.
Qed.

Lemma absentBits_range ms bit : In bit (absentBits ms) -> 0 <= bit <= 7.
Proof.
  unfold absentBits. rewrite filter_In. intros [Hin _].
  cbn in Hin. lia.
Qed.

Lemma bitLetterAt_range bit :
  0 <= bit <= 7 ->
  exists c, bitLetterAt bit = String c EmptyString
            /\ existsb (Ascii.eqb c) bitLetters = true.
Proof.
  intros H.
  assert (Hc : bit = 0 \/ bit = 1 \/ bit = 2 \/ bit = 3 \/ bit = 4
               \/ bit = 5 \/ bit = 6 \/ bit = 7) by lia.
  destruct Hc as [->|[->|[->|[->|[->|[->|[->| ->]]]]]]]; eexists; split;
    reflexivity.
Qed.

(** A correction line is a single-bit comparison of the run's key. *)
Lemma matchBitLine_correction f t a bit :
  validTypePrefix t = true -> a <> "" -> allUpperHex a = true ->
  0 <= bit <= 7 ->
  exists m, matchBitLine (correctionLine f t a bit) = Some m
            /\ m_addr m = a /\ m_typePrefix m = t.
Proof.
  intros Ht Hne Ha Hbit.
  destruct (bitLetterAt_range bit Hbit) as (c & Hc & Hin).
  unfold correctionLine. rewrite Hc.
  change ("0x" +:+ String c "" +:+ a) with (String "0" (String "x" (String c a))).
  eexists. split.
  - apply matchBitLine_built; auto.
    unfold oppositeFlag. destruct (String.eqb f "B:"); auto.
  - by split.
Qed.

Lemma corrections_members f t a bits :
  validTypePrefix t = true -> a <> "" -> allUpperHex a = true ->
  Forall (fun bit => 0 <= bit <= 7) bits ->
  exists ms, map fst ms = map (correctionLine f t a) bits
             /\ Forall (fun lm => matchBitLine (fst lm) = Some (snd lm)
                                  /\ m_addr (snd lm) = a
                                  /\ m_typePrefix (snd lm) = t) ms
             /\ length ms = length bits.
Proof.
  intros Ht Hne Ha Hbits.
  induction Hbits as [|bit l Hbit Hl IH].
  - exists []. by repeat split.
  - destruct IH as (ms & H1 & H2 & H3).
    destruct (matchBitLine_correction f t a bit Ht Hne Ha Hbit)
      as (m & Hm & Hma & Hmt).
    exists ((correctionLine f t a bit, m) :: ms). cbn.
    rewrite H1, H3. repeat split; auto.
Qed.

Lemma corrections_runs f t a bits :
  validTypePrefix t = true -> a <> "" -> allUpperHex a = true ->
  Forall (fun bit => 0 <= bit <= 7) bits ->
  maximalRuns (map (correctionLine f t a) bits) = []
  \/ exists ms, maximalRuns (map (correctionLine f t a) bits) = [BitRun a t ms]
                /\ length ms = length bits.
Proof.
  intros Ht Hne Ha Hbits.
  destruct (corrections_members f t a bits Ht Hne Ha Hbits) as (ms & Hfst & Hall & Hlen).
  destruct bits as [|b0 bits]; [by left|]. right.
  exists ms. split; [|exact Hlen].
  rewrite <- Hfst. apply maximalRuns_members. split; [|exact Hall].
  intros ->. discriminate.
Qed.

Lemma lineKey_member a t ms l m :
  RunOk (BitRun a t ms) -> In (l, m) ms -> lineKey l = Some (a, t).
Proof.
  intros [_ Hall] Hin. rewrite Forall_forall in Hall.
  apply list_elem_of_In in Hin. destruct (Hall _ Hin) as (Hm & <- & <-).
  cbn in Hm. unfold lineKey. by rewrite Hm.
Qed.

Lemma rewriteRun_keysIn a t ms :
  RunOk (BitRun a t ms) -> KeysIn (a, t) (rewriteRun (BitRun a t ms)).
Proof.
  intros Hok. destruct (runOk_keys _ _ _ Hok) as (Ht & Hne & Ha).
  unfold KeysIn. rewrite Forall_forall. intros l Hl. apply list_elem_of_In in Hl.
  unfold rewriteRun in Hl.
  destruct (runQualifies (BitRun a t ms)) eqn:Hq.
  - assert (Hagg : lineKey (aggregateLine (lastFlag ms) t a) = None).
    { unfold lineKey. rewrite matchBitLine_aggregate; auto.
      apply andb_true_iff in Hq as [_ Hf]. by apply isSourceFlag_cases. }
    assert (Hcor : forall l, In l (map (correctionLine (lastFlag ms) t a)
                                       (absentBits ms)) ->
                             lineKey l = Some (a, t)).
    { intros l' Hl'. apply in_map_iff in Hl' as (bit & <- & Hbit).
      apply absentBits_range in Hbit.
      destruct (matchBitLine_correction (lastFlag ms) t a bit Ht Hne Ha Hbit)
        as (m & Hm & <- & <-).
      unfold lineKey. by rewrite Hm. }
    destruct (String.eqb (lastFlag ms) "A:").
    + destruct Hl as [<-|Hl]; [by left | right; by apply Hcor].
    + apply in_app_or in Hl as [Hl|[<-|[]]]; [right; by apply Hcor | by left].
  - right. apply in_map_iff in Hl as ([l' m] & <- & Hin).
    eapply lineKey_member; eauto.
Qed.

Lemma rewriteRun_nonempty r : RunOk r -> rewriteRun r <> [].
Proof.
  destruct r as [l|a t ms]; [discriminate|].
  intros [Hne _]. unfold rewriteRun.
  destruct (runQualifies (BitRun a t ms)).
  - destruct (String.eqb (lastFlag ms) "A:"); [discriminate|].
    intros H. apply app_eq_nil in H as [_ H]. discriminate.
  - destruct ms; [done|discriminate].
Qed.

(** A rewritten run leaves at most four bits absent. *)
Definition FewAbsent (r : Run) : Prop :=
  match r with
  | Other _ => True
  | BitRun _ _ ms =>
      runQualifies r = true -> (length (absentBits ms) <= 4)%nat
  end.

Lemma rewriteRun_unqualified_again r :
  RunOk r -> FewAbsent r ->
  existsb runQualifies (maximalRuns (rewriteRun r)) = false.
Proof.
  destruct r as [l|a t ms]; intros Hok Hfew.
  - cbn in *. by rewrite Hok.
  - destruct (runOk_keys _ _ _ Hok) as (Ht & Hne & Ha).
    unfold rewriteRun.
    destruct (runQualifies (BitRun a t ms)) eqn:Hq.
    + specialize (Hfew Hq).
      assert (Hagg : matchBitLine (aggregateLine (lastFlag ms) t a) = None).
      { rewrite matchBitLine_aggregate; auto.
        apply andb_true_iff in Hq as [_ Hf]. by apply isSourceFlag_cases. }
      assert (Hbits : Forall (fun bit => 0 <= bit <= 7) (absentBits ms)).
      { rewrite Forall_forall. intros b Hb. apply list_elem_of_In in Hb.
        by apply absentBits_range in Hb. }
      assert (Hcor : existsb runQualifies
                       (maximalRuns (map (correctionLine (lastFlag ms) t a)
                                         (absentBits ms))) = false).
      { destruct (corrections_runs (lastFlag ms) t a _ Ht Hne Ha Hbits)
          as [-> | (cms & -> & Hlen)]; [reflexivity|].
        cbn [existsb runQualifies]. rewrite orb_false_r.
        apply andb_false_iff. left. apply Nat.leb_gt. lia. }
      destruct (String.eqb (lastFlag ms) "A:").
      * cbn [maximalRuns]. rewrite Hagg. cbn [existsb runQualifies]. exact Hcor.
      * rewrite maximalRuns_app.
        -- rewrite existsb_app, Hcor. cbn [maximalRuns]. by rewrite Hagg.
        -- intros k _. cbn. unfold lineKey. rewrite Hagg. discriminate.
    + rewrite (maximalRuns_members a t ms Hok). cbn [existsb]. by rewrite Hq.
Qed.

Lemma firstKey_app ls ls' : ls <> [] -> firstKey (ls ++ ls') = firstKey ls.
Proof. by destruct ls. Qed.

Lemma firstKey_rewritten r rs k :
  Forall RunOk (r :: rs) ->
  firstKey (flat_map rewriteRun (r :: rs)) = Some k ->
  exists a t ms, r = BitRun a t ms /\ k = (a, t).
Proof.
  intros Hok Hk. inversion Hok as [|? ? Hr _]; subst.
  cbn [flat_map] in Hk. rewrite firstKey_app in Hk by by apply rewriteRun_nonempty.
  destruct r as [l|a t ms].
  - cbn in Hk, Hr. unfold lineKey in Hk. by rewrite Hr in Hk.
  - exists a, t, ms. split; [reflexivity|].
    eapply firstKey_in; [apply rewriteRun_keysIn|]; eauto.
Qed.

(** After the rewrite no run qualifies any more. *)
Lemma rewritten_runs_unqualified rs :
  Forall RunOk rs -> Separated rs -> Forall FewAbsent rs ->
  existsb runQualifies (maximalRuns (flat_map rewriteRun rs)) = false.
Proof.
  induction rs as [|r rs IH]; intros Hok Hsep Hfew; [reflexivity|].
  inversion Hok as [|? ? Hr Hrs]; subst.
  inversion Hfew as [|? ? Hfr Hfrs]; subst.
  destruct Hsep as [Hhd Htl].
  cbn [flat_map]. rewrite maximalRuns_app.
  - rewrite existsb_app, rewriteRun_unqualified_again by assumption.
    by apply IH.
  - intros k Hlast Hfirst.
    destruct r as [l|a t ms].
    + cbn in Hlast, Hr. unfold lineKey in Hlast. by rewrite Hr in Hlast.
    + apply (lastKey_in (a, t)) in Hlast; [|by apply rewriteRun_keysIn].
      subst k. destruct rs as [|r' rs]; [discriminate|].
      destruct (firstKey_rewritten _ _ _ Hrs Hfirst) as (a' & t' & ms' & -> & Heq).
      by apply Hhd.
Qed.

Lemma hasCompressible_runs lines :
  existsb isCompressible (buildGroups lines)
  = existsb runQualifies (maximalRuns lines).
Proof.
  rewrite buildGroups_runs.
  induction (maximalRuns lines) as [|r rs IH]; [reflexivity|].
  cbn. by rewrite isCompressible_run, IH.
Qed.

Definition fiveSameBit : list string :=
  ["A:0xM1234"; "A:0xM1234"; "A:0xM1234"; "A:0xM1234"; "A:0xM1234"].


Definition runLength (r : Run) : nat := length (runLines r).



End BitCompression.

(** ** Grammar codec *)

Section Codec.

Definition recallLine : Predicate :=
  {| flag := "N:"; type := Recall; size := ""; memory := ""; cmp := "=";
     compareType := Value; compareSize := "8-bit"; value := "0"; hits := "" |}.

(** C3 at its failing input.  The parser accepts [{recall}] as left operand
    (the Remember/Recall pass emits such lines), but the serializer writes
    nothing for a left operand of type Recall, although it writes
    [{recall}] for a right one: the text of the parsed condition is [N:=0],
    which the parser rejects, so the round trip cannot even be completed. *)
Theorem codec_roundtrip_fails_on_left_recall :
  parseLineToCondition "N:{recall}" = Some recallLine
  /\ convertBitfieldConditionToText recallLine = "N:=0"
  /\ parseLineToCondition (convertBitfieldConditionToText recallLine) = None
  /\ option_map convertBitfieldConditionToText
       (parseLineToCondition "N:0x10={recall}") = Some "N:0x10={recall}".
Proof. repeat split; vm_compute; reflexivity. Qed.

End Codec.

(** ** Remember/Recall pass *)

Section RememberRecall.

Fixpoint noUnderscore (s : string) : bool :=
  match s with
  | EmptyString => true
  | String c s' => negb (Ascii.eqb c "_") && noUnderscore s'
  end.

Lemma split_noUnderscore s : Forall (fun x => noUnderscore x = true) (JS.split "_" s).
Proof.
  induction s as [|c s IH]; cbn [JS.split].
  - by constructor.
  - destruct (Ascii.eqb c "_") eqn:Hc.
    + by constructor.
    + destruct (JS.split "_" s) as [|x tl].
      * constructor; [|constructor]. cbn. by rewrite Hc.
      * inversion IH as [|? ? Hx Htl]; subst.
        constructor; [|exact Htl]. cbn. by rewrite Hc, Hx.
Qed.

Lemma split_app_underscore x r :
  noUnderscore x = true ->
  JS.split "_" (x +:+ String "_" r) = x :: JS.split "_" r.
Proof.
  induction x as [|c x IH]; intros Hx.
  - reflexivity.
  - cbn [noUnderscore] in Hx. apply andb_true_iff in Hx as [Hc Hx].
    rewrite string_app_cons. cbn [JS.split].
    apply negb_true_iff in Hc. rewrite Hc, (IH Hx). reflexivity.
Qed.

Lemma split_single x : noUnderscore x = true -> JS.split "_" x = [x].
Proof.
  induction x as [|c x IH]; intros Hx; [reflexivity|].
  cbn [noUnderscore] in Hx. apply andb_true_iff in Hx as [Hc Hx].
  cbn [JS.split]. apply negb_true_iff in Hc. by rewrite Hc, (IH Hx).
Qed.

Lemma join_cons x y l :
  JS.join "_" (x :: y :: l) = x +:+ String "_" (JS.join "_" (y :: l)).
Proof. reflexivity. Qed.

(** Splitting undoes joining when no line holds the separator. *)
Lemma split_join l :
  l <> [] -> Forall (fun x => noUnderscore x = true) l ->
  JS.split "_" (JS.join "_" l) = l.
Proof.
  induction l as [|x l IH]; intros Hne Hall; [done|].
  inversion Hall as [|? ? Hx Hl]; subst.
  destruct l as [|y l].
  - by apply split_single.
  - rewrite join_cons, split_app_underscore by exact Hx.
    by rewrite IH.
Qed.

Lemma join_inj l1 l2 :
  l1 <> [] -> l2 <> [] ->
  Forall (fun x => noUnderscore x = true) l1 ->
  Forall (fun x => noUnderscore x = true) l2 ->
  JS.join "_" l1 = JS.join "_" l2 -> l1 = l2.
Proof.
  intros H1 H2 Hu1 Hu2 Heq.
  rewrite <- (split_join l1), <- (split_join l2) by assumption.
  by rewrite Heq.
Qed.

Lemma logicLines_noUnderscore s :
  Forall (fun x => noUnderscore x = true) (logicLines s).
Proof.
  unfold logicLines. pose proof (split_noUnderscore s) as H.
  induction H as [|x l Hx Hl IH]; cbn [List.filter]; [constructor|].
  destruct (JS.truthy (JS.trim x)); [by constructor | exact IH].
Qed.

Lemma logicLines_nonblank s :
  Forall (fun x => JS.truthy (JS.trim x) = true) (logicLines s).
Proof.
  unfold logicLines.
  induction (JS.split "_" s) as [|x l IH]; cbn [List.filter]; [constructor|].
  destruct (JS.truthy (JS.trim x)) eqn:Hx; [by constructor | exact IH].
Qed.

(** *** What [findBestPattern] returns *)

(** A record of the map describes a window of [lines] of length two or
    more, short enough to fit three times, that the counting loop finds at
    least three times. *)
Definition Candidate (lines : list string) (info : PatternInfo) : Prop :=
  exists start : nat,
    p_lines info = JS.slice start (p_length info) lines
    /\ (2 <= p_length info)%nat
    /\ (start + p_length info <= length lines)%nat
    /\ (3 * p_length info <= length lines)%nat
    /\ p_count info
       = countFrom (JS.join "_" (p_lines info)) (p_length info) 0 lines
    /\ (3 <= p_count info)%nat.

Definition EntryOk (lines : list string) (kv : string * PatternInfo) : Prop :=
  fst kv = JS.join "_" (p_lines (snd kv)) /\ Candidate lines (snd kv).

Lemma mapSet_fresh pm key info :
  mapHas pm key = false -> mapSet pm key info = pm ++ [(key, info)].
Proof.
  induction pm as [|[k v] pm IH]; [reflexivity|].
  cbn [mapHas existsb mapSet fst]. intros [Hk Hpm]%orb_false_iff.
  rewrite Hk. cbn [app]. f_equal. by apply IH.
Qed.

Lemma mapHas_app pm extra key :
  mapHas (pm ++ extra) key = mapHas pm key || mapHas extra key.
Proof. unfold mapHas. apply existsb_app. Qed.

Lemma mapHas_entry pm key :
  mapHas pm key = true -> exists info, In (key, info) pm.
Proof.
  unfold mapHas. rewrite existsb_exists.
  intros ([k v] & Hin & Hk). cbn in Hk. apply String.eqb_eq in Hk as ->.
  by exists v.
Qed.

(** One turn of the inner loop only ever appends a well-formed record of
    the current length, and leaves the window it looked at in the map when
    that window occurs three times. *)
Lemma scanStart_grows lines L pm start :
  (2 <= L)%nat -> (3 * L <= length lines)%nat -> (start + L <= length lines)%nat ->
  exists extra,
    scanStart lines L pm start = pm ++ extra
    /\ Forall (EntryOk lines) extra
    /\ Forall (fun kv => p_length (snd kv) = L) extra
    /\ ((3 <= countFrom (JS.join "_" (JS.slice start L lines)) L 0 lines)%nat ->
        mapHas (pm ++ extra) (JS.join "_" (JS.slice start L lines)) = true).
Proof.
  intros HL H3 Hs. unfold scanStart.
  destruct (mapHas pm (JS.join "_" (JS.slice start L lines))) eqn:Hhas; cbn [negb].
  - exists []. rewrite app_nil_r. repeat split; auto.
  - destruct (3 <=? countFrom _ L 0 lines)%nat eqn:Hc.
    + eexists. split; [by apply mapSet_fresh|].
      apply Nat.leb_le in Hc.
      split; [|split].
      * constructor; [|constructor]. split; [reflexivity|].
        exists start. cbn. repeat split; auto.
      * by repeat constructor.
      * intros _. rewrite mapHas_app. cbn. rewrite String.eqb_refl.
        by rewrite orb_true_r.
    + exists []. rewrite app_nil_r. repeat split; auto.
      intros Hq. apply Nat.leb_gt in Hc. lia.
Qed.

Lemma scanStarts_grow lines L starts : forall pm,
  (2 <= L)%nat -> (3 * L <= length lines)%nat ->
  Forall (fun start => (start + L <= length lines)%nat) starts ->
  exists extra,
    fold_left (scanStart lines L) starts pm = pm ++ extra
    /\ Forall (EntryOk lines) extra
    /\ Forall (fun kv => p_length (snd kv) = L) extra
    /\ (forall start, In start starts ->
          (3 <= countFrom (JS.join "_" (JS.slice start L lines)) L 0 lines)%nat ->
          mapHas (pm ++ extra) (JS.join "_" (JS.slice start L lines)) = true).
Proof.
  induction starts as [|start starts IH]; intros pm HL H3 Hst.
  - exists []. rewrite app_nil_r. repeat split; auto; try (by intros ? []).
  - inversion Hst as [|? ? Hs Hrest]; subst. cbn [fold_left].
    destruct (scanStart_grows lines L pm start HL H3 Hs)
      as (e1 & -> & Hok1 & Hlen1 & Hhas1).
    destruct (IH (pm ++ e1) HL H3 Hrest) as (e2 & -> & Hok2 & Hlen2 & Hhas2).
    exists (e1 ++ e2). rewrite <- app_assoc.
    split; [reflexivity|]. split; [by apply Forall_app|].
    split; [by apply Forall_app|].
    intros s [<-|Hin] Hq.
    + rewrite app_assoc, mapHas_app, (Hhas1 Hq). reflexivity.
    + rewrite app_assoc. by apply Hhas2.
Qed.

Lemma scanLength_grows lines pm L :
  (2 <= L)%nat -> (3 * L <= length lines)%nat ->
  exists extra,
    scanLength lines pm L = pm ++ extra
    /\ Forall (EntryOk lines) extra
    /\ Forall (fun kv => p_length (snd kv) = L) extra
    /\ (forall start, (start + L <= length lines)%nat ->
          (3 <= countFrom (JS.join "_" (JS.slice start L lines)) L 0 lines)%nat ->
          mapHas (pm ++ extra) (JS.join "_" (JS.slice start L lines)) = true).
Proof.
  intros HL H3. unfold scanLength.
  destruct (scanStarts_grow lines L (seq 0 (length lines - L + 1)) pm HL H3)
    as (extra & Heq & Hok & Hlen & Hhas).
  { rewrite Forall_forall. intros s Hs. apply list_elem_of_In, in_seq in Hs. lia. }
  exists extra. repeat split; auto.
  intros s Hs. apply Hhas. apply in_seq. lia.
Qed.

Lemma scanLengths_grow lines lengths : forall pm,
  Forall (fun L => (2 <= L)%nat /\ (3 * L <= length lines)%nat) lengths ->
  exists extra,
    fold_left (scanLength lines) lengths pm = pm ++ extra
    /\ Forall (EntryOk lines) extra
    /\ Forall (fun kv => In (p_length (snd kv)) lengths) extra
    /\ (forall L start, In L lengths -> (start + L <= length lines)%nat ->
          (3 <= countFrom (JS.join "_" (JS.slice start L lines)) L 0 lines)%nat ->
          mapHas (pm ++ extra) (JS.join "_" (JS.slice start L lines)) = true).
Proof.
  induction lengths as [|L lengths IH]; intros pm Hls.
  - exists []. rewrite app_nil_r. repeat split; auto; try (by intros ? ? []).
  - inversion Hls as [|? ? [HL H3] Hrest]; subst. cbn [fold_left].
    destruct (scanLength_grows lines pm L HL H3) as (e1 & -> & Hok1 & Hlen1 & Hhas1).
    destruct (IH (pm ++ e1) Hrest) as (e2 & -> & Hok2 & Hlen2 & Hhas2).
    exists (e1 ++ e2). rewrite <- app_assoc.
    split; [reflexivity|]. split; [by apply Forall_app|].
    split.
    + apply Forall_app. split.
      * eapply Forall_impl; [exact Hlen1|]. intros kv ->. by left.
      * eapply Forall_impl; [exact Hlen2|]. intros kv H. by right.
    + intros L' s [<-|Hin] Hs Hq.
      * rewrite app_assoc, mapHas_app, (Hhas1 s Hs Hq). reflexivity.
      * rewrite app_assoc. by apply Hhas2.
Qed.

Lemma patternLengths_range n L :
  In L (seq 2 (n / 3 - 1)) <-> (2 <= L)%nat /\ (3 * L <= n)%nat.
Proof.
  rewrite in_seq.
  pose proof (Nat.div_mod_eq n 3) as Hd.
  pose proof (Nat.mod_upper_bound n 3 ltac:(lia)) as Hm.
  split; intros H; lia.
Qed.

Lemma buildPatternMap_entries lines :
  Forall (EntryOk lines) (buildPatternMap lines)
  /\ (forall L start,
        (2 <= L)%nat -> (3 * L <= length lines)%nat ->
        (start + L <= length lines)%nat ->
        (3 <= countFrom (JS.join "_" (JS.slice start L lines)) L 0 lines)%nat ->
        mapHas (buildPatternMap lines) (JS.join "_" (JS.slice start L lines)) = true).
Proof.
  unfold buildPatternMap.
  destruct (scanLengths_grow lines (seq 2 (length lines / 3 - 1)) [])
    as (extra & -> & Hok & _ & Hhas).
  { rewrite Forall_forall. intros L HL.
    by apply list_elem_of_In, patternLengths_range in HL. }
  cbn [app] in *. split; [exact Hok|].
  intros L s HL H3 Hs Hq. apply Hhas; auto.
  apply patternLengths_range. lia.
Qed.

Lemma slice_length {A} start len (l : list A) :
  (start + len <= length l)%nat -> length (JS.slice start len l) = len.
Proof.
  intros H. unfold JS.slice. rewrite length_take, length_drop. lia.
Qed.

Lemma slice_Forall {A} (P : A -> Prop) start len (l : list A) :
  Forall P l -> Forall P (JS.slice start len l).
Proof.
  intros H. unfold JS.slice. by apply Forall_take, Forall_drop.
Qed.

Lemma select_fold pm : forall best m,
  exists best' m',
    fold_left selectStep pm (best, m) = (best', m')
    /\ (m <= m')%nat
    /\ Forall (fun kv => (p_length (snd kv) <= m')%nat) pm
    /\ ((best' = best /\ m' = m)
        \/ exists kv, In kv pm /\ best' = Some (snd kv) /\ m' = p_length (snd kv)).
Proof.
  induction pm as [|kv pm IH]; intros best m.
  - exists best, m. repeat split; auto.
  - cbn [fold_left]. unfold selectStep at 2.
    destruct (m <? p_length (snd kv))%nat eqn:Hlt.
    + apply Nat.ltb_lt in Hlt.
      destruct (IH (Some (snd kv)) (p_length (snd kv)))
        as (b' & m' & -> & Hle & Hall & Hsel).
      exists b', m'. split; [reflexivity|]. split; [lia|].
      split; [constructor; [lia | exact Hall]|].
      right. destruct Hsel as [[-> ->]|(kv' & Hin & -> & ->)].
      * exists kv. split; [by left | by split].
      * exists kv'. split; [by right | by split].
    + apply Nat.ltb_ge in Hlt.
      destruct (IH best m) as (b' & m' & -> & Hle & Hall & Hsel).
      exists b', m'. split; [reflexivity|]. split; [lia|].
      split; [constructor; [lia | exact Hall]|].
      destruct Hsel as [[-> ->]|(kv' & Hin & -> & ->)]; [by left|].
      right. exists kv'. split; [by right | by split].
Qed.

(** The selected pattern is a candidate, and no candidate is longer. *)
Lemma findBestPattern_longest lines pattern :
  Forall (fun x => noUnderscore x = true) lines ->
  findBestPattern lines = Some pattern ->
  Candidate lines pattern
  /\ (forall L start,
        (2 <= L)%nat -> (3 * L <= length lines)%nat ->
        (start + L <= length lines)%nat ->
        (3 <= countFrom (JS.join "_" (JS.slice start L lines)) L 0 lines)%nat ->
        (L <= p_length pattern)%nat).
Proof.
  intros Hu. unfold findBestPattern.
  destruct (length lines <? 6)%nat; [discriminate|].
  destruct (Nat.eqb (length (buildPatternMap lines)) 0); [discriminate|].
  destruct (buildPatternMap_entries lines) as [Hok Hhas].
  destruct (select_fold (buildPatternMap lines) None 0)
    as (b' & m' & -> & _ & Hall & Hsel).
  cbn [fst]. intros ->.
  destruct Hsel as [[[=] _]|(kv & Hin & [= ->] & ->)].
  rewrite Forall_forall in Hok, Hall.
  split; [by apply (Hok kv), list_elem_of_In|].
  intros L start HL H3 Hs Hq.
  destruct (mapHas_entry _ _ (Hhas L start HL H3 Hs Hq)) as (info & Hinfo).
  apply list_elem_of_In in Hinfo.
  destruct (Hok _ Hinfo) as [Hkey Hcand].
  cbn [fst snd] in Hkey, Hcand.
  destruct Hcand as (s' & Hlines & HL' & Hs' & _).
  pose proof (Hall _ Hinfo) as Hmax. cbn [snd] in Hmax.
  assert (Hlen : length (p_lines info) = p_length info)
    by (rewrite Hlines; by apply slice_length).
  apply join_inj in Hkey.
  - rewrite <- Hkey, slice_length in Hlen by exact Hs. lia.
  - intros H. apply (f_equal length) in H.
    rewrite slice_length in H by exact Hs. cbn in H. lia.
  - intros H. rewrite H in Hlen. cbn in Hlen. lia.
  - by apply slice_Forall.
  - rewrite Hlines. by apply slice_Forall.
Qed.

(** *** The rewriting loop *)

(** The walk the pass performs, on lines: from left to right, a window
    equal to the pattern is replaced by the recall line and the walk
    resumes after it; any other line is copied.  The index counts the
    windows replaced. *)
Inductive Rewritten (pat : list string) (recall : string)
    : nat -> list string -> list string -> Prop :=
| Rewritten_nil : Rewritten pat recall 0 [] []
| Rewritten_recall n rest out :
    Rewritten pat recall n rest out ->
    Rewritten pat recall (S n) (pat ++ rest) (recall :: out)
| Rewritten_copy n line rest out :
    ~ (exists r, line :: rest = pat ++ r) ->
    Rewritten pat recall n rest out ->
    Rewritten pat recall n (line :: rest) (line :: out).

Lemma join_cons_ne x l :
  l <> [] -> JS.join "_" (x :: l) = x +:+ "_" +:+ JS.join "_" l.
Proof. by destruct l. Qed.

Lemma join_app l1 l2 :
  l1 <> [] -> l2 <> [] ->
  JS.join "_" (l1 ++ l2) = JS.join "_" l1 +:+ "_" +:+ JS.join "_" l2.
Proof.
  intros H1 H2. induction l1 as [|x l1 IH]; [done|].
  destruct l1 as [|y l1].
  - cbn [app]. by rewrite join_cons_ne.
  - change ((x :: y :: l1) ++ l2) with (x :: (y :: l1) ++ l2).
    rewrite !join_cons_ne by done. rewrite IH by done.
    by rewrite !string_app_assoc.
Qed.

Lemma rrLoop_skip orig recall L rest : forall k acc,
  (k <= length rest)%nat ->
  rrLoop orig recall L k rest acc = rrLoop orig recall L 0 (drop k rest) acc.
Proof.
  induction rest as [|x rest IH]; intros k acc Hk.
  - cbn in Hk. by replace k with O by lia.
  - destruct k as [|k]; [reflexivity|]. cbn [rrLoop drop].
    apply IH. cbn in Hk. lia.
Qed.

Lemma countFrom_skip orig L rest : forall k,
  (k <= length rest)%nat ->
  countFrom orig L k rest = countFrom orig L 0 (drop k rest).
Proof.
  induction rest as [|x rest IH]; intros k Hk.
  - cbn in Hk. by replace k with O by lia.
  - destruct k as [|k]; [reflexivity|]. cbn [countFrom drop].
    apply IH. cbn in Hk. lia.
Qed.

Section Loop.

Variables (pat : list string) (recall : string).
Hypothesis pat_clean : Forall (fun x => noUnderscore x = true) pat.
Hypothesis pat_long : (1 <= length pat)%nat.

Local Abbreviation orig := (JS.join "_" pat).
Local Abbreviation L := (length pat).

Lemma window_is_pattern rest :
  Forall (fun x => noUnderscore x = true) rest ->
  (L <= length rest)%nat ->
  String.eqb (JS.join "_" (take L rest)) orig = true ->
  rest = pat ++ drop L rest.
Proof using pat_clean pat_long.
  intros Hu HL Heq. apply String.eqb_eq in Heq.
  apply join_inj in Heq.
  - rewrite <- (take_drop (length pat) rest) at 1. by rewrite Heq.
  - intros H. apply (f_equal length) in H. rewrite length_take in H.
    cbn in H. lia.
  - intros H. rewrite H in pat_long. cbn in pat_long. lia.
  - by apply Forall_take.
  - exact pat_clean.
Qed.

Lemma pattern_is_window rest r :
  rest = pat ++ r ->
  (L <= length rest)%nat
  /\ String.eqb (JS.join "_" (take L rest)) orig = true.
Proof using pat_long.
  intros ->. split.
  - rewrite length_app. lia.
  - rewrite take_app_length. apply String.eqb_refl.
Qed.

Lemma short_rest_copied rest :
  (length rest < L)%nat ->
  Rewritten pat recall 0 rest rest /\ countFrom orig L 0 rest = O.
Proof using pat_long.
  induction rest as [|x rest IH]; intros Hlen.
  - split; [constructor | reflexivity].
  - cbn [length] in Hlen. destruct IH as [IH1 IH2]; [lia|]. split.
    + apply Rewritten_copy; [|exact IH1].
      intros [r Hr]. apply (f_equal length) in Hr.
      rewrite length_app in Hr. cbn [length] in Hr. lia.
    + cbn [countFrom]. replace (L <=? length (x :: rest))%nat with false.
      * exact IH2.
      * symmetry. apply Nat.leb_gt. cbn [length]. lia.
Qed.

(** The loop of the source computes the walk, and joins its lines. *)
Lemma rrLoop_walk : forall (fuel : nat) (rest : list string),
  (length rest <= fuel)%nat ->
  Forall (fun x => noUnderscore x = true) rest ->
  exists n out,
    Rewritten pat recall n rest out
    /\ countFrom orig L 0 rest = n
    /\ (rest = [] <-> out = [])
    /\ forall acc, rrLoop orig recall L 0 rest acc = acc +:+ JS.join "_" out.
Proof using pat_clean pat_long.
  induction fuel as [|fuel IH]; intros rest Hfuel Hu.
  { destruct rest; [|cbn in Hfuel; lia].
    exists O, []. repeat split; auto using Rewritten_nil.
    intros acc. cbn. by rewrite string_app_nil_r. }
  destruct rest as [|line tl].
  { exists O, []. repeat split; auto using Rewritten_nil.
    intros acc. cbn. by rewrite string_app_nil_r. }
  cbn [length] in Hfuel.
  destruct (L <=? length (line :: tl))%nat eqn:HLb.
  - pose proof HLb as HL. apply Nat.leb_le in HL.
    destruct (String.eqb (JS.join "_" (take L (line :: tl))) orig) eqn:Heq.
    + pose proof (window_is_pattern _ Hu HL Heq) as Hrest.
      assert (Hdrop : drop L (line :: tl) = drop (L - 1) tl).
      { destruct L as [|L'] eqn:E; [lia|]. cbn [drop].
        by replace (S L' - 1)%nat with L' by lia. }
      destruct (IH (drop L (line :: tl))) as (n & out & Hrw & Hcnt & Hnil & Hloop).
      { rewrite length_drop. cbn [length]. lia. }
      { by apply Forall_drop. }
      exists (S n), (recall :: out). split; [|split; [|split]].
      * rewrite Hrest. by constructor.
      * cbn [countFrom]. rewrite HLb, Heq. cbn [andb].
        rewrite countFrom_skip by (cbn [length] in HL; lia).
        by rewrite <- Hdrop, Hcnt.
      * split; discriminate.
      * intros acc. cbn [rrLoop].
        rewrite HLb, Heq.
        rewrite rrLoop_skip by (cbn [length] in HL; lia).
        rewrite <- Hdrop, Hloop.
        destruct (L <? length (line :: tl))%nat eqn:Hlt.
        -- apply Nat.ltb_lt in Hlt.
           assert (out <> []).
           { intros Ho. apply Hnil in Ho. apply (f_equal length) in Ho.
             rewrite length_drop in Ho. cbn [length] in Ho, Hlt. lia. }
           rewrite join_cons_ne by assumption.
           by rewrite !string_app_assoc.
        -- apply Nat.ltb_ge in Hlt.
           assert (out = []) as ->.
           { apply Hnil. apply length_zero_iff_nil. rewrite length_drop. lia. }
           cbn [JS.join]. by rewrite string_app_nil_r.
    + destruct (IH tl) as (n & out & Hrw & Hcnt & Hnil & Hloop).
      { lia. }
      { by inversion Hu. }
      exists n, (line :: out). split; [|split; [|split]].
      * apply Rewritten_copy; [|exact Hrw].
        intros [r Hr]. apply pattern_is_window in Hr as [_ Hr]. congruence.
      * cbn [countFrom]. rewrite HLb, Heq. exact Hcnt.
      * split; discriminate.
      * intros acc. cbn [rrLoop].
        rewrite HLb, Heq, Hloop.
        destruct (1 <? length (line :: tl))%nat eqn:Hlt.
        -- apply Nat.ltb_lt in Hlt.
           assert (out <> []).
           { intros Ho. apply Hnil in Ho. subst tl. cbn in Hlt. lia. }
           rewrite join_cons_ne by assumption.
           by rewrite !string_app_assoc.
        -- apply Nat.ltb_ge in Hlt.
           assert (out = []) as ->.
           { apply Hnil. destruct tl; [reflexivity | cbn in Hlt; lia]. }
           cbn [JS.join]. by rewrite string_app_nil_r.
  - pose proof HLb as HL. apply Nat.leb_gt in HL.
    destruct (short_rest_copied _ HL) as [Hrw Hcnt].
    exists O, (line :: tl). split; [exact Hrw|]. split; [exact Hcnt|].
    split; [split; discriminate|].
    intros acc. cbn [rrLoop]. by rewrite HLb.
Qed.

Lemma Rewritten_lines n rest out :
  Rewritten pat recall n rest out ->
  Forall (fun x => x = recall \/ In x rest) out.
Proof using Type.
  induction 1 as [|n rest out Hrw IH|n line rest out Hno Hrw IH].
  - constructor.
  - constructor; [by left|].
    eapply Forall_impl; [exact IH|]. intros x [->|Hin]; [by left|].
    right. apply in_or_app. by right.
  - constructor; [right; by left|].
    eapply Forall_impl; [exact IH|]. intros x [->|Hin]; [by left|].
    right. by right.
Qed.

End Loop.

(** *** The final [replace(/_$/, '')] *)

Fixpoint lastChar (s : string) : option ascii :=
  match s with
  | EmptyString => None
  | String c EmptyString => Some c
  | String _ s' => lastChar s'
  end.

Lemma dropTrailingUnderscore_id s :
  lastChar s <> Some "_"%char -> JS.dropTrailingUnderscore s = s.
Proof.
  induction s as [|c s IH]; [reflexivity|].
  destruct s as [|d s].
  - cbn. destruct (Ascii.eqb c "_") eqn:Hc; [|reflexivity].
    apply Ascii.eqb_eq in Hc as ->. congruence.
  - intros H. change (JS.dropTrailingUnderscore (String c (String d s)))
      with (String c (JS.dropTrailingUnderscore (String d s))).
    f_equal. apply IH. exact H.
Qed.

Lemma lastChar_app a b : b <> "" -> lastChar (a +:+ b) = lastChar b.
Proof.
  intros Hb. induction a as [|c a IH]; [reflexivity|].
  rewrite string_app_cons.
  destruct (a +:+ b) eqn:E.
  - exfalso. destruct a as [|d a].
    + rewrite string_app_nil_l in E. by apply Hb.
    + rewrite string_app_cons in E. discriminate.
  - exact IH.
Qed.

Lemma noUnderscore_lastChar x :
  noUnderscore x = true -> lastChar x <> Some "_"%char.
Proof.
  induction x as [|c x IH]; [discriminate|].
  cbn [noUnderscore]. intros [Hc Hx]%andb_true_iff.
  destruct x as [|d x].
  - cbn. intros [= ->]. discriminate.
  - exact (IH Hx).
Qed.

Lemma string_app_nonempty_r (a b : string) : b <> "" -> a +:+ b <> "".
Proof.
  intros Hb H. destruct a as [|d a].
  - rewrite string_app_nil_l in H. by apply Hb.
  - rewrite string_app_cons in H. discriminate.
Qed.

Lemma join_lastChar l :
  l <> [] ->
  Forall (fun x => x <> "" /\ lastChar x <> Some "_"%char) l ->
  JS.join "_" l <> "" /\ lastChar (JS.join "_" l) <> Some "_"%char.
Proof.
  induction l as [|x l IH]; intros Hne Hall; [done|].
  inversion Hall as [|? ? [Hx1 Hx2] Hl]; subst.
  destruct l as [|y l]; [by split|].
  destruct IH as [IH1 IH2]; [done | exact Hl|].
  rewrite join_cons_ne by done.
  split.
  - by apply string_app_nonempty_r, string_app_nonempty_r.
  - rewrite lastChar_app by by apply string_app_nonempty_r.
    by rewrite lastChar_app.
Qed.

Lemma nonblank_nonempty x : JS.truthy (JS.trim x) = true -> x <> "".
Proof. by intros H ->. Qed.

Lemma matchFlag_prefix x f :
  JS.matchFlag x = Some f ->
  exists rest, x = f +:+ rest /\ JS.truthy f = true /\ String.length f = 2%nat.
Proof.
  unfold JS.matchFlag. destruct x as [|c [|d r]]; try discriminate.
  destruct (JS.isUpper c && Ascii.eqb d ":") eqn:H; [|discriminate].
  apply andb_true_iff in H as [_ Hd]. apply Ascii.eqb_eq in Hd as ->.
  intros [= <-]. by exists r.
Qed.

Lemma replaceFirst_prefix f rep rest :
  JS.replaceFirst f rep (f +:+ rest) = rep +:+ rest.
Proof.
  destruct (f +:+ rest) eqn:E; cbn [JS.replaceFirst]; rewrite <- E;
    by rewrite prefix_app, dropChars_app.
Qed.

(** The remember version of the pattern: only the flag of its last line
    changes. *)
Lemma remember_lines pl f :
  pl <> [] -> JS.matchFlag (List.last pl EmptyString) = Some f ->
  exists front rest,
    pl = front ++ [f +:+ rest]
    /\ <[(length pl - 1)%nat := JS.replaceFirst f "K:" (List.last pl EmptyString)]> pl
       = front ++ ["K:" +:+ rest]
    /\ JS.truthy f = true.
Proof.
  intros Hne Hf.
  destruct (exists_last Hne) as (front & x & ->).
  rewrite last_last in Hf |- *.
  destruct (matchFlag_prefix _ _ Hf) as (rest & -> & Ht & _).
  exists front, rest. split; [reflexivity|]. split; [|exact Ht].
  rewrite replaceFirst_prefix, length_app. cbn [length].
  replace (length front + 1 - 1)%nat with (length front + 0)%nat by lia.
  by rewrite insert_app_r.
Qed.

(** The walk is a function of the lines. *)
Lemma Rewritten_unique pat recall n1 n2 rest out1 out2 :
  pat <> [] ->
  Rewritten pat recall n1 rest out1 -> Rewritten pat recall n2 rest out2 ->
  n1 = n2 /\ out1 = out2.
Proof.
  intros Hpat H1. revert n2 out2.
  induction H1 as [|n rest out Hrw IH|n line rest out Hno Hrw IH];
    intros n2 out2 H2.
  - remember (@nil string) as l eqn:El.
    destruct H2 as [|m r o Hr|m x r o Hx Hr]; [by split| |discriminate].
    destruct pat; [done | discriminate].
  - remember (pat ++ rest) as l eqn:El.
    destruct H2 as [|m r o Hr|m x r o Hx Hr].
    + destruct pat; [done | discriminate].
    + apply app_inv_head in El as ->.
      destruct (IH _ _ Hr) as [-> ->]. by split.
    + exfalso. apply Hx. by exists rest.
  - remember (line :: rest) as l eqn:El.
    destruct H2 as [|m r o Hr|m x r o Hx Hr].
    + discriminate.
    + exfalso. apply Hno. by exists r.
    + injection El as -> ->.
      destruct (IH _ _ Hr) as [-> ->]. by split.
Qed.

Lemma select_stable pm : forall best m,
  Forall (fun kv => (p_length (snd kv) <= m)%nat) pm ->
  fold_left selectStep pm (best, m) = (best, m).
Proof.
  induction pm as [|kv pm IH]; intros best m Hall; [reflexivity|].
  inversion Hall as [|? ? Hkv Hpm]; subst.
  cbn [fold_left]. unfold selectStep at 2.
  replace (m <? p_length (snd kv))%nat with false
    by (symmetry; apply Nat.ltb_ge; lia).
  by apply IH.
Qed.

(** Six lines made of one two-line pattern three times. *)
Lemma findBestPattern_thrice a b :
  findBestPattern [a; b; a; b; a; b]
  = Some {| p_lines := [a; b]; p_count := 3; p_length := 2 |}.
Proof.
  unfold findBestPattern, buildPatternMap.
  change (length [a; b; a; b; a; b]) with 6%nat.
  change (seq 2 (6 / 3 - 1)) with [2%nat]. cbn [Nat.ltb Nat.leb fold_left].
  unfold scanLength.
  change (seq 0 (length [a; b; a; b; a; b] - 2 + 1)) with (0%nat :: seq 1 4).
  cbn [fold_left].
  assert (Hfirst : scanStart [a; b; a; b; a; b] 2 [] 0
                   = [(JS.join "_" [a; b],
                       {| p_lines := [a; b]; p_count := 3; p_length := 2 |})]).
  { unfold scanStart. cbn [mapHas existsb negb].
    change (JS.slice 0 2 [a; b; a; b; a; b]) with [a; b].
    assert (Hc : countFrom (JS.join "_" [a; b]) 2 0 [a; b; a; b; a; b] = 3%nat).
    { cbn [countFrom length Nat.leb take Nat.sub andb].
      rewrite !String.eqb_refl. reflexivity. }
    rewrite Hc. reflexivity. }
  rewrite Hfirst.
  destruct (scanStarts_grow [a; b; a; b; a; b] 2 (seq 1 4)
              [(JS.join "_" [a; b],
                {| p_lines := [a; b]; p_count := 3; p_length := 2 |})])
    as (extra & -> & _ & Hlen & _).
  { lia. } { cbn. lia. }
  { rewrite Forall_forall. intros s Hs. apply list_elem_of_In, in_seq in Hs.
    cbn. lia. }
  cbn [app length Nat.eqb fold_left]. unfold selectStep at 2. cbn [snd p_length Nat.ltb Nat.leb].
  rewrite select_stable; [reflexivity|].
  eapply Forall_impl; [exact Hlen|]. intros kv ->. lia.
Qed.

Lemma string_app_inv_head (f x y : string) : f +:+ x = f +:+ y -> x = y.
Proof.
  induction f as [|c f IH]; [done|]. rewrite !string_app_cons. intros [= H]. auto.
Qed.

Lemma logicLines_join l :
  l <> [] ->
  Forall (fun x => noUnderscore x = true) l ->
  Forall (fun x => JS.truthy (JS.trim x) = true) l ->
  logicLines (JS.join "_" l) = l.
Proof.
  intros Hne Hu Hb. unfold logicLines. rewrite split_join by assumption.
  induction Hb as [|x l Hx Hl IH]; [reflexivity|].
  cbn [List.filter]. rewrite Hx. f_equal.
  destruct l as [|y l]; [reflexivity|].
  apply IH; [done | by inversion Hu].
Qed.

(** *** The left-to-right count finds what there is to find *)

(** [occ] lists positions of [rest], each at least [lo], where the pattern
    occurs, every one after the end of the one before. *)
Fixpoint Chain (pat : list string) (lo : nat) (rest : list string)
    (occ : list nat) : Prop :=
  match occ with
  | [] => True
  | i :: occ' =>
      (lo <= i)%nat
      /\ take (length pat) (drop i rest) = pat
      /\ (i + length pat <= length rest)%nat
      /\ Chain pat (i + length pat) rest occ'
  end.

Lemma Chain_shift pat k rest occ : forall lo,
  (k <= lo)%nat -> Chain pat lo rest occ ->
  Chain pat (lo - k) (drop k rest) (map (fun i => (i - k)%nat) occ).
Proof.
  induction occ as [|i occ IH]; intros lo Hk; [done|].
  cbn [Chain map]. intros (Hlo & Hocc & Hlen & Hrest).
  split; [lia|]. split; [|split].
  - rewrite drop_drop. by replace (k + (i - k))%nat with i by lia.
  - rewrite length_drop. lia.
  - replace (i - k + length pat)%nat with (i + length pat - k)%nat by lia.
    apply IH; [lia | exact Hrest].
Qed.

Lemma Chain_weaken pat rest occ : forall lo lo',
  (lo' <= lo)%nat -> Chain pat lo rest occ -> Chain pat lo' rest occ.
Proof.
  destruct occ as [|i occ]; intros lo lo' Hle; [done|].
  cbn [Chain]. intros (Hlo & H). split; [lia | exact H].
Qed.

(** However many pairwise disjoint occurrences there are, the counting
    loop counts at least that many. *)
Lemma countFrom_greedy pat : forall (fuel : nat) (rest : list string) (occ : list nat),
  (1 <= length pat)%nat ->
  (length rest <= fuel)%nat ->
  Chain pat 0 rest occ ->
  (length occ <= countFrom (JS.join "_" pat) (length pat) 0 rest)%nat.
Proof.
  induction fuel as [|fuel IH]; intros rest occ Hpat Hfuel Hocc.
  { destruct rest; [|cbn in Hfuel; lia].
    destruct occ as [|i occ]; [cbn; lia|].
    destruct Hocc as (_ & _ & Hlen & _). cbn in Hlen. lia. }
  destruct rest as [|x tl].
  { destruct occ as [|i occ]; [cbn; lia|].
    destruct Hocc as (_ & _ & Hlen & _). cbn in Hlen. lia. }
  cbn [length] in Hfuel. cbn [countFrom].
  destruct ((length pat <=? length (x :: tl))%nat
            && String.eqb (JS.join "_" (take (length pat) (x :: tl)))
                 (JS.join "_" pat)) eqn:Hm.
  - apply andb_true_iff in Hm as [HL _]. apply Nat.leb_le in HL.
    destruct occ as [|i occ]; [cbn; lia|].
    destruct Hocc as (_ & _ & _ & Hrest).
    rewrite countFrom_skip by (cbn [length] in HL; lia).
    assert (Hdrop : drop (length pat - 1) tl = drop (length pat) (x :: tl)).
    { destruct (length pat) as [|L'] eqn:E; [lia|]. cbn [drop].
      by replace (S L' - 1)%nat with L' by lia. }
    rewrite Hdrop. cbn [length].
    apply le_n_S.
    rewrite <- (length_map (fun j => (j - length pat)%nat) occ).
    apply IH; [exact Hpat | rewrite length_drop; cbn [length]; lia |].
    apply (Chain_weaken _ _ _ (i + length pat - length pat)); [lia|].
    apply Chain_shift; [lia | exact Hrest].
  - rewrite <- (length_map (fun j => (j - 1)%nat) occ).
    apply IH; [exact Hpat | lia |].
    destruct occ as [|i occ]; [done|].
    assert (Hi : (1 <= i)%nat).
    { destruct i as [|i]; [|lia]. exfalso.
      destruct Hocc as (_ & Hocc & Hlen & _). cbn [drop] in Hocc.
      rewrite Hocc, String.eqb_refl, andb_true_r in Hm.
      apply Nat.leb_gt in Hm. lia. }
    change tl with (drop 1 (x :: tl)).
    apply (Chain_weaken _ _ _ (1 - 1)); [lia|].
    apply Chain_shift; [lia|].
    cbn [Chain] in Hocc |- *. destruct Hocc as (_ & H). split; [lia | exact H].
Qed.

(** Where some window of two or more lines occurs three times without
    overlap, a pattern is selected, at least as long as that window. *)
Lemma findBestPattern_finds lines pat i1 i2 i3 :
  Forall (fun x => noUnderscore x = true) lines ->
  (2 <= length pat)%nat ->
  Chain pat 0 lines [i1; i2; i3] ->
  exists pattern,
    findBestPattern lines = Some pattern
    /\ (length pat <= p_length pattern)%nat.
Proof.
  intros Hu Hpat Hocc.
  pose proof (countFrom_greedy pat (length lines) lines [i1; i2; i3]
                ltac:(lia) ltac:(lia) Hocc) as Hcount.
  cbn [length] in Hcount.
  destruct Hocc as (_ & Ho1 & Hl1 & H12 & Ho2 & Hl2 & H23 & Ho3 & Hl3 & _).
  assert (Hwin : JS.slice i1 (length pat) lines = pat) by exact Ho1.
  assert (H3 : (3 * length pat <= length lines)%nat) by lia.
  destruct (buildPatternMap_entries lines) as [Hok Hhas].
  specialize (Hhas (length pat) i1 Hpat H3 Hl1).
  rewrite Hwin in Hhas. specialize (Hhas Hcount).
  destruct (mapHas_entry _ _ Hhas) as (info & Hinfo).
  assert (Hsome : exists pattern, findBestPattern lines = Some pattern).
  { unfold findBestPattern.
    replace (length lines <? 6)%nat with false
      by (symmetry; apply Nat.ltb_ge; lia).
    destruct (buildPatternMap lines) as [|kv pm] eqn:Hpm; [destruct Hinfo|].
    cbn [length Nat.eqb].
    destruct (select_fold (kv :: pm) None 0) as (b' & m' & -> & _ & Hall & Hsel).
    cbn [fst].
    destruct Hsel as [[-> ->]|(kv' & _ & -> & _)]; [|eauto].
    exfalso. rewrite Forall_forall in Hok, Hall.
    apply list_elem_of_In in Hinfo.
    pose proof (Hall _ Hinfo) as Hz.
    destruct (Hok _ Hinfo) as [_ (s' & _ & H2 & _)]. cbn [snd] in *. lia. }
  destruct Hsome as (pattern & Hfind). exists pattern. split; [exact Hfind|].
  destruct (findBestPattern_longest _ _ Hu Hfind) as [_ Hlongest].
  apply (Hlongest (length pat) i1); auto. by rewrite Hwin.
Qed.

Definition thricePair : string :=
  "N:0xH01=1_R:0xH02=2_N:0xH01=1_R:0xH02=2_N:0xH01=1_R:0xH02=2".

(** C1, as stated, fails: for a two-line pattern three times in a row the
    result holds three recall lines after the remember pattern, not two;
    the first occurrence is replaced by a recall line like the others. *)
Lemma applyRROptimization_three_recalls :
  optimizedLogic (applyRROptimization thricePair)
  = "N:0xH01=1_K:0xH02=2_R:{recall}_R:{recall}_R:{recall}"
  /\ optimizedLogic (applyRROptimization thricePair)
     <> "N:0xH01=1_K:0xH02=2_R:{recall}_R:{recall}".
Proof. split; vm_compute; congruence. Qed.

Lemma applyRROptimization_joined logicString pattern originalFlag :
  findBestPattern (logicLines logicString) = Some pattern ->
  JS.matchFlag (List.last (p_lines pattern) EmptyString) = Some originalFlag ->
  exists front rest out,
    p_lines pattern = front ++ [originalFlag +:+ rest]
    /\ Rewritten (p_lines pattern) (originalFlag +:+ "{recall}")
         (p_count pattern) (logicLines logicString) out
    /\ optimizedLogic (applyRROptimization logicString)
       = JS.join "_" ((front ++ ["K:" +:+ rest]) ++ out).
Proof.
  intros Hfind Hflag.
  pose proof (logicLines_noUnderscore logicString) as Hu.
  pose proof (logicLines_nonblank logicString) as Hb.
  destruct (findBestPattern_longest _ _ Hu Hfind)
    as [(start & Hlines & HL & Hstart & H3 & Hcount & Hc3) _].
  assert (Hlen : length (p_lines pattern) = p_length pattern)
    by (rewrite Hlines; by apply slice_length).
  assert (Hpne : p_lines pattern <> [])
    by (intros H; rewrite H in Hlen; cbn in Hlen; lia).
  assert (Hpu : Forall (fun x => noUnderscore x = true) (p_lines pattern))
    by (rewrite Hlines; by apply slice_Forall).
  destruct (remember_lines _ _ Hpne Hflag) as (front & rest & Hpl & Hrem & Htruthy).
  destruct (rrLoop_walk (p_lines pattern) (originalFlag +:+ "{recall}") Hpu
              ltac:(lia) (length (logicLines logicString))
              (logicLines logicString) ltac:(lia) Hu)
    as (n & out & Hrw & Hcnt & Hnil & Hloop).
  exists front, rest, out. split; [exact Hpl|]. split.
  - rewrite Hcount, <- Hlen, Hcnt. exact Hrw.
  - unfold applyRROptimization. rewrite Hfind, Hflag.
    cbn [default from_option id]. rewrite Htruthy. cbn [negb optimizedLogic].
    rewrite Hrem, <- Hlen, Hloop.
    assert (Hone : out <> []).
    { intros Ho. apply (proj2 Hnil) in Ho. rewrite Ho in H3. cbn in H3. lia. }
    assert (Hq : Forall (fun x => x <> "" /\ lastChar x <> Some "_"%char) out).
    { pose proof (Rewritten_lines _ _ _ _ _ Hrw) as Hout.
      rewrite Forall_forall in Hout, Hu, Hb. rewrite Forall_forall.
      intros x Hx. destruct (Hout x Hx) as [->|Hin].
      - split; [by apply string_app_nonempty_r|]. by rewrite lastChar_app.
      - apply list_elem_of_In in Hin. split.
        + by apply nonblank_nonempty, Hb.
        + by apply noUnderscore_lastChar, Hu. }
    destruct (join_lastChar out Hone Hq) as [Hj1 Hj2].
    rewrite (join_app (front ++ ["K:" +:+ rest]) out);
      [| intros H; apply app_eq_nil in H as [_ H]; discriminate | exact Hone].
    rewrite <- string_app_assoc.
    apply dropTrailingUnderscore_id.
    by rewrite lastChar_app.
Qed.

(** C1, amended.  Where a window of two or more lines occurs three times
    without overlap, [findBestPattern] selects a pattern.  When the selected
    pattern's last line starts with a flag, the pattern is a window of two
    or more input lines that the left-to-right count finds at least three
    times, and no such window is longer.  The result is, joined by [_]: the pattern once, at
    the very start, with only the flag of its last line replaced by [K:];
    then the input walked from left to right, where every occurrence of the
    pattern, the first included, becomes the single line made of the
    original flag and [{recall}], and every other line is copied.  A
    two-line pattern three times in a row gives the two-line remember
    pattern followed by exactly three recall lines. *)
Theorem applyRROptimization_remember_then_recall_every_occurrence :
  (forall (logicString : string) (pat : list string) (i1 i2 i3 : nat),
      (2 <= length pat)%nat ->
      Chain pat 0 (logicLines logicString) [i1; i2; i3] ->
      exists pattern : PatternInfo,
        findBestPattern (logicLines logicString) = Some pattern
        /\ (length pat <= p_length pattern)%nat)
  /\
  (forall (logicString : string) (pattern : PatternInfo) (originalFlag : string),
      findBestPattern (logicLines logicString) = Some pattern ->
      JS.matchFlag (List.last (p_lines pattern) EmptyString) = Some originalFlag ->
      Candidate (logicLines logicString) pattern
      /\ (forall L start : nat,
            (2 <= L)%nat -> (3 * L <= length (logicLines logicString))%nat ->
            (start + L <= length (logicLines logicString))%nat ->
            (3 <= countFrom (JS.join "_" (JS.slice start L (logicLines logicString)))
                    L 0 (logicLines logicString))%nat ->
            (L <= p_length pattern)%nat)
      /\ exists (front : list string) (rest : string) (out : list string),
           p_lines pattern = front ++ [originalFlag +:+ rest]
           /\ Rewritten (p_lines pattern) (originalFlag +:+ "{recall}")
                (p_count pattern) (logicLines logicString) out
           /\ optimizedLogic (applyRROptimization logicString)
              = JS.join "_" ((front ++ ["K:" +:+ rest]) ++ out))
  /\
  (forall a f rest : string,
      noUnderscore a = true -> noUnderscore (f +:+ rest) = true ->
      JS.truthy (JS.trim a) = true -> JS.truthy (JS.trim (f +:+ rest)) = true ->
      JS.matchFlag (f +:+ rest) = Some f ->
      optimizedLogic
        (applyRROptimization
           (JS.join "_" [a; f +:+ rest; a; f +:+ rest; a; f +:+ rest]))
      = JS.join "_" [a; "K:" +:+ rest;
                     f +:+ "{recall}"; f +:+ "{recall}"; f +:+ "{recall}"]).
Proof.
  split; [|split].
  - intros logicString pat i1 i2 i3 Hpat Hocc.
    eapply findBestPattern_finds; eauto using logicLines_noUnderscore.
  - intros logicString pattern originalFlag Hfind Hflag.
    destruct (findBestPattern_longest _ _ (logicLines_noUnderscore logicString) Hfind)
      as [Hcand Hlongest].
    split; [exact Hcand|]. split; [exact Hlongest|].
    by apply applyRROptimization_joined.
  - intros a f rest Hua Hub Hba Hbb Hflag.
    set (b := f +:+ rest) in *.
    assert (Hlines : logicLines (JS.join "_" [a; b; a; b; a; b]) = [a; b; a; b; a; b]).
    { apply logicLines_join; [done| |]; repeat constructor; assumption. }
    destruct (applyRROptimization_joined (JS.join "_" [a; b; a; b; a; b])
                {| p_lines := [a; b]; p_count := 3; p_length := 2 |} f)
      as (front & rest' & out & Hpl & Hrw & ->).
    { rewrite Hlines. apply findBestPattern_thrice. }
    { exact Hflag. }
    cbn [p_lines p_count] in Hpl, Hrw. rewrite Hlines in Hrw.
    change [a; b] with ([a] ++ [b]) in Hpl.
    apply app_inj_tail in Hpl as [<- Hb']. unfold b in Hb'.
    apply string_app_inv_head in Hb' as <-.
    assert (Hthree : Rewritten [a; b] (f +:+ "{recall}") 3 [a; b; a; b; a; b]
                       [f +:+ "{recall}"; f +:+ "{recall}"; f +:+ "{recall}"]).
    { change [a; b; a; b; a; b] with ([a; b] ++ [a; b] ++ [a; b] ++ []).
      repeat constructor. }
    assert (Hne : [a; b] <> []) by discriminate.
    destruct (Rewritten_unique _ _ _ _ _ _ _ Hne Hrw Hthree) as [_ ->].
    reflexivity.
Qed.

Lemma applyRROptimization_remember_then_recall_every_occurrence_witness :
  optimizedLogic (applyRROptimization thricePair)
  = JS.join "_" ["N:0xH01=1"; "K:0xH02=2"; "R:{recall}"; "R:{recall}"; "R:{recall}"]
  /\ exists (front : list string) (rest : string) (out : list string),
       ["N:0xH01=1"; "R:0xH02=2"] = front ++ ["R:" +:+ rest]
       /\ Rewritten ["N:0xH01=1"; "R:0xH02=2"] ("R:" +:+ "{recall}") 3
            (logicLines thricePair) out
       /\ optimizedLogic (applyRROptimization thricePair)
          = JS.join "_" ((front ++ ["K:" +:+ rest]) ++ out).
Proof.
  destruct applyRROptimization_remember_then_recall_every_occurrence
    as (_ & Hgen & Hex).
  split.
  - exact (Hex "N:0xH01=1" "R:" "0xH02=2" eq_refl eq_refl eq_refl eq_refl eq_refl).
  - exact (proj2 (proj2 (Hgen thricePair
                          {| p_lines := ["N:0xH01=1"; "R:0xH02=2"];
                             p_count := 3; p_length := 2 |}
                          "R:" eq_refl eq_refl))).
Defined.

End RememberRecall.

(** ** Renumbering and removal *)

Section Groups.

Lemma setIds_lineId l g c : lineId (setIds l g c) = l.
Proof. reflexivity. Qed.

(** A condition without its two ids: every other field. *)
Definition stripIds (c : Condition) : Condition := setIds 0 0 c.

Lemma stripIds_setIds l g c : stripIds (setIds l g c) = stripIds c.
Proof. reflexivity. Qed.

Lemma regroupStep_keeps st index :
  map lineId (fst (regroupStep st index)) = map lineId (fst st)
  /\ map stripIds (fst (regroupStep st index)) = map stripIds (fst st).
Proof.
  destruct st as [conds processed]. unfold regroupStep.
  destruct (conds !! index) as [condition|]; [|by split].
  destruct (bool_decide (groupId condition ∈ processed)
            || (groupId condition =? lineId condition)); [by split|].
  destruct (1 <? length (getGroupLines conds (groupId condition)))%nat; [|by split].
  destruct (maxByLineId _) as [leader|]; [|by split].
  cbn [fst]. rewrite !map_map. split; apply map_ext; intros c;
    by destruct (groupId c =? groupId condition).
Qed.

Lemma regroup_fold_keeps indexes : forall st,
  map lineId (fst (fold_left regroupStep indexes st)) = map lineId (fst st)
  /\ map stripIds (fst (fold_left regroupStep indexes st)) = map stripIds (fst st).
Proof.
  induction indexes as [|i indexes IH]; intros st; [by split|].
  cbn [fold_left]. destruct (IH (regroupStep st i)) as [-> ->].
  apply regroupStep_keeps.
Qed.

Lemma imap_renumber_lineId conds : forall (f : nat -> nat),
  map lineId (imap (fun i => renumber (f i)) conds)
  = map (fun i => Z.of_nat (f i) + 1) (seq 0 (length conds)).
Proof.
  induction conds as [|c conds IH]; intros f; [reflexivity|].
  cbn [imap map length seq]. f_equal.
  rewrite <- seq_shift, map_map.
  exact (IH (fun i => f (S i))).
Qed.

Lemma imap_renumber_strip conds : forall (f : nat -> nat),
  map stripIds (imap (fun i => renumber (f i)) conds) = map stripIds conds.
Proof.
  induction conds as [|c conds IH]; intros f; [reflexivity|].
  cbn [imap map]. f_equal. exact (IH (fun i => f (S i))).
Qed.

(** After renumbering the line ids are 1, 2, ..., N in array order. *)
Lemma recalculate_lineIds conds :
  map lineId (recalculateLineAndGroupIds conds)
  = map (fun i => Z.of_nat i + 1) (seq 0 (length conds)).
Proof.
  unfold recalculateLineAndGroupIds.
  destruct (regroup_fold_keeps (seq 0 (length (imap renumber conds)))
              (imap renumber conds, ∅)) as [-> _].
  cbn [fst]. exact (imap_renumber_lineId conds (fun i => i)).
Qed.

(** Renumbering touches the two ids only. *)
Lemma recalculate_strip conds :
  map stripIds (recalculateLineAndGroupIds conds) = map stripIds conds.
Proof.
  unfold recalculateLineAndGroupIds.
  destruct (regroup_fold_keeps (seq 0 (length (imap renumber conds)))
              (imap renumber conds, ∅)) as [_ ->].
  cbn [fst]. exact (imap_renumber_strip conds (fun i => i)).
Qed.

Definition plainLine (l g : Z) (m : string) : Condition :=
  {| lineId := l; groupId := g;
     pred := {| flag := "A:"; type := Mem; size := "16-bit"; memory := m;
                cmp := ""; compareType := Value; compareSize := "8-bit";
                value := "0"; hits := "" |};
     bytes := ""; expanded := false; expandedLines := [] |}.

(** What identifies a condition in the examples: line id, group id, address. *)
Definition idsOf (conds : list Condition) : list (Z * Z * string) :=
  map (fun c => (lineId c, groupId c, memory (pred c))) conds.

Definition threeSingles : list Condition :=
  [plainLine 1 1 "0x1"; plainLine 2 2 "0x2"; plainLine 3 3 "0x3"].

Definition sessionOf (conds : list Condition) : Session :=
  {| bitfieldConditions := conds;
     bitfieldExpansions := {| mapEntries := ∅; properties := ∅ |};
     linkGroupColors := ∅ |}.

(** C8 at its failing inputs.  The line ids are always 1..N after a
    renumbering, but a linked group does not survive a shift of its line
    ids.  Lines 2 and 3 are linked; after one renumbering the group has the
    form the source intends (both members carry the id of the member with
    the greatest line id).  Removing line 1 then leaves the former members
    with group ids 3 and 2; copying line 1, or inserting a line after it,
    turns both into singletons; removing line 1 right after the link does
    the same. *)
Theorem recalculate_loses_group_when_ids_shift :
  (forall conds : list Condition,
      map lineId (recalculateLineAndGroupIds conds)
      = map (fun i => Z.of_nat i + 1) (seq 0 (length conds)))
  /\ idsOf (fst (linkCondition threeSingles ∅ 2))
     = [(1, 1, "0x1"); (2, 2, "0x2"); (3, 2, "0x3")]
  /\ idsOf (recalculateLineAndGroupIds (fst (linkCondition threeSingles ∅ 2)))
     = [(1, 1, "0x1"); (2, 3, "0x2"); (3, 3, "0x3")]
  /\ idsOf (bitfieldConditions
              (removeBitfieldCondition
                 (sessionOf [plainLine 1 1 "0x1"; plainLine 2 3 "0x2"; plainLine 3 3 "0x3"])
                 1))
     = [(1, 3, "0x2"); (2, 2, "0x3")]
  /\ idsOf (copyCondition
              [plainLine 1 1 "0x1"; plainLine 2 3 "0x2"; plainLine 3 3 "0x3"] 1)
     = [(1, 1, "0x1"); (2, 2, "0x1"); (3, 3, "0x2"); (4, 4, "0x3")]
  /\ idsOf (addConditionAtIndex
              [plainLine 1 1 "0x1"; plainLine 2 3 "0x2"; plainLine 3 3 "0x3"] 0)
     = [(1, 1, "0x1"); (2, 2, "0x0"); (3, 3, "0x2"); (4, 4, "0x3")]
  /\ idsOf (bitfieldConditions
              (removeBitfieldCondition
                 (sessionOf (fst (linkCondition threeSingles ∅ 2))) 1))
     = [(1, 1, "0x2"); (2, 2, "0x3")].
Proof.
  split; [exact recalculate_lineIds|].
  repeat split; vm_compute; reflexivity.
Qed.

Lemma NoDup_map_inj {A B} (f : A -> B) (l : list A) x y :
  NoDup (map f l) -> In x l -> In y l -> f x = f y -> x = y.
Proof.
  induction l as [|a l IH]; [intros _ []|].
  cbn [map]. intros Hnd Hx Hy Hf.
  apply NoDup_cons in Hnd as [Ha Hnd].
  destruct Hx as [->|Hx], Hy as [->|Hy]; auto.
  - exfalso. apply Ha. rewrite Hf. apply list_elem_of_In, in_map, Hy.
  - exfalso. apply Ha. rewrite <- Hf. apply list_elem_of_In, in_map, Hx.
Qed.

Lemma find_some_in conds id c :
  findByLineId conds id = Some c -> In c conds /\ lineId c = id.
Proof.
  unfold findByLineId. intros H. apply find_some in H as [Hin Heq].
  split; [exact Hin | by apply Z.eqb_eq].
Qed.

Lemma deleteEntries_in ids : forall (m : gmap Z Expansion) k,
  In k ids -> fold_left (fun m id => delete id m) ids m !! k = None.
Proof.
  induction ids as [|id ids IH]; intros m k; [intros []|].
  cbn [fold_left]. intros [->|Hk]; [|by apply IH].
  clear IH. generalize (lookup_delete_eq m k).
  generalize (delete k m). induction ids as [|id ids IH]; intros m' Hm'; [exact Hm'|].
  cbn [fold_left]. apply IH.
  destruct (decide (k = id)) as [->|Hne]; [apply lookup_delete_eq|].
  by rewrite lookup_delete_ne by congruence.
Qed.

Lemma deleteEntries_out ids : forall (m : gmap Z Expansion) k,
  ~ In k ids -> fold_left (fun m id => delete id m) ids m !! k = m !! k.
Proof.
  induction ids as [|id ids IH]; intros m k Hk; [reflexivity|].
  cbn [fold_left]. rewrite IH by (intros ?; apply Hk; by right).
  apply lookup_delete_ne. intros ->. apply Hk. by left.
Qed.

(** What removal does to the conditions.  In a condition list with one
    condition per line id, removing a line id that is present removes
    exactly the conditions that share its group id, in place; the
    conditions kept are unchanged but for their line and group ids, and
    their line ids are 1..N again.  The call [bitfieldExpansions.delete]
    removes Map entries only: the own properties of the object are what
    they were. *)
Lemma removeBitfieldCondition_removes_the_group_only
    (s : Session) (id : Z) (condition : Condition)
    (Hids : NoDup (map lineId (bitfieldConditions s)))
    (Hfind : findByLineId (bitfieldConditions s) id = Some condition) :
  let s' := removeBitfieldCondition s id in
  let kept := List.filter (fun c => negb (groupId c =? groupId condition))
                (bitfieldConditions s) in
  let removedIds := map lineId (getGroupLines (bitfieldConditions s) (groupId condition)) in
  map stripIds (bitfieldConditions s') = map stripIds kept
  /\ map lineId (bitfieldConditions s')
     = map (fun i => Z.of_nat i + 1) (seq 0 (length kept))
  /\ In id removedIds
  /\ (forall k, In k removedIds -> mapEntries (bitfieldExpansions s') !! k = None)
  /\ (forall k, ~ In k removedIds ->
        mapEntries (bitfieldExpansions s') !! k = mapEntries (bitfieldExpansions s) !! k)
  /\ properties (bitfieldExpansions s') = properties (bitfieldExpansions s)
  /\ linkGroupColors s' = delete (groupId condition) (linkGroupColors s).
Proof.
  intros s' kept removedIds. subst s'. unfold removeBitfieldCondition.
  rewrite Hfind. cbn [bitfieldConditions bitfieldExpansions linkGroupColors].
  fold removedIds.
  destruct (find_some_in _ _ _ Hfind) as [Hin Hid].
  assert (Hfilter :
    List.filter (fun c => negb (existsb (Z.eqb (lineId c)) removedIds))
      (bitfieldConditions s) = kept).
  { subst kept. apply filter_ext_in. intros c Hc. f_equal.
    destruct (groupId c =? groupId condition) eqn:Hg.
    - apply existsb_exists. exists (lineId c). split; [|apply Z.eqb_refl].
      subst removedIds. apply in_map. unfold getGroupLines.
      apply filter_In. by split.
    - apply not_true_is_false. intros Hex.
      apply existsb_exists in Hex as (k & Hk & Hkc). apply Z.eqb_eq in Hkc.
      subst removedIds. apply in_map_iff in Hk as (m & Hm & Hmin).
      unfold getGroupLines in Hmin. apply filter_In in Hmin as [Hmin Hmg].
      assert (c = m) by (eapply NoDup_map_inj; eauto; congruence).
      subst m. congruence. }
  rewrite Hfilter.
  split; [apply recalculate_strip|].
  split; [apply recalculate_lineIds|].
  split.
  { subst removedIds. rewrite <- Hid. apply in_map. unfold getGroupLines.
    apply filter_In. split; [exact Hin | apply Z.eqb_refl]. }
  split.
  { intros k Hk. cbn [deleteEntries mapEntries]. by apply deleteEntries_in. }
  split.
  { intros k Hk. cbn [deleteEntries mapEntries]. by apply deleteEntries_out. }
  split; reflexivity.
Qed.

Lemma removeBitfieldCondition_removes_the_group_only_witness :
  map stripIds
      (bitfieldConditions
         (removeBitfieldCondition
            (sessionOf [plainLine 1 1 "0x1"; plainLine 2 3 "0x2"; plainLine 3 3 "0x3"])
            3))
  = map stripIds [plainLine 1 1 "0x1"].
Proof.
  refine (proj1 (removeBitfieldCondition_removes_the_group_only
                   (sessionOf [plainLine 1 1 "0x1"; plainLine 2 3 "0x2";
                               plainLine 3 3 "0x3"])
                   3 (plainLine 3 3 "0x3") _ eq_refl)).
  cbn. repeat constructor; rewrite ?list_elem_of_In; cbn; intuition discriminate.
Defined.

End Groups.

(** ** Confirming an expansion *)

Section Expansion.

Variable generateArithmeticLine : Condition -> LineConfig -> Z -> string.
Variable generateCustomLines : Condition -> LineConfig -> Z -> list string.

(** The serializer the application passes to [confirmExpansion]. *)
Definition convertLine (c : Condition) : string :=
  convertBitfieldConditionToText (pred c).

(** The configuration a member gets when its expansion panel is opened. *)
Definition defaultConfig : LineConfig :=
  {| activeTab := "left"; arithmeticIncrement := ""; customFieldSize := "";
     customized := false; customData := None |}.

(** The expansion stored under line [n] for a group of [m] members. *)
Definition openedExpansion (n : Z) (count : string) (check : bool) (m : nat)
    : ExpansionTable :=
  {| mapEntries := ∅;
     properties := {[ n := {| generatedGroups := count; deltaCheck := check;
                              lineConfigs := replicate m defaultConfig |} ]} |}.

(** The two tests of the member loop. *)
Definition customSelected (lineConfig : LineConfig) : bool :=
  customized lineConfig && bool_decide (is_Some (customData lineConfig)).

Definition incrementGiven (lineConfig : LineConfig) : bool :=
  JS.truthy (arithmeticIncrement lineConfig)
  && negb (String.eqb (JS.trim (arithmeticIncrement lineConfig)) "").

(** The first [m] members have a configuration, without a custom
    selection and with a blank increment. *)
Definition plainConfigs (expansion : Expansion) (m : nat) : bool :=
  forallb (fun i => match lineConfigs expansion !! i with
                    | Some lineConfig =>
                        negb (customSelected lineConfig) && negb (incrementGiven lineConfig)
                    | None => false
                    end) (seq 0 m).

(** The Delta/Mem or And/Or Next pass is reached. *)
Definition passReached (expansion : Expansion) (groupLines : list Condition) : bool :=
  deltaCheck expansion && existsb hasDeltaOrMem groupLines
  && (existsb (hasFlagIn ["A:"; "B:"]) groupLines
      || existsb (hasFlagIn ["N:"; "O:"]) groupLines).

Lemma deltaCheckPass_not_reached expansion groupLines allExpandedLines :
  passReached expansion groupLines = false ->
  deltaCheckPass expansion groupLines allExpandedLines = allExpandedLines.
Proof.
  unfold passReached, deltaCheckPass.
  destruct (deltaCheck expansion); [|reflexivity].
  destruct (existsb hasDeltaOrMem groupLines); [|reflexivity].
  destruct (existsb (hasFlagIn ["A:"; "B:"]) groupLines); [discriminate|].
  destruct (existsb (hasFlagIn ["N:"; "O:"]) groupLines); [discriminate|].
  by destruct (last groupLines).
Qed.

Lemma plainConfigs_lookup expansion m i :
  plainConfigs expansion m = true -> (i < m)%nat ->
  exists lineConfig, lineConfigs expansion !! i = Some lineConfig
    /\ customSelected lineConfig = false /\ incrementGiven lineConfig = false.
Proof.
  unfold plainConfigs. rewrite forallb_forall. intros H Hi.
  specialize (H i). rewrite in_seq in H. specialize (H ltac:(lia)).
  destruct (lineConfigs expansion !! i) as [lineConfig|]; [|discriminate].
  exists lineConfig. apply andb_true_iff in H as [H1 H2].
  split; [reflexivity|]. split; by apply negb_true_iff.
Qed.

Lemma expandMembers_plain expansion groupIdx groupLines :
  forall lineIdx allExpandedLines,
  plainConfigs expansion (lineIdx + length groupLines) = true ->
  expandMembers generateArithmeticLine generateCustomLines convertLine
    expansion groupIdx lineIdx groupLines allExpandedLines
  = Some (allExpandedLines ++ map convertLine groupLines).
Proof.
  induction groupLines as [|line tl IH]; intros lineIdx acc Hplain.
  - cbn. by rewrite app_nil_r.
  - cbn [expandMembers length] in *. unfold linesToAdd.
    destruct (plainConfigs_lookup _ _ lineIdx Hplain ltac:(lia))
      as (lineConfig & -> & Hc & Hi).
    fold (customSelected lineConfig). fold (incrementGiven lineConfig).
    rewrite Hc, Hi. rewrite IH.
    + by rewrite <- app_assoc.
    + by replace (S lineIdx + length tl)%nat with (lineIdx + S (length tl))%nat by lia.
Qed.

Lemma expandGroups_plain expansion groupLines groupIndexes :
  plainConfigs expansion (length groupLines) = true ->
  forall allExpandedLines,
  expandGroups generateArithmeticLine generateCustomLines convertLine
    expansion groupLines groupIndexes allExpandedLines
  = Some (allExpandedLines
          ++ concat (replicate (length groupIndexes) (map convertLine groupLines))).
Proof.
  intros Hplain.
  induction groupIndexes as [|groupIdx tl IH]; intros acc.
  - cbn. by rewrite app_nil_r.
  - cbn [expandGroups length replicate concat].
    rewrite expandMembers_plain by exact Hplain.
    rewrite IH. by rewrite <- app_assoc.
Qed.

Lemma expandMembers_total expansion groupIdx groupLines :
  forall lineIdx allExpandedLines,
  (lineIdx + length groupLines <= length (lineConfigs expansion))%nat ->
  is_Some (expandMembers generateArithmeticLine generateCustomLines convertLine
             expansion groupIdx lineIdx groupLines allExpandedLines).
Proof.
  induction groupLines as [|line tl IH]; intros lineIdx acc Hlen.
  - by eexists.
  - cbn [expandMembers length] in *. unfold linesToAdd.
    destruct (lookup_lt_is_Some_2 (lineConfigs expansion) lineIdx ltac:(lia))
      as [lineConfig ->].
    destruct (customized lineConfig && _);
      [|destruct (JS.truthy _ && _)]; apply IH; lia.
Qed.

Lemma expandGroups_total expansion groupLines groupIndexes :
  (length groupLines <= length (lineConfigs expansion))%nat ->
  forall allExpandedLines,
  is_Some (expandGroups generateArithmeticLine generateCustomLines convertLine
             expansion groupLines groupIndexes allExpandedLines).
Proof.
  intros Hlen.
  induction groupIndexes as [|groupIdx tl IH]; intros acc; [by eexists|].
  cbn [expandGroups].
  destruct (expandMembers_total expansion (Z.of_nat groupIdx) groupLines 0 acc Hlen)
    as [lines ->].
  apply IH.
Qed.

Lemma concat_replicate_lookup {A} (l : list A) k r j :
  (r < k)%nat -> (j < length l)%nat ->
  concat (replicate k l) !! (r * length l + j)%nat = l !! j.
Proof.
  revert r. induction k as [|k IH]; intros r Hr Hj; [lia|].
  cbn [replicate concat]. destruct r as [|r].
  - cbn [Nat.mul Nat.add]. by rewrite lookup_app_l.
  - rewrite lookup_app_r by (cbn [Nat.mul]; lia).
    replace (S r * length l + j - length l)%nat with (r * length l + j)%nat
      by (cbn [Nat.mul]; lia).
    apply IH; lia.
Qed.

Lemma concat_replicate_length {A} (l : list A) k :
  length (concat (replicate k l)) = (k * length l)%nat.
Proof.
  induction k as [|k IH]; [reflexivity|].
  cbn [replicate concat]. rewrite length_app, IH. reflexivity.
Qed.

(** What [confirmExpansion] leaves on the conditions: line id, the
    [expanded] flag and the expanded lines. *)
Definition expansionOf (conds : list Condition) : list (Z * bool * list string) :=
  map (fun c => (lineId c, expanded c, expandedLines c)) conds.

Definition confirmed (table : ExpansionTable) (conds : list Condition) (id : Z)
    : option (list (Z * bool * list string)) :=
  option_map (fun r => expansionOf (snd r))
    (confirmExpansion generateArithmeticLine generateCustomLines convertLine
       table conds id).

(** C7, amended.  When the Delta/Mem or And/Or Next pass is not reached
    (the check is off, or no member has a Delta or Mem operand, or no
    member carries one of the flags A:, B:, N:, O:), confirming an expansion
    of a group of m members with count k >= 1, no custom selection and blank
    increments, succeeds and gives every member of the group k * m lines:
    line r * m + j is the serialization of member j. *)
Theorem confirmExpansion_plain_copies_unless_pass_reached
    (table : ExpansionTable) (conds : list Condition) (expansionId : Z)
    (expansion : Expansion) (condition : Condition) (k : Z)
    (Hexp : properties table !! expansionId = Some expansion)
    (Hfind : findByLineId conds expansionId = Some condition)
    (Hcount : parseInt (generatedGroups expansion) = Some k)
    (Hk : 1 <= k)
    (Hplain : plainConfigs expansion
                (length (getGroupLines conds (groupId condition))) = true)
    (Hpass : passReached expansion (getGroupLines conds (groupId condition)) = false) :
  let groupLines := getGroupLines conds (groupId condition) in
  exists table' conds',
    confirmExpansion generateArithmeticLine generateCustomLines convertLine
      table conds expansionId = Some (table', conds')
    /\ In condition groupLines
    /\ (forall member, In member groupLines ->
          In (markExpanded (concat (replicate (Z.to_nat k) (map convertLine groupLines)))
                member) conds')
    /\ forall c', In c' conds' -> groupId c' = groupId condition ->
         expandedLines c' = concat (replicate (Z.to_nat k) (map convertLine groupLines))
         /\ length (expandedLines c') = (Z.to_nat k * length groupLines)%nat
         /\ forall r j member, (r < Z.to_nat k)%nat -> groupLines !! j = Some member ->
              expandedLines c' !! (r * length groupLines + j)%nat
              = Some (convertLine member).
Proof.
  intros groupLines. unfold confirmExpansion. rewrite Hexp, Hfind.
  fold groupLines. unfold generatedGroupsOf. rewrite Hcount.
  replace (k =? 0) with false by (symmetry; apply Z.eqb_neq; lia).
  rewrite expandGroups_plain by exact Hplain.
  rewrite length_seq. cbn [app].
  rewrite deltaCheckPass_not_reached by exact Hpass.
  set (lines := concat (replicate (Z.to_nat k) (map convertLine groupLines))).
  eexists _, _. split; [reflexivity|].
  destruct (find_some_in _ _ _ Hfind) as [Hin Hid].
  split.
  { subst groupLines. unfold getGroupLines. apply filter_In.
    split; [exact Hin | apply Z.eqb_refl]. }
  split.
  { intros member Hm. subst groupLines. unfold getGroupLines in Hm.
    apply filter_In in Hm as [Hm Hg]. apply in_map_iff. exists member.
    rewrite Hg. by split. }
  intros c' Hc' Hg. apply in_map_iff in Hc' as (c & Hc & _).
  assert (Hlines : expandedLines c' = lines).
  { destruct (groupId c =? groupId condition) eqn:Hgc; subst c'; [reflexivity|].
    apply Z.eqb_neq in Hgc. contradiction. }
  rewrite Hlines. split; [reflexivity|].
  split.
  { subst lines. by rewrite concat_replicate_length, length_map. }
  intros r j member Hr Hj. subst lines.
  replace (length groupLines) with (length (map convertLine groupLines))
    by apply length_map.
  rewrite concat_replicate_lookup.
  - by rewrite list_lookup_fmap, Hj.
  - exact Hr.
  - rewrite length_map. by eapply lookup_lt_Some.
Qed.

(** C9, amended.  When every member of the group has a line configuration,
    confirming the expansion succeeds, removes the configuration stored
    under the line id, and rewrites the condition list in place: every
    member of the group, leader or not, is marked expanded and holds the
    same generated lines; every other condition is left as it was. *)
Theorem confirmExpansion_marks_every_member
    (table : ExpansionTable) (conds : list Condition) (expansionId : Z)
    (expansion : Expansion) (condition : Condition)
    (Hexp : properties table !! expansionId = Some expansion)
    (Hfind : findByLineId conds expansionId = Some condition)
    (Hcfg : (length (getGroupLines conds (groupId condition))
             <= length (lineConfigs expansion))%nat) :
  exists table' conds' allExpandedLines,
    confirmExpansion generateArithmeticLine generateCustomLines convertLine
      table conds expansionId = Some (table', conds')
    /\ properties table' = delete expansionId (properties table)
    /\ mapEntries table' = mapEntries table
    /\ length conds' = length conds
    /\ forall i c, conds !! i = Some c ->
         exists c', conds' !! i = Some c'
           /\ lineId c' = lineId c /\ groupId c' = groupId c
           /\ pred c' = pred c /\ bytes c' = bytes c
           /\ if groupId c =? groupId condition
              then expanded c' = true /\ expandedLines c' = allExpandedLines
              else c' = c.
Proof.
  unfold confirmExpansion. rewrite Hexp, Hfind.
  destruct (expandGroups_total expansion _
              (seq 0 (Z.to_nat (generatedGroupsOf expansion))) Hcfg [])
    as [lines ->].
  eexists _, _,
    (deltaCheckPass expansion (getGroupLines conds (groupId condition)) lines).
  split; [reflexivity|].
  split; [reflexivity|]. split; [reflexivity|].
  split; [apply length_map|].
  intros i c Hc. eexists. split.
  { change (map ?f conds) with (f <$> conds).
    rewrite list_lookup_fmap, Hc. reflexivity. }
  destruct (groupId c =? groupId condition); repeat split; reflexivity.
Qed.

End Expansion.

(** Callbacks for expansions whose members have neither an increment nor
    a custom selection: [confirmExpansion] never calls them there. *)
Definition idleArithmeticLine : Condition -> LineConfig -> Z -> string :=
  fun _ _ _ => "A:0x0".

Definition idleCustomLines : Condition -> LineConfig -> Z -> list string :=
  fun _ _ _ => [].

(** C7 as stated fails with the default configuration: a group of one
    Add Source line on a memory operand, repeated once, with no custom
    selection and a blank increment, gets four lines, since the Delta/Mem
    pass is on by default and rewrites the copies. *)
Lemma confirmExpansion_default_check_rewrites_copies :
  plainConfigs {| generatedGroups := "1"; deltaCheck := true;
                  lineConfigs := [defaultConfig] |} 1 = true
  /\ confirmed idleArithmeticLine idleCustomLines
       (openedExpansion 1 "1" true 1) [plainLine 1 1 "0x1234"] 1
     = Some [(1, true, ["A:d0x1234"; "0=0"; "A:0x1234"; "0=0"])]
  /\ convertLine (plainLine 1 1 "0x1234") = "A:0x1234".
Proof. repeat split; vm_compute; reflexivity. Qed.

(** C9 as stated fails: lines 1 and 2 form a group whose leader is line 2;
    after the expansion opened on the leader is confirmed, line 1 is marked
    expanded and holds the generated lines as well. *)
Lemma confirmExpansion_marks_non_leader :
  option_map lineId (getGroupLeader [plainLine 1 2 "0x1"; plainLine 2 2 "0x2";
                                     plainLine 3 3 "0x3"] 2) = Some 2
  /\ confirmed idleArithmeticLine idleCustomLines
       (openedExpansion 2 "1" false 2)
       [plainLine 1 2 "0x1"; plainLine 2 2 "0x2"; plainLine 3 3 "0x3"] 2
     = Some [(1, true, ["A:0x1"; "A:0x2"]); (2, true, ["A:0x1"; "A:0x2"]);
             (3, false, [])].
Proof. split; vm_compute; reflexivity. Qed.

Lemma confirmExpansion_plain_copies_unless_pass_reached_witness :
  exists table' conds',
    confirmExpansion idleArithmeticLine idleCustomLines convertLine
      (openedExpansion 2 "3" false 2)
      [plainLine 1 2 "0x1"; plainLine 2 2 "0x2"; plainLine 3 3 "0x3"] 2
    = Some (table', conds')
    /\ In (markExpanded ["A:0x1"; "A:0x2"; "A:0x1"; "A:0x2"; "A:0x1"; "A:0x2"]
             (plainLine 1 2 "0x1")) conds'.
Proof.
  destruct (confirmExpansion_plain_copies_unless_pass_reached
              idleArithmeticLine idleCustomLines
              (openedExpansion 2 "3" false 2)
              [plainLine 1 2 "0x1"; plainLine 2 2 "0x2"; plainLine 3 3 "0x3"] 2
              {| generatedGroups := "3"; deltaCheck := false;
                 lineConfigs := replicate 2 defaultConfig |}
              (plainLine 2 2 "0x2") 3
              eq_refl eq_refl eq_refl ltac:(lia) eq_refl eq_refl)
    as (table' & conds' & Hrun & _ & Hmembers & _).
  exists table', conds'. split; [exact Hrun|].
  apply (Hmembers (plainLine 1 2 "0x1")). left. reflexivity.
Defined.

Lemma confirmExpansion_marks_every_member_witness :
  exists table' conds' allExpandedLines,
    confirmExpansion idleArithmeticLine idleCustomLines convertLine
      (openedExpansion 2 "1" true 2)
      [plainLine 1 2 "0x1"; plainLine 2 2 "0x2"; plainLine 3 3 "0x3"] 2
    = Some (table', conds')
    /\ forall i c,
         [plainLine 1 2 "0x1"; plainLine 2 2 "0x2"; plainLine 3 3 "0x3"] !! i = Some c ->
         exists c', conds' !! i = Some c'
           /\ if groupId c =? 2
              then expanded c' = true /\ expandedLines c' = allExpandedLines
              else c' = c.
Proof.
  destruct (confirmExpansion_marks_every_member
              idleArithmeticLine idleCustomLines
              (openedExpansion 2 "1" true 2)
              [plainLine 1 2 "0x1"; plainLine 2 2 "0x2"; plainLine 3 3 "0x3"] 2
              {| generatedGroups := "1"; deltaCheck := true;
                 lineConfigs := replicate 2 defaultConfig |}
              (plainLine 2 2 "0x2")
              eq_refl eq_refl ltac:(cbn; lia))
    as (table' & conds' & lines & Hrun & _ & _ & _ & Hall).
  exists table', conds', lines. split; [exact Hrun|].
  intros i c Hc. destruct (Hall i c Hc) as (c' & Hc' & _ & _ & _ & _ & Hmark).
  exists c'. split; [exact Hc' | exact Hmark].
Defined.

(** ** What removal leaves in the expansion table *)

(** The configuration [expandCondition] stores for a line that is alone in
    its group: count 1, check on, one default line configuration. *)
Definition openedFirst : Expansion :=
  {| generatedGroups := "1"; deltaCheck := true;
     lineConfigs := [{| activeTab := "left"; arithmeticIncrement := "";
                        customFieldSize := "0x50"; customized := false;
                        customData := None |}] |}.

(** Two single lines after [expandCondition(1)]: the configuration is the
    own property [1] of [bitfieldExpansions], as
    [bitfieldExpansions[lineId] = {...}] stores it. *)
Definition expandedFirst : Session :=
  {| bitfieldConditions := [plainLine 1 1 "0x1"; plainLine 2 2 "0x2"];
     bitfieldExpansions := {| mapEntries := ∅; properties := {[ 1 := openedFirst ]} |};
     linkGroupColors := ∅ |}.


(* ====================================================================== *)
(** * Part III.  Further properties of the modules                         *)
(* ====================================================================== *)

(** ** Group leaders and lists of single conditions *)

Section Singles.

Lemma maxByLineId_fold others : forall first,
  let leader := fold_left (fun max line => if lineId line >? lineId max then line else max)
                  others first in
  In leader (first :: others)
  /\ lineId first <= lineId leader
  /\ forall m, In m others -> lineId m <= lineId leader.
Proof.
  induction others as [|line tl IH]; intros first; cbn [fold_left].
  - cbn. split; [by left|]. split; [lia | intros ? []].
  - destruct (IH (if lineId line >? lineId first then line else first))
      as (Hin & Hle & Hall).
    cbn zeta. split; [|split].
    + destruct Hin as [Hin|Hin]; [|right; by right].
      destruct (lineId line >? lineId first); [right; left | left]; exact Hin.
    + destruct (lineId line >? lineId first) eqn:Hgt; lia.
    + intros m [Heq|Hm]; [subst m | by apply Hall].
      destruct (lineId line >? lineId first) eqn:Hgt; lia.
Qed.

Lemma maxByLineId_spec members leader :
  maxByLineId members = Some leader ->
  In leader members /\ forall m, In m members -> lineId m <= lineId leader.
Proof.
  destruct members as [|first others]; [discriminate|].
  cbn [maxByLineId]. intros [= <-].
  destruct (maxByLineId_fold others first) as (Hin & Hle & Hall).
  split; [exact Hin|]. intros m [<-|Hm]; [exact Hle | by apply Hall].
Qed.

Lemma maxByLineId_none members : maxByLineId members = None <-> members = [].
Proof. destruct members; cbn; split; congruence. Qed.

Lemma getGroupLines_in conds gid c :
  In c (getGroupLines conds gid) <-> In c conds /\ groupId c = gid.
Proof.
  unfold getGroupLines. rewrite filter_In. by rewrite Z.eqb_eq.
Qed.

(** X1.  The leader of a group is one of its members and no member has a
    greater line id; there is no leader exactly when no condition carries
    the group id. *)
Theorem getGroupLeader_is_greatest_member (conds : list Condition) (gid : Z) :
  (getGroupLeader conds gid = None <-> forall c, In c conds -> groupId c <> gid)
  /\ forall leader, getGroupLeader conds gid = Some leader ->
       In leader conds /\ groupId leader = gid
       /\ isGroupLeader conds leader = true
       /\ forall c, In c conds -> groupId c = gid -> lineId c <= lineId leader.
Proof.
  unfold isGroupLeader, getGroupLeader. split.
  - destruct (getGroupLines conds gid) as [|first others] eqn:Hg.
    + split; [|reflexivity]. intros _ c Hc Hgid.
      assert (In c (getGroupLines conds gid)) by by apply getGroupLines_in.
      rewrite Hg in *. contradiction.
    + split; [discriminate|]. intros Hnone. exfalso.
      assert (Hin : In first (getGroupLines conds gid)) by (rewrite Hg; by left).
      apply getGroupLines_in in Hin as [Hin Hgid]. exact (Hnone first Hin Hgid).
  - intros leader Hl.
    assert (Hmax : maxByLineId (getGroupLines conds gid) = Some leader).
    { destruct (getGroupLines conds gid); [discriminate | exact Hl]. }
    apply maxByLineId_spec in Hmax as [Hin Hall].
    apply getGroupLines_in in Hin as [Hin Hgid].
    split; [exact Hin|]. split; [exact Hgid|]. split.
    + rewrite Hgid, Hl. apply Z.eqb_refl.
    + intros c Hc Hcg. apply Hall. by apply getGroupLines_in.
Qed.

Lemma getGroupLeader_is_greatest_member_witness :
  In (plainLine 3 3 "0x3") [plainLine 1 1 "0x1"; plainLine 2 3 "0x2"; plainLine 3 3 "0x3"]
  /\ forall c, In c [plainLine 1 1 "0x1"; plainLine 2 3 "0x2"; plainLine 3 3 "0x3"] ->
       groupId c = 3 -> lineId c <= 3.
Proof.
  destruct (proj2 (getGroupLeader_is_greatest_member
                     [plainLine 1 1 "0x1"; plainLine 2 3 "0x2"; plainLine 3 3 "0x3"] 3)
              (plainLine 3 3 "0x3") eq_refl) as (Hin & _ & _ & Hall).
  split; [exact Hin | exact Hall].
Defined.

(** A condition alone in its group: its group id is its line id. *)
Definition single (c : Condition) : Prop := groupId c = lineId c.

(** Condition [i] of the list with the ids [i + 1]. *)
Definition numbered (conds : list Condition) : list Condition :=
  imap (fun i c => setIds (Z.of_nat i + 1) (Z.of_nat i + 1) c) conds.

Lemma imap_ext_Forall {A B} (P : A -> Prop) (l : list A) : forall (f g : nat -> A -> B),
  (forall i x, P x -> f i x = g i x) -> Forall P l -> imap f l = imap g l.
Proof.
  induction l as [|x l IH]; intros f g Hfg Hl; [reflexivity|].
  apply Forall_cons in Hl as [Hx Hl]. cbn [imap]. f_equal; [by apply Hfg|].
  apply IH; [|exact Hl]. intros i y Hy. by apply Hfg.
Qed.

Lemma numbered_single conds : Forall single (numbered conds).
Proof.
  unfold numbered. apply Forall_forall. intros c Hc.
  apply elem_of_lookup_imap in Hc as (i & x & -> & _).
  reflexivity.
Qed.

Lemma regroup_fold_single indexes : forall conds processed,
  Forall single conds ->
  fold_left regroupStep indexes (conds, processed) = (conds, processed).
Proof.
  induction indexes as [|i indexes IH]; intros conds processed Hs; [reflexivity|].
  cbn [fold_left].
  assert (Hstep : regroupStep (conds, processed) i = (conds, processed)).
  { unfold regroupStep. destruct (conds !! i) as [c|] eqn:Hc; [|reflexivity].
    assert (Hsingle : single c).
    { eapply Forall_forall; [exact Hs|]. by eapply list_elem_of_lookup_2. }
    unfold single in Hsingle. rewrite Hsingle, Z.eqb_refl, orb_true_r. reflexivity. }
  rewrite Hstep. by apply IH.
Qed.

Lemma recalculate_single conds :
  Forall single conds -> recalculateLineAndGroupIds conds = numbered conds.
Proof.
  intros Hs. unfold recalculateLineAndGroupIds.
  assert (Hren : imap renumber conds = numbered conds).
  { unfold numbered. eapply imap_ext_Forall; [|exact Hs].
    intros i c Hc. unfold renumber, single in *. by rewrite Hc, Z.eqb_refl. }
  rewrite Hren, regroup_fold_single; [reflexivity | apply numbered_single].
Qed.

End Singles.

(** ** Editing a list of single conditions *)

Section SingleEdits.

(** Condition [i] of the list carries the ids [n + i + 1]. *)
Definition NumberedFrom (n : Z) (conds : list Condition) : Prop :=
  forall i c, conds !! i = Some c ->
    lineId c = n + Z.of_nat i + 1 /\ groupId c = n + Z.of_nat i + 1.

Lemma numberedFrom_tail n c conds :
  NumberedFrom n (c :: conds) -> NumberedFrom (n + 1) conds.
Proof.
  intros H i x Hx. destruct (H (S i) x Hx) as [-> ->]. lia.
Qed.

Lemma numberedFrom_head n c conds :
  NumberedFrom n (c :: conds) -> lineId c = n + 1 /\ groupId c = n + 1.
Proof. intros H. destruct (H 0%nat c eq_refl) as [-> ->]. lia. Qed.

Lemma numbered_from conds : NumberedFrom 0 (numbered conds).
Proof.
  intros i c Hc. unfold numbered in Hc. rewrite list_lookup_imap in Hc.
  destruct (conds !! i); [|discriminate]. injection Hc as <-. cbn. lia.
Qed.

Lemma numberedFrom_single n conds : NumberedFrom n conds -> Forall single conds.
Proof.
  intros H. apply Forall_lookup. intros i c Hc.
  destruct (H i c Hc) as [Hl Hg]. unfold single. congruence.
Qed.

Lemma filter_none {A} (f : A -> bool) (l : list A) :
  (forall x, In x l -> f x = true) -> List.filter f l = l.
Proof.
  induction l as [|x l IH]; intros H; [reflexivity|].
  cbn [List.filter]. rewrite (H x) by by left. f_equal. apply IH.
  intros y Hy. apply H. by right.
Qed.

Lemma filter_nothing {A} (f : A -> bool) (l : list A) :
  (forall x, In x l -> f x = false) -> List.filter f l = [].
Proof.
  induction l as [|x l IH]; intros H; [reflexivity|].
  cbn [List.filter]. rewrite (H x) by by left. apply IH.
  intros y Hy. apply H. by right.
Qed.

Lemma numberedFrom_after n conds x :
  NumberedFrom n conds -> In x conds -> n < lineId x /\ n < groupId x.
Proof.
  intros H Hx. rewrite <- list_elem_of_In in Hx.
  apply list_elem_of_lookup_1 in Hx as [i Hi].
  destruct (H i x Hi) as [-> ->]. lia.
Qed.

(** In a numbered list the condition with line id [n + k + 1] is the one
    at index [k]; it is its whole group. *)
Lemma numbered_find conds : forall n (k : nat),
  NumberedFrom n conds ->
  List.find (fun c => lineId c =? n + Z.of_nat k + 1) conds = conds !! k.
Proof.
  induction conds as [|c conds IH]; intros n k H; [reflexivity|].
  destruct (numberedFrom_head _ _ _ H) as [Hl Hg]. cbn [List.find].
  destruct k as [|k].
  - replace (lineId c =? n + Z.of_nat 0 + 1) with true
      by (symmetry; apply Z.eqb_eq; lia). reflexivity.
  - replace (lineId c =? n + Z.of_nat (S k) + 1) with false
      by (symmetry; apply Z.eqb_neq; lia).
    replace (n + Z.of_nat (S k) + 1) with ((n + 1) + Z.of_nat k + 1) by lia.
    apply IH. by eapply numberedFrom_tail.
Qed.

Lemma numbered_group conds : forall n (k : nat),
  NumberedFrom n conds ->
  getGroupLines conds (n + Z.of_nat k + 1)
  = match conds !! k with Some c => [c] | None => [] end.
Proof.
  unfold getGroupLines.
  induction conds as [|c conds IH]; intros n k H; [reflexivity|].
  destruct (numberedFrom_head _ _ _ H) as [Hl Hg]. cbn [List.filter].
  pose proof (numberedFrom_tail _ _ _ H) as Htl.
  destruct k as [|k].
  - replace (groupId c =? n + Z.of_nat 0 + 1) with true
      by (symmetry; apply Z.eqb_eq; lia).
    cbn. f_equal. apply filter_nothing. intros x Hx.
    destruct (numberedFrom_after _ _ _ Htl Hx). apply Z.eqb_neq. lia.
  - replace (groupId c =? n + Z.of_nat (S k) + 1) with false
      by (symmetry; apply Z.eqb_neq; lia).
    replace (n + Z.of_nat (S k) + 1) with ((n + 1) + Z.of_nat k + 1) by lia.
    by apply IH.
Qed.

Lemma numbered_without conds : forall n (k : nat),
  NumberedFrom n conds ->
  List.filter (fun c => negb (existsb (Z.eqb (lineId c)) [n + Z.of_nat k + 1])) conds
  = take k conds ++ drop (S k) conds.
Proof.
  induction conds as [|c conds IH]; intros n k H.
  - by destruct k.
  - destruct (numberedFrom_head _ _ _ H) as [Hl Hg]. cbn [List.filter existsb].
    pose proof (numberedFrom_tail _ _ _ H) as Htl.
    destruct k as [|k].
    + replace (lineId c =? n + Z.of_nat 0 + 1) with true
        by (symmetry; apply Z.eqb_eq; lia).
      cbn. rewrite drop_0. apply filter_none. intros x Hx.
      destruct (numberedFrom_after _ _ _ Htl Hx).
      rewrite orb_false_r. apply negb_true_iff, Z.eqb_neq. lia.
    + replace (lineId c =? n + Z.of_nat (S k) + 1) with false
        by (symmetry; apply Z.eqb_neq; lia).
      cbn. f_equal.
      replace (n + Z.of_nat (S k) + 1) with ((n + 1) + Z.of_nat k + 1) by lia.
      by apply IH.
Qed.

Lemma numbered_findIndex conds : forall n i0 (k : nat) c,
  NumberedFrom n conds -> conds !! k = Some c ->
  findIndexFrom i0 conds (n + Z.of_nat k + 1) = i0 + Z.of_nat k.
Proof.
  induction conds as [|x conds IH]; intros n i0 k c H Hk; [discriminate|].
  destruct (numberedFrom_head _ _ _ H) as [Hl Hg]. cbn [findIndexFrom].
  destruct k as [|k].
  - replace (lineId x =? n + Z.of_nat 0 + 1) with true
      by (symmetry; apply Z.eqb_eq; lia). lia.
  - replace (lineId x =? n + Z.of_nat (S k) + 1) with false
      by (symmetry; apply Z.eqb_neq; lia).
    replace (n + Z.of_nat (S k) + 1) with ((n + 1) + Z.of_nat k + 1) by lia.
    rewrite (IH (n + 1) (i0 + 1) k c); [lia | by eapply numberedFrom_tail | exact Hk].
Qed.

Lemma numbered_strip_map conds : map stripIds (numbered conds) = map stripIds conds.
Proof.
  unfold numbered. change (map stripIds ?l) with (stripIds <$> l).
  rewrite fmap_imap.
  transitivity (imap (fun _ => stripIds) conds);
    [apply imap_ext; reflexivity | apply imap_const].
Qed.

Lemma numbered_of_strip conds conds' :
  map stripIds conds = map stripIds conds' -> numbered conds = numbered conds'.
Proof.
  intros H.
  assert (Hs : forall l, numbered l = numbered (map stripIds l)).
  { intros l. unfold numbered. change (map stripIds l) with (stripIds <$> l).
    rewrite imap_fmap. apply imap_ext. reflexivity. }
  rewrite (Hs conds), (Hs conds'), H. reflexivity.
Qed.

Definition session (conds : list Condition) (table : ExpansionTable)
    (colors : gmap Z Z) : Session :=
  {| bitfieldConditions := conds; bitfieldExpansions := table;
     linkGroupColors := colors |}.

Lemma strip_take_drop conds (p q : nat) :
  map stripIds (take p (numbered conds) ++ drop q (numbered conds))
  = map stripIds (take p conds ++ drop q conds).
Proof.
  rewrite !map_app. change (map stripIds ?l) with (stripIds <$> l).
  rewrite !fmap_take, !fmap_drop.
  change (stripIds <$> numbered conds) with (map stripIds (numbered conds)).
  by rewrite numbered_strip_map.
Qed.

Lemma single_take_drop conds (p q : nat) :
  Forall single conds -> Forall single (take p conds ++ drop q conds).
Proof.
  intros H. apply Forall_app. split; [by apply Forall_take | by apply Forall_drop].
Qed.

(** Removing line [p + 1] of a numbered list. *)
Lemma remove_numbered conds table colors (p : nat) c :
  conds !! p = Some c ->
  bitfieldConditions
    (removeBitfieldCondition (session (numbered conds) table colors) (Z.of_nat p + 1))
  = numbered (take p conds ++ drop (S p) conds).
Proof.
  intros Hp. pose proof (numbered_from conds) as Hnum.
  assert (Hlook : numbered conds !! p
                  = Some (setIds (Z.of_nat p + 1) (Z.of_nat p + 1) c)).
  { unfold numbered. by rewrite list_lookup_imap, Hp. }
  unfold removeBitfieldCondition, session, findByLineId.
  cbn [bitfieldConditions bitfieldExpansions linkGroupColors].
  replace (Z.of_nat p + 1) with (0 + Z.of_nat p + 1) by lia.
  rewrite (numbered_find _ 0 p Hnum), Hlook.
  cbn [bitfieldConditions groupId setIds].
  replace (Z.of_nat p + 1) with (0 + Z.of_nat p + 1) by lia.
  rewrite (numbered_group _ 0 p Hnum), Hlook. cbn [map lineId setIds].
  replace (Z.of_nat p + 1) with (0 + Z.of_nat p + 1) by lia.
  rewrite (numbered_without _ 0 p Hnum).
  rewrite recalculate_single
    by (apply single_take_drop, numbered_single).
  apply numbered_of_strip, strip_take_drop.
Qed.

Lemma splice_in_range {A} (l : list A) (p : nat) (items : list A) :
  (p <= length l)%nat ->
  spliceInsert l (Z.of_nat p) items = take p l ++ items ++ drop p l.
Proof.
  intros Hp. unfold spliceInsert.
  replace (Z.of_nat p <? 0) with false by (symmetry; apply Z.ltb_ge; lia).
  rewrite Z.min_l by lia. by rewrite Nat2Z.id.
Qed.

Lemma single_splice conds start items :
  Forall single conds -> Forall single items ->
  Forall single (spliceInsert conds start items).
Proof.
  intros Hc Hi. unfold spliceInsert.
  apply Forall_app. split; [by apply Forall_take|].
  apply Forall_app. split; [exact Hi | by apply Forall_drop].
Qed.

Lemma single_default : Forall single [createDefaultCondition].
Proof. by repeat constructor. Qed.

Lemma single_copies group : Forall single (map copyOf group).
Proof. induction group; constructor; [reflexivity | assumption]. Qed.

(** X2.  In a list whose conditions are each alone in their group,
    renumbering gives condition i the ids i + 1 and changes nothing else;
    appending, inserting, copying and removing keep such a list such a
    list. *)
Theorem edits_keep_single_conditions (conds : list Condition)
    (Hsingle : Forall single conds) :
  recalculateLineAndGroupIds conds = numbered conds
  /\ addBitfieldCondition conds = numbered (conds ++ [createDefaultCondition])
  /\ (forall index,
        addConditionAtIndex conds index
        = numbered (spliceInsert conds (index + 1) [createDefaultCondition]))
  /\ (forall id, Forall single (copyCondition conds id))
  /\ forall table colors id,
       Forall single
         (bitfieldConditions (removeBitfieldCondition (session conds table colors) id)).
Proof.
  split; [by apply recalculate_single|].
  split.
  { unfold addBitfieldCondition. apply recalculate_single.
    apply Forall_app. split; [exact Hsingle | apply single_default]. }
  split.
  { intros index. unfold addConditionAtIndex. apply recalculate_single.
    apply single_splice; [exact Hsingle | apply single_default]. }
  split.
  { intros id. unfold copyCondition.
    destruct (findByLineId conds id) as [condition|]; [|exact Hsingle].
    destruct (maxByLineId _) as [lastGroupLine|]; [|exact Hsingle].
    rewrite recalculate_single; [apply numbered_single|].
    apply single_splice; [exact Hsingle | apply single_copies]. }
  intros table colors id. unfold removeBitfieldCondition, session.
  cbn [bitfieldConditions].
  destruct (findByLineId conds id) as [condition|]; [|exact Hsingle].
  cbn [bitfieldConditions].
  rewrite recalculate_single; [apply numbered_single|].
  apply Forall_forall. intros c Hc. rewrite list_elem_of_In in Hc.
  apply filter_In in Hc as [Hc _].
  eapply Forall_forall; [exact Hsingle | by apply list_elem_of_In].
Qed.

Lemma edits_keep_single_conditions_witness :
  addBitfieldCondition threeSingles
  = numbered (threeSingles ++ [createDefaultCondition]).
Proof.
  refine (proj1 (proj2 (edits_keep_single_conditions threeSingles _))).
  repeat constructor.
Defined.

End SingleEdits.

(** ** Undoing an insertion or a copy *)

Section UndoEdits.

Lemma lookup_middle {A} (l : list A) (p : nat) (x : A) :
  (p <= length l)%nat -> (take p l ++ [x] ++ drop p l) !! p = Some x.
Proof.
  intros Hp. rewrite lookup_app_r by (rewrite length_take; lia).
  rewrite length_take. by replace (p - p `min` length l)%nat with 0%nat by lia.
Qed.

Lemma without_middle {A} (l : list A) (p : nat) (x : A) :
  (p <= length l)%nat ->
  take p (take p l ++ [x] ++ drop p l) ++ drop (S p) (take p l ++ [x] ++ drop p l) = l.
Proof.
  intros Hp.
  assert (Hlen : length (take p l) = p) by (rewrite length_take; lia).
  rewrite take_app_length' by (symmetry; exact Hlen).
  rewrite drop_app_ge by lia. rewrite Hlen.
  replace (S p - p)%nat with 1%nat by lia. cbn [app drop].
  rewrite drop_0. apply take_drop.
Qed.

(** X3.  On a numbered list of single conditions (condition i has line id
    and group id i + 1), removing the condition just appended, just
    inserted, or just copied gives the list back. *)
Theorem remove_undoes_add_insert_copy (conds : list Condition)
    (table : ExpansionTable) (colors : gmap Z Z)
    (Hnum : numbered conds = conds) :
  bitfieldConditions
    (removeBitfieldCondition (session (addBitfieldCondition conds) table colors)
       (Z.of_nat (length conds) + 1)) = conds
  /\ (forall p : nat, (p <= length conds)%nat ->
        bitfieldConditions
          (removeBitfieldCondition
             (session (addConditionAtIndex conds (Z.of_nat p - 1)) table colors)
             (Z.of_nat p + 1)) = conds)
  /\ forall (p : nat) c, conds !! p = Some c ->
       copyCondition conds (Z.of_nat p + 1)
       = numbered (take (S p) conds ++ [copyOf c] ++ drop (S p) conds)
       /\ bitfieldConditions
            (removeBitfieldCondition
               (session (copyCondition conds (Z.of_nat p + 1)) table colors)
               (Z.of_nat p + 2)) = conds.
Proof.
  assert (Hsingle : Forall single conds) by (rewrite <- Hnum; apply numbered_single).
  assert (Hfrom : NumberedFrom 0 conds) by (rewrite <- Hnum; apply numbered_from).
  assert (Hinsert : forall p : nat, (p <= length conds)%nat ->
    bitfieldConditions
      (removeBitfieldCondition
         (session (numbered (take p conds ++ [createDefaultCondition] ++ drop p conds))
            table colors) (Z.of_nat p + 1)) = conds).
  { intros p Hp.
    rewrite (remove_numbered _ table colors p createDefaultCondition)
      by by apply lookup_middle.
    rewrite without_middle by exact Hp. exact Hnum. }
  split.
  { unfold addBitfieldCondition. rewrite recalculate_single
      by (apply Forall_app; split; [exact Hsingle | apply single_default]).
    specialize (Hinsert (length conds) ltac:(lia)).
    by rewrite firstn_all, drop_all, app_nil_r in Hinsert. }
  split.
  { intros p Hp. unfold addConditionAtIndex.
    replace (Z.of_nat p - 1 + 1) with (Z.of_nat p) by lia.
    rewrite splice_in_range by exact Hp.
    rewrite recalculate_single
      by (rewrite <- splice_in_range by exact Hp;
          apply single_splice; [exact Hsingle | apply single_default]).
    by apply Hinsert. }
  intros p c Hp.
  assert (Hlt : (p < length conds)%nat) by by eapply lookup_lt_Some.
  destruct (Hfrom p c Hp) as [Hl Hg].
  assert (Hcopy : copyCondition conds (Z.of_nat p + 1)
                  = numbered (take (S p) conds ++ [copyOf c] ++ drop (S p) conds)).
  { unfold copyCondition, findByLineId.
    replace (Z.of_nat p + 1) with (0 + Z.of_nat p + 1) by lia.
    rewrite (numbered_find _ 0 p Hfrom), Hp.
    rewrite Hg, (numbered_group _ 0 p Hfrom), Hp.
    cbn [maxByLineId fold_left map]. unfold findIndex.
    rewrite Hl, (numbered_findIndex _ 0 0 p c Hfrom Hp).
    replace (0 + Z.of_nat p + 1) with (Z.of_nat (S p)) by lia.
    rewrite splice_in_range by lia.
    apply recalculate_single.
    rewrite <- (splice_in_range conds (S p)) by lia.
    apply single_splice; [exact Hsingle | apply (single_copies [c])]. }
  split; [exact Hcopy|].
  rewrite Hcopy.
  replace (Z.of_nat p + 2) with (Z.of_nat (S p) + 1) by lia.
  rewrite (remove_numbered _ table colors (S p) (copyOf c))
    by (apply lookup_middle; lia).
  rewrite without_middle by lia. exact Hnum.
Qed.

Lemma remove_undoes_add_insert_copy_witness :
  bitfieldConditions
    (removeBitfieldCondition
       (session (addBitfieldCondition threeSingles)
          {| mapEntries := ∅; properties := ∅ |} ∅) 4) = threeSingles.
Proof.
  exact (proj1 (remove_undoes_add_insert_copy threeSingles
                  {| mapEntries := ∅; properties := ∅ |} ∅ eq_refl)).
Defined.

End UndoEdits.

(** ** Linking and unlinking *)

Section LinkUnlink.

(** A condition without its group id. *)
Definition dropGroup (c : Condition) : Condition := setGroupId 0 c.

Lemma dropGroup_relabel (f : Condition -> bool) g conds :
  map dropGroup (map (fun line => if f line then setGroupId g line else line) conds)
  = map dropGroup conds.
Proof.
  rewrite map_map. apply map_ext. intros c. by destruct (f c).
Qed.

Lemma unlinkFrom_dropGroup gid conditionIndex conds : forall idx,
  map dropGroup (unlinkFrom gid conditionIndex idx conds) = map dropGroup conds.
Proof.
  induction conds as [|line tl IH]; intros idx; [reflexivity|].
  cbn [unlinkFrom]. destruct (groupId line =? gid).
  - cbn [map]. rewrite IH. by destruct (idx >? conditionIndex).
  - cbn [map]. by rewrite IH.
Qed.

Lemma linkCondition_dropGroup conds colors id :
  map dropGroup (fst (linkCondition conds colors id)) = map dropGroup conds.
Proof.
  unfold linkCondition.
  destruct (findByLineId conds id) as [condition|]; [|reflexivity].
  destruct (negb (isGroupLeader conds condition)); [reflexivity|].
  destruct (_ >=? _); [reflexivity|].
  destruct (at_index conds _) as [belowCondition|]; [|reflexivity].
  cbn [fst]. apply dropGroup_relabel.
Qed.

Lemma autoLink_fold_dropGroup indexes : forall st,
  map dropGroup (fst (fold_left autoLinkStep indexes st)) = map dropGroup (fst st).
Proof.
  induction indexes as [|i indexes IH]; intros st; [reflexivity|].
  cbn [fold_left]. rewrite IH. destruct st as [conds colors].
  unfold autoLinkStep. destruct (conds !! i) as [condition|]; [|reflexivity].
  destruct (isGroupLeader conds condition && _); [|reflexivity].
  apply linkCondition_dropGroup.
Qed.

(** X4.  Linking, unlinking and automatic linking rewrite group ids and
    nothing else: the conditions keep their number, order, line ids and
    every other field.  Without a condition flagged I:, A:, B:, N: or O:
    automatic linking changes nothing at all. *)
Theorem linking_rewrites_group_ids_only (conds : list Condition)
    (colors : gmap Z Z) (id : Z) :
  map dropGroup (fst (linkCondition conds colors id)) = map dropGroup conds
  /\ map dropGroup (unlinkCondition conds id) = map dropGroup conds
  /\ map dropGroup (fst (autoLinkAddressFlags conds colors)) = map dropGroup conds
  /\ ((forall c, In c conds -> includes linkableFlags (flag (pred c)) = false) ->
      autoLinkAddressFlags conds colors = (conds, colors)).
Proof.
  split; [apply linkCondition_dropGroup|].
  split.
  { unfold unlinkCondition. destruct (findByLineId conds id); [|reflexivity].
    apply unlinkFrom_dropGroup. }
  split; [apply autoLink_fold_dropGroup|].
  intros Hflags. unfold autoLinkAddressFlags, linkableIndexes.
  rewrite filter_nothing; [reflexivity|].
  intros i _. destruct (conds !! i) as [c|] eqn:Hc; [|reflexivity].
  apply Hflags. rewrite <- list_elem_of_In. by eapply list_elem_of_lookup_2.
Qed.

Lemma linking_rewrites_group_ids_only_witness :
  autoLinkAddressFlags [createDefaultCondition] ∅ = ([createDefaultCondition], ∅).
Proof.
  refine (proj2 (proj2 (proj2 (linking_rewrites_group_ids_only
                                 [createDefaultCondition] ∅ 0))) _).
  intros c [<-|[]]. reflexivity.
Defined.

Lemma setGroupId_own c : single c -> setGroupId (lineId c) c = c.
Proof. unfold single. destruct c; cbn. by intros ->. Qed.

Lemma setGroupId_back g c : single c -> setGroupId (lineId c) (setGroupId g c) = c.
Proof. unfold single. destruct c; cbn. by intros ->. Qed.

Lemma unlinkFrom_single gid conditionIndex conds : forall idx,
  Forall single conds -> unlinkFrom gid conditionIndex idx conds = conds.
Proof.
  induction conds as [|line tl IH]; intros idx Hs; [reflexivity|].
  apply Forall_cons in Hs as [Hline Htl]. cbn [unlinkFrom].
  destruct (groupId line =? gid); [|by rewrite IH].
  rewrite IH by exact Htl.
  destruct (idx >? conditionIndex); [by rewrite setGroupId_own | reflexivity].
Qed.

Lemma unlinkFrom_outside gid conditionIndex idx conds :
  (forall x, In x conds -> groupId x <> gid) ->
  unlinkFrom gid conditionIndex idx conds = conds.
Proof.
  induction conds as [|line tl IH]; intros H; [reflexivity|].
  cbn [unlinkFrom].
  replace (groupId line =? gid) with false
    by (symmetry; apply Z.eqb_neq, H; by left).
  rewrite IH; [reflexivity|]. intros x Hx. apply H. by right.
Qed.

Lemma unlinkFrom_app gid conditionIndex idx pre conds :
  (forall x, In x pre -> groupId x <> gid) ->
  unlinkFrom gid conditionIndex idx (pre ++ conds)
  = pre ++ unlinkFrom gid conditionIndex idx conds.
Proof.
  induction pre as [|line tl IH]; intros H; [reflexivity|].
  cbn [app unlinkFrom].
  replace (groupId line =? gid) with false
    by (symmetry; apply Z.eqb_neq, H; by left).
  rewrite IH; [reflexivity|]. intros x Hx. apply H. by right.
Qed.

Lemma findIndexFrom_split pre c rest id : forall i0,
  (forall x, In x pre -> lineId x <> id) -> lineId c = id ->
  findIndexFrom i0 (pre ++ c :: rest) id = i0 + Z.of_nat (length pre).
Proof.
  induction pre as [|x pre IH]; intros i0 Hpre Hc.
  - cbn. rewrite Hc, Z.eqb_refl. lia.
  - cbn [app findIndexFrom length].
    replace (lineId x =? id) with false
      by (symmetry; apply Z.eqb_neq, Hpre; by left).
    rewrite IH; [lia | | exact Hc]. intros y Hy. apply Hpre. by right.
Qed.

Lemma find_split conds id c :
  findByLineId conds id = Some c ->
  exists pre rest, conds = pre ++ c :: rest /\ lineId c = id
    /\ forall x, In x pre -> lineId x <> id.
Proof.
  unfold findByLineId. induction conds as [|x conds IH]; [discriminate|].
  cbn [List.find]. destruct (lineId x =? id) eqn:Hx.
  - intros [= ->]. exists [], conds. split; [reflexivity|].
    split; [by apply Z.eqb_eq | intros ? []].
  - intros H. destruct (IH H) as (pre & rest & -> & Hc & Hpre).
    exists (x :: pre), rest. split; [reflexivity|]. split; [exact Hc|].
    intros y [<-|Hy]; [by apply Z.eqb_neq | by apply Hpre].
Qed.

Lemma find_app_found pre c rest id :
  (forall x, In x pre -> lineId x <> id) -> lineId c = id ->
  findByLineId (pre ++ c :: rest) id = Some c.
Proof.
  unfold findByLineId. induction pre as [|x pre IH]; intros Hpre Hc.
  - cbn. by rewrite Hc, Z.eqb_refl.
  - cbn [app List.find].
    replace (lineId x =? id) with false
      by (symmetry; apply Z.eqb_neq, Hpre; by left).
    apply IH; [|exact Hc]. intros y Hy. apply Hpre. by right.
Qed.

Lemma map_unchanged {A} (f : A -> A) (l : list A) :
  (forall x, In x l -> f x = x) -> map f l = l.
Proof.
  induction l as [|x l IH]; intros H; [reflexivity|].
  cbn [map]. rewrite (H x) by by left. f_equal. apply IH.
  intros y Hy. apply H. by right.
Qed.

Lemma lineId_apart l1 (x : Condition) l2 :
  NoDup (map lineId (l1 ++ x :: l2)) ->
  forall y, In y (l1 ++ l2) -> lineId y <> lineId x.
Proof.
  rewrite map_app. cbn [map]. intros Hnd y Hy Heq.
  apply NoDup_app in Hnd as (_ & Hl1 & Hnd).
  apply NoDup_cons in Hnd as [Hl2 _].
  apply in_app_or in Hy as [Hy|Hy].
  - apply (Hl1 (lineId y)); [apply list_elem_of_In; by apply in_map|].
    rewrite Heq. by left.
  - apply Hl2. rewrite <- Heq. apply list_elem_of_In. by apply in_map.
Qed.

Lemma unlinkCondition_single conds id :
  Forall single conds -> unlinkCondition conds id = conds.
Proof.
  intros Hs. unfold unlinkCondition.
  destruct (findByLineId conds id); [|reflexivity].
  by apply unlinkFrom_single.
Qed.

(** Linking a single condition with the single condition below it. *)
Lemma link_single pre c below post colors :
  Forall single (pre ++ c :: below :: post) ->
  NoDup (map lineId (pre ++ c :: below :: post)) ->
  isGroupLeader (pre ++ c :: below :: post) c = true
  /\ fst (linkCondition (pre ++ c :: below :: post) colors (lineId c))
     = pre ++ c :: setGroupId (lineId c) below :: post.
Proof.
  intros Hs Hnd. set (conds := pre ++ c :: below :: post) in *.
  assert (Hc : single c).
  { eapply Forall_forall; [exact Hs|]. subst conds. set_solver. }
  assert (Hb : single below).
  { eapply Forall_forall; [exact Hs|]. subst conds. set_solver. }
  assert (Hsx : forall x, In x conds -> groupId x = lineId x).
  { intros x Hx. eapply (proj1 (Forall_forall single conds) Hs).
    by apply list_elem_of_In. }
  assert (Hothers : forall x, In x (pre ++ below :: post) -> lineId x <> lineId c)
    by (apply lineId_apart; exact Hnd).
  assert (Hbelow : forall x, In x ((pre ++ [c]) ++ post) -> lineId x <> lineId below).
  { apply lineId_apart. subst conds. by rewrite <- app_assoc. }
  assert (Hpre : forall x, In x pre -> lineId x <> lineId c).
  { intros x Hx. apply Hothers, in_or_app. by left. }
  assert (Hgroup : getGroupLines conds (groupId c) = [c]).
  { unfold getGroupLines. subst conds. rewrite List.filter_app. cbn [List.filter].
    rewrite Z.eqb_refl.
    rewrite (filter_nothing _ pre), (filter_nothing _ post).
    - replace (groupId below =? groupId c) with false; [reflexivity|].
      symmetry. apply Z.eqb_neq. rewrite Hb, Hc. apply Hothers, in_or_app.
      right. by left.
    - intros x Hx. apply Z.eqb_neq. rewrite Hc.
      rewrite Hsx by (apply in_or_app; right; right; by right).
      apply Hothers, in_or_app. right. by right.
    - intros x Hx. apply Z.eqb_neq. rewrite Hc.
      rewrite Hsx by (apply in_or_app; by left). by apply Hpre. }
  assert (Hleader : isGroupLeader conds c = true).
  { unfold isGroupLeader, getGroupLeader. rewrite Hgroup. cbn. apply Z.eqb_refl. }
  split; [exact Hleader|].
  unfold linkCondition. subst conds.
  rewrite (find_app_found pre c (below :: post) (lineId c) Hpre eq_refl).
  rewrite Hleader, Hgroup. cbn [negb length Nat.ltb Nat.leb].
  unfold findIndex.
  rewrite (findIndexFrom_split pre c (below :: post) (lineId c) 0 Hpre eq_refl).
  rewrite length_app. cbn [length].
  replace (0 + Z.of_nat (length pre) >=? _) with false
    by (symmetry; rewrite Z.geb_leb; apply Z.leb_gt; lia).
  unfold at_index.
  replace (0 + Z.of_nat (length pre) + 1 <? 0) with false
    by (symmetry; apply Z.ltb_ge; lia).
  replace (Z.to_nat (0 + Z.of_nat (length pre) + 1)) with (length pre + 1)%nat by lia.
  rewrite lookup_app_r by lia.
  replace (length pre + 1 - length pre)%nat with 1%nat by lia.
  cbn [lookup list_lookup fst].
  rewrite map_app. cbn [map]. rewrite Z.eqb_refl.
  replace (groupId c =? groupId below) with false.
  2:{ symmetry. apply Z.eqb_neq. rewrite Hb, Hc. apply Hbelow.
      apply in_or_app. left. apply in_or_app. right. by left. }
  rewrite Hc. f_equal; [|f_equal; f_equal].
  - apply map_unchanged. intros x Hx.
    replace (groupId x =? groupId below) with false; [reflexivity|].
    symmetry. apply Z.eqb_neq. rewrite Hb.
    rewrite Hsx by (apply in_or_app; by left).
    apply Hbelow. apply in_or_app. left. apply in_or_app. by left.
  - apply map_unchanged. intros x Hx.
    replace (groupId x =? groupId below) with false; [reflexivity|].
    symmetry. apply Z.eqb_neq. rewrite Hb.
    rewrite Hsx by (apply in_or_app; right; right; by right).
    apply Hbelow. apply in_or_app. by right.
Qed.

(** Linking the last condition of the list does nothing. *)
Lemma link_last pre c colors :
  Forall single (pre ++ [c]) -> NoDup (map lineId (pre ++ [c])) ->
  fst (linkCondition (pre ++ [c]) colors (lineId c)) = pre ++ [c].
Proof.
  intros Hs Hnd.
  assert (Hc : single c).
  { eapply Forall_forall; [exact Hs|]. set_solver. }
  assert (Hpre : forall x, In x pre -> lineId x <> lineId c).
  { intros x Hx. apply (lineId_apart pre c [] Hnd). by rewrite app_nil_r. }
  assert (Hgroup : getGroupLines (pre ++ [c]) (groupId c) = [c]).
  { unfold getGroupLines. rewrite List.filter_app. cbn [List.filter].
    rewrite Z.eqb_refl, (filter_nothing _ pre); [reflexivity|].
    intros x Hx. apply Z.eqb_neq. rewrite Hc.
    assert (Hxs : single x).
    { eapply Forall_forall; [exact Hs|]. apply list_elem_of_In, in_or_app. by left. }
    rewrite Hxs. by apply Hpre. }
  unfold linkCondition.
  rewrite (find_app_found pre c [] (lineId c) Hpre eq_refl).
  destruct (negb (isGroupLeader (pre ++ [c]) c)); [reflexivity|].
  rewrite Hgroup. cbn [length Nat.ltb Nat.leb]. unfold findIndex.
  rewrite (findIndexFrom_split pre c [] (lineId c) 0 Hpre eq_refl).
  rewrite length_app. cbn [length].
  replace (0 + Z.of_nat (length pre) >=? _) with true; [reflexivity|].
  symmetry. rewrite Z.geb_leb. apply Z.leb_le. lia.
Qed.

(** X5.  In a list of single conditions with distinct line ids, linking
    line [id] puts the condition just below it (and nothing else) into the
    group of [id], and unlinking [id] afterwards gives the list back;
    where linking does nothing, so does the pair. *)
Theorem unlink_undoes_link (conds : list Condition) (colors : gmap Z Z) (id : Z)
    (Hsingle : Forall single conds) (Hids : NoDup (map lineId conds)) :
  unlinkCondition (fst (linkCondition conds colors id)) id = conds
  /\ forall pre c below post,
       conds = pre ++ c :: below :: post -> lineId c = id ->
       fst (linkCondition conds colors id)
       = pre ++ c :: setGroupId id below :: post.
Proof.
  split.
  - destruct (findByLineId conds id) as [c|] eqn:Hfind.
    2:{ unfold linkCondition. rewrite Hfind. cbn [fst].
        unfold unlinkCondition. by rewrite Hfind. }
    destruct (find_split _ _ _ Hfind) as (pre & rest & -> & Hid & Hpre). subst id.
    destruct rest as [|below post].
    { rewrite link_last by assumption. by apply unlinkCondition_single. }
    destruct (link_single pre c below post colors Hsingle Hids) as [_ ->].
    assert (Hc : single c).
    { eapply Forall_forall; [exact Hsingle|]. set_solver. }
    assert (Hb : single below).
    { eapply Forall_forall; [exact Hsingle|]. set_solver. }
    assert (Hout : forall x, In x (pre ++ below :: post) -> groupId x <> groupId c).
    { intros x Hx. rewrite Hc.
      assert (Hxs : single x).
      { eapply Forall_forall; [exact Hsingle|]. apply list_elem_of_In.
        apply in_app_or in Hx as [Hx|Hx]; apply in_or_app; [by left | right; by right]. }
      rewrite Hxs. by apply (lineId_apart pre c (below :: post) Hids). }
    unfold unlinkCondition.
    rewrite (find_app_found pre c _ (lineId c) Hpre eq_refl).
    assert (Hgroup : getGroupLines (pre ++ c :: setGroupId (lineId c) below :: post)
                       (groupId c) = [c; setGroupId (lineId c) below]).
    { unfold getGroupLines. rewrite List.filter_app. cbn [List.filter].
      rewrite Z.eqb_refl. cbn [groupId setGroupId setIds].
      rewrite Hc, Z.eqb_refl, <- Hc.
      rewrite (filter_nothing _ pre), (filter_nothing _ post); [reflexivity| |].
      - intros x Hx. apply Z.eqb_neq, Hout, in_or_app. right. by right.
      - intros x Hx. apply Z.eqb_neq, Hout, in_or_app. by left. }
    rewrite Hgroup. unfold findIndex. cbn [findIndexFrom]. rewrite Z.eqb_refl.
    rewrite unlinkFrom_app by (intros x Hx; apply Hout, in_or_app; by left).
    cbn [unlinkFrom]. rewrite Z.eqb_refl. cbn [groupId setGroupId setIds].
    rewrite Hc, Z.eqb_refl, <- Hc.
    replace (0 >? 0) with false by reflexivity.
    replace (0 + 1 >? 0) with true by reflexivity.
    change (lineId (setGroupId (groupId c) below)) with (lineId below).
    rewrite setGroupId_back by exact Hb.
    rewrite unlinkFrom_outside; [reflexivity|].
    intros x Hx. apply Hout, in_or_app. right. by right.
  - intros pre c below post -> <-. apply link_single; assumption.
Qed.

Lemma unlink_undoes_link_witness :
  unlinkCondition (fst (linkCondition threeSingles ∅ 2)) 2 = threeSingles.
Proof.
  refine (proj1 (unlink_undoes_link threeSingles ∅ 2 _ _)).
  - repeat constructor.
  - cbn. repeat constructor; rewrite ?list_elem_of_In; cbn; intuition discriminate.
Defined.

End LinkUnlink.

(** ** Automatic linking after loading from text *)

Section AutoLink.

(** Condition [i] of the list carries the line id [n + i + 1]. *)
Definition LineIdsFrom (n : Z) (conds : list Condition) : Prop :=
  forall i c, conds !! i = Some c -> lineId c = n + Z.of_nat i + 1.

Lemma lineIdsFrom_tail n c conds :
  LineIdsFrom n (c :: conds) -> LineIdsFrom (n + 1) conds.
Proof. intros H i x Hx. rewrite (H (S i) x Hx). lia. Qed.

Lemma lineIds_find conds : forall n (k : nat),
  LineIdsFrom n conds ->
  List.find (fun c => lineId c =? n + Z.of_nat k + 1) conds = conds !! k.
Proof.
  induction conds as [|c conds IH]; intros n k H; [reflexivity|].
  pose proof (H 0%nat c eq_refl) as Hl. cbn [List.find].
  destruct k as [|k].
  - replace (lineId c =? n + Z.of_nat 0 + 1) with true
      by (symmetry; apply Z.eqb_eq; lia). reflexivity.
  - replace (lineId c =? n + Z.of_nat (S k) + 1) with false
      by (symmetry; apply Z.eqb_neq; lia).
    replace (n + Z.of_nat (S k) + 1) with ((n + 1) + Z.of_nat k + 1) by lia.
    apply IH. by eapply lineIdsFrom_tail.
Qed.

Lemma lineIds_findIndex conds : forall n i0 (k : nat) c,
  LineIdsFrom n conds -> conds !! k = Some c ->
  findIndexFrom i0 conds (n + Z.of_nat k + 1) = i0 + Z.of_nat k.
Proof.
  induction conds as [|x conds IH]; intros n i0 k c H Hk; [discriminate|].
  pose proof (H 0%nat x eq_refl) as Hl. cbn [findIndexFrom].
  destruct k as [|k].
  - replace (lineId x =? n + Z.of_nat 0 + 1) with true
      by (symmetry; apply Z.eqb_eq; lia). lia.
  - replace (lineId x =? n + Z.of_nat (S k) + 1) with false
      by (symmetry; apply Z.eqb_neq; lia).
    replace (n + Z.of_nat (S k) + 1) with ((n + 1) + Z.of_nat k + 1) by lia.
    rewrite (IH (n + 1) (i0 + 1) k c); [lia | by eapply lineIdsFrom_tail | exact Hk].
Qed.

Lemma maxIndex_spec indexes m :
  maxIndex indexes = Some m -> In m indexes /\ forall x, In x indexes -> x <= m.
Proof.
  destruct indexes as [|i tl]; [discriminate|]. cbn [maxIndex]. intros [= <-].
  revert i. induction tl as [|y tl IH]; intros i; cbn [fold_left].
  - split; [by left|]. intros x [<-|[]]. lia.
  - destruct (IH (Z.max i y)) as [Hin Hall]. split.
    + destruct Hin as [Hin|Hin]; [|right; by right].
      rewrite <- Hin.
      destruct (Z.max_spec i y) as [[_ ->]|[_ ->]]; [right; by left | by left].
    + intros x [Hx|[Hx|Hx]]; [subst x | subst x |].
      * specialize (Hall (Z.max i y) ltac:(by left)). lia.
      * specialize (Hall (Z.max i y) ltac:(by left)). lia.
      * apply Hall. by right.
Qed.

(** Relabelling a group that has one member is writing that member. *)
Lemma map_as_insert {A} (f : A -> A) (l : list A) (k : nat) (x : A) :
  l !! k = Some x ->
  (forall j y, l !! j = Some y -> j <> k -> f y = y) ->
  map f l = <[k := f x]> l.
Proof.
  intros Hk Hother. apply list_eq. intros j.
  change (map f l) with (f <$> l). rewrite list_lookup_fmap.
  destruct (decide (j = k)) as [->|Hne].
  - rewrite list_lookup_insert_eq by by eapply lookup_lt_Some. by rewrite Hk.
  - rewrite list_lookup_insert_ne by congruence.
    destruct (l !! j) as [y|] eqn:Hj; [|reflexivity].
    cbn. f_equal. by eapply Hother.
Qed.

(** The state of the loop of [autoLinkAddressFlags] on a list loaded
    from text, once the indexes up to [lo] are dealt with: line ids in
    order, nothing expanded, no group id beyond the line id, and every
    condition after [lo] still alone. *)
Record Linked (lo : nat) (conds : list Condition) : Prop := {
  linked_ids : LineIdsFrom 0 conds;
  linked_fresh : forall j c, conds !! j = Some c -> hasExpandedLines c = false;
  linked_le : forall j c, conds !! j = Some c -> groupId c <= Z.of_nat j + 1;
  linked_alone : forall j c, conds !! j = Some c -> (lo < j)%nat ->
                   groupId c = Z.of_nat j + 1
}.

Lemma existsb_none {A} (f : A -> bool) (l : list A) :
  (forall x, In x l -> f x = false) -> existsb f l = false.
Proof.
  induction l as [|x l IH]; intros H; [reflexivity|].
  cbn [existsb]. rewrite (H x) by by left. apply IH.
  intros y Hy. apply H. by right.
Qed.

Lemma in_lookup {A} (l : list A) x : In x l -> exists j, l !! j = Some x.
Proof. rewrite <- list_elem_of_In. apply list_elem_of_lookup_1. Qed.

Lemma lookup_in {A} (l : list A) j x : l !! j = Some x -> In x l.
Proof. intros H. rewrite <- list_elem_of_In. by eapply list_elem_of_lookup_2. Qed.

Section Step.

Variables (lo i : nat) (conds : list Condition) (c : Condition).
Hypothesis Hlinked : Linked lo conds.
Hypothesis Hlo : (lo <= i)%nat.
Hypothesis Hc : conds !! i = Some c.

Local Abbreviation group := (getGroupLines conds (groupId c)).

Lemma member_before m :
  In m group -> exists j, conds !! j = Some m /\ (j <= i)%nat.
Proof using Hlinked Hlo Hc.
  intros Hm. apply getGroupLines_in in Hm as [Hm Hg].
  destruct (in_lookup _ _ Hm) as [j Hj]. exists j. split; [exact Hj|].
  destruct (le_lt_dec j i) as [|Hlt]; [assumption|]. exfalso.
  pose proof (linked_alone _ _ Hlinked j m Hj ltac:(lia)) as Hgm.
  pose proof (linked_le _ _ Hlinked i c Hc). lia.
Qed.

Lemma self_member : In c group.
Proof using Hlinked Hlo Hc.
  apply getGroupLines_in. split; [by eapply lookup_in | reflexivity].
Qed.

Lemma own_lineId : lineId c = 0 + Z.of_nat i + 1.
Proof using Hlinked Hlo Hc. exact (linked_ids _ _ Hlinked i c Hc). Qed.

Lemma last_member last :
  maxByLineId group = Some last -> lineId last = lineId c.
Proof using Hlinked Hlo Hc.
  intros Hmax. apply maxByLineId_spec in Hmax as [Hin Hall].
  pose proof (Hall c self_member) as Hle.
  destruct (member_before _ Hin) as (j & Hj & Hji).
  pose proof (linked_ids _ _ Hlinked j last Hj). pose proof own_lineId. lia.
Qed.

Lemma leader_here : isGroupLeader conds c = true.
Proof using Hlinked Hlo Hc.
  unfold isGroupLeader, getGroupLeader.
  destruct group as [|first others] eqn:Hg.
  { pose proof self_member as Hin. rewrite Hg in Hin. contradiction. }
  destruct (maxByLineId (first :: others)) as [last|] eqn:Hmax; [|discriminate].
  rewrite <- Hg in Hmax. apply Z.eqb_eq. by apply last_member.
Qed.

Lemma find_here : findByLineId conds (lineId c) = Some c.
Proof using Hlinked Hlo Hc.
  unfold findByLineId. rewrite own_lineId.
  rewrite (lineIds_find _ 0 i (linked_ids _ _ Hlinked)). exact Hc.
Qed.

Lemma index_here : findIndex conds (lineId c) = Z.of_nat i.
Proof using Hlinked Hlo Hc.
  unfold findIndex. rewrite own_lineId.
  rewrite (lineIds_findIndex _ 0 0 i c (linked_ids _ _ Hlinked) Hc). lia.
Qed.

(** The index below which [linkCondition] looks for the next condition. *)
Lemma anchor_here :
  (if (1 <? length group)%nat
   then match maxByLineId group with
        | Some lastGroupLine => findIndex conds (lineId lastGroupLine)
        | None => -1
        end
   else findIndex conds (lineId c)) = Z.of_nat i.
Proof using Hlinked Hlo Hc.
  destruct (1 <? length group)%nat; [|apply index_here].
  destruct (maxByLineId group) as [last|] eqn:Hmax.
  - rewrite (last_member _ Hmax). apply index_here.
  - apply maxByLineId_none in Hmax. pose proof self_member as Hin.
    rewrite Hmax in Hin. contradiction.
Qed.

Lemma last_index_here :
  maxIndex (map (fun line => findIndex conds (lineId line)) group) = Some (Z.of_nat i).
Proof using Hlinked Hlo Hc.
  destruct (maxIndex _) as [m|] eqn:Hm.
  2:{ pose proof self_member as Hin. destruct group; [contradiction | discriminate]. }
  apply maxIndex_spec in Hm as [Hin Hall]. f_equal.
  apply Z.le_antisymm.
  - apply in_map_iff in Hin as (x & <- & Hx).
    destruct (member_before _ Hx) as (j & Hj & Hji).
    unfold findIndex. rewrite (linked_ids _ _ Hlinked j x Hj).
    rewrite (lineIds_findIndex _ 0 0 j x (linked_ids _ _ Hlinked) Hj). lia.
  - apply Hall. apply in_map_iff. exists c. split; [apply index_here | apply self_member].
Qed.

Lemma link_without_below colors :
  conds !! S i = None -> linkCondition conds colors (lineId c) = (conds, colors).
Proof using Hlinked Hlo Hc.
  intros Hnone. unfold linkCondition. rewrite find_here, leader_here.
  cbn [negb]. cbv zeta. rewrite anchor_here.
  apply lookup_ge_None in Hnone.
  replace (Z.of_nat i >=? Z.of_nat (length conds) - 1) with true; [reflexivity|].
  symmetry. rewrite Z.geb_leb. apply Z.leb_le. lia.
Qed.

Lemma below_alone below :
  conds !! S i = Some below -> groupId below = Z.of_nat (S i) + 1.
Proof using Hlinked Hlo Hc.
  intros Hb. apply (linked_alone _ _ Hlinked (S i) below Hb). lia.
Qed.

Lemma below_group below :
  conds !! S i = Some below -> getGroupLines conds (groupId below) = [below].
Proof using Hlinked Hlo Hc.
  intros Hb. pose proof (below_alone _ Hb) as Hg.
  assert (Hsplit : conds = take (S i) conds ++ below :: drop (S (S i)) conds).
  { rewrite <- (take_drop (S i) conds) at 1. f_equal. by apply drop_S. }
  unfold getGroupLines. rewrite Hsplit at 1. rewrite List.filter_app.
  cbn [List.filter]. rewrite Z.eqb_refl.
  rewrite !filter_nothing; [reflexivity| |].
  - intros x Hx. destruct (in_lookup _ _ Hx) as [j Hj].
    rewrite lookup_drop in Hj.
    pose proof (linked_alone _ _ Hlinked _ x Hj ltac:(lia)).
    apply Z.eqb_neq. lia.
  - intros x Hx. destruct (in_lookup _ _ Hx) as [j Hj].
    apply lookup_take_Some in Hj as [Hj Hlt].
    pose proof (linked_le _ _ Hlinked j x Hj). apply Z.eqb_neq. lia.
Qed.

Lemma canLink_with_below below :
  conds !! S i = Some below -> canLinkCondition conds (lineId c) = true.
Proof using Hlinked Hlo Hc.
  intros Hb. unfold canLinkCondition. rewrite find_here, leader_here.
  cbn [negb]. cbv zeta.
  rewrite existsb_none.
  2:{ intros x Hx. destruct (member_before _ Hx) as (j & Hj & _).
      exact (linked_fresh _ _ Hlinked j x Hj). }
  rewrite last_index_here.
  pose proof (lookup_lt_Some _ _ _ Hb) as Hlen.
  replace (Z.of_nat i >=? Z.of_nat (length conds) - 1) with false
    by (symmetry; rewrite Z.geb_leb; apply Z.leb_gt; lia).
  unfold at_index.
  replace (Z.of_nat i + 1 <? 0) with false by (symmetry; apply Z.ltb_ge; lia).
  replace (Z.to_nat (Z.of_nat i + 1)) with (S i) by lia.
  rewrite Hb, (linked_fresh _ _ Hlinked (S i) below Hb).
  rewrite (below_group _ Hb). cbn [existsb].
  by rewrite (linked_fresh _ _ Hlinked (S i) below Hb).
Qed.

Lemma link_with_below colors below :
  conds !! S i = Some below ->
  fst (linkCondition conds colors (lineId c))
  = <[S i := setGroupId (groupId c) below]> conds.
Proof using Hlinked Hlo Hc.
  intros Hb. unfold linkCondition. rewrite find_here, leader_here.
  cbn [negb]. cbv zeta. rewrite anchor_here.
  pose proof (lookup_lt_Some _ _ _ Hb) as Hlen.
  replace (Z.of_nat i >=? Z.of_nat (length conds) - 1) with false
    by (symmetry; rewrite Z.geb_leb; apply Z.leb_gt; lia).
  unfold at_index.
  replace (Z.of_nat i + 1 <? 0) with false by (symmetry; apply Z.ltb_ge; lia).
  replace (Z.to_nat (Z.of_nat i + 1)) with (S i) by lia.
  rewrite Hb. cbn [fst].
  rewrite (map_as_insert _ conds (S i) below Hb).
  - by rewrite Z.eqb_refl.
  - intros j y Hj Hne. pose proof (below_alone _ Hb) as Hg.
    replace (groupId y =? groupId below) with false; [reflexivity|].
    symmetry. apply Z.eqb_neq.
    destruct (le_lt_dec j (S i)).
    + pose proof (linked_le _ _ Hlinked j y Hj). lia.
    + pose proof (linked_alone _ _ Hlinked j y Hj ltac:(lia)). lia.
Qed.

(** One turn of the loop at index [i]: the condition below, if there is
    one, joins the group of [c]; nothing else changes. *)
Lemma autoLinkStep_linked colors :
  let conds' := fst (autoLinkStep (conds, colors) i) in
  Linked (S i) conds'
  /\ (forall j, j <> S i -> conds' !! j = conds !! j)
  /\ (forall below', conds' !! S i = Some below' -> groupId below' = groupId c).
Proof using Hlinked Hlo Hc.
  cbv zeta. unfold autoLinkStep. rewrite Hc, leader_here. cbn [andb].
  destruct (conds !! S i) as [below|] eqn:Hb.
  - rewrite (canLink_with_below _ Hb), (link_with_below _ _ Hb).
    pose proof (lookup_lt_Some _ _ _ Hb) as Hlen.
    split; [|split].
    + split.
      * intros j x Hj. destruct (decide (j = S i)) as [->|Hne].
        -- rewrite list_lookup_insert_eq in Hj by exact Hlen. injection Hj as <-.
           exact (linked_ids _ _ Hlinked (S i) below Hb).
        -- rewrite list_lookup_insert_ne in Hj by congruence.
           exact (linked_ids _ _ Hlinked j x Hj).
      * intros j x Hj. destruct (decide (j = S i)) as [->|Hne].
        -- rewrite list_lookup_insert_eq in Hj by exact Hlen. injection Hj as <-.
           exact (linked_fresh _ _ Hlinked (S i) below Hb).
        -- rewrite list_lookup_insert_ne in Hj by congruence.
           exact (linked_fresh _ _ Hlinked j x Hj).
      * intros j x Hj. destruct (decide (j = S i)) as [->|Hne].
        -- rewrite list_lookup_insert_eq in Hj by exact Hlen. injection Hj as <-.
           pose proof (linked_le _ _ Hlinked i c Hc). cbn. lia.
        -- rewrite list_lookup_insert_ne in Hj by congruence.
           exact (linked_le _ _ Hlinked j x Hj).
      * intros j x Hj Hlt. rewrite list_lookup_insert_ne in Hj by lia.
        apply (linked_alone _ _ Hlinked j x Hj). lia.
    + intros j Hne. by rewrite list_lookup_insert_ne by congruence.
    + intros below'. rewrite list_lookup_insert_eq by exact Hlen.
      by intros [= <-].
  - assert (Hsame : fst (if canLinkCondition conds (lineId c)
                         then linkCondition conds colors (lineId c)
                         else (conds, colors)) = conds).
    { destruct (canLinkCondition conds (lineId c)); [|reflexivity].
      by rewrite link_without_below. }
    rewrite Hsame. split; [|split].
    + split; [exact (linked_ids _ _ Hlinked) | exact (linked_fresh _ _ Hlinked)
             | exact (linked_le _ _ Hlinked) |].
      intros j x Hj Hlt. apply (linked_alone _ _ Hlinked j x Hj). lia.
    + reflexivity.
    + rewrite Hb. discriminate.
Qed.

End Step.

Lemma linked_mono lo lo' conds : Linked lo conds -> (lo <= lo')%nat -> Linked lo' conds.
Proof.
  intros [H1 H2 H3 H4] Hle. split; [exact H1 | exact H2 | exact H3 |].
  intros j c Hj Hlt. apply (H4 j c Hj). lia.
Qed.

(** Indexes in increasing order, none below [lo]. *)
Fixpoint Increasing (lo : nat) (indexes : list nat) : Prop :=
  match indexes with
  | [] => True
  | i :: tl => (lo <= i)%nat /\ Increasing (S i) tl
  end.

Lemma increasing_mono indexes : forall lo lo',
  Increasing lo' indexes -> (lo <= lo')%nat -> Increasing lo indexes.
Proof.
  destruct indexes as [|i tl]; intros lo lo' H Hle; [exact I|].
  destruct H as [Hi Htl]. split; [lia | exact Htl].
Qed.

Lemma increasing_from indexes : forall lo j,
  Increasing lo indexes -> In j indexes -> (lo <= j)%nat.
Proof.
  induction indexes as [|i tl IH]; intros lo j H Hj; [contradiction|].
  destruct H as [Hi Htl]. destruct Hj as [<-|Hj]; [exact Hi|].
  specialize (IH (S i) j Htl Hj). lia.
Qed.

Lemma increasing_filter (f : nat -> bool) n : forall a,
  Increasing a (List.filter f (seq a n)).
Proof.
  induction n as [|n IH]; intros a; [exact I|].
  cbn [seq List.filter]. destruct (f a).
  - split; [lia | apply IH].
  - eapply increasing_mono; [apply IH | lia].
Qed.

(** The whole loop, from a state in which the indexes up to [lo] are
    dealt with. *)
Lemma autoLink_fold_linked indexes : forall lo conds colors,
  Increasing lo indexes -> Linked lo conds ->
  let conds' := fst (fold_left autoLinkStep indexes (conds, colors)) in
  (forall j, (j <= lo)%nat -> conds' !! j = conds !! j)
  /\ (forall j below', (lo <= j)%nat -> conds' !! S j = Some below' ->
        (In j indexes -> exists c, conds' !! j = Some c /\ groupId below' = groupId c)
        /\ (~ In j indexes -> groupId below' = Z.of_nat (S j) + 1)).
Proof.
  induction indexes as [|i tl IH]; intros lo conds colors Hinc Hlinked.
  { cbn. split; [reflexivity|]. intros j below' Hj Hb. split; [contradiction|].
    intros _. apply (linked_alone _ _ Hlinked (S j) below' Hb). lia. }
  destruct Hinc as [Hlo Htl]. cbn [fold_left].
  assert (Hstep : let conds1 := fst (autoLinkStep (conds, colors) i) in
            Linked (S i) conds1
            /\ (forall j, j <> S i -> conds1 !! j = conds !! j)
            /\ (forall c below', conds !! i = Some c -> conds1 !! S i = Some below' ->
                  groupId below' = groupId c)).
  { destruct (conds !! i) as [c|] eqn:Hc.
    - destruct (autoLinkStep_linked lo i conds c Hlinked Hlo Hc colors)
        as (H1 & H2 & H3).
      split; [exact H1|]. split; [exact H2|]. intros c0 below' [= <-]. apply H3.
    - unfold autoLinkStep. rewrite Hc. cbn [fst].
      split; [eapply linked_mono; [exact Hlinked | lia]|].
      split; [reflexivity | discriminate]. }
  destruct (autoLinkStep (conds, colors) i) as [conds1 colors1].
  cbn [fst] in Hstep. destruct Hstep as (Hlinked1 & Hsame1 & Hjoin).
  destruct (IH (S i) conds1 colors1 Htl Hlinked1) as [Hkeep Hrest].
  cbv zeta. split.
  { intros j Hj. rewrite Hkeep by lia. apply Hsame1. lia. }
  intros j below' Hj Hb.
  destruct (le_lt_dec (S i) j) as [Hge|Hlt].
  { destruct (Hrest j below' Hge Hb) as [Hin Hout]. split.
    - intros [->|Hjin]; [lia | by apply Hin].
    - intros Hnot. apply Hout. intros Hjin. apply Hnot. by right. }
  rewrite Hkeep in Hb by lia. split.
  - intros [->|Hjin].
    + rewrite Hkeep by lia. rewrite Hsame1 by lia.
      destruct (conds !! j) as [c|] eqn:Hc.
      * exists c. split; [reflexivity|]. by eapply Hjoin.
      * exfalso. apply lookup_ge_None in Hc.
        assert (Hlen : length conds1 = length conds).
        { apply Nat.le_antisymm.
          - destruct (le_lt_dec (length conds1) (length conds)) as [|Hgt]; [assumption|].
            destruct (lookup_lt_is_Some_2 conds1 (length conds) Hgt) as [x Hx].
            rewrite Hsame1 in Hx by lia.
            apply lookup_lt_Some in Hx. lia.
          - destruct (le_lt_dec (length conds) (length conds1)) as [|Hgt]; [assumption|].
            destruct (lookup_lt_is_Some_2 conds (length conds1) Hgt) as [x Hx].
            rewrite <- Hsame1 in Hx by lia.
            apply lookup_lt_Some in Hx. lia. }
        apply lookup_lt_Some in Hb. lia.
    + pose proof (increasing_from _ _ _ Htl Hjin). lia.
  - intros Hnot.
    assert (Hne : j <> i) by (intros ->; apply Hnot; by left).
    rewrite Hsame1 in Hb by lia.
    apply (linked_alone _ _ Hlinked (S j) below' Hb). lia.
Qed.

Lemma loaded_linked parsed : Linked 0 (imap conditionOfParsed parsed).
Proof.
  split; intros j c Hj; rewrite list_lookup_imap in Hj;
    destruct (parsed !! j); try discriminate; injection Hj as <-;
    cbn; try reflexivity; try lia.
Qed.

Lemma linkable_index parsed j p :
  parsed !! j = Some p ->
  In j (linkableIndexes (imap conditionOfParsed parsed))
  <-> includes linkableFlags (flag p) = true.
Proof.
  intros Hp. unfold linkableIndexes. rewrite filter_In, in_seq, length_imap.
  rewrite list_lookup_imap, Hp. cbn [fmap option_fmap option_map pred conditionOfParsed flag].
  pose proof (lookup_lt_Some _ _ _ Hp) as Hlt. split; [by intros [_ Hf] | intros Hf].
  split; [lia | exact Hf].
Qed.

(** X6.  Loading the parsed lines replaces the conditions by the lines,
    numbered in order, and empties the Map; the automatic linking then
    changes group ids only, and decides each of them by the flag of the
    line above: a line below a line flagged I:, A:, B:, N: or O: is in the
    group of that line, any other line starts a group of its own. *)
Theorem syncBitfieldFromText_links_below_chaining_flags
    (s : Session) (parsed : list Predicate) :
  let s' := syncBitfieldFromText s parsed autoLinkSession in
  map dropGroup (bitfieldConditions s') = map dropGroup (imap conditionOfParsed parsed)
  /\ mapEntries (bitfieldExpansions s') = ∅
  /\ (forall c, bitfieldConditions s' !! 0%nat = Some c -> groupId c = 1)
  /\ forall j p below',
       parsed !! j = Some p -> bitfieldConditions s' !! S j = Some below' ->
       if includes linkableFlags (flag p)
       then exists c, bitfieldConditions s' !! j = Some c /\ groupId below' = groupId c
       else groupId below' = Z.of_nat (S j) + 1.
Proof.
  cbv zeta. unfold syncBitfieldFromText, autoLinkSession, autoLinkAddressFlags.
  cbn [bitfieldConditions linkGroupColors bitfieldExpansions].
  set (conds0 := imap conditionOfParsed parsed).
  pose proof (autoLink_fold_dropGroup (linkableIndexes conds0)
                (conds0, linkGroupColors s)) as Hdrop.
  pose proof (autoLink_fold_linked (linkableIndexes conds0) 0 conds0
                (linkGroupColors s) (increasing_filter _ _ 0) (loaded_linked parsed))
    as [Hkeep Hrest].
  destruct (fold_left autoLinkStep (linkableIndexes conds0) (conds0, linkGroupColors s))
    as [conds' colors'].
  cbn [fst bitfieldConditions bitfieldExpansions clearEntries mapEntries] in *.
  split; [exact Hdrop|]. split; [reflexivity|]. split.
  - intros c Hc. rewrite Hkeep in Hc by lia.
    subst conds0. rewrite list_lookup_imap in Hc.
    destruct (parsed !! 0%nat); [|discriminate]. by injection Hc as <-.
  - intros j p below' Hp Hb.
    destruct (Hrest j below' ltac:(lia) Hb) as [Hin Hout].
    destruct (includes linkableFlags (flag p)) eqn:Hflag.
    + apply Hin. by apply (linkable_index parsed j p Hp).
    + apply Hout. intros Hjin. apply (linkable_index parsed j p Hp) in Hjin. congruence.
Qed.

Lemma syncBitfieldFromText_links_below_chaining_flags_witness :
  exists c,
    bitfieldConditions
      (syncBitfieldFromText (session [] {| mapEntries := ∅; properties := ∅ |} ∅)
         [pred (plainLine 0 0 "0x1"); pred (plainLine 0 0 "0x2")] autoLinkSession)
      !! 0%nat = Some c
    /\ groupId (setGroupId 1 (conditionOfParsed 1 (pred (plainLine 0 0 "0x2"))))
       = groupId c.
Proof.
  exact (proj2 (proj2 (proj2
           (syncBitfieldFromText_links_below_chaining_flags
              (session [] {| mapEntries := ∅; properties := ∅ |} ∅)
              [pred (plainLine 0 0 "0x1"); pred (plainLine 0 0 "0x2")])))
           0%nat (pred (plainLine 0 0 "0x1"))
           (setGroupId 1 (conditionOfParsed 1 (pred (plainLine 0 0 "0x2"))))
           eq_refl eq_refl).
Defined.

End AutoLink.

(** ** When confirming an expansion does nothing, and when it fails *)

Section ConfirmEdges.

Variable generateArithmeticLine : Condition -> LineConfig -> Z -> string.
Variable generateCustomLines : Condition -> LineConfig -> Z -> list string.
Variable convertConditionToText : Condition -> string.

Local Abbreviation confirm :=
  (confirmExpansion generateArithmeticLine generateCustomLines convertConditionToText).
Local Abbreviation members :=
  (expandMembers generateArithmeticLine generateCustomLines convertConditionToText).
Local Abbreviation groups :=
  (expandGroups generateArithmeticLine generateCustomLines convertConditionToText).

Lemma expandMembers_some expansion groupIdx groupLines :
  forall lineIdx allExpandedLines,
  (lineIdx + length groupLines <= length (lineConfigs expansion))%nat ->
  is_Some (members expansion groupIdx lineIdx groupLines allExpandedLines).
Proof.
  induction groupLines as [|line tl IH]; intros lineIdx acc Hlen; [by eexists|].
  cbn [expandMembers length] in *. unfold linesToAdd.
  destruct (lookup_lt_is_Some_2 (lineConfigs expansion) lineIdx ltac:(lia))
    as [lineConfig ->].
  destruct (customized lineConfig && _);
    [|destruct (JS.truthy _ && _)]; apply IH; lia.
Qed.

Lemma expandMembers_fails expansion groupIdx groupLines :
  forall lineIdx allExpandedLines,
  (length (lineConfigs expansion) < lineIdx + length groupLines)%nat ->
  groupLines <> [] ->
  members expansion groupIdx lineIdx groupLines allExpandedLines = None.
Proof.
  induction groupLines as [|line tl IH]; intros lineIdx acc Hlen Hne; [congruence|].
  cbn [expandMembers length] in *. unfold linesToAdd.
  destruct (lineConfigs expansion !! lineIdx) as [lineConfig|] eqn:Hcfg; [|reflexivity].
  apply lookup_lt_Some in Hcfg.
  assert (Htl : tl <> []) by (intros ->; cbn in Hlen; lia).
  destruct (customized lineConfig && _);
    [|destruct (JS.truthy _ && _)]; apply IH; try exact Htl; lia.
Qed.

Lemma expandGroups_some expansion groupLines groupIndexes :
  (length groupLines <= length (lineConfigs expansion))%nat ->
  forall allExpandedLines,
  is_Some (groups expansion groupLines groupIndexes allExpandedLines).
Proof.
  intros Hlen. induction groupIndexes as [|groupIdx tl IH]; intros acc; [by eexists|].
  cbn [expandGroups].
  destruct (expandMembers_some expansion (Z.of_nat groupIdx) groupLines 0 acc Hlen)
    as [lines ->].
  apply IH.
Qed.

Lemma expandGroups_fails expansion groupLines groupIndexes allExpandedLines :
  (length (lineConfigs expansion) < length groupLines)%nat ->
  groupIndexes <> [] ->
  groups expansion groupLines groupIndexes allExpandedLines = None.
Proof.
  intros Hlen Hne. destruct groupIndexes as [|groupIdx tl]; [congruence|].
  cbn [expandGroups]. rewrite expandMembers_fails; [reflexivity | exact Hlen |].
  intros ->. cbn in Hlen. lia.
Qed.

(** X7.  Confirming fails with a TypeError exactly when an expansion is
    stored under the line id, the line exists, the count is at least 1 and
    the group has more members than the expansion has line configurations;
    in every other case it returns. *)
Theorem confirmExpansion_fails_iff_a_member_has_no_config
    (table : ExpansionTable) (conds : list Condition) (expansionId : Z) :
  confirm table conds expansionId = None
  <-> exists expansion condition,
        properties table !! expansionId = Some expansion
        /\ findByLineId conds expansionId = Some condition
        /\ 1 <= generatedGroupsOf expansion
        /\ (length (lineConfigs expansion)
            < length (getGroupLines conds (groupId condition)))%nat.
Proof.
  unfold confirmExpansion.
  destruct (properties table !! expansionId) as [expansion|];
    [|split; [discriminate | by intros (? & ? & ? & _)]].
  destruct (findByLineId conds expansionId) as [condition|];
    [|split; [discriminate | by intros (? & ? & _ & ? & _)]].
  cbv zeta.
  destruct (le_lt_dec (length (getGroupLines conds (groupId condition)))
              (length (lineConfigs expansion))) as [Hle|Hlt].
  - destruct (expandGroups_some expansion _ (seq 0 (Z.to_nat (generatedGroupsOf expansion)))
                Hle []) as [lines ->].
    split; [discriminate|]. intros (e & c & [= <-] & [= <-] & _ & Hlt). lia.
  - destruct (Z_lt_le_dec (generatedGroupsOf expansion) 1) as [Hk|Hk].
    + replace (Z.to_nat (generatedGroupsOf expansion)) with 0%nat by lia.
      cbn [seq expandGroups]. split; [discriminate|].
      intros (e & c & [= <-] & [= <-] & Hk' & _). lia.
    + rewrite expandGroups_fails; [| exact Hlt |].
      * split; [|reflexivity]. intros _. by exists expansion, condition.
      * destruct (Z.to_nat (generatedGroupsOf expansion)) eqn:Hn; [lia | discriminate].
Qed.

(** X8.  Confirming does nothing when no expansion is stored under the
    line id or no condition has it; so a second confirmation, and a
    confirmation after [cancelExpansion], leave the state as it is. *)
Theorem confirmExpansion_needs_an_open_expansion
    (table : ExpansionTable) (conds : list Condition) (expansionId : Z) :
  (properties table !! expansionId = None ->
   confirm table conds expansionId = Some (table, conds))
  /\ (findByLineId conds expansionId = None ->
      confirm table conds expansionId = Some (table, conds))
  /\ (forall table' conds',
        confirm table conds expansionId = Some (table', conds') ->
        confirm table' conds' expansionId = Some (table', conds'))
  /\ confirm (cancelExpansion table expansionId) conds expansionId
     = Some (cancelExpansion table expansionId, conds).
Proof.
  assert (Hnone : forall t l, properties t !! expansionId = None ->
            confirm t l expansionId = Some (t, l)).
  { intros t l H. unfold confirmExpansion. by rewrite H. }
  split; [apply Hnone|]. split.
  { intros H. unfold confirmExpansion. rewrite H. by destruct (properties table !! _). }
  split.
  - intros table' conds'. unfold confirmExpansion.
    destruct (properties table !! expansionId) as [expansion|] eqn:He.
    2:{ intros [= <- <-]. by rewrite He. }
    destruct (findByLineId conds expansionId) as [condition|] eqn:Hf.
    2:{ intros [= <- <-]. by rewrite He, Hf. }
    cbv zeta. destruct (expandGroups _ _ _ _ _ _ _) as [lines|]; [|discriminate].
    intros [= <- <-]. cbn [properties]. by rewrite lookup_delete_eq.
  - apply Hnone. cbn. apply lookup_delete_eq.
Qed.

End ConfirmEdges.

Lemma confirmExpansion_fails_iff_a_member_has_no_config_witness :
  confirmExpansion idleArithmeticLine idleCustomLines convertLine
    (openedExpansion 2 "1" false 1)
    [plainLine 1 2 "0x1"; plainLine 2 2 "0x2"] 2 = None.
Proof.
  apply (proj2 (confirmExpansion_fails_iff_a_member_has_no_config
                  idleArithmeticLine idleCustomLines convertLine
                  (openedExpansion 2 "1" false 1)
                  [plainLine 1 2 "0x1"; plainLine 2 2 "0x2"] 2)).
  exists {| generatedGroups := "1"; deltaCheck := false;
            lineConfigs := replicate 1 defaultConfig |}, (plainLine 2 2 "0x2").
  repeat split; vm_compute; congruence || lia.
Defined.

Lemma confirmExpansion_needs_an_open_expansion_witness :
  confirmExpansion idleArithmeticLine idleCustomLines convertLine
    {| mapEntries := ∅; properties := ∅ |} threeSingles 2
  = Some ({| mapEntries := ∅; properties := ∅ |}, threeSingles).
Proof.
  exact (proj1 (confirmExpansion_needs_an_open_expansion
                  idleArithmeticLine idleCustomLines convertLine
                  {| mapEntries := ∅; properties := ∅ |} threeSingles 2) eq_refl).
Defined.

(** ** Editing a line configuration *)

Section LineConfigs.

Variable generateArithmeticLine : Condition -> LineConfig -> Z -> string.
Variable generateCustomLines : Condition -> LineConfig -> Z -> list string.
Variable convertConditionToText : Condition -> string.

Lemma editLineConfig_apart field value lineConfig :
  customSelected lineConfig && incrementGiven lineConfig = false ->
  customSelected (editLineConfig field value lineConfig)
  && incrementGiven (editLineConfig field value lineConfig) = false.
Proof.
  intros Hapart. destruct field; unfold editLineConfig.
  - exact Hapart.
  - destruct (nonBlank value) eqn:Hv.
    + reflexivity.
    + change (incrementGiven (setLineField ArithmeticIncrement value lineConfig))
        with (nonBlank value).
      rewrite Hv. apply andb_false_r.
  - destruct (nonBlank value); [apply andb_false_r | exact Hapart].
Qed.

(** X9.  [updateLineConfig] does nothing when no expansion is stored under
    the id and fails with a TypeError when the expansion has no
    configuration at the index; otherwise it rewrites that configuration
    alone.  It never leaves a configuration with both a custom selection
    and a non-blank increment if there was none before; after a non-blank
    increment is written, the member at that index is expanded by the
    arithmetic generator; after a non-blank custom field size is written,
    the increment is empty. *)
Theorem updateLineConfig_keeps_increment_and_custom_apart
    (table : ExpansionTable) (expansionId : Z) (lineIndex : nat)
    (field : LineField) (value : string) :
  (properties table !! expansionId = None ->
   updateLineConfig table expansionId lineIndex field value = Some table)
  /\ (forall expansion,
        properties table !! expansionId = Some expansion ->
        lineConfigs expansion !! lineIndex = None ->
        updateLineConfig table expansionId lineIndex field value = None)
  /\ forall expansion lineConfig,
       properties table !! expansionId = Some expansion ->
       lineConfigs expansion !! lineIndex = Some lineConfig ->
       exists table' expansion',
         updateLineConfig table expansionId lineIndex field value = Some table'
         /\ properties table' !! expansionId = Some expansion'
         /\ mapEntries table' = mapEntries table
         /\ (forall k, k <> expansionId ->
               properties table' !! k = properties table !! k)
         /\ generatedGroups expansion' = generatedGroups expansion
         /\ deltaCheck expansion' = deltaCheck expansion
         /\ lineConfigs expansion'
            = <[lineIndex := editLineConfig field value lineConfig]>
                (lineConfigs expansion)
         /\ (customSelected lineConfig && incrementGiven lineConfig = false ->
             customSelected (editLineConfig field value lineConfig)
             && incrementGiven (editLineConfig field value lineConfig) = false)
         /\ (field = ArithmeticIncrement -> nonBlank value = true ->
             forall line groupIdx,
               linesToAdd generateArithmeticLine generateCustomLines
                 convertConditionToText expansion' groupIdx lineIndex line
               = Some [generateArithmeticLine line
                         (editLineConfig field value lineConfig) groupIdx])
         /\ (field = CustomFieldSize -> nonBlank value = true ->
             arithmeticIncrement (editLineConfig field value lineConfig) = "").
Proof.
  unfold updateLineConfig. split; [by intros ->|]. split; [by intros e -> ->|].
  intros expansion lineConfig -> Hcfg. rewrite Hcfg.
  eexists _, _. split; [reflexivity|]. cbn [properties mapEntries].
  split; [apply lookup_insert_eq|]. split; [reflexivity|].
  split; [intros k Hk; by apply lookup_insert_ne|].
  cbn [generatedGroups deltaCheck lineConfigs].
  split; [reflexivity|]. split; [reflexivity|]. split; [reflexivity|].
  split; [apply editLineConfig_apart|]. split.
  - intros -> Hv line groupIdx. unfold linesToAdd. cbn [lineConfigs].
    rewrite list_lookup_insert_eq by by eapply lookup_lt_Some.
    unfold editLineConfig. rewrite Hv. cbn [setLineField clearCustomization
      customized customData arithmeticIncrement andb].
    change (JS.truthy value && negb (String.eqb (JS.trim value) ""))
      with (nonBlank value).
    by rewrite Hv.
  - intros -> Hv. unfold editLineConfig. by rewrite Hv.
Qed.

End LineConfigs.

Lemma updateLineConfig_keeps_increment_and_custom_apart_witness :
  exists table',
    updateLineConfig (openedExpansion 2 "1" true 2) 2 1 ArithmeticIncrement "0x10"
    = Some table'
    /\ mapEntries table' = ∅.
Proof.
  destruct (proj2 (proj2 (updateLineConfig_keeps_increment_and_custom_apart
                            idleArithmeticLine idleCustomLines convertLine
                            (openedExpansion 2 "1" true 2) 2 1 ArithmeticIncrement "0x10"))
              {| generatedGroups := "1"; deltaCheck := true;
                 lineConfigs := replicate 2 defaultConfig |}
              defaultConfig eq_refl eq_refl)
    as (table' & expansion' & Hrun & _ & Hentries & _).
  exists table'. split; [exact Hrun | exact Hentries].
Defined.

(** ** The count and the check box of an expansion *)

Section CountAndCheck.

Variable generateArithmeticLine : Condition -> LineConfig -> Z -> string.
Variable generateCustomLines : Condition -> LineConfig -> Z -> list string.

(** The number of copies [confirmExpansion] makes for a count field. *)
Definition copiesFor (count : string) : nat :=
  match parseInt count with
  | Some k => if k =? 0 then 1%nat else Z.to_nat k
  | None => 1%nat
  end.

Lemma copiesFor_spec expansion :
  Z.to_nat (generatedGroupsOf expansion) = copiesFor (generatedGroups expansion).
Proof.
  unfold generatedGroupsOf, copiesFor.
  destruct (parseInt (generatedGroups expansion)) as [k|]; [|reflexivity].
  by destruct (k =? 0).
Qed.

(** X10.  Once the check box is cleared with [updateExpansionField], and
    with no custom selection and blank increments, confirming gives every
    member of the group the serializations of the members, repeated as
    often as the count says, whatever the flags and operand types: k times
    for a count parseInt reads as k > 0, once for a count of 0 or an
    unreadable one, not at all for a negative count (the members are
    marked expanded with no lines). *)
Theorem confirmExpansion_copies_by_count_when_check_is_off
    (table : ExpansionTable) (conds : list Condition) (expansionId : Z)
    (expansion : Expansion) (condition : Condition)
    (Hexp : properties table !! expansionId = Some expansion)
    (Hfind : findByLineId conds expansionId = Some condition)
    (Hplain : plainConfigs expansion
                (length (getGroupLines conds (groupId condition))) = true) :
  let groupLines := getGroupLines conds (groupId condition) in
  let allExpandedLines :=
    concat (replicate (copiesFor (generatedGroups expansion))
              (map convertLine groupLines)) in
  confirmExpansion generateArithmeticLine generateCustomLines convertLine
    (updateExpansionField table expansionId (DeltaCheck false)) conds expansionId
  = Some (cancelExpansion table expansionId,
          map (fun c => if groupId c =? groupId condition
                        then markExpanded allExpandedLines c else c) conds)
  /\ copiesFor "" = 1%nat /\ copiesFor "0" = 1%nat /\ copiesFor "abc" = 1%nat
  /\ copiesFor "3" = 3%nat /\ copiesFor "-2" = 0%nat.
Proof.
  cbv zeta. split; [|by vm_compute].
  unfold confirmExpansion, updateExpansionField. rewrite Hexp.
  cbn [properties mapEntries]. rewrite lookup_insert_eq, Hfind. cbv zeta.
  set (expansion' := {| generatedGroups := generatedGroups expansion;
                        deltaCheck := false;
                        lineConfigs := lineConfigs expansion |}).
  assert (Hplain' : plainConfigs expansion'
                      (length (getGroupLines conds (groupId condition))) = true)
    by exact Hplain.
  rewrite (expandGroups_plain generateArithmeticLine generateCustomLines
             expansion' _ _ Hplain').
  rewrite length_seq, copiesFor_spec. cbn [app].
  unfold deltaCheckPass. cbn [deltaCheck expansion'].
  rewrite delete_insert_eq. reflexivity.
Qed.

End CountAndCheck.

Lemma confirmExpansion_copies_by_count_when_check_is_off_witness :
  confirmExpansion idleArithmeticLine idleCustomLines convertLine
    (updateExpansionField (openedExpansion 1 "2" true 1) 1 (DeltaCheck false))
    [plainLine 1 1 "0x1234"] 1
  = Some (cancelExpansion (openedExpansion 1 "2" true 1) 1,
          [markExpanded ["A:0x1234"; "A:0x1234"] (plainLine 1 1 "0x1234")]).
Proof.
  exact (proj1 (confirmExpansion_copies_by_count_when_check_is_off
                  idleArithmeticLine idleCustomLines
                  (openedExpansion 1 "2" true 1) [plainLine 1 1 "0x1234"] 1
                  {| generatedGroups := "2"; deltaCheck := true;
                     lineConfigs := replicate 1 defaultConfig |}
                  (plainLine 1 1 "0x1234") eq_refl eq_refl eq_refl)).
Defined.

(** ** The result record of the Remember/Recall pass *)

Section RRResults.

Lemma findBestPattern_short lines :
  (length lines < 6)%nat -> findBestPattern lines = None.
Proof.
  intros H. unfold findBestPattern.
  by replace (length lines <? 6)%nat with true by (symmetry; apply Nat.ltb_lt; lia).
Qed.

(** X11.  The record [applyRROptimization] returns is consistent: the
    lengths are those of the input and of the output and the saving is
    their difference; with fewer than 6 non-blank lines, or whenever no
    pattern is reported, the output is the input and the saving is 0; a
    reported pattern is a window of 2 to N/3 input lines counted at least 3
    times, its last line starts with the reported two-character flag, the
    recall line is that flag followed by {recall}, and the remember
    pattern is the window with K: in place of that flag. *)
Theorem applyRROptimization_result_is_consistent (logicString : string) :
  let r := applyRROptimization logicString in
  let lines := logicLines logicString in
  originalLength r = String.length logicString
  /\ optimizedLength r = String.length (optimizedLogic r)
  /\ savings r = Z.of_nat (originalLength r) - Z.of_nat (optimizedLength r)
  /\ ((length lines < 6)%nat -> r = unchangedResult logicString)
  /\ (patternUsed r = None -> r = unchangedResult logicString)
  /\ forall u, patternUsed r = Some u ->
       (3 <= u_count u)%nat
       /\ (2 <= length (u_lines u))%nat
       /\ (3 * length (u_lines u) <= length lines)%nat
       /\ (exists start, u_lines u = JS.slice start (length (u_lines u)) lines)
       /\ String.length (u_originalFlag u) = 2%nat
       /\ u_recallReplacement u = u_originalFlag u +:+ "{recall}"
       /\ exists front rest,
            u_lines u = front ++ [u_originalFlag u +:+ rest]
            /\ u_rememberPattern u = JS.join "_" (front ++ ["K:" +:+ rest]).
Proof.
  cbv zeta. unfold applyRROptimization.
  destruct (findBestPattern (logicLines logicString)) as [pattern|] eqn:Hfind.
  2:{ cbn. repeat split; intros; try reflexivity; try lia; discriminate. }
  cbv zeta.
  destruct (JS.matchFlag (List.last (p_lines pattern) "")) as [f|] eqn:Hflag.
  2:{ cbn. repeat split; intros; try reflexivity; try lia; discriminate. }
  destruct (matchFlag_prefix _ _ Hflag) as (tail & Hlast & Htruthy & Hlen).
  cbn [default from_option id]. rewrite Htruthy. cbn [negb].
  cbn [originalLength optimizedLength optimizedLogic savings patternUsed].
  split; [reflexivity|]. split; [reflexivity|]. split; [reflexivity|].
  split.
  { intros Hshort. by rewrite findBestPattern_short in Hfind. }
  split; [discriminate|].
  intros u [= <-]. cbn [u_count u_lines u_originalFlag u_recallReplacement
                        u_rememberPattern].
  destruct (findBestPattern_longest _ _ (logicLines_noUnderscore logicString) Hfind)
    as [(start & Hlines & HL & Hstart & H3 & _ & Hc3) _].
  assert (Hplen : length (p_lines pattern) = p_length pattern)
    by (rewrite Hlines; by apply slice_length).
  split; [exact Hc3|]. split; [lia|]. split; [lia|].
  split; [exists start; by rewrite Hplen|].
  split; [exact Hlen|]. split; [reflexivity|].
  assert (Hne : p_lines pattern <> []) by (intros E; rewrite E in Hplen; cbn in Hplen; lia).
  destruct (remember_lines _ _ Hne Hflag) as (front & rest & Hpl & Hrem & _).
  exists front, rest. split; [exact Hpl|]. by rewrite Hrem.
Qed.

Lemma applyRROptimization_result_is_consistent_witness :
  applyRROptimization "A:0x1_A:0x2_A:0x3" = unchangedResult "A:0x1_A:0x2_A:0x3".
Proof.
  apply (proj1 (proj2 (proj2 (proj2
           (applyRROptimization_result_is_consistent "A:0x1_A:0x2_A:0x3"))))).
  vm_compute. lia.
Defined.

(** How often a line occurs among the lines. *)
Definition occurrences (x : string) (lines : list string) : nat :=
  length (List.filter (String.eqb x) lines).

(** A window is counted at most as often as its first line occurs. *)
Lemma countFrom_occurrences p0 ptl rest : forall skip,
  Forall (fun x => noUnderscore x = true) (p0 :: ptl) ->
  Forall (fun x => noUnderscore x = true) rest ->
  (countFrom (JS.join "_" (p0 :: ptl)) (length (p0 :: ptl)) skip rest
   <= occurrences p0 rest)%nat.
Proof.
  unfold occurrences.
  induction rest as [|x tl IH]; intros skip Hp Hr; [cbn; lia|].
  apply Forall_cons in Hr as [Hx Htl]. cbn [countFrom List.filter].
  assert (Hgrow : (length (List.filter (String.eqb p0) tl)
                   <= length (if String.eqb p0 x
                              then x :: List.filter (String.eqb p0) tl
                              else List.filter (String.eqb p0) tl))%nat)
    by (destruct (String.eqb p0 x); cbn [length]; lia).
  destruct skip as [|k]; [|specialize (IH k Hp Htl); lia].
  destruct ((length (p0 :: ptl) <=? length (x :: tl))%nat
            && String.eqb (JS.join "_" (take (length (p0 :: ptl)) (x :: tl)))
                 (JS.join "_" (p0 :: ptl))) eqn:Hm.
  2:{ specialize (IH 0%nat Hp Htl). lia. }
  apply andb_true_iff in Hm as [_ Heq]. apply String.eqb_eq in Heq.
  apply join_inj in Heq; [| discriminate | discriminate | | exact Hp].
  2:{ apply Forall_take. by constructor. }
  cbn [length take] in Heq. injection Heq as -> _.
  rewrite String.eqb_refl. cbn [length].
  specialize (IH (length (p0 :: ptl) - 1)%nat Hp Htl). cbn [length] in IH. lia.
Qed.

Lemma Forall_impossible {A} (P : A -> Prop) (l : list A) :
  Forall P l -> (forall x, P x -> False) -> l = [].
Proof. destruct 1 as [|x l Hx _]; [reflexivity|]. intros H. destruct (H x Hx). Qed.

(** X12.  When no line occurs three times among the non-blank lines of
    the logic, the pass finds no pattern and returns the input unchanged,
    with a saving of 0. *)
Theorem applyRROptimization_needs_a_line_occurring_thrice (logicString : string)
    (Hrare : forall x, (occurrences x (logicLines logicString) < 3)%nat) :
  findBestPattern (logicLines logicString) = None
  /\ applyRROptimization logicString = unchangedResult logicString.
Proof.
  assert (Hnone : findBestPattern (logicLines logicString) = None).
  { unfold findBestPattern. destruct (length _ <? 6)%nat; [reflexivity|].
    destruct (buildPatternMap_entries (logicLines logicString)) as [Hok _].
    rewrite (Forall_impossible _ _ Hok); [reflexivity|].
    intros [key info] [_ (start & Hlines & HL & Hstart & _ & Hcount & Hc3)].
    cbn [snd] in *.
    assert (Hlen : length (p_lines info) = p_length info)
      by (rewrite Hlines; by apply slice_length).
    destruct (p_lines info) as [|p0 ptl] eqn:Hpl; [cbn in Hlen; lia|].
    pose proof (countFrom_occurrences p0 ptl (logicLines logicString) 0) as Hle.
    rewrite Hlen, <- Hcount in Hle.
    specialize (Hrare p0).
    assert (Hclean : Forall (fun x => noUnderscore x = true) (p0 :: ptl)).
    { rewrite Hlines. apply slice_Forall, logicLines_noUnderscore. }
    specialize (Hle Hclean (logicLines_noUnderscore logicString)). lia. }
  split; [exact Hnone|]. unfold applyRROptimization. by rewrite Hnone.
Qed.

Lemma applyRROptimization_needs_a_line_occurring_thrice_witness :
  applyRROptimization "A:0x1_A:0x2_A:0x1_A:0x2_A:0x5_A:0x6_A:0x7"
  = unchangedResult "A:0x1_A:0x2_A:0x1_A:0x2_A:0x5_A:0x6_A:0x7".
Proof.
  refine (proj2 (applyRROptimization_needs_a_line_occurring_thrice
                   "A:0x1_A:0x2_A:0x1_A:0x2_A:0x5_A:0x6_A:0x7" _)).
  intros x. change (logicLines _)
    with ["A:0x1"; "A:0x2"; "A:0x1"; "A:0x2"; "A:0x5"; "A:0x6"; "A:0x7"].
  unfold occurrences. cbn [List.filter].
  repeat match goal with |- context [String.eqb x ?l] =>
           destruct (String.eqb_spec x l); [subst x; cbn; lia|] end.
  cbn. lia.
Defined.

End RRResults.

(** ** What bit compression saves *)

Section Savings.

(** The lines a run loses when it is rewritten: its members, less the
    aggregate line and one correction per absent bit. *)
Definition runSaving (r : Run) : Z :=
  match r with
  | BitRun _ _ ms =>
      if runQualifies r
      then Z.of_nat (length ms) - 1 - Z.of_nat (length (absentBits ms))
      else 0
  | Other _ => 0
  end.

Definition sumZ (l : list Z) : Z := fold_right Z.add 0 l.

Lemma flat_map_length_sum {A B} (f : A -> list B) (l : list A) :
  Z.of_nat (length (flat_map f l)) = sumZ (map (fun x => Z.of_nat (length (f x))) l).
Proof.
  induction l as [|x l IH]; [reflexivity|].
  cbn [flat_map map sumZ fold_right]. rewrite length_app, Nat2Z.inj_add.
  unfold sumZ in IH. by rewrite IH.
Qed.

Lemma rewriteRun_saving r :
  Z.of_nat (length (runLines r)) - Z.of_nat (length (rewriteRun r)) = runSaving r.
Proof.
  destruct r as [l|a t ms]; [reflexivity|].
  unfold rewriteRun, runSaving, runLines.
  destruct (runQualifies (BitRun a t ms)); [|lia].
  rewrite length_map.
  destruct (String.eqb (lastFlag ms) "A:");
    [cbn [length] | rewrite length_app; cbn [length]];
    rewrite length_map; lia.
Qed.

Lemma sumZ_difference {A} (f g : A -> Z) (l : list A) :
  sumZ (map f l) - sumZ (map g l) = sumZ (map (fun x => f x - g x) l).
Proof.
  induction l as [|x l IH]; [reflexivity|].
  cbn [map sumZ fold_right]. unfold sumZ in IH. lia.
Qed.

Lemma absentBits_at_most_seven lm ms :
  0 <= bitOf lm <= 7 -> (length (absentBits (lm :: ms)) <= 7)%nat.
Proof.
  intros Hbit. unfold absentBits.
  set (f := fun bit => negb (existsb (Z.eqb bit) (map bitOf (lm :: ms)))).
  pose proof (List.filter_length f [0; 1; 2; 3; 4; 5; 6; 7]) as Hlen.
  cbn [length] in Hlen.
  assert (Hin : In (bitOf lm) (List.filter (fun x => negb (f x)) [0; 1; 2; 3; 4; 5; 6; 7])).
  { apply filter_In. split.
    - revert Hbit. generalize (bitOf lm). intros b Hb. cbn [In]. lia.
    - unfold f. cbn [map existsb]. by rewrite Z.eqb_refl. }
  destruct (List.filter (fun x => negb (f x)) [0; 1; 2; 3; 4; 5; 6; 7]);
    [contradiction | cbn [length] in Hlen; lia].
Qed.

(** X13.  The saving [calculateCompressionSavings] reports is the sum,
    over the maximal runs of single-bit lines, of what each rewritten run
    loses: its number of lines less one aggregate line and one correction
    per bit it does not test.  A run never costs more than 3 lines, and
    without a run of 5 lines ending in A: or B: the saving is 0. *)
Theorem calculateCompressionSavings_by_runs (lines : list string) :
  calculateCompressionSavings lines = sumZ (map runSaving (maximalRuns lines))
  /\ (forall r, In r (maximalRuns lines) -> -3 <= runSaving r)
  /\ (existsb runQualifies (maximalRuns lines) = false ->
      calculateCompressionSavings lines = 0 /\ compressBits lines = lines).
Proof.
  assert (Hsum : calculateCompressionSavings lines
                 = sumZ (map runSaving (maximalRuns lines))).
  { unfold calculateCompressionSavings. rewrite compressBits_runs.
    rewrite <- (maximalRuns_partition lines) at 1.
    rewrite !flat_map_length_sum, sumZ_difference.
    f_equal. apply map_ext. intros r. apply rewriteRun_saving. }
  split; [exact Hsum|]. split.
  - intros r Hr.
    pose proof (maximalRuns_ok lines) as Hok. rewrite Forall_forall in Hok.
    specialize (Hok r ltac:(by apply list_elem_of_In)).
    destruct r as [l|a t ms]; [cbn; lia|].
    unfold runSaving. destruct (runQualifies (BitRun a t ms)) eqn:Hq; [|lia].
    cbn [runQualifies] in Hq. apply andb_true_iff in Hq as [Hfive _].
    apply Nat.leb_le in Hfive.
    destruct Hok as [Hne Hall]. destruct ms as [|lm ms]; [congruence|].
    apply Forall_cons in Hall as [(Hm & _) _].
    pose proof (absentBits_at_most_seven lm ms (matchBitLine_bit _ _ Hm)). lia.
  - intros Hnone.
    assert (Hid : compressBits lines = lines).
    { rewrite compressBits_runs, flat_map_unqualified by exact Hnone.
      apply maximalRuns_partition. }
    split; [|exact Hid]. unfold calculateCompressionSavings. rewrite Hid. lia.
Qed.

Lemma calculateCompressionSavings_by_runs_witness :
  calculateCompressionSavings ["0xH1234=1"; "0xH1235=2"] = 0
  /\ compressBits ["0xH1234=1"; "0xH1235=2"] = ["0xH1234=1"; "0xH1235=2"].
Proof.
  exact (proj2 (proj2 (calculateCompressionSavings_by_runs
                         ["0xH1234=1"; "0xH1235=2"])) eq_refl).
Defined.

End Savings.

(** ** The codec on canonical conditions *)

Section CodecRoundTrip.

(** Every character of the string passes the test. *)
Fixpoint everyChar (P : ascii -> bool) (s : string) : bool :=
  match s with
  | EmptyString => true
  | String c s' => P c && everyChar P s'
  end.

Lemma everyChar_app P a b :
  everyChar P (a +:+ b) = everyChar P a && everyChar P b.
Proof.
  induction a as [|c a IH]; [reflexivity|].
  rewrite string_app_cons. cbn [everyChar]. by rewrite IH, andb_assoc.
Qed.

Lemma everyChar_impl (P Q : ascii -> bool) s :
  (forall c, P c = true -> Q c = true) -> everyChar P s = true -> everyChar Q s = true.
Proof.
  intros H. induction s as [|c s IH]; [reflexivity|]. cbn [everyChar].
  intros [Hc Hs]%andb_true_iff. by rewrite (H c Hc), IH.
Qed.

Definition plainChar (c : ascii) : bool :=
  negb (JS.isSpace c) && negb (Ascii.eqb c ".").

(** The next character, if any, ends a run of digits, letters and
    hexadecimal digits. *)
Definition stops (s : string) : bool :=
  match s with
  | EmptyString => true
  | String c _ => negb (JS.isHexDigit c) && negb (JS.isLetter c) && negb (JS.isDigit c)
  end.

Lemma digit_facts c :
  JS.isDigit c = true ->
  JS.isHexDigit c = true /\ JS.isUpperHexDigit c = true /\ JS.isLetter c = false
  /\ plainChar c = true /\ JS.isUpper c = false /\ Ascii.eqb c "x" = false
  /\ Ascii.eqb c "-" = false /\ Ascii.eqb c "{" = false
  /\ existsb (Ascii.eqb c) ["d"; "p"; "b"; "~"]%char = false.
Proof.
  destruct c as [[] [] [] [] [] [] [] []]; vm_compute; intros; try discriminate;
    repeat split.
Qed.

Lemma upperHex_facts c :
  JS.isUpperHexDigit c = true ->
  JS.isHexDigit c = true /\ plainChar c = true /\ JS.upperChar c = c
  /\ JS.isLetter c = negb (JS.isDigit c) /\ Ascii.eqb c "{" = false.
Proof.
  destruct c as [[] [] [] [] [] [] [] []]; vm_compute; intros; try discriminate;
    repeat split.
Qed.

Lemma trim_plain s : everyChar plainChar s = true -> JS.trim s = s.
Proof.
  intros H. unfold JS.trim.
  assert (Hstart : JS.trimStart s = s).
  { destruct s as [|c s]; [reflexivity|]. cbn [everyChar JS.trimStart] in *.
    apply andb_true_iff in H as [Hc _]. unfold plainChar in Hc.
    apply andb_true_iff in Hc as [Hc _]. apply negb_true_iff in Hc. by rewrite Hc. }
  rewrite Hstart. induction s as [|c s IH]; [reflexivity|].
  cbn [everyChar] in H. apply andb_true_iff in H as [Hc Hs].
  cbn [JS.trimEnd]. rewrite IH.
  - destruct s; [|reflexivity].
    unfold plainChar in Hc. apply andb_true_iff in Hc as [Hc _].
    apply negb_true_iff in Hc. by rewrite Hc.
  - exact Hs.
  - destruct s as [|d s]; [reflexivity|]. cbn [everyChar JS.trimStart] in *.
    apply andb_true_iff in Hs as [Hd _]. unfold plainChar in Hd.
    apply andb_true_iff in Hd as [Hd _]. apply negb_true_iff in Hd. by rewrite Hd.
Qed.

Lemma spanDigits_app d rest :
  everyChar JS.isDigit d = true -> stops rest = true ->
  spanDigits (d +:+ rest) = (d, rest).
Proof.
  intros Hd Hr. induction d as [|c d IH].
  - destruct rest as [|r rest]; [reflexivity|]. cbn [stops] in Hr.
    apply andb_true_iff in Hr as [_ Hr]. apply negb_true_iff in Hr.
    rewrite string_app_nil_l. cbn [spanDigits]. by rewrite Hr.
  - cbn [everyChar] in Hd. apply andb_true_iff in Hd as [Hc Hd].
    rewrite string_app_cons. cbn [spanDigits]. by rewrite Hc, IH.
Qed.

Lemma spanHex_app h rest :
  everyChar JS.isUpperHexDigit h = true -> stops rest = true ->
  spanHex (h +:+ rest) = (h, rest).
Proof.
  intros Hh Hr. induction h as [|c h IH].
  - destruct rest as [|r rest]; [reflexivity|]. cbn [stops] in Hr.
    apply andb_true_iff in Hr as [[Hr _]%andb_true_iff _]. apply negb_true_iff in Hr.
    rewrite string_app_nil_l. cbn [spanHex]. by rewrite Hr.
  - cbn [everyChar] in Hh. apply andb_true_iff in Hh as [Hc Hh].
    rewrite string_app_cons. cbn [spanHex].
    destruct (upperHex_facts c Hc) as (-> & _). by rewrite IH.
Qed.

Lemma takeChars_app p r : JS.takeChars (String.length p) (p +:+ r) = p.
Proof.
  induction p as [|c p IH]; [by destruct r|].
  rewrite string_app_cons. cbn. by rewrite IH.
Qed.

Lemma toUpperCase_upperHex h :
  everyChar JS.isUpperHexDigit h = true -> JS.toUpperCase h = h.
Proof.
  induction h as [|c h IH]; [reflexivity|]. cbn [everyChar JS.toUpperCase].
  intros [Hc Hh]%andb_true_iff.
  destruct (upperHex_facts c Hc) as (_ & _ & -> & _). by rewrite IH.
Qed.

Lemma forallb_chars P s : forallb P (list_ascii_of_string s) = everyChar P s.
Proof. induction s as [|c s IH]; [reflexivity|]. cbn. by rewrite IH. Qed.

Lemma takeChars_plus pre j y :
  JS.takeChars (String.length pre + j) (pre +:+ y) = pre +:+ JS.takeChars j y.
Proof.
  induction pre as [|c pre IH]; [reflexivity|].
  rewrite !string_app_cons. cbn [String.length Nat.add JS.takeChars]. by rewrite IH.
Qed.

Lemma dropChars_plus pre j y :
  JS.dropChars (String.length pre + j) (pre +:+ y) = JS.dropChars j y.
Proof.
  induction pre as [|c pre IH]; [reflexivity|].
  rewrite !string_app_cons. cbn [String.length Nat.add JS.dropChars]. by rewrite IH.
Qed.

(** Letters taken beyond the size prefix are hexadecimal digits of the
    address: the letter test fails on what follows the address. *)
Lemma letters_inside j : forall h rest,
  everyChar JS.isUpperHexDigit h = true -> stops rest = true ->
  Nat.eqb (String.length (JS.takeChars j (h +:+ rest))) j
  && everyChar JS.isLetter (JS.takeChars j (h +:+ rest)) = true ->
  exists h1 h2, h = h1 +:+ h2 /\ JS.takeChars j (h +:+ rest) = h1
                /\ JS.dropChars j (h +:+ rest) = h2 +:+ rest.
Proof.
  induction j as [|j IH]; intros h rest Hh Hr Htest.
  { exists "", h. split; [reflexivity|]. split; [by destruct (h +:+ rest) | reflexivity]. }
  destruct h as [|c h].
  - exfalso. rewrite string_app_nil_l in Htest. destruct rest as [|r rest]; [discriminate|].
    cbn [JS.takeChars everyChar] in Htest.
    cbn [stops] in Hr. apply andb_true_iff in Hr as [[_ Hr]%andb_true_iff _].
    apply negb_true_iff in Hr. rewrite Hr in Htest.
    by rewrite andb_false_r in Htest.
  - cbn [everyChar] in Hh. apply andb_true_iff in Hh as [Hc Hh].
    rewrite string_app_cons in *. cbn [JS.takeChars JS.dropChars String.length everyChar] in *.
    destruct (IH h rest Hh Hr) as (h1 & h2 & -> & Ht & Hd).
    { apply andb_true_iff in Htest as [Hlen [_ Hlet]%andb_true_iff].
      apply andb_true_iff. split; [exact Hlen | exact Hlet]. }
    exists (String c h1), h2. split; [reflexivity|]. by rewrite Ht, Hd.
Qed.

Lemma eqb_shift a b j : Nat.eqb (a + b) (a + j) = Nat.eqb b j.
Proof. induction a; [reflexivity | exact IHa]. Qed.

Lemma lettersThenHex_beyond pre j h rest :
  everyChar JS.isLetter pre = true ->
  everyChar JS.isUpperHexDigit h = true -> stops rest = true ->
  lettersThenHex (String.length pre + j) (pre +:+ h +:+ rest) = None
  \/ lettersThenHex (String.length pre + j) (pre +:+ h +:+ rest) = Some (pre +:+ h).
Proof.
  intros Hpre Hh Hr. unfold lettersThenHex.
  rewrite takeChars_plus, dropChars_plus, forallb_chars, everyChar_app, Hpre.
  rewrite string_app_length, eqb_shift; cbn [andb].
  destruct (Nat.eqb (String.length (JS.takeChars j (h +:+ rest))) j
            && everyChar JS.isLetter (JS.takeChars j (h +:+ rest))) eqn:Htest;
    [|by left].
  destruct (letters_inside j h rest Hh Hr Htest) as (h1 & h2 & -> & -> & ->).
  rewrite everyChar_app in Hh. apply andb_true_iff in Hh as [_ Hh2].
  rewrite (spanHex_app h2 rest Hh2 Hr).
  destruct h2; [by left | right]. by rewrite string_app_assoc.
Qed.

Lemma lettersThenHex_exact pre h rest :
  everyChar JS.isLetter pre = true ->
  everyChar JS.isUpperHexDigit h = true -> h <> "" -> stops rest = true ->
  lettersThenHex (String.length pre) (pre +:+ h +:+ rest) = Some (pre +:+ h).
Proof.
  intros Hpre Hh Hne Hr.
  rewrite <- (Nat.add_0_r (String.length pre)). unfold lettersThenHex.
  rewrite takeChars_plus, dropChars_plus, forallb_chars.
  cbn [JS.dropChars].
  replace (JS.takeChars 0 (h +:+ rest)) with "" by by destruct (h +:+ rest).
  rewrite string_app_nil_r, Nat.add_0_r, Nat.eqb_refl, Hpre. cbn [andb].
  rewrite (spanHex_app h rest Hh Hr). by destruct h.
Qed.

(** [0x[a-zA-Z]{0,2}[0-9A-Fa-f]+] takes the size prefix and the whole
    address, whichever split the backtracking settles on. *)
Lemma matchAddressBody_token sp h rest :
  everyChar JS.isLetter sp = true -> (String.length sp <= 2)%nat ->
  everyChar JS.isUpperHexDigit h = true -> h <> "" -> stops rest = true ->
  matchAddressBody ("0x" +:+ sp +:+ h +:+ rest) = Some ("0x" +:+ sp +:+ h).
Proof.
  intros Hsp Hlen Hh Hne Hr. unfold matchAddressBody.
  unfold JS.startsWith. rewrite (prefix_app "0x").
  change (JS.dropChars 2 ("0x" +:+ sp +:+ h +:+ rest)) with (sp +:+ h +:+ rest).
  pose proof (lettersThenHex_exact sp h rest Hsp Hh Hne Hr) as Hexact.
  destruct sp as [|s1 [|s2 [|s3 sp]]]; [| | |cbn in Hlen; lia].
  - destruct (lettersThenHex_beyond "" 2 h rest eq_refl Hh Hr) as [H2|H2];
      cbn [String.length Nat.add] in H2; rewrite H2; [|reflexivity].
    destruct (lettersThenHex_beyond "" 1 h rest eq_refl Hh Hr) as [H1|H1];
      cbn [String.length Nat.add] in H1; rewrite H1; [|reflexivity].
    cbn [String.length] in Hexact. by rewrite Hexact.
  - destruct (lettersThenHex_beyond (String s1 "") 1 h rest Hsp Hh Hr) as [H2|H2];
      cbn [String.length Nat.add] in H2; rewrite H2; [|reflexivity].
    cbn [String.length] in Hexact. by rewrite Hexact.
  - cbn [String.length] in Hexact. by rewrite Hexact.
Qed.

Definition typeLetter (c : ascii) : bool :=
  existsb (Ascii.eqb c) ["d"; "p"; "b"; "~"]%char.

(** The text of a type modifier: nothing, or one of [d p b ~]. *)
Definition modifierOk (tp : string) : bool :=
  match tp with
  | EmptyString => true
  | String c EmptyString => typeLetter c
  | _ => false
  end.

Lemma matchAddress_token tp sp h rest :
  modifierOk tp = true ->
  everyChar JS.isLetter sp = true -> (String.length sp <= 2)%nat ->
  everyChar JS.isUpperHexDigit h = true -> h <> "" -> stops rest = true ->
  matchLeftOperand (tp +:+ "0x" +:+ sp +:+ h +:+ rest)
  = Some (tp +:+ "0x" +:+ sp +:+ h).
Proof.
  intros Htp Hsp Hlen Hh Hne Hr.
  pose proof (matchAddressBody_token sp h rest Hsp Hlen Hh Hne Hr) as Hbody.
  unfold matchLeftOperand, matchAddress.
  destruct tp as [|c [|? ?]]; [| |discriminate].
  - rewrite string_app_nil_l. 
    replace (JS.startsWith "{recall}" ("0x" +:+ sp +:+ h +:+ rest)) with false
      by reflexivity.
    change ("0x" +:+ sp +:+ h +:+ rest)
      with (String "0" (String "x" (sp +:+ h +:+ rest))) at 1.
    cbv iota.
    replace (existsb (Ascii.eqb "0") ["d"; "p"; "b"; "~"]%char) with false
      by reflexivity.
    by rewrite Hbody.
  - cbn [modifierOk] in Htp. unfold typeLetter in Htp.
    change (String c "" +:+ "0x" +:+ sp +:+ h +:+ rest)
      with (String c ("0x" +:+ sp +:+ h +:+ rest)).
    change (String c "" +:+ "0x" +:+ sp +:+ h) with (String c ("0x" +:+ sp +:+ h)).
    assert (Hnot : JS.startsWith "{recall}"
                     (String c ("0x" +:+ sp +:+ h +:+ rest)) = false).
    { cbn [existsb] in Htp. unfold JS.startsWith.
      destruct c as [[] [] [] [] [] [] [] []]; try discriminate; reflexivity. }
    rewrite Hnot. cbv iota. rewrite Htp, Hbody. reflexivity.
Qed.

Lemma property_in table key v : property table key = Some v -> In (key, v) table.
Proof.
  induction table as [|[k w] table IH]; [discriminate|]. cbn [property].
  destruct (String.eqb_spec k key) as [->|_].
  - intros [= ->]. by left.
  - intros H. right. by apply IH.
Qed.

(** The two size tables are inverse to each other, and the order in which
    [parseMemoryToken] tries the prefixes finds the one that was written. *)
Lemma size_facts size sp :
  property sizeMapForText size = Some sp ->
  everyChar JS.isLetter sp = true /\ (String.length sp <= 2)%nat
  /\ everyChar plainChar sp = true
  /\ propertyOr sizePrefixMap sp "16-bit" = size
  /\ propertyOr sizeMapForText size "" = sp
  /\ forall h, everyChar JS.isUpperHexDigit h = true -> h <> "" ->
       firstPrefix sizePrefixOrder (sp +:+ h) = sp.
Proof.
  intros H. apply property_in in H. unfold sizeMapForText in H. cbn [In] in H.
  repeat (destruct H as [H|H];
          [injection H as <- <-;
           repeat (split; [vm_compute; try reflexivity; lia|]);
           intros h Hh Hne; destruct h as [|h1 h']; [congruence|];
           try (vm_compute; reflexivity);
           cbn [everyChar] in Hh; apply andb_true_iff in Hh as [Hh _];
           destruct h1 as [[] [] [] [] [] [] [] []];
           try discriminate Hh; vm_compute; reflexivity
          |]).
  contradiction.
Qed.

Lemma parseMemoryToken_token size sp h :
  property sizeMapForText size = Some sp ->
  everyChar JS.isUpperHexDigit h = true -> h <> "" ->
  parseMemoryToken ("0x" +:+ sp +:+ h) = (size, "0x" +:+ h).
Proof.
  intros Hsize Hh Hne.
  destruct (size_facts size sp Hsize) as (_ & _ & _ & Hback & _ & Hfirst).
  unfold parseMemoryToken.
  change (JS.dropChars 2 ("0x" +:+ sp +:+ h)) with (sp +:+ h).
  rewrite (Hfirst h Hh Hne), dropChars_app, Hback, toUpperCase_upperHex by exact Hh.
  reflexivity.
Qed.

(** The operand types written with an address. *)
Definition addressType (t : OperandType) : bool :=
  match t with
  | Mem | Delta | Prior | BCD | Invert => true
  | _ => false
  end.

Lemma typePrefixOf_modifier t : modifierOk (typePrefixOf t) = true.
Proof. by destruct t. Qed.

Lemma upperHex_plain h :
  everyChar JS.isUpperHexDigit h = true -> everyChar plainChar h = true.
Proof. apply everyChar_impl. intros c Hc. by destruct (upperHex_facts c Hc) as (_ & ? & _). Qed.

(** An operand token that is a modifier and an address. *)
Lemma parseOperandToken_0x t body :
  addressType t = true ->
  JS.trim (typePrefixOf t +:+ "0x" +:+ body) = typePrefixOf t +:+ "0x" +:+ body ->
  parseOperandToken (typePrefixOf t +:+ "0x" +:+ body)
  = {| o_type := t;
       o_size := fst (parseMemoryToken ("0x" +:+ body));
       o_memory := snd (parseMemoryToken ("0x" +:+ body)) |}.
Proof.
  intros Ht Htrim. unfold parseOperandToken. rewrite Htrim.
  assert (H0x : JS.startsWith "0x" ("0x" +:+ body) = true) by apply prefix_app.
  assert (Hrecall : JS.startsWith "{recall}" ("0x" +:+ body) = false) by reflexivity.
  destruct t; try discriminate; cbn [typePrefixOf].
  - rewrite string_app_nil_l, Hrecall.
    change ("0x" +:+ body) with (String "0" (String "x" body)) at 1.
    cbv iota. change (Ascii.eqb "0" "d") with false. change (Ascii.eqb "0" "p") with false.
    change (Ascii.eqb "0" "b") with false. change (Ascii.eqb "0" "~") with false.
    cbv iota. rewrite Hrecall, H0x. by destruct (parseMemoryToken _).
  - change ("d" +:+ "0x" +:+ body) with (String "d" ("0x" +:+ body)).
    change (JS.startsWith "{recall}" (String "d" ("0x" +:+ body))) with false.
    cbv iota. change (Ascii.eqb "d" "d") with true.
    cbv iota. rewrite Hrecall, H0x. by destruct (parseMemoryToken _).
  - change ("p" +:+ "0x" +:+ body) with (String "p" ("0x" +:+ body)).
    change (JS.startsWith "{recall}" (String "p" ("0x" +:+ body))) with false.
    cbv iota. change (Ascii.eqb "p" "d") with false. change (Ascii.eqb "p" "p") with true.
    cbv iota. rewrite Hrecall, H0x. by destruct (parseMemoryToken _).
  - change ("b" +:+ "0x" +:+ body) with (String "b" ("0x" +:+ body)).
    change (JS.startsWith "{recall}" (String "b" ("0x" +:+ body))) with false.
    cbv iota. change (Ascii.eqb "b" "d") with false. change (Ascii.eqb "b" "p") with false.
    change (Ascii.eqb "b" "b") with true.
    cbv iota. rewrite Hrecall, H0x. by destruct (parseMemoryToken _).
  - change ("~" +:+ "0x" +:+ body) with (String "~" ("0x" +:+ body)).
    change (JS.startsWith "{recall}" (String "~" ("0x" +:+ body))) with false.
    cbv iota. change (Ascii.eqb "~" "d") with false. change (Ascii.eqb "~" "p") with false.
    change (Ascii.eqb "~" "b") with false. change (Ascii.eqb "~" "~") with true.
    cbv iota. rewrite Hrecall, H0x. by destruct (parseMemoryToken _).
Qed.

Lemma typePrefixOf_plain t : everyChar plainChar (typePrefixOf t) = true.
Proof. by destruct t. Qed.

Lemma parseOperandToken_address t size sp h :
  addressType t = true ->
  property sizeMapForText size = Some sp ->
  everyChar JS.isUpperHexDigit h = true -> h <> "" ->
  parseOperandToken (typePrefixOf t +:+ "0x" +:+ sp +:+ h)
  = {| o_type := t; o_size := size; o_memory := "0x" +:+ h |}.
Proof.
  intros Ht Hsize Hh Hne.
  destruct (size_facts size sp Hsize) as (_ & _ & Hplain & _).
  rewrite parseOperandToken_0x, (parseMemoryToken_token size sp h Hsize Hh Hne);
    [reflexivity | exact Ht |].
  apply trim_plain.
  rewrite !everyChar_app, typePrefixOf_plain, Hplain, (upperHex_plain h Hh).
  reflexivity.
Qed.

(** A decimal literal as the parser reads one: digits, with an optional
    minus sign. *)
Definition integerText (m : string) : bool :=
  match m with
  | String c d =>
      if Ascii.eqb c "-" then JS.truthy d && everyChar JS.isDigit d
      else everyChar JS.isDigit m
  | EmptyString => false
  end.

Lemma startsWith_head a p c s :
  JS.startsWith (String a p) (String c s) = true -> a = c.
Proof. intros H. apply prefix_spec in H as [r Hr]. by injection Hr. Qed.

Lemma not_startsWith a p c s :
  a <> c -> JS.startsWith (String a p) (String c s) = false.
Proof.
  intros Hne. apply not_true_is_false. intros H. by apply startsWith_head in H.
Qed.

Lemma digits_plain d : everyChar JS.isDigit d = true -> everyChar plainChar d = true.
Proof. apply everyChar_impl. intros c Hc. by destruct (digit_facts c Hc) as (_ & _ & _ & ? & _). Qed.

Lemma integerText_plain m : integerText m = true -> everyChar plainChar m = true.
Proof.
  destruct m as [|c d]; [discriminate|]. cbn [integerText].
  destruct (Ascii.eqb_spec c "-") as [->|_].
  - intros [_ Hd]%andb_true_iff. cbn [everyChar]. by rewrite (digits_plain d Hd).
  - apply digits_plain.
Qed.

(** The first character of an integer literal: a digit or the sign. *)
Lemma integerText_head m :
  integerText m = true ->
  exists c d, m = String c d
    /\ typeLetter c = false /\ JS.isUpper c = false
    /\ Ascii.eqb c "{" = false /\ Ascii.eqb c "=" = false.
Proof.
  destruct m as [|c d]; [discriminate|]. cbn [integerText]. intros H.
  exists c, d. split; [reflexivity|].
  destruct (Ascii.eqb_spec c "-") as [->|_]; [by repeat split|].
  cbn [everyChar] in H. apply andb_true_iff in H as [Hc _].
  destruct c as [[] [] [] [] [] [] [] []]; try discriminate Hc; by repeat split.
Qed.

Lemma integerText_no_0x m rest :
  integerText m = true -> stops rest = true ->
  JS.startsWith "0x" (m +:+ rest) = false.
Proof.
  intros Hm Hr. apply not_true_is_false. intros H.
  apply prefix_spec in H as [r Hr0].
  destruct m as [|c d]; [discriminate|].
  rewrite string_app_cons in Hr0. injection Hr0 as -> Hd.
  cbn [integerText] in Hm. change (Ascii.eqb "0" "-") with false in Hm.
  cbn [everyChar] in Hm. apply andb_true_iff in Hm as [_ Hd'].
  destruct d as [|x d].
  - rewrite string_app_nil_l in Hd. subst rest. discriminate.
  - rewrite string_app_cons in Hd. injection Hd as -> _. discriminate.
Qed.

Lemma parseOperandToken_value m :
  integerText m = true ->
  parseOperandToken m = {| o_type := Value; o_size := "8-bit"; o_memory := m |}.
Proof.
  intros Hm. unfold parseOperandToken.
  rewrite trim_plain by by apply integerText_plain.
  pose proof (integerText_no_0x m "" Hm eq_refl) as H0x.
  rewrite string_app_nil_r in H0x.
  destruct (integerText_head m Hm) as (c & d & -> & Hty & _ & Hbrace & _).
  assert (Hrecall : JS.startsWith "{recall}" (String c d) = false).
  { apply not_startsWith. intros <-. discriminate. }
  rewrite Hrecall. unfold typeLetter in Hty. cbn [existsb] in Hty.
  apply orb_false_iff in Hty as [-> Hty]. apply orb_false_iff in Hty as [-> Hty].
  apply orb_false_iff in Hty as [-> Hty]. apply orb_false_iff in Hty as [-> _].
  by rewrite Hrecall, H0x.
Qed.

Lemma matchLeftOperand_value m rest :
  integerText m = true -> stops rest = true ->
  matchLeftOperand (m +:+ rest) = Some m.
Proof.
  intros Hm Hr. unfold matchLeftOperand, matchAddress, matchAddressBody.
  pose proof (integerText_no_0x m rest Hm Hr) as H0x.
  destruct (integerText_head m Hm) as (c & d & -> & Hty & _ & Hbrace & _).
  rewrite string_app_cons in *.
  assert (Hrecall : JS.startsWith "{recall}" (String c (d +:+ rest)) = false).
  { apply not_startsWith. intros <-. discriminate. }
  rewrite Hrecall. unfold typeLetter in Hty. rewrite Hty, H0x.
  unfold matchInteger. cbn [integerText] in Hm.
  destruct (Ascii.eqb c "-").
  - apply andb_true_iff in Hm as [Hne Hd].
    rewrite (spanDigits_app d rest Hd Hr). by destruct d.
  - rewrite <- string_app_cons, (spanDigits_app (String c d) rest Hm Hr).
    reflexivity.
Qed.

(** *** Canonical conditions

    The conditions the codec writes and reads back unchanged: a flag or
    none; operands that are an address of one of the 24 sizes in capital
    hexadecimal digits under one of the modifiers, or a decimal literal (or,
    on the right, a recall); a comparator for the test flags, an
    operator or nothing for the operand flags; hits in digits, not "0". *)

Definition flagOk (f : string) : bool :=
  match f with
  | EmptyString => true
  | String c (String d EmptyString) => JS.isUpper c && Ascii.eqb d ":"
  | _ => false
  end.

Definition addressOk (t : OperandType) (size memory : string) : bool :=
  addressType t
  && match property sizeMapForText size with Some _ => true | None => false end
  && JS.startsWith "0x" memory
  && JS.truthy (JS.dropChars 2 memory)
  && everyChar JS.isUpperHexDigit (JS.dropChars 2 memory).

Definition valueOk (t : OperandType) (size memory : string) : bool :=
  match t with Value => true | _ => false end
  && String.eqb size "8-bit" && integerText memory.

Definition recallOk (t : OperandType) (size memory : string) : bool :=
  match t with Recall => true | _ => false end
  && String.eqb size "" && String.eqb memory "".

Definition comparators : list string := ["<="; ">="; "!="; "="; "<"; ">"].
Definition operators : list string := ["*"; "/"; "%"; "+"; "-"; "&"; "^"].

Definition hitsOk (h : string) : bool :=
  String.eqb h ""
  || (JS.truthy h && everyChar JS.isDigit h && negb (String.eqb h "0")).

Definition canonical (p : Predicate) : bool :=
  let rightOk :=
    addressOk (compareType p) (compareSize p) (value p)
    || valueOk (compareType p) (compareSize p) (value p)
    || recallOk (compareType p) (compareSize p) (value p) in
  flagOk (flag p)
  && (addressOk (type p) (size p) (memory p) || valueOk (type p) (size p) (memory p))
  && if includes OPERAND_FLAGS (flag p)
     then String.eqb (hits p) ""
          && ((String.eqb (cmp p) ""
               && valueOk (compareType p) (compareSize p) (value p)
               && String.eqb (value p) "0")
              || (includes operators (cmp p) && rightOk))
     else includes comparators (cmp p) && rightOk && hitsOk (hits p).

(** What the serializer writes for an operand. *)
Definition operandText (t : OperandType) (size memory : string) : string :=
  match t with
  | Recall => "{recall}"
  | Value => memory
  | _ => typePrefixOf t +:+ withSizePrefix memory size
  end.

Lemma addressOk_spec t size memory :
  addressOk t size memory = true ->
  addressType t = true
  /\ exists sp h, property sizeMapForText size = Some sp
       /\ memory = "0x" +:+ h /\ h <> ""
       /\ everyChar JS.isUpperHexDigit h = true.
Proof.
  unfold addressOk. intros H.
  apply andb_true_iff in H as [H Hhex]. apply andb_true_iff in H as [H Hne].
  apply andb_true_iff in H as [H H0x]. apply andb_true_iff in H as [Ht Hsize].
  split; [exact Ht|].
  destruct (property sizeMapForText size) as [sp|]; [|discriminate].
  apply prefix_spec in H0x as [h ->]. exists sp, h.
  change (JS.dropChars 2 ("0x" +:+ h)) with h in *.
  split; [reflexivity|]. split; [reflexivity|]. split; [|exact Hhex].
  intros ->. discriminate.
Qed.

Lemma withSizePrefix_address size sp h :
  property sizeMapForText size = Some sp ->
  withSizePrefix ("0x" +:+ h) size = "0x" +:+ sp +:+ h.
Proof.
  intros Hsize. destruct (size_facts size sp Hsize) as (_ & _ & _ & _ & Hsp & _).
  unfold withSizePrefix, JS.startsWith.
  rewrite (prefix_app "0x"), replaceFirst_prefix, Hsp. apply string_app_assoc.
Qed.

(** The first character of an operand text is no capital letter and no
    equals sign. *)
Definition operandHead (text : string) : Prop :=
  exists c s, text = String c s /\ JS.isUpper c = false /\ Ascii.eqb c "=" = false.

Lemma operandText_address t size memory :
  addressOk t size memory = true ->
  exists sp h,
    property sizeMapForText size = Some sp /\ memory = "0x" +:+ h
    /\ h <> "" /\ everyChar JS.isUpperHexDigit h = true
    /\ operandText t size memory = typePrefixOf t +:+ "0x" +:+ sp +:+ h
    /\ everyChar plainChar (operandText t size memory) = true
    /\ operandHead (operandText t size memory).
Proof.
  intros H. destruct (addressOk_spec _ _ _ H) as (Ht & sp & h & Hsize & -> & Hne & Hh).
  exists sp, h. repeat (split; [assumption || reflexivity|]).
  assert (Htext : operandText t size ("0x" +:+ h) = typePrefixOf t +:+ "0x" +:+ sp +:+ h).
  { unfold operandText. rewrite (withSizePrefix_address size sp h Hsize).
    by destruct t. }
  rewrite Htext. destruct (size_facts size sp Hsize) as (_ & _ & Hplain & _).
  split; [reflexivity|]. split.
  - rewrite !everyChar_app, typePrefixOf_plain, Hplain, (upperHex_plain h Hh).
    reflexivity.
  - destruct t; try discriminate; cbn [typePrefixOf];
      eexists _, _; (split; [reflexivity|]); by split.
Qed.

Lemma valueOk_spec t size memory :
  valueOk t size memory = true -> t = Value /\ size = "8-bit" /\ integerText memory = true.
Proof.
  unfold valueOk. intros H. apply andb_true_iff in H as [H Hm].
  apply andb_true_iff in H as [Ht Hs]. apply String.eqb_eq in Hs.
  by destruct t.
Qed.

Lemma recallOk_spec t size memory :
  recallOk t size memory = true -> t = Recall /\ size = "" /\ memory = "".
Proof.
  unfold recallOk. intros H. apply andb_true_iff in H as [H Hm].
  apply andb_true_iff in H as [Ht Hs].
  apply String.eqb_eq in Hs. apply String.eqb_eq in Hm. by destruct t.
Qed.

(** What the parser makes of the text of a canonical operand. *)
Lemma operand_facts t size memory :
  addressOk t size memory || valueOk t size memory || recallOk t size memory = true ->
  everyChar plainChar (operandText t size memory) = true
  /\ operandHead (operandText t size memory)
  /\ parseOperandToken (operandText t size memory)
     = {| o_type := t; o_size := size; o_memory := memory |}
  /\ (recallOk t size memory = false ->
      forall rest, stops rest = true ->
        matchLeftOperand (operandText t size memory +:+ rest)
        = Some (operandText t size memory)).
Proof.
  intros H. apply orb_true_iff in H as [H|H]; [apply orb_true_iff in H as [H|H]|].
  - destruct (operandText_address _ _ _ H)
      as (sp & h & Hsize & -> & Hne & Hh & Htext & Hplain & Hhead).
    destruct (addressOk_spec _ _ _ H) as [Ht _].
    split; [exact Hplain|]. split; [exact Hhead|]. rewrite Htext. split.
    + by apply parseOperandToken_address.
    + intros _ rest Hrest.
      destruct (size_facts size sp Hsize) as (Hletters & Hlen & _).
      rewrite !string_app_assoc.
      by apply matchAddress_token; [apply typePrefixOf_modifier|..].
  - destruct (valueOk_spec _ _ _ H) as (-> & -> & Hm). cbn [operandText].
    split; [by apply integerText_plain|]. split.
    + destruct (integerText_head memory Hm) as (c & d & -> & _ & Hup & _ & Heq).
      by exists c, d.
    + split; [by apply parseOperandToken_value|].
      intros _ rest Hrest. by apply matchLeftOperand_value.
  - destruct (recallOk_spec _ _ _ H) as (-> & -> & ->). cbn [operandText].
    split; [reflexivity|]. split; [by exists "{"%char, "recall}"|].
    split; [reflexivity|]. discriminate.
Qed.

Lemma startsWith_same a p s :
  JS.startsWith (String a p) (String a s) = JS.startsWith p s.
Proof.
  unfold JS.startsWith. cbn [String.prefix].
  destruct (ascii_dec a a); [by destruct p, s | congruence].
Qed.

Lemma startsWith_nil s : JS.startsWith "" s = true.
Proof. by destruct s. Qed.

Lemma matchComparator_cmp op right :
  includes comparators op = true -> operandHead right ->
  matchComparator (op +:+ right) = Some op.
Proof.
  intros Hcmp (c & s & -> & _ & Hc).
  assert (Hne : "="%char <> c) by (intros <-; discriminate).
  unfold includes, comparators in Hcmp. cbn [existsb] in Hcmp.
  unfold matchComparator.
  repeat match type of Hcmp with
         | (String.eqb op ?x || _) = true =>
             destruct (String.eqb_spec op x) as [Heq|_];
               [subst op; clear Hcmp;
                rewrite ?string_app_cons, ?string_app_nil_l; cbn [List.find];
                repeat first
                  [ rewrite startsWith_same
                  | rewrite startsWith_nil
                  | rewrite not_startsWith by (exact Hne || discriminate) ];
                reflexivity
               | cbn [orb] in Hcmp]
         end.
  discriminate.
Qed.

Lemma matchOperator_cmp op right :
  includes operators op = true -> matchOperator (op +:+ right) = Some op.
Proof.
  intros Hcmp. unfold includes, operators in Hcmp. cbn [existsb] in Hcmp.
  repeat match type of Hcmp with
         | (String.eqb op ?x || _) = true =>
             destruct (String.eqb_spec op x) as [Heq|_];
               [subst op; reflexivity | cbn [orb] in Hcmp]
         end.
  discriminate.
Qed.

Definition noSpace (c : ascii) : bool := negb (JS.isSpace c).

Lemma trim_noSpace s : everyChar noSpace s = true -> JS.trim s = s.
Proof.
  intros H. unfold JS.trim.
  assert (Hstart : JS.trimStart s = s).
  { destruct s as [|c s]; [reflexivity|]. cbn [everyChar JS.trimStart] in *.
    apply andb_true_iff in H as [Hc _]. apply negb_true_iff in Hc. by rewrite Hc. }
  rewrite Hstart. clear Hstart. induction s as [|c s IH]; [reflexivity|].
  cbn [everyChar] in H. apply andb_true_iff in H as [Hc Hs].
  cbn [JS.trimEnd]. rewrite IH by exact Hs.
  destruct s; [|reflexivity]. apply negb_true_iff in Hc. by rewrite Hc.
Qed.

Lemma plain_noSpace s : everyChar plainChar s = true -> everyChar noSpace s = true.
Proof.
  apply everyChar_impl. intros c Hc. unfold plainChar in Hc.
  by apply andb_true_iff in Hc as [Hc _].
Qed.

Lemma matchHits_none body : everyChar plainChar body = true -> matchHits body = None.
Proof.
  induction body as [|c body IH]; [reflexivity|]. cbn [everyChar matchHits].
  intros [Hc Hb]%andb_true_iff. unfold plainChar in Hc.
  apply andb_true_iff in Hc as [_ Hc]. apply negb_true_iff in Hc.
  rewrite Hc. by apply IH.
Qed.

Lemma matchHits_hits body h :
  everyChar plainChar body = true ->
  JS.truthy h = true -> everyChar JS.isDigit h = true ->
  matchHits (body +:+ "." +:+ h +:+ ".") = Some (h, S (S (String.length h))).
Proof.
  intros Hb Hne Hh. induction body as [|c body IH].
  - rewrite string_app_nil_l.
    change ("." +:+ h +:+ ".") with (String "." (h +:+ ".")).
    cbn [matchHits]. change (Ascii.eqb "." ".") with true. cbv iota.
    rewrite (spanDigits_app h "." Hh eq_refl).
    destruct h as [|d ds]; [discriminate|].
    change (Ascii.eqb "." ".") with true. cbv iota.
    cbn [String.length]. rewrite string_app_length. cbn [String.length].
    do 2 f_equal. lia.
  - cbn [everyChar] in Hb. apply andb_true_iff in Hb as [Hc Hb].
    rewrite string_app_cons. cbn [matchHits]. unfold plainChar in Hc.
    apply andb_true_iff in Hc as [_ Hc]. apply negb_true_iff in Hc.
    rewrite Hc. by apply IH.
Qed.

Lemma dropLast_hits body h :
  JS.dropLast (S (S (String.length h))) (body +:+ "." +:+ h +:+ ".") = body.
Proof.
  unfold JS.dropLast. rewrite !string_app_length. cbn [String.length].
  replace (String.length body + (1 + (String.length h + 1)) - S (S (String.length h)))%nat
    with (String.length body) by lia.
  apply takeChars_app.
Qed.

Lemma flagOk_plain f : flagOk f = true -> everyChar plainChar f = true.
Proof.
  destruct f as [|c [|d [|? ?]]]; try discriminate; [reflexivity|].
  cbn [flagOk everyChar]. intros [Hc Hd]%andb_true_iff.
  apply Ascii.eqb_eq in Hd as ->.
  destruct c as [[] [] [] [] [] [] [] []]; try discriminate Hc; reflexivity.
Qed.

Lemma includes_plain l op :
  includes l op = true -> Forall (fun x => everyChar plainChar x = true) l ->
  everyChar plainChar op = true.
Proof.
  unfold includes. intros H Hall. apply existsb_exists in H as (x & Hx & Heq).
  apply String.eqb_eq in Heq. subst x.
  rewrite Forall_forall in Hall. apply Hall. by apply list_elem_of_In.
Qed.

Lemma comparators_plain : Forall (fun x => everyChar plainChar x = true) comparators.
Proof. by repeat constructor. Qed.

Lemma operators_plain : Forall (fun x => everyChar plainChar x = true) operators.
Proof. by repeat constructor. Qed.

(** A comparator or an operator ends the left operand. *)
Lemma stops_cmp op right :
  includes comparators op || includes operators op = true ->
  stops (op +:+ right) = true /\ JS.truthy (op +:+ right) = true
  /\ JS.truthy op = true.
Proof.
  unfold includes, comparators, operators. cbn [existsb]. intros H.
  repeat match type of H with
         | context [String.eqb op ?x] =>
             let Heq := fresh in
             destruct (String.eqb_spec op x) as [Heq|_];
               [subst op; by repeat split | cbn [orb] in H]
         end.
  discriminate.
Qed.

(** The text of a condition, piece by piece. *)
Lemma convert_text p :
  convertBitfieldConditionToText p
  = flag p
    +:+ (typePrefixOf (type p)
         +:+ match type p with
             | Value => memory p
             | _ => withSizePrefix (memory p) (size p)
             end)
    +:+ (if JS.truthy (cmp p)
         then cmp p +:+ operandText (compareType p) (compareSize p) (value p)
         else "")
    +:+ (if JS.truthy (hits p) && negb (String.eqb (hits p) "0")
         then "." +:+ hits p +:+ "."
         else "").
Proof.
  unfold convertBitfieldConditionToText. cbv zeta.
  replace (if JS.truthy (flag p) then "" +:+ flag p else "") with (flag p)
    by (by destruct (flag p)).
  unfold operandText.
  destruct (type p), (JS.truthy (cmp p)), (compareType p),
    (JS.truthy (hits p) && negb (String.eqb (hits p) "0"));
    rewrite ?string_app_assoc, ?string_app_nil_r; reflexivity.
Qed.

Lemma left_not_recall t size memory :
  addressOk t size memory || valueOk t size memory = true ->
  recallOk t size memory = false
  /\ typePrefixOf t +:+ match t with
                        | Value => memory
                        | _ => withSizePrefix memory size
                        end = operandText t size memory.
Proof.
  intros H. apply orb_true_iff in H as [H|H].
  - destruct (addressOk_spec _ _ _ H) as [Ht _]. by destruct t.
  - destruct (valueOk_spec _ _ _ H) as (-> & _). by split.
Qed.

Lemma matchFlag_flag f rest :
  flagOk f = true -> operandHead rest ->
  (if JS.truthy f then JS.matchFlag (f +:+ rest) = Some f
   else JS.matchFlag (f +:+ rest) = None)
  /\ String.length f = (if JS.truthy f then 2 else 0)%nat.
Proof.
  intros Hf (c & s & -> & Hup & _).
  destruct f as [|a [|d [|? ?]]]; try discriminate.
  - cbn [JS.truthy]. rewrite string_app_nil_l. split; [|reflexivity].
    unfold JS.matchFlag. destruct s; [reflexivity|]. by rewrite Hup.
  - cbn [flagOk] in Hf. apply andb_true_iff in Hf as [Ha Hd].
    apply Ascii.eqb_eq in Hd as ->. cbn [JS.truthy]. split; [|reflexivity].
    rewrite !string_app_cons, string_app_nil_l. unfold JS.matchFlag.
    rewrite Ha. reflexivity.
Qed.

(** [parseLineToCondition] once the hits are cut off the line. *)
Definition parseWorking (hits working : string) : option Predicate :=
  let '(flag, working) :=
    match JS.matchFlag working with
    | Some f => (f, JS.dropChars (String.length f) working)
    | None => (EmptyString, working)
    end in
  let isOperandFlag := includes OPERAND_FLAGS flag in
  match matchLeftOperand working with
  | None => None
  | Some leftToken =>
      let working := JS.dropChars (String.length leftToken) working in
      let '(cmp, rightToken) :=
        if JS.truthy (JS.trim working) then
          let remaining := JS.trim working in
          let cmpMatch :=
            if isOperandFlag then matchOperator remaining
            else matchComparator remaining in
          let '(cmp, remaining) :=
            match cmpMatch with
            | Some c => (c, JS.dropChars (String.length c) remaining)
            | None => if negb isOperandFlag then ("=", remaining)
                      else (EmptyString, remaining)
            end in
          if JS.truthy cmp then (cmp, JS.trim remaining)
          else (cmp, EmptyString)
        else (EmptyString, EmptyString) in
      let cmp :=
        if negb isOperandFlag && String.eqb cmp "" then "=" else cmp in
      let left := parseOperandToken leftToken in
      let right :=
        if JS.truthy rightToken then Some (parseOperandToken rightToken)
        else None in
      Some {| flag := flag;
              type := o_type left;
              size := o_size left;
              memory := o_memory left;
              cmp := cmp;
              compareType := match right with Some r => o_type r | None => Value end;
              compareSize := match right with Some r => o_size r | None => "8-bit" end;
              value := match right with Some r => o_memory r | None => "0" end;
              hits := if isOperandFlag then EmptyString else hits |}
  end.

Lemma parseLineToCondition_working line :
  parseLineToCondition line
  = if negb (JS.truthy (JS.trim line)) then None
    else match matchHits (JS.trim line) with
         | Some (h, n) => parseWorking h (JS.dropLast n (JS.trim line))
         | None => parseWorking "" (JS.trim line)
         end.
Proof.
  unfold parseLineToCondition, parseWorking.
  destruct (negb (JS.truthy (JS.trim line))); [reflexivity|].
  by destruct (matchHits (JS.trim line)) as [[h n]|].
Qed.

Lemma operandHead_app text rest : operandHead text -> operandHead (text +:+ rest).
Proof.
  intros (c & s & -> & Hup & Heq). exists c, (s +:+ rest).
  by rewrite string_app_cons.
Qed.

Lemma operandHead_truthy text : operandHead text -> JS.truthy text = true.
Proof. by intros (c & s & -> & _). Qed.

(** The comparator part of a canonical condition: nothing and the default
    right operand, or a comparator (an operator under an operand flag) and
    a canonical right operand. *)
Definition comparisonOk (f op : string) (ct : OperandType) (cs v : string) : bool :=
  let rightOk := addressOk ct cs v || valueOk ct cs v || recallOk ct cs v in
  if includes OPERAND_FLAGS f
  then (String.eqb op "" && valueOk ct cs v && String.eqb v "0")
       || (includes operators op && rightOk)
  else includes comparators op && rightOk.

Lemma parseWorking_text hs f t sz m op ct cs v :
  flagOk f = true ->
  addressOk t sz m || valueOk t sz m = true ->
  comparisonOk f op ct cs v = true ->
  parseWorking hs
    (f +:+ operandText t sz m
       +:+ (if JS.truthy op then op +:+ operandText ct cs v else ""))
  = Some {| flag := f; type := t; size := sz; memory := m; cmp := op;
            compareType := ct; compareSize := cs; value := v;
            hits := if includes OPERAND_FLAGS f then "" else hs |}.
Proof.
  intros Hf Hleft Hcmp.
  destruct (left_not_recall t sz m Hleft) as [Hnr _].
  destruct (operand_facts t sz m ltac:(by rewrite Hleft))
    as (HLplain & HLhead & HLparse & HLmatch).
  specialize (HLmatch Hnr).
  set (L := operandText t sz m) in *.
  set (CP := if JS.truthy op then op +:+ operandText ct cs v else "").
  destruct (matchFlag_flag f (L +:+ CP) Hf (operandHead_app L CP HLhead))
    as [Hflag Hflen].
  unfold parseWorking.
  assert (Hsplit : match JS.matchFlag (f +:+ L +:+ CP) with
                   | Some f0 => (f0, JS.dropChars (String.length f0) (f +:+ L +:+ CP))
                   | None => ("", f +:+ L +:+ CP)
                   end = (f, L +:+ CP)).
  { destruct (JS.truthy f) eqn:Hft.
    - rewrite Hflag. by rewrite dropChars_app.
    - rewrite Hflag. by destruct f. }
  rewrite Hsplit. cbv zeta. clear Hsplit Hflag Hflen.
  assert (Hright : forall op', op' = op ->
            includes comparators op || includes operators op = true ->
            addressOk ct cs v || valueOk ct cs v || recallOk ct cs v = true ->
            (if includes OPERAND_FLAGS f then matchOperator CP else matchComparator CP)
            = Some op' ->
            includes OPERAND_FLAGS f = true \/ op <> "" ->
            match matchLeftOperand (L +:+ CP) with
            | Some leftToken =>
                let working := JS.dropChars (String.length leftToken) (L +:+ CP) in
                let '(cmp0, rightToken) :=
                  if JS.truthy (JS.trim working) then
                    let remaining := JS.trim working in
                    let cmpMatch :=
                      if includes OPERAND_FLAGS f then matchOperator remaining
                      else matchComparator remaining in
                    let '(cmp0, remaining) :=
                      match cmpMatch with
                      | Some c => (c, JS.dropChars (String.length c) remaining)
                      | None => if negb (includes OPERAND_FLAGS f)
                                then ("=", remaining) else ("", remaining)
                      end in
                    if JS.truthy cmp0 then (cmp0, JS.trim remaining) else (cmp0, "")
                  else ("", "") in
                Some {| flag := f;
                        type := o_type (parseOperandToken leftToken);
                        size := o_size (parseOperandToken leftToken);
                        memory := o_memory (parseOperandToken leftToken);
                        cmp := if negb (includes OPERAND_FLAGS f) && String.eqb cmp0 ""
                               then "=" else cmp0;
                        compareType :=
                          match (if JS.truthy rightToken
                                 then Some (parseOperandToken rightToken) else None) with
                          | Some r => o_type r | None => Value end;
                        compareSize :=
                          match (if JS.truthy rightToken
                                 then Some (parseOperandToken rightToken) else None) with
                          | Some r => o_size r | None => "8-bit" end;
                        value :=
                          match (if JS.truthy rightToken
                                 then Some (parseOperandToken rightToken) else None) with
                          | Some r => o_memory r | None => "0" end;
                        hits := if includes OPERAND_FLAGS f then "" else hs |}
            | None => None
            end
            = Some {| flag := f; type := t; size := sz; memory := m; cmp := op;
                      compareType := ct; compareSize := cs; value := v;
                      hits := if includes OPERAND_FLAGS f then "" else hs |}).
  { intros op' -> Hop Hrok Hmatch Hkeep.
    destruct (operand_facts ct cs v Hrok) as (HRplain & HRhead & HRparse & _).
    destruct (stops_cmp op (operandText ct cs v) Hop) as (Hstops & Htruthy & Hoptruthy).
    assert (Hopplain : everyChar plainChar op = true).
    { apply orb_true_iff in Hop as [Hop|Hop];
        [eapply includes_plain; [exact Hop | apply comparators_plain]
        |eapply includes_plain; [exact Hop | apply operators_plain]]. }
    assert (HCP : CP = op +:+ operandText ct cs v) by (subst CP; by rewrite Hoptruthy).
    rewrite HCP in *. rewrite (HLmatch _ Hstops). cbv zeta.
    rewrite dropChars_app.
    rewrite (trim_plain (op +:+ operandText ct cs v))
      by (by rewrite everyChar_app, Hopplain, HRplain).
    rewrite Htruthy, Hmatch, dropChars_app, Hoptruthy.
    rewrite (trim_plain _ HRplain), (operandHead_truthy _ HRhead), HLparse, HRparse.
    cbn [o_type o_size o_memory]. do 2 f_equal.
    destruct Hkeep as [->|Hne]; [reflexivity|].
    destruct (includes OPERAND_FLAGS f); [reflexivity|]. cbn [negb andb].
    by destruct (String.eqb_spec op "") as [?|_]. }
  unfold comparisonOk in Hcmp.
  destruct (includes OPERAND_FLAGS f) eqn:Hopflag.
  - apply orb_true_iff in Hcmp as [Hcmp|Hcmp].
    + apply andb_true_iff in Hcmp as [Hcmp Hv0]. apply andb_true_iff in Hcmp as [Hop0 Hval].
      apply String.eqb_eq in Hop0, Hv0. subst op v.
      destruct (valueOk_spec _ _ _ Hval) as (-> & -> & _).
      subst CP. cbn [JS.truthy]. rewrite (HLmatch "" eq_refl). cbv zeta.
      rewrite dropChars_app. change (JS.trim "") with "". cbn [JS.truthy].
      rewrite HLparse. reflexivity.
    + apply andb_true_iff in Hcmp as [Hop Hrok].
      apply (Hright op eq_refl); [by rewrite Hop, orb_true_r | exact Hrok | | by left].
      destruct (stops_cmp op (operandText ct cs v) ltac:(by rewrite Hop, orb_true_r))
        as (_ & _ & Hoptruthy).
      subst CP. rewrite Hoptruthy. by apply matchOperator_cmp.
  - apply andb_true_iff in Hcmp as [Hop Hrok].
    destruct (stops_cmp op (operandText ct cs v) ltac:(by rewrite Hop))
      as (_ & _ & Hoptruthy).
    apply (Hright op eq_refl); [by rewrite Hop | exact Hrok | |].
    + subst CP. rewrite Hoptruthy. apply matchComparator_cmp; [exact Hop|].
      by destruct (operand_facts ct cs v Hrok) as (_ & ? & _).
    + right. intros ->. discriminate.
Qed.

Lemma comparison_plain f op ct cs v :
  comparisonOk f op ct cs v = true ->
  everyChar plainChar
    (if JS.truthy op then op +:+ operandText ct cs v else "") = true.
Proof.
  unfold comparisonOk. intros H.
  assert (Hcase : (op = "")
                  \/ (includes comparators op || includes operators op = true
                      /\ addressOk ct cs v || valueOk ct cs v || recallOk ct cs v = true)).
  { destruct (includes OPERAND_FLAGS f).
    - apply orb_true_iff in H as [H|H].
      + left. apply andb_true_iff in H as [[H _]%andb_true_iff _].
        by apply String.eqb_eq in H.
      + right. apply andb_true_iff in H as [-> H]. by rewrite orb_true_r.
    - right. apply andb_true_iff in H as [-> H]. by split. }
  destruct Hcase as [->|[Hop Hrok]]; [reflexivity|].
  destruct (stops_cmp op (operandText ct cs v) Hop) as (_ & _ & ->).
  destruct (operand_facts ct cs v Hrok) as (HRplain & _).
  rewrite everyChar_app, HRplain, andb_true_r.
  apply orb_true_iff in Hop as [Hop|Hop];
    [eapply includes_plain; [exact Hop | apply comparators_plain]
    |eapply includes_plain; [exact Hop | apply operators_plain]].
Qed.

(** X14.  Serializing a canonical condition and parsing the text gives the
    condition back, field by field; so serializing, parsing and serializing
    again gives the first text. *)
Theorem codec_roundtrip_on_canonical_conditions (p : Predicate)
    (Hcanonical : canonical p = true) :
  parseLineToCondition (convertBitfieldConditionToText p) = Some p
  /\ option_map convertBitfieldConditionToText
       (parseLineToCondition (convertBitfieldConditionToText p))
     = Some (convertBitfieldConditionToText p).
Proof.
  assert (Hparse : parseLineToCondition (convertBitfieldConditionToText p) = Some p);
    [|split; [exact Hparse | by rewrite Hparse]].
  destruct p as [f t sz m op ct cs v hs]. unfold canonical in Hcanonical.
  cbn [flag type size memory cmp compareType compareSize value hits] in Hcanonical.
  apply andb_true_iff in Hcanonical as [Hcanonical Hrest].
  apply andb_true_iff in Hcanonical as [Hf Hleft].
  assert (Hcmp : comparisonOk f op ct cs v = true).
  { unfold comparisonOk. destruct (includes OPERAND_FLAGS f).
    - by apply andb_true_iff in Hrest as [_ ?].
    - by apply andb_true_iff in Hrest as [? _]. }
  assert (Hhits : hs = "" \/ (includes OPERAND_FLAGS f = false
                              /\ JS.truthy hs = true /\ everyChar JS.isDigit hs = true
                              /\ String.eqb hs "0" = false)).
  { destruct (includes OPERAND_FLAGS f).
    - left. apply andb_true_iff in Hrest as [H _]. by apply String.eqb_eq in H.
    - apply andb_true_iff in Hrest as [_ H]. unfold hitsOk in H.
      apply orb_true_iff in H as [H|H]; [left; by apply String.eqb_eq in H|].
      right. apply andb_true_iff in H as [[? ?]%andb_true_iff ?%negb_true_iff].
      by repeat split. }
  rewrite convert_text.
  cbn [flag type size memory cmp compareType compareSize value hits].
  destruct (left_not_recall t sz m Hleft) as [_ ->].
  destruct (operand_facts t sz m ltac:(by rewrite Hleft)) as (HLplain & HLhead & _).
  pose proof (comparison_plain f op ct cs v Hcmp) as HCplain.
  pose proof (parseWorking_text hs f t sz m op ct cs v Hf Hleft Hcmp) as Hwork.
  set (CP := if JS.truthy op then op +:+ operandText ct cs v else "") in *.
  set (body := f +:+ operandText t sz m +:+ CP) in *.
  assert (Hbody : everyChar plainChar body = true).
  { subst body. by rewrite !everyChar_app, (flagOk_plain f Hf), HLplain, HCplain. }
  assert (Htruthy : forall rest, JS.truthy (body +:+ rest) = true).
  { intros rest. subst body. rewrite !string_app_assoc.
    destruct f; [|reflexivity]. rewrite string_app_nil_l.
    apply operandHead_truthy, operandHead_app, HLhead. }
  rewrite parseLineToCondition_working.
  destruct Hhits as [->|(Hop & Hne & Hdigits & Hzero)].
  - cbn [JS.truthy andb]. 
    replace (f +:+ operandText t sz m +:+ CP +:+ "") with body
      by (subst body; by rewrite !string_app_nil_r).
    rewrite (trim_plain body Hbody).
    pose proof (Htruthy "") as Ht. rewrite string_app_nil_r in Ht. rewrite Ht.
    cbn [negb]. rewrite (matchHits_none body Hbody), Hwork.
    by destruct (includes OPERAND_FLAGS f).
  - rewrite Hne, Hzero. cbn [negb andb].
    replace (f +:+ operandText t sz m +:+ CP +:+ "." +:+ hs +:+ ".")
      with (body +:+ "." +:+ hs +:+ ".")
      by (subst body; by rewrite !string_app_assoc).
    rewrite trim_noSpace.
    2:{ rewrite !everyChar_app, (plain_noSpace body Hbody),
          (plain_noSpace hs (digits_plain hs Hdigits)). reflexivity. }
    rewrite Htruthy. cbn [negb].
    rewrite (matchHits_hits body hs Hbody Hne Hdigits), dropLast_hits, Hwork.
    by rewrite Hop.
Qed.

End CodecRoundTrip.

Definition resetIfLine : Predicate :=
  {| flag := "R:"; type := Delta; size := "8-bit"; memory := "0x1F2E"; cmp := ">=";
     compareType := Mem; compareSize := "32-bit"; value := "0x00AB"; hits := "12" |}.

Lemma codec_roundtrip_on_canonical_conditions_witness :
  parseLineToCondition "R:d0xH1F2E>=0xX00AB.12." = Some resetIfLine.
Proof.
  exact (proj1 (codec_roundtrip_on_canonical_conditions resetIfLine eq_refl)).
Defined.

(** ** What the parser returns, and loading it into the conditions *)

Section ParsedLines.

(** The string starts with a character that is not white space. *)
Definition headed (s : string) : Prop :=
  exists c r, s = String c r /\ JS.isSpace c = false.

Lemma trimEnd_headed c r :
  JS.isSpace c = false -> exists r', JS.trimEnd (String c r) = String c r'.
Proof.
  intros Hc. cbn [JS.trimEnd]. rewrite Hc.
  destruct (JS.trimEnd r); eexists; reflexivity.
Qed.

Lemma trim_headed s : headed s -> headed (JS.trim s).
Proof.
  intros (c & r & -> & Hc). unfold JS.trim. cbn [JS.trimStart]. rewrite Hc.
  destruct (trimEnd_headed c r Hc) as [r' ->]. by exists c, r'.
Qed.

Lemma trimStart_shape s : JS.trimStart s = "" \/ headed (JS.trimStart s).
Proof.
  induction s as [|c s IH]; [by left|]. cbn [JS.trimStart].
  destruct (JS.isSpace c) eqn:Hc; [exact IH|]. right. by exists c, s.
Qed.

Lemma trimEnd_idem s : JS.trimEnd (JS.trimEnd s) = JS.trimEnd s.
Proof.
  induction s as [|c s IH]; [reflexivity|]. cbn [JS.trimEnd].
  destruct (JS.trimEnd s) as [|d t] eqn:Ht.
  - destruct (JS.isSpace c) eqn:Hc; [reflexivity|]. cbn [JS.trimEnd]. by rewrite Hc.
  - change (JS.trimEnd (String c (String d t)))
      with (match JS.trimEnd (String d t) with
            | "" => if JS.isSpace c then "" else String c ""
            | t' => String c t'
            end).
    by rewrite IH.
Qed.

Lemma trim_idem s : JS.trim (JS.trim s) = JS.trim s.
Proof.
  unfold JS.trim. destruct (trimStart_shape s) as [->|(c & r & -> & Hc)];
    [reflexivity|].
  destruct (trimEnd_headed c r Hc) as [r' Hr]. rewrite Hr.
  cbn [JS.trimStart]. rewrite Hc, <- Hr. apply trimEnd_idem.
Qed.

Lemma trim_truthy_headed s : JS.truthy (JS.trim s) = true -> headed (JS.trim s).
Proof.
  unfold JS.trim. destruct (trimStart_shape s) as [->|(c & r & -> & Hc)];
    [discriminate|].
  intros _. destruct (trimEnd_headed c r Hc) as [r' ->]. by exists c, r'.
Qed.

Lemma headed_truthy s : headed s -> JS.truthy s = true.
Proof. by intros (c & r & -> & _). Qed.

Lemma spanDigits_digits s : everyChar JS.isDigit (fst (spanDigits s)) = true.
Proof.
  induction s as [|c s IH]; [reflexivity|]. cbn [spanDigits].
  destruct (JS.isDigit c) eqn:Hc; [|reflexivity].
  destruct (spanDigits s) as [d r]. cbn [fst everyChar] in *. by rewrite Hc.
Qed.

Lemma matchHits_digits s h n :
  matchHits s = Some (h, n) -> everyChar JS.isDigit h = true /\ JS.truthy h = true.
Proof.
  induction s as [|c s IH]; [discriminate|]. cbn [matchHits].
  pose proof (spanDigits_digits s) as Hd.
  destruct (Ascii.eqb c "."); [|exact IH].
  destruct (spanDigits s) as [[|d ds] [|e [|e' r]]]; try exact IH.
  destruct (Ascii.eqb e "."); [|exact IH].
  intros [= <- <-]. by split.
Qed.

Lemma matchFlag_shape s f : JS.matchFlag s = Some f -> flagOk f = true.
Proof.
  unfold JS.matchFlag. destruct s as [|c [|d s]]; try discriminate.
  destruct (JS.isUpper c && Ascii.eqb d ":") eqn:H; [|discriminate].
  intros [= <-]. cbn [flagOk]. apply andb_true_iff in H as [-> _]. reflexivity.
Qed.

Lemma modifier_noSpace c :
  existsb (Ascii.eqb c) ["d"; "p"; "b"; "~"]%char = true -> JS.isSpace c = false.
Proof.
  destruct c as [[] [] [] [] [] [] [] []]; vm_compute; intros; try discriminate;
    reflexivity.
Qed.

Lemma matchAddressBody_headed s t : matchAddressBody s = Some t -> headed t.
Proof.
  unfold matchAddressBody. destruct (JS.startsWith "0x" s); [|discriminate].
  assert (H : forall r, headed ("0x" +:+ r)) by (intros r; by exists "0"%char, (String "x" r)).
  destruct (lettersThenHex 2 _); [by intros [= <-]|].
  destruct (lettersThenHex 1 _); [by intros [= <-]|].
  destruct (lettersThenHex 0 _); [by intros [= <-]|discriminate].
Qed.

Lemma matchAddress_headed s t : matchAddress s = Some t -> headed t.
Proof.
  unfold matchAddress. destruct s as [|c s]; [discriminate|].
  destruct (existsb _ _) eqn:Hc; [|apply matchAddressBody_headed].
  destruct (matchAddressBody s) as [b|]; [|apply matchAddressBody_headed].
  intros [= <-]. exists c, b. split; [reflexivity|]. by apply modifier_noSpace.
Qed.

Lemma matchInteger_headed s t : matchInteger s = Some t -> headed t.
Proof.
  assert (Hdigits : forall r d,
            match spanDigits r with
            | (EmptyString, _) => None
            | (d, _) => Some d
            end = Some d -> headed d).
  { intros r d. pose proof (spanDigits_digits r) as Hd.
    destruct (spanDigits r) as [[|e es] rest]; [discriminate|].
    intros [= <-]. cbn [fst everyChar] in Hd. apply andb_true_iff in Hd as [He _].
    exists e, es. split; [reflexivity|].
    destruct (digit_facts e He) as (_ & _ & _ & Hp & _). unfold plainChar in Hp.
    apply andb_true_iff in Hp as [Hp _]. by apply negb_true_iff in Hp. }
  unfold matchInteger. destruct s as [|c s]; [discriminate|].
  destruct (Ascii.eqb c "-") eqn:Hc; [|apply Hdigits].
  apply Ascii.eqb_eq in Hc as ->.
  destruct (match spanDigits s with (EmptyString, _) => None | (d, _) => Some d end)
    as [d|]; [|discriminate].
  intros [= <-]. by exists "-"%char, d.
Qed.

Lemma matchLeftOperand_headed s t : matchLeftOperand s = Some t -> headed t.
Proof.
  unfold matchLeftOperand. destruct (JS.startsWith "{recall}" s).
  - intros [= <-]. by exists "{"%char, "recall}".
  - destruct (matchAddress s) as [a|] eqn:Ha.
    + intros [= <-]. by apply matchAddress_headed in Ha.
    + apply matchInteger_headed.
Qed.

(** What an operand is after parsing: a recall with nothing else, a value
    with its text, or an address that starts with [0x]; never a Float. *)
Definition operandShape (t : OperandType) (size memory : string) : Prop :=
  match t with
  | Recall => size = "" /\ memory = ""
  | Value => size = "8-bit" /\ headed memory
  | Float => False
  | _ => JS.startsWith "0x" memory = true
  end.

Lemma operandShape_memory t size memory :
  operandShape t size memory -> (t = Recall <-> memory = "").
Proof.
  intros H. split.
  - intros ->. exact (proj2 H).
  - intros ->. destruct t; cbn [operandShape] in H; try reflexivity;
      try contradiction; try (by vm_compute in H).
    destruct H as [_ (c & r & Hm & _)]. discriminate Hm.
Qed.

Lemma parseMemoryToken_0x token :
  JS.startsWith "0x" (snd (parseMemoryToken token)) = true.
Proof. unfold parseMemoryToken. cbn [snd]. apply prefix_app. Qed.

Lemma parseOperandToken_shape token :
  headed (JS.trim token) ->
  operandShape (o_type (parseOperandToken token)) (o_size (parseOperandToken token))
    (o_memory (parseOperandToken token)).
Proof.
  intros Hh. unfold parseOperandToken.
  destruct (JS.startsWith "{recall}" (JS.trim token)); [by split|].
  assert (Hcase : forall (t : OperandType) rest,
            t <> Recall -> t <> Value -> t <> Float ->
            operandShape
              (o_type (if JS.startsWith "{recall}" rest
                       then {| o_type := Recall; o_size := ""; o_memory := "" |}
                       else if JS.startsWith "0x" rest
                       then let '(size, memory) := parseMemoryToken rest in
                            {| o_type := t; o_size := size; o_memory := memory |}
                       else {| o_type := Value; o_size := "8-bit";
                               o_memory := JS.trim token |}))
              (o_size (if JS.startsWith "{recall}" rest
                       then {| o_type := Recall; o_size := ""; o_memory := "" |}
                       else if JS.startsWith "0x" rest
                       then let '(size, memory) := parseMemoryToken rest in
                            {| o_type := t; o_size := size; o_memory := memory |}
                       else {| o_type := Value; o_size := "8-bit";
                               o_memory := JS.trim token |}))
              (o_memory (if JS.startsWith "{recall}" rest
                       then {| o_type := Recall; o_size := ""; o_memory := "" |}
                       else if JS.startsWith "0x" rest
                       then let '(size, memory) := parseMemoryToken rest in
                            {| o_type := t; o_size := size; o_memory := memory |}
                       else {| o_type := Value; o_size := "8-bit";
                               o_memory := JS.trim token |}))).
  { intros t rest Hr Hv Hf. destruct (JS.startsWith "{recall}" rest); [by split|].
    destruct (JS.startsWith "0x" rest).
    - pose proof (parseMemoryToken_0x rest) as H0.
      destruct (parseMemoryToken rest) as [size memory]. cbn [snd] in H0.
      cbn [o_type o_size o_memory]. by destruct t.
    - by split. }
  destruct (JS.trim token) as [|c rest'] eqn:Htrim; [by apply Hcase|].
  destruct (Ascii.eqb c "d"); [by apply Hcase|].
  destruct (Ascii.eqb c "p"); [by apply Hcase|].
  destruct (Ascii.eqb c "b"); [by apply Hcase|].
  destruct (Ascii.eqb c "~"); by apply Hcase.
Qed.

(** The comparator and the right token [parseLineToCondition] reads off the
    rest of the line once the left operand is cut. *)
Definition comparisonOf (isOperandFlag : bool) (working : string) : string * string :=
  if JS.truthy (JS.trim working) then
    let remaining := JS.trim working in
    let cmpMatch :=
      if isOperandFlag then matchOperator remaining
      else matchComparator remaining in
    let '(cmp, remaining) :=
      match cmpMatch with
      | Some c => (c, JS.dropChars (String.length c) remaining)
      | None => if negb isOperandFlag then ("=", remaining)
                else (EmptyString, remaining)
      end in
    if JS.truthy cmp then (cmp, JS.trim remaining)
    else (cmp, EmptyString)
  else (EmptyString, EmptyString).

Lemma matchOperator_shape s op : matchOperator s = Some op -> includes operators op = true.
Proof.
  unfold matchOperator. destruct s as [|c s]; [discriminate|].
  destruct (existsb _ _) eqn:H; [|discriminate]. intros [= <-].
  revert H. destruct c as [[] [] [] [] [] [] [] []]; vm_compute; intros;
    try discriminate; reflexivity.
Qed.

Lemma matchComparator_shape s op :
  matchComparator s = Some op -> includes comparators op = true.
Proof.
  unfold matchComparator. intros H. apply find_some in H as [Hin _].
  cbn [In] in Hin.
  destruct Hin as [<-|[<-|[<-|[<-|[<-|[<-|[]]]]]]]; reflexivity.
Qed.

Lemma comparisonOf_shape isOperandFlag working :
  let cmp := fst (comparisonOf isOperandFlag working) in
  let rightToken := snd (comparisonOf isOperandFlag working) in
  (cmp = "" -> rightToken = "")
  /\ (JS.truthy rightToken = true -> headed rightToken /\ JS.trim rightToken = rightToken)
  /\ (if isOperandFlag then cmp = "" \/ includes operators cmp = true
      else cmp = "" \/ includes comparators cmp = true).
Proof.
  cbv zeta. unfold comparisonOf.
  destruct (JS.truthy (JS.trim working)); [|by destruct isOperandFlag; repeat split; auto].
  assert (Hright : forall s, JS.truthy (JS.trim s) = true ->
            headed (JS.trim s) /\ JS.trim (JS.trim s) = JS.trim s).
  { intros s Hs. split; [by apply trim_truthy_headed | apply trim_idem]. }
  destruct isOperandFlag; cbn [negb].
  - destruct (matchOperator (JS.trim working)) as [op|] eqn:Hop.
    + pose proof (matchOperator_shape _ _ Hop) as Hin.
      destruct op as [|c op]; [discriminate|]. cbn [JS.truthy fst snd].
      split; [discriminate|split; [apply Hright|by right]].
    + cbn [JS.truthy fst snd]. split; [done|split; [discriminate|by left]].
  - destruct (matchComparator (JS.trim working)) as [op|] eqn:Hop.
    + pose proof (matchComparator_shape _ _ Hop) as Hin.
      destruct op as [|c op]; [discriminate|]. cbn [JS.truthy fst snd].
      split; [discriminate|split; [apply Hright|by right]].
    + cbn [JS.truthy fst snd].
      split; [discriminate|split; [apply Hright|by right]].
Qed.

Lemma parseWorking_eq hs working :
  parseWorking hs working
  = let f := match JS.matchFlag working with Some f => f | None => "" end in
    let rest :=
      match JS.matchFlag working with
      | Some f => JS.dropChars (String.length f) working
      | None => working
      end in
    match matchLeftOperand rest with
    | None => None
    | Some leftToken =>
        let cr := comparisonOf (includes OPERAND_FLAGS f)
                    (JS.dropChars (String.length leftToken) rest) in
        let left := parseOperandToken leftToken in
        let right :=
          if JS.truthy (snd cr) then Some (parseOperandToken (snd cr)) else None in
        Some {| flag := f;
                type := o_type left;
                size := o_size left;
                memory := o_memory left;
                cmp := if negb (includes OPERAND_FLAGS f) && String.eqb (fst cr) ""
                       then "=" else fst cr;
                compareType := match right with Some r => o_type r | None => Value end;
                compareSize := match right with Some r => o_size r | None => "8-bit" end;
                value := match right with Some r => o_memory r | None => "0" end;
                hits := if includes OPERAND_FLAGS f then EmptyString else hs |}
    end.
Proof.
  unfold parseWorking, comparisonOf. cbv zeta.
  destruct (JS.matchFlag working) as [f|];
    (destruct (matchLeftOperand _) as [leftToken|]; [|reflexivity]);
    (destruct (JS.truthy (JS.trim _)); [|reflexivity]);
    (destruct (includes OPERAND_FLAGS _); cbn [negb]);
    try (destruct (matchOperator _) as [[|c op]|]);
    try (destruct (matchComparator _) as [[|c op]|]); reflexivity.
Qed.

(** What [parseLineToCondition] returns once the hits are cut off, field by
    field. *)
Definition parsedShape (hs : string) (p : Predicate) : Prop :=
  flagOk (flag p) = true
  /\ operandShape (type p) (size p) (memory p)
  /\ operandShape (compareType p) (compareSize p) (value p)
  /\ (if includes OPERAND_FLAGS (flag p)
      then hits p = "" /\ (cmp p = "" \/ includes operators (cmp p) = true)
      else hits p = hs /\ includes comparators (cmp p) = true)
  /\ (cmp p = "" ->
      compareType p = Value /\ compareSize p = "8-bit" /\ value p = "0").

Lemma parseWorking_shape hs working p :
  parseWorking hs working = Some p -> parsedShape hs p.
Proof.
  rewrite parseWorking_eq. cbv zeta.
  assert (Hflag : flagOk match JS.matchFlag working with
                         | Some f => f | None => "" end = true).
  { destruct (JS.matchFlag working) as [f|] eqn:Hf; [|reflexivity].
    by apply matchFlag_shape in Hf. }
  revert Hflag.
  generalize (match JS.matchFlag working with Some f => f | None => "" end).
  generalize (match JS.matchFlag working with
              | Some f => JS.dropChars (String.length f) working
              | None => working
              end).
  intros rest f Hflag.
  destruct (matchLeftOperand rest) as [leftToken|] eqn:Hleft; [|discriminate].
  pose proof (comparisonOf_shape (includes OPERAND_FLAGS f)
                (JS.dropChars (String.length leftToken) rest)) as Hcr.
  cbv zeta in Hcr. destruct Hcr as (Hnone & Hright & Hcmp).
  destruct (comparisonOf _ _) as [c r].
  cbv beta iota delta [fst snd] in Hnone, Hright, Hcmp |- *.
  intros Hp. apply Some_inj in Hp. subst p. unfold parsedShape.
  cbv beta iota delta [flag type size memory cmp compareType compareSize value hits].
  split; [exact Hflag|]. split.
  { apply parseOperandToken_shape, trim_headed.
    by apply matchLeftOperand_headed in Hleft. }
  split.
  { destruct (JS.truthy r) eqn:Hr.
    - destruct (Hright eq_refl) as [Hh Htrim].
      apply parseOperandToken_shape. by rewrite Htrim.
    - split; [reflexivity|]. by exists "0"%char, "". }
  destruct (includes OPERAND_FLAGS f); cbn [negb andb].
  - split; [by split|]. intros ->. rewrite (Hnone eq_refl). by cbn.
  - destruct (String.eqb_spec c "") as [Heq|Hne].
    + split; [by split|]. discriminate.
    + split; [|by intros ->]. split; [reflexivity|]. by destruct Hcmp.
Qed.

Lemma parseLineToCondition_shape line p :
  parseLineToCondition line = Some p ->
  exists hs, parsedShape hs p /\ everyChar JS.isDigit hs = true.
Proof.
  rewrite parseLineToCondition_working.
  destruct (negb (JS.truthy (JS.trim line))); [discriminate|].
  destruct (matchHits (JS.trim line)) as [[h n]|] eqn:Hh.
  - intros Hp. exists h. split; [by apply parseWorking_shape in Hp|].
    by apply matchHits_digits in Hh as [Hd _].
  - intros Hp. exists "". split; [by apply parseWorking_shape in Hp|reflexivity].
Qed.

Lemma operandShape_headed t size memory :
  operandShape t size memory -> t <> Recall -> headed memory.
Proof.
  intros H Ht. destruct t; cbn [operandShape] in H; try contradiction;
    try (by destruct H);
    apply prefix_spec in H as [r ->]; by exists "0"%char, (String "x" r).
Qed.

(** X15.  Every condition the parser returns is well formed.  The flag is
    empty or a capital letter and a colon.  An operand is a recall with
    empty size and text, a value of size 8-bit whose text starts with a
    character that is not white space, or an address whose text starts with
    0x; it is never a Float, and its text is empty exactly for a recall.
    Under an operand flag (A:, B:, I:, K:) the hits are dropped and the
    operator is empty or one of * / % + - & ^; under any other flag the
    comparator is one of the six and the hits are digits.  With an empty
    operator the right side is the value 0 of size 8-bit. *)
Theorem parseLineToCondition_returns_well_formed_conditions
    (line : string) (p : Predicate)
    (Hparse : parseLineToCondition line = Some p) :
  flagOk (flag p) = true
  /\ operandShape (type p) (size p) (memory p)
  /\ operandShape (compareType p) (compareSize p) (value p)
  /\ (type p = Recall <-> memory p = "")
  /\ (compareType p = Recall <-> value p = "")
  /\ (if includes OPERAND_FLAGS (flag p)
      then hits p = "" /\ (cmp p = "" \/ includes operators (cmp p) = true)
      else everyChar JS.isDigit (hits p) = true
           /\ includes comparators (cmp p) = true)
  /\ (cmp p = "" ->
      compareType p = Value /\ compareSize p = "8-bit" /\ value p = "0").
Proof.
  destruct (parseLineToCondition_shape line p Hparse)
    as (hs & (Hflag & Hleft & Hright & Hcmp & Hnone) & Hdigits).
  split; [exact Hflag|]. split; [exact Hleft|]. split; [exact Hright|].
  split; [by apply operandShape_memory in Hleft|].
  split; [by apply operandShape_memory in Hright|].
  split; [|exact Hnone].
  destruct (includes OPERAND_FLAGS (flag p)); [exact Hcmp|].
  destruct Hcmp as [-> Hin]. by split.
Qed.

(** X16.  Loading a parsed line into the conditions does not change the
    text generated for it, unless its left operand is a recall: the
    defaults filled in ([0x0], [0], [0]) only replace what the serializer
    does not write.  A left recall is loaded as the address [0x0], which
    the generated text then shows after the flag. *)
Theorem loading_a_parsed_line_keeps_its_text
    (line : string) (p : Predicate) (index : nat)
    (Hparse : parseLineToCondition line = Some p) :
  (type p <> Recall ->
   convertBitfieldConditionToText (pred (conditionOfParsed index p))
   = convertBitfieldConditionToText p)
  /\ (type p = Recall ->
      exists tail,
        convertBitfieldConditionToText p = flag p +:+ tail
        /\ convertBitfieldConditionToText (pred (conditionOfParsed index p))
           = flag p +:+ "0x0" +:+ tail).
Proof.
  destruct (parseLineToCondition_shape line p Hparse)
    as (hs0 & (Hflag & Hleft & Hright & Hcmp & Hnone) & Hdigits).
  pose proof (operandShape_memory _ _ _ Hright) as Hvalue.
  rewrite !convert_text.
  destruct p as [f t sz m op ct cs v hs]. unfold conditionOfParsed.
  cbv beta iota delta [pred flag type size memory cmp compareType compareSize
    value hits] in *.
  assert (Hv : operandText ct cs (orElse v "0") = operandText ct cs v).
  { destruct v as [|c v]; [|reflexivity]. by rewrite (proj2 Hvalue eq_refl). }
  assert (Hh : (if JS.truthy (orElse hs "0") && negb (String.eqb (orElse hs "0") "0")
                then "." +:+ orElse hs "0" +:+ "." else "")
               = (if JS.truthy hs && negb (String.eqb hs "0")
                  then "." +:+ hs +:+ "." else "")).
  { by destruct hs. }
  rewrite Hv, Hh. split.
  - intros Ht. destruct (operandShape_headed _ _ _ Hleft Ht) as (c & r & -> & _).
    reflexivity.
  - intros ->. destruct Hleft as [-> ->].
    exists ((if JS.truthy op then op +:+ operandText ct cs v else "")
            +:+ (if JS.truthy hs && negb (String.eqb hs "0")
                 then "." +:+ hs +:+ "." else "")).
    split; reflexivity.
Qed.

(** X17.  Once a parsed line is loaded, [canExpand] refuses it only when
    both sides are values or both are recalls: the memory field is never
    blank after loading.  Before loading, a left recall (empty memory) is
    refused as well. *)
Theorem canExpand_after_loading
    (line : string) (p : Predicate) (index : nat)
    (Hparse : parseLineToCondition line = Some p) :
  canExpand (pred (conditionOfParsed index p))
  = negb match type p, compareType p with
         | Value, Value | Recall, Recall => true
         | _, _ => false
         end
  /\ canExpand p
     = match type p with
       | Recall => false
       | _ => canExpand (pred (conditionOfParsed index p))
       end.
Proof.
  destruct (parseLineToCondition_shape line p Hparse)
    as (hs0 & (Hflag & Hleft & Hright & Hcmp & Hnone) & Hdigits).
  destruct p as [f t sz m op ct cs v hs]. unfold conditionOfParsed, canExpand.
  cbv beta iota delta [pred flag type size memory cmp compareType compareSize
    value hits] in *.
  assert (Hmem : forall s, headed s ->
            JS.truthy s && (0 <? String.length (JS.trim s))%nat = true).
  { intros s Hs. rewrite (headed_truthy s Hs).
    by destruct (trim_headed s Hs) as (c & r & -> & _). }
  destruct (decide (t = Recall)) as [->|Ht].
  - destruct Hleft as [-> ->]. split; [|reflexivity]. by destruct ct.
  - pose proof (operandShape_headed _ _ _ Hleft Ht) as Hm.
    assert (HorElse : orElse m "0x0" = m) by (by destruct Hm as (c & r & -> & _)).
    rewrite HorElse, (Hmem m Hm).
    split; [by destruct t, ct | by destruct t].
Qed.

End ParsedLines.

Lemma parseLineToCondition_returns_well_formed_conditions_witness :
  flagOk (flag resetIfLine) = true
  /\ operandShape (type resetIfLine) (size resetIfLine) (memory resetIfLine).
Proof.
  pose proof (parseLineToCondition_returns_well_formed_conditions
                "R:d0xH1F2E>=0xX00AB.12." resetIfLine eq_refl) as H.
  split; [exact (proj1 H) | exact (proj1 (proj2 H))].
Defined.

Lemma loading_a_parsed_line_keeps_its_text_witness :
  convertBitfieldConditionToText (pred (conditionOfParsed 0 resetIfLine))
  = convertBitfieldConditionToText resetIfLine.
Proof.
  refine (proj1 (loading_a_parsed_line_keeps_its_text
                   "R:d0xH1F2E>=0xX00AB.12." resetIfLine 0 eq_refl) _).
  discriminate.
Defined.

Lemma canExpand_after_loading_witness :
  canExpand (pred (conditionOfParsed 0 recallLine)) = true
  /\ canExpand recallLine = false.
Proof.
  exact (canExpand_after_loading "N:{recall}" recallLine 0 eq_refl).
Defined.

(** ** Copying a group *)

Section CopyGroups.

Lemma in_find conds id x :
  In x conds -> lineId x = id -> exists c, findByLineId conds id = Some c.
Proof.
  intros Hin Hid. unfold findByLineId.
  destruct (List.find (fun c => lineId c =? id) conds) as [c|] eqn:Hfind;
    [by exists c|].
  apply (find_none _ _ Hfind) in Hin. apply Z.eqb_neq in Hin. contradiction.
Qed.

(** X18.  [copyCondition] leaves the list as it is when no condition has
    the line id.  Otherwise it copies every member of the group of that
    line, in list order and reset (ids to recalculate, not expanded, no
    expanded lines), and inserts the copies right after the first condition
    that carries the line id of the group's leader (the leader itself when
    line ids are distinct); the conditions before and after keep their
    order and all fields but the ids, and the line ids are 1..N again. *)
Theorem copyCondition_inserts_the_group_after_its_leader
    (conds : list Condition) (id : Z) :
  (findByLineId conds id = None -> copyCondition conds id = conds)
  /\ forall c, findByLineId conds id = Some c ->
       exists leader pre x rest,
         getGroupLeader conds (groupId c) = Some leader
         /\ conds = pre ++ x :: rest
         /\ lineId x = lineId leader
         /\ (forall y, In y pre -> lineId y <> lineId leader)
         /\ (NoDup (map lineId conds) -> x = leader)
         /\ map stripIds (copyCondition conds id)
            = map stripIds
                (pre ++ x :: map copyOf (getGroupLines conds (groupId c)) ++ rest)
         /\ map lineId (copyCondition conds id)
            = map (fun i => Z.of_nat i + 1)
                (seq 0 (length conds + length (getGroupLines conds (groupId c)))).
Proof.
  split; [intros Hnone; unfold copyCondition; by rewrite Hnone|].
  intros c Hfind. unfold copyCondition. rewrite Hfind.
  destruct (find_some_in conds id c Hfind) as [Hin Hid].
  assert (Hmember : In c (getGroupLines conds (groupId c)))
    by (by apply getGroupLines_in).
  destruct (maxByLineId (getGroupLines conds (groupId c))) as [leader|] eqn:Hmax;
    [|apply maxByLineId_none in Hmax; rewrite Hmax in Hmember; destruct Hmember].
  destruct (maxByLineId_spec _ _ Hmax) as [Hleader _].
  apply getGroupLines_in in Hleader as [Hleader _].
  destruct (in_find conds (lineId leader) leader Hleader eq_refl) as [x Hx].
  destruct (find_split conds (lineId leader) x Hx) as (pre & rest & Hconds & Hxid & Hpre).
  exists leader, pre, x, rest.
  split.
  { unfold getGroupLeader.
    destruct (getGroupLines conds (groupId c)); [destruct Hmember|exact Hmax]. }
  split; [exact Hconds|]. split; [exact Hxid|]. split; [exact Hpre|]. split.
  { intros Hnd. apply (NoDup_map_inj lineId conds x leader Hnd); [|exact Hleader|exact Hxid].
    rewrite Hconds. apply in_or_app. right. by left. }
  assert (Hsplice :
    spliceInsert conds (findIndex conds (lineId leader) + 1)
      (map copyOf (getGroupLines conds (groupId c)))
    = pre ++ x :: map copyOf (getGroupLines conds (groupId c)) ++ rest).
  { unfold findIndex. rewrite Hconds at 2.
    rewrite (findIndexFrom_split pre x rest (lineId leader) 0 Hpre Hxid).
    replace (0 + Z.of_nat (length pre) + 1) with (Z.of_nat (S (length pre))) by lia.
    rewrite splice_in_range
      by (rewrite Hconds, length_app; cbn [length]; lia).
    rewrite Hconds.
    replace (pre ++ x :: rest) with ((pre ++ [x]) ++ rest)
      by (by rewrite <- app_assoc).
    rewrite take_app_length' by (rewrite length_app; cbn [length]; lia).
    rewrite drop_app_length' by (rewrite length_app; cbn [length]; lia).
    by rewrite <- !app_assoc. }
  rewrite Hsplice. split; [apply recalculate_strip|].
  rewrite recalculate_lineIds. do 2 f_equal.
  rewrite Hconds, !length_app. cbn [length]. rewrite length_app, length_map. lia.
Qed.

Lemma copyCondition_inserts_the_group_after_its_leader_witness :
  copyCondition threeSingles 7 = threeSingles
  /\ map lineId (copyCondition threeSingles 2) = [1; 2; 3; 4].
Proof.
  split.
  - exact (proj1 (copyCondition_inserts_the_group_after_its_leader threeSingles 7)
             eq_refl).
  - destruct (proj2 (copyCondition_inserts_the_group_after_its_leader threeSingles 2)
                (plainLine 2 2 "0x2") eq_refl)
      as (leader & pre & x & rest & _ & _ & _ & _ & _ & _ & Hids).
    exact Hids.
Defined.

End CopyGroups.
